(* ===== verification/_CoqProject ===== *)
-Q . S2P
Prelude.v
Machine.v
Dirty.v
GuardedMemory.v
Delta.v
Blake.v
Smt.v
Chain.v
EventLog.v
Io.v
Uring.v
Cell.v
Scheduler.v
Replicate.v
Loops.v
EngineSpec.v
Tests.v
Supervisor.v
Discipline.v
Replay.v
EndToEnd.v
Threaded.v
