(* ===== verification/Prelude.v ===== *)
(** * Chronos micro-VM supervisor: verification development

    Chronos runs tenants ("cells") as deterministic quanta under a supervisor.
    A cell owns a guarded linear memory, a recorder of non-deterministic host
    calls, a chain of Merkle checkpoints, a descriptor table and a queue of I/O
    completions. The supervisor dispatches cells round robin; at checkpoint
    intervals it rehashes the dirty pages of the cell, appends a link to its
    audit chain and, with replication on, pushes the pages on a ring from which
    a standby is fed. This library translates that program (all of its four
    crates but the crate roots) into executable definitions and proves what the
    parts, and the whole, promise.

    ** Files

    - [Prelude] (this file): notation, automation, lemmas on lists, bits, sets.
    - [Machine]: Rust's execution. A computation that may panic is an [outcome];
      [Result] is [result]; unsigned arithmetic is at its width, and whether it
      panics or wraps, and whether [debug_assert!] is compiled in, is the
      [BuildProfile]. A theorem that does not fix a profile holds in all of them.
      The traversal order of a [HashMap] is a parameter ([HashMapIter]) of which
      only "every entry once" is known.
    - [Dirty]: chronos-mem/src/dirty.rs, the dirty-page bitmap.
    - [GuardedMemory]: chronos-mem/src/guarded_memory.rs. The trait is a class;
      the mapping's bytes are part of the record; [mmap] and [mprotect] are a
      parameter, and construction returns the calls it made.
    - [Delta]: chronos-mem/src/delta.rs, XOR/run-length page deltas.
    - [Blake]: the blake3 crate as a class with its documented laws. Binding
      theorems conclude "equal, or here is a collision".
    - [Smt], [Chain]: chronos-mem/src/smt.rs, the sparse Merkle tree and the
      checkpoint chain; [Chain] is proved against the memory interface.
    - [EventLog]: chronos-core/src/event_log.rs, record and replay.
    - [Io]: chronos-io/src/lib.rs, and the contract [IoSubsystemLaws] that the
      client theorem relies on; the stub keeps it.
    - [Uring]: chronos-io/src/linux_ring.rs, over a class for the io-uring crate;
      the backend keeps the same contract for identifiers that fit its word.
    - [Cell]: chronos-core/src/cell.rs and clock.rs.
    - [Scheduler]: chronos-core/src/scheduler.rs.
    - [Replicate]: chronos-replicate/src/lib.rs, over a class for crossbeam's
      [ArrayQueue]; sequential operations, producer handles by address, and the
      two threads as a step relation over their atomic operations.
    - [Loops]: the four [while] loops of the program, the three of [rle_encode]
      and the one of [drain], as transition systems without fuel.
    - [EngineSpec]: an abstract specification of the delta engine, a map of pages
      with the meaning of a delta, which the engine refines, panics included.
    - [Tests]: the [#[test]] functions of the sources, a module per file.
    - [Supervisor]: chronos-core/src/supervisor.rs, [run_one_cycle] in full.
    - [Discipline]: what the supervisor needs of an executor ([Disciplined]: a
      quantum marks the pages it writes and leaves the supervisor's bookkeeping
      alone), the exact effect of a cycle under it, and a concrete executor of
      stores, growth and traps that is shown to keep it.
    - [Replay]: two supervised runs whose cells use different recorder modes, with
      any two executors, compared call by call. No executor is part of the sources;
      the script of [Discipline] is a client of the trait, used in witnesses only.
    - [EndToEnd]: primary, ring and standby together, with drains at once.
    - [Threaded]: the same system as three interleaving threads, a drain one pop at
      a time.

    A definition carries the name of the Rust item it translates, prefixed by its
    type ([Supervisor_run_one_cycle]); a method that takes [&mut self] returns
    the new value. Field names that would clash carry a prefix.

    ** What is shown

    - Whole system ([Threaded], [EndToEnd], [Discipline], [Supervisor]): with an
      executor that marks the pages it writes, page-aligned initial sizes, 32-bit
      quotas and rings of non-zero capacity, supervised runs do not panic and a
      checkpoint's root is that of the complete memory. If moreover there is one
      cell, spawned after replication was enabled, then under every interleaving
      of the threads the standby is behind the primary by the batches on their
      way, and once they arrive it equals the primary on every clean page and its
      root is the one recorded. With any executor a cycle touches one cell and
      [expect] cannot fire; the answer of a spawn is determined by the identifier,
      the quota and the operating system; faults and backpressure lose nothing.
    - Memory ([Dirty], [GuardedMemory]): the bitmap is a set of pages; address
      translation is exact at 32 bits and regions are isolated; construction
      leaks no mapping on any path.
    - Integrity ([Smt], [Chain]): the incremental root is the root of all [2^32]
      leaves, does not depend on traversal order and binds every leaf; honest
      chains verify and two chains with one hash are the same chain.
    - Determinism ([EventLog], [Replay], [Scheduler]): replay shows an adaptive
      guest whose ticks never decrease what the recording showed it, on any host;
      as long as the quanta of two runs agree up to the recorders, so do the
      supervisors, whatever modes their cells were spawned in; dispatch is strict
      round robin with consecutive ticks and no starvation.
    - Replication ([Delta], [EngineSpec], [Replicate], [Loops]): coding round trips
      and the engines stay in step, directly and through batches at the standby;
      an engine is a map of pages of [PAGE_SIZE] bytes; the encoder's loops end,
      and a drain ends once the producer pauses, with every batch accepted
      meanwhile; the ring is a bounded FIFO under every interleaving; the standby
      accepts exactly in tick order.
    - Unit tests ([Tests]): as a check of the model, each passes in every build
      profile and with any queue, hash function, traversal order (one per tree) and
      granting operating system.
    - I/O ([Io], [Uring]): descriptors are fresh and never reused; completions
      are delivered in order and to their own requests.
    - Limits of the code, as theorems: the partly committed page
      ([page_bytes_partial_page]), identifiers out of range ([pack_out_of_range]),
      the end of the descriptor numbers ([fd_space_exhausted]), the default
      descriptor table, the stub's sign, a delta without a baseline, a revisited
      tick, a repeated tick 0, dropped completions, a replayed cell without a log,
      two cells on one ring, replication enabled late, a counter that is not the
      highest tick pushed ([counter_not_highest]), and a drain that a busy
      producer keeps from returning ([drain_never_returns]).

    ** Bounds and fuel

    The coder's loops run on a fuel of [PAGE_SIZE] rounds, which suffices since
    every round advances the index; [Loops] proves that the loops without fuel end
    with the same result. [DeltaRing_drain] has one round more than the ring's
    capacity. Theorems about long histories assume fewer than [2^64]
    dispatches, and fewer than [2^32] descriptors, where the code's counters
    would wrap. The Merkle tree has the code's depth, 32; its reference [merkle]
    is never evaluated at that depth.

    ** Not modelled

    The crate roots (re-exports), the message [run_one_cycle] prints on a fault,
    buffer addresses handed to the kernel, signal handling and the strategies of
    docs/ARCHITECTURE.md that have no code (userfaultfd, nested paging). Threads
    appear only around the replication ring, the one structure shared between them;
    the wire from the consumer to the standby, which is not in the sources, keeps
    order.
    The BLAKE3 function, the io-uring crate, crossbeam's queue and the operating
    system are parameters; each has a concrete instance on which the theorems
    are exercised.

    ** Plan

    Every operation of the sources is modelled. What a replayed cell needs is not
    in the sources: spawning gives it an empty log, and an executor is not told the
    tick that the recorder asks for; so [Replay] assumes that the quanta of the two
    runs agree, and [EventLog] shows it for the calls of one guest. Nothing in the
    sources takes the completions of an I/O subsystem to the queues of the cells,
    so that their routing ends at [poll_completions]. *)

From stdpp Require Export base tactics numbers list gmap sorting.

#[global] Open Scope N_scope.

(** ** Notations *)

Declare Scope chronos_scope.
Delimit Scope chronos_scope with chronos.
#[global] Open Scope chronos_scope.

(** Length of a Rust slice, as an unsigned integer. *)
Definition len {A} (l : list A) : N := N.of_nat (length l).

Notation "'#|' l '|'" := (len l) (at level 0, l at level 99, format "#| l |") : chronos_scope.

(** The half-open integer range [a..b]. *)
Definition nrange (a b : N) : list N := N.of_nat <$> seq (N.to_nat a) (N.to_nat b - N.to_nat a)%nat.

Arguments nrange : simpl never.

(** ** Automation *)

Create HintDb chronos.
Create Rewrite HintDb chronos_len.

(** Turn the boolean tests of the code into the propositions they decide. *)
Ltac bool_to_prop :=
  repeat match goal with
  | H : (_ && _)%bool = true |- _ => apply andb_true_iff in H as [? ?]
  | H : (_ && _)%bool = false |- _ => apply andb_false_iff in H
  | H : (_ || _)%bool = false |- _ => apply orb_false_iff in H as [? ?]
  | H : negb _ = true |- _ => apply negb_true_iff in H
  | H : negb _ = false |- _ => apply negb_false_iff in H
  | H : (_ <? _)%N = true |- _ => apply N.ltb_lt in H
  | H : (_ <? _)%N = false |- _ => apply N.ltb_ge in H
  | H : (_ <=? _)%N = true |- _ => apply N.leb_le in H
  | H : (_ <=? _)%N = false |- _ => apply N.leb_gt in H
  | H : (_ =? _)%N = true |- _ => apply N.eqb_eq in H
  | H : (_ =? _)%N = false |- _ => apply N.eqb_neq in H
  end.

(** Case analysis on the first [if] test of the goal, in propositional form. *)
Ltac case_test :=
  match goal with
  | |- context [if ?b then _ else _] =>
      let E := fresh "E" in destruct b eqn:E; bool_to_prop
  end.

(** The same in a hypothesis. *)
Ltac case_test_in H :=
  match type of H with
  | context [if ?b then _ else _] =>
      let E := fresh "E" in destruct b eqn:E; bool_to_prop
  end.

(** ** Lists *)

Section lists.
Context {A : Type}.
Implicit Types l : list A.

Lemma len_nil : #|@nil A| = 0.
Proof. done. Qed.

Lemma len_cons (x : A) l : #|x :: l| = #|l| + 1.
Proof. unfold len; simpl; lia. Qed.

Lemma len_app l1 l2 : #|l1 ++ l2| = #|l1| + #|l2|.
Proof. unfold len; rewrite length_app; lia. Qed.

Lemma len_insert l i (x : A) : #|<[i:=x]> l| = #|l|.
Proof. unfold len; by rewrite length_insert. Qed.

Lemma len_replicate n (x : A) : #|replicate (N.to_nat n) x| = n.
Proof. unfold len; rewrite length_replicate; lia. Qed.

Lemma len_inj {B} l (k : list B) : #|l| = #|k| -> length l = length k.
Proof. apply Nat2N.inj. Qed.

Lemma len_take l n : n <= #|l| -> #|take (N.to_nat n) l| = n.
Proof. unfold len. rewrite length_take. lia. Qed.

Lemma len_drop l n : #|drop (N.to_nat n) l| = #|l| - n.
Proof. unfold len. rewrite length_drop. lia. Qed.

Lemma len_lookup_Some l i (x : A) : l !! N.to_nat i = Some x -> i < #|l|.
Proof. intros H%lookup_lt_Some. unfold len; lia. Qed.

Lemma len_lookup_is_Some l i : i < #|l| -> is_Some (l !! N.to_nat i).
Proof. intros H. apply lookup_lt_is_Some. unfold len in H; lia. Qed.

End lists.

Lemma elem_of_nrange a b x : x ∈ nrange a b <-> a <= x < b.
Proof.
  unfold nrange. rewrite list_elem_of_fmap. setoid_rewrite elem_of_seq. split.
  - intros (j & -> & Hj). lia.
  - intros Hx. exists (N.to_nat x). lia.
Qed.

(** A range peels its first element off. *)
Lemma nrange_cons a b : a < b -> nrange a b = a :: nrange (a + 1) b.
Proof.
  intros Hab. unfold nrange.
  replace (N.to_nat b - N.to_nat a)%nat with (S (N.to_nat b - N.to_nat (a + 1)))%nat by lia.
  simpl. f_equal; [lia|]. do 2 f_equal. lia.
Qed.

Lemma nrange_snoc a b : a <= b -> nrange a (b + 1) = nrange a b ++ [b].
Proof.
  intros. unfold nrange. replace (N.to_nat (b + 1) - N.to_nat a)%nat with (S (N.to_nat b - N.to_nat a)) by lia.
  rewrite seq_S, fmap_app. simpl. do 2 f_equal. lia.
Qed.

Lemma nrange_nil a b : b <= a -> nrange a b = [].
Proof. intros Hab. unfold nrange. by replace (N.to_nat b - N.to_nat a)%nat with 0%nat by lia. Qed.

(** Filtering a strictly increasing map of a range keeps it strictly increasing. *)
Lemma omap_nrange_sorted (f : N -> option N) n a :
  (forall i j x y, i < j -> f i = Some x -> f j = Some y -> x < y) ->
  StronglySorted N.lt (omap f (nrange a (a + n))).
Proof.
  intros Hf. revert a. induction n as [|n IH] using N.peano_ind; intros a.
  { rewrite nrange_nil by lia. constructor. }
  rewrite nrange_cons by lia. specialize (IH (a + 1)).
  replace (a + 1 + n) with (a + N.succ n) in IH by lia. simpl.
  destruct (f a) as [x|] eqn:Ex; [|done]. constructor; [done|].
  apply Forall_forall. intros y. rewrite list_elem_of_omap.
  intros (j & Hj%elem_of_nrange & Hy). apply (Hf a j); [lia | done..].
Qed.

Lemma StronglySorted_app_between {A} (R : relation A) l1 l2 :
  StronglySorted R l1 -> StronglySorted R l2 ->
  (forall x y, x ∈ l1 -> y ∈ l2 -> R x y) -> StronglySorted R (l1 ++ l2).
Proof.
  intros H1 H2 Hb. induction H1 as [|x l1 H1 IH Hx]; simpl; [done|].
  constructor.
  - apply IH. intros a b Ha Hb'. apply Hb; [by right | done].
  - apply Forall_app. split; [done|]. apply Forall_forall. intros y Hy. apply Hb; [left | done].
Qed.

Lemma StronglySorted_lt_NoDup (l : list N) : StronglySorted N.lt l -> NoDup l.
Proof.
  induction 1 as [|x l _ IH Hx]; constructor; [|done].
  intros Hin. rewrite Forall_forall in Hx. specialize (Hx x Hin). lia.
Qed.

#[export] Hint Rewrite @len_nil @len_cons @len_app @len_insert @len_replicate : chronos_len.

Lemma div_mod_spec x k :
  0 < k -> exists q r, x / k = q /\ x mod k = r /\ x = k * q + r /\ r < k.
Proof.
  intros Hk. exists (x / k), (x mod k).
  split_and!; [done | done | apply N.div_mod; lia | apply N.mod_lt; lia].
Qed.

(** Name quotient and remainder of [x] by the positive constant [k], with the
    facts [lia] needs about them. *)
Ltac euclid x k :=
  let q := fresh "q" in let r := fresh "r" in
  destruct (div_mod_spec x k) as (q & r & ? & ? & ? & ?); [lia|].

(** ** Bits *)

Lemma lt_pow2_shiftr x n : x < 2 ^ n <-> N.shiftr x n = 0.
Proof.
  rewrite N.shiftr_div_pow2. split; [apply N.div_small|].
  intros Hx. apply N.div_small_iff in Hx; [done|]. by apply N.pow_nonzero.
Qed.

Lemma lor_lt_pow2 x y n : x < 2 ^ n -> y < 2 ^ n -> N.lor x y < 2 ^ n.
Proof. rewrite !lt_pow2_shiftr, N.shiftr_lor. intros -> ->. done. Qed.

(** The bits of a number below [2 ^ n] are those below position [n]. *)
Lemma testbit_above x n i : x < 2 ^ n -> n <= i -> N.testbit x i = false.
Proof.
  intros Hx Hi. replace i with ((i - n) + n) by lia.
  rewrite <- N.shiftr_spec' . apply lt_pow2_shiftr in Hx as ->. apply N.bits_0.
Qed.

(** ** Finite sets of integers *)

Lemma length_nrange a b : length (nrange a b) = (N.to_nat b - N.to_nat a)%nat.
Proof. unfold nrange. by rewrite length_fmap, length_seq. Qed.

Lemma nrange_NoDup a b : NoDup (nrange a b).
Proof. unfold nrange. apply NoDup_fmap; [intros x y; lia | apply NoDup_seq]. Qed.

(** A set of integers below [n] has at most [n] elements. *)
Lemma size_below (X : gset N) n : (forall x, x ∈ X -> x < n) -> N.of_nat (size X) <= n.
Proof.
  intros HX. assert (X ⊆ list_to_set (nrange 0 n)) as Hsub.
  { intros x Hx. rewrite elem_of_list_to_set, elem_of_nrange. specialize (HX x Hx). lia. }
  apply subseteq_size in Hsub.
  rewrite size_list_to_set in Hsub by apply nrange_NoDup. rewrite length_nrange in Hsub. lia.
Qed.

(** Two strictly increasing lists with the same elements are equal. *)
Lemma sorted_lt_unique (l1 l2 : list N) :
  StronglySorted N.lt l1 -> StronglySorted N.lt l2 -> (forall x, x ∈ l1 <-> x ∈ l2) -> l1 = l2.
Proof.
  intros H1 H2 Heq. apply (StronglySorted_unique_strong N.lt); [|done..|].
  - intros x y _ _ Hxy Hyx. lia.
  - apply NoDup_Permutation; [by apply StronglySorted_lt_NoDup..|done].
Qed.
