(* ===== verification/Machine.v ===== *)
(** * Rust execution: panics, results, machine integers, vectors *)

From S2P Require Import Prelude.

(** ** Outcomes *)

(** Ways a Rust computation of this program stops abnormally. The last one
    marks an access the language gives no meaning to. *)
Inductive panic :=
| IndexOutOfBounds
| ArithmeticOverflow
| AssertFailed
| DebugAssertFailed
| ExpectFailed
| CapacityOverflow
| UndefinedBehaviour.

Inductive outcome (A : Type) :=
| Ret (a : A)
| Panic (p : panic).
Arguments Ret {_} _.
Arguments Panic {_} _.

#[export] Instance outcome_ret : MRet outcome := fun _ a => Ret a.
#[export] Instance outcome_bind : MBind outcome := fun _ _ f m =>
  match m with Ret a => f a | Panic p => Panic p end.
#[export] Instance outcome_fmap : FMap outcome := fun _ _ f m =>
  match m with Ret a => Ret (f a) | Panic p => Panic p end.

(** Rust's [Result]. *)
Inductive result (E A : Type) :=
| Ok (a : A)
| Err (e : E).
Arguments Ok {_ _} _.
Arguments Err {_ _} _.

#[export] Instance panic_eq_dec : EqDecision panic.
Proof. solve_decision. Defined.
#[export] Instance outcome_eq_dec {A} `{EqDecision A} : EqDecision (outcome A).
Proof. solve_decision. Defined.
#[export] Instance result_eq_dec {E A} `{EqDecision E} `{EqDecision A} : EqDecision (result E A).
Proof. solve_decision. Defined.

(** Whether a computation ran to its end. *)
Definition returned {A} (m : outcome A) : bool := match m with Ret _ => true | Panic _ => false end.

(** A loop over a sequence whose body may panic: [for x in l { s = f(s, x) }]. *)
Fixpoint for_each {S A} (f : S -> A -> outcome S) (l : list A) (s : S) : outcome S :=
  match l with
  | [] => Ret s
  | x :: l => s' ← f s x; for_each f l s'
  end.

(** [iter().map(f).collect()] with a body that may panic. *)
Fixpoint map_collect {A B} (f : A -> outcome B) (l : list A) : outcome (list B) :=
  match l with
  | [] => Ret []
  | x :: l => y ← f x; ys ← map_collect f l; Ret (y :: ys)
  end.

(** ** Build profile *)

(** A cargo profile decides whether [debug_assert!] is compiled in and whether
    plain [+], [-], [*] panic on overflow or wrap around. *)
Class BuildProfile := {
  debug_assertions : bool;
  overflow_checks : bool
}.

Definition dev_profile : BuildProfile := {| debug_assertions := true; overflow_checks := true |}.
Definition release_profile : BuildProfile := {| debug_assertions := false; overflow_checks := false |}.

Section ops.
Context `{BuildProfile}.

Definition debug_assert (b : bool) : outcome unit :=
  if debug_assertions && negb b then Panic DebugAssertFailed else Ret tt.

(** ** Unsigned integers of width [w] *)

(** [a + b] on a [w]-bit unsigned type. *)
Definition uadd (w a b : N) : outcome N :=
  if a + b <? 2 ^ w then Ret (a + b)
  else if overflow_checks then Panic ArithmeticOverflow else Ret ((a + b) mod 2 ^ w).

(** [a * b] on a [w]-bit unsigned type. *)
Definition umul (w a b : N) : outcome N :=
  if a * b <? 2 ^ w then Ret (a * b)
  else if overflow_checks then Panic ArithmeticOverflow else Ret ((a * b) mod 2 ^ w).

End ops.

Definition checked_add (w a b : N) : option N :=
  if a + b <? 2 ^ w then Some (a + b) else None.

Definition checked_mul (w a b : N) : option N :=
  if a * b <? 2 ^ w then Some (a * b) else None.

(** [saturating_sub] on an unsigned type: truncated subtraction. *)
Definition saturating_sub (a b : N) : N := a - b.

(** [x as uW]: truncation to the low [w] bits. *)
Definition as_unsigned (w x : N) : N := x mod 2 ^ w.

(** [x as i32] of a [u32]: two's complement reinterpretation. *)
Definition as_i32 (x : N) : Z :=
  if x <? 2 ^ 31 then Z.of_N x else (Z.of_N x - 2 ^ 32)%Z.

(** [a << s] on a [w]-bit unsigned type, [s < w]: the bits shifted out are lost. *)
Definition ushl (w a s : N) : N := N.shiftl a s mod 2 ^ w.

Definition U8 : N := 2 ^ 8.
Definition U32 : N := 2 ^ 32.
Definition U64 : N := 2 ^ 64.

(** ** Vectors *)

(** [v[i]]. *)
Definition vec_index {A} (v : list A) (i : N) : outcome A :=
  match v !! N.to_nat i with Some x => Ret x | None => Panic IndexOutOfBounds end.

(** [v[i] = x]. *)
Definition vec_set {A} (v : list A) (i : N) (x : A) : outcome (list A) :=
  if i <? #|v| then Ret (<[N.to_nat i := x]> v) else Panic IndexOutOfBounds.

(** [Vec::resize(n, x)] for elements of [sz] bytes: allocating more than
    [isize::MAX] bytes panics with "capacity overflow". *)
Definition vec_resize {A} (sz : N) (v : list A) (n : N) (x : A) : outcome (list A) :=
  if 2 ^ 63 <=? n * sz then Panic CapacityOverflow
  else Ret (take (N.to_nat n) v ++ replicate (N.to_nat n - length v)%nat x).

(** [out[pos..end].copy_from_slice(src)]: the range must lie inside [out] and
    have the length of [src]. *)
Definition slice_copy {A} (out : list A) (pos stop : N) (src : list A) : outcome (list A) :=
  if (pos <=? stop) && (stop <=? #|out|) && (#|src| =? stop - pos)
  then Ret (take (N.to_nat pos) out ++ src ++ drop (N.to_nat stop) out)
  else Panic IndexOutOfBounds.

(** [&v[..n]]. *)
Definition slice_to {A} (v : list A) (n : N) : outcome (list A) :=
  if n <=? #|v| then Ret (take (N.to_nat n) v) else Panic IndexOutOfBounds.

(** [x.to_le_bytes()] of an [n]-byte integer. *)
Fixpoint le_bytes (n : nat) (x : N) : list N :=
  match n with
  | O => []
  | S n => x mod 256 :: le_bytes n (x / 256)
  end.

(** ** Hash maps *)

(** The order in which a [HashMap] is traversed. It depends on the hasher's
    random state, so it is a parameter; all that is known about it is that
    every entry comes up exactly once. *)
Class HashMapIter := hash_iter : forall {K : Type} `{Countable K} {V : Type}, gmap K V -> list (K * V).

Class HashMapIterLaws `{HashMapIter} : Prop :=
  hash_iter_perm : forall {K : Type} `{Countable K} {V : Type} (m : gmap K V), hash_iter m ≡ₚ map_to_list m.

(** Two orders a run may meet, for concrete executions. *)
Definition iter_forward : HashMapIter := fun K _ _ V m => map_to_list m.
Definition iter_backward : HashMapIter := fun K _ _ V m => reverse (map_to_list m).

Lemma iter_forward_laws : @HashMapIterLaws iter_forward.
Proof. intros K ? ? V m. done. Qed.

Lemma iter_backward_laws : @HashMapIterLaws iter_backward.
Proof. intros K ? ? V m. apply reverse_Permutation. Qed.

(** ** Lemmas *)

Lemma bind_Ret {A B} (m : outcome A) (f : A -> outcome B) b :
  (m ≫= f) = Ret b -> exists a, m = Ret a /\ f a = Ret b.
Proof. destruct m; [eauto | done]. Qed.

Lemma bind_Ret_l {A B} (a : A) (f : A -> outcome B) : (Ret a ≫= f) = f a.
Proof. done. Qed.

Lemma returned_Ret {A} (m : outcome A) : returned m = true -> exists a, m = Ret a.
Proof. destruct m; [by eexists | done]. Qed.

Lemma Ret_inj {A} (a b : A) : Ret a = Ret b -> a = b.
Proof. by injection 1. Qed.

(** Split every monadic sequence that returned into its steps. *)
Ltac inv_ret :=
  repeat match goal with
  | H : (_ ≫= _) = Ret _ |- _ =>
      let a := fresh "a" in let E := fresh "E" in
      apply bind_Ret in H as (a & E & H)
  | H : Ret _ = Ret _ |- _ => apply Ret_inj in H; try subst
  | H : Panic _ = Ret _ |- _ => discriminate H
  end.

Section op_lemmas.
Context `{BuildProfile}.

Lemma uadd_ok w a b : a + b < 2 ^ w -> uadd w a b = Ret (a + b).
Proof. intros. unfold uadd. by rewrite (proj2 (N.ltb_lt _ _)). Qed.

Lemma umul_ok w a b : a * b < 2 ^ w -> umul w a b = Ret (a * b).
Proof. intros. unfold umul. by rewrite (proj2 (N.ltb_lt _ _)). Qed.

Lemma debug_assert_ok b : b = true -> debug_assert b = Ret tt.
Proof. intros ->. unfold debug_assert. by rewrite andb_false_r. Qed.

Lemma for_each_app {S A} (f : S -> A -> outcome S) l1 l2 s :
  for_each f (l1 ++ l2) s = (for_each f l1 s ≫= for_each f l2).
Proof.
  revert s. induction l1 as [|x l1 IH]; intros s; simpl; [done|].
  destruct (f s x); simpl; [apply IH | done].
Qed.

(** A loop whose body preserves an invariant and never panics under it. *)
Lemma for_each_inv {S A} (P : S -> Prop) (f : S -> A -> outcome S) l s :
  P s -> (forall s x, P s -> x ∈ l -> exists s', f s x = Ret s' /\ P s') ->
  exists s', for_each f l s = Ret s' /\ P s'.
Proof.
  revert s. induction l as [|x l IH]; intros s Hs Hf; simpl; [eauto|].
  destruct (Hf s x) as (s1 & E & Hs1); [done | left |].
  rewrite E; simpl. apply IH; [done|]. intros s2 y Hs2 Hy. apply Hf; [done | by right].
Qed.

Lemma map_collect_Ret {A B} (f : A -> outcome B) (g : A -> B) l :
  (forall x, x ∈ l -> f x = Ret (g x)) -> map_collect f l = Ret (g <$> l).
Proof.
  induction l as [|x l IH]; intros Hf; simpl; [done|].
  rewrite (Hf x) by left. simpl. rewrite IH; [done|]. intros y Hy. apply Hf. by right.
Qed.

Lemma map_collect_inv {A B} (f : A -> outcome B) l r :
  map_collect f l = Ret r -> Forall2 (fun x y => f x = Ret y) l r.
Proof.
  revert r. induction l as [|x l IH]; intros r Hr; simpl in Hr; inv_ret; constructor; eauto.
Qed.
End op_lemmas.

Lemma checked_add_Some w a b c : checked_add w a b = Some c <-> c = a + b /\ a + b < 2 ^ w.
Proof. unfold checked_add. case_test; naive_solver lia. Qed.

Lemma vec_index_Ret {A} (v : list A) i x : vec_index v i = Ret x <-> v !! N.to_nat i = Some x.
Proof. unfold vec_index. destruct (v !! N.to_nat i); naive_solver. Qed.

Lemma vec_set_ok {A} (v : list A) i x : i < #|v| -> vec_set v i x = Ret (<[N.to_nat i := x]> v).
Proof. intros. unfold vec_set. by rewrite (proj2 (N.ltb_lt _ _)). Qed.

Lemma slice_to_ok {A} (v : list A) n : n <= #|v| -> slice_to v n = Ret (take (N.to_nat n) v).
Proof. intros. unfold slice_to. by rewrite (proj2 (N.leb_le _ _)). Qed.

Lemma slice_copy_ok {A} (out src : list A) pos stop :
  pos <= stop <= #|out| -> #|src| = stop - pos ->
  slice_copy out pos stop src = Ret (take (N.to_nat pos) out ++ src ++ drop (N.to_nat stop) out).
Proof.
  intros [H1 H2] H3. unfold slice_copy.
  by rewrite (proj2 (N.leb_le _ _) H1), (proj2 (N.leb_le _ _) H2), (proj2 (N.eqb_eq _ _) H3).
Qed.

Lemma vec_resize_ok {A} sz (v : list A) n x :
  n * sz < 2 ^ 63 ->
  vec_resize sz v n x = Ret (take (N.to_nat n) v ++ replicate (N.to_nat n - length v)%nat x).
Proof. intros. unfold vec_resize. by rewrite (proj2 (N.leb_gt _ _)). Qed.

Lemma length_le_bytes n x : length (le_bytes n x) = n.
Proof. revert x. induction n; intros; simpl; auto. Qed.

(** Little-endian encoding is injective on the integers it can hold. *)
Lemma le_bytes_inj n x y :
  x < 256 ^ N.of_nat n -> y < 256 ^ N.of_nat n -> le_bytes n x = le_bytes n y -> x = y.
Proof.
  revert x y. induction n as [|n IH]; intros x y Hx Hy Heq.
  { simpl in *. lia. }
  injection Heq as Hmod Hdiv.
  replace (N.of_nat (S n)) with (N.succ (N.of_nat n)) in Hx, Hy by lia.
  rewrite N.pow_succ_r' in Hx, Hy.
  apply IH in Hdiv; [|apply N.Div0.div_lt_upper_bound; lia..].
  rewrite (N.div_mod x 256), (N.div_mod y 256) by lia. by rewrite Hmod, Hdiv.
Qed.

#[export] Hint Resolve uadd_ok umul_ok debug_assert_ok : chronos.

Section hash_map.
Context `{HashMapIterLaws} `{Countable K} {V : Type}.
Implicit Types m : gmap K V.

Lemma elem_of_hash_iter m k v : (k, v) ∈ hash_iter m <-> m !! k = Some v.
Proof. rewrite (hash_iter_perm m). apply elem_of_map_to_list. Qed.

Lemma hash_iter_NoDup_keys m : NoDup (hash_iter m).*1.
Proof. rewrite (hash_iter_perm m). apply NoDup_fst_map_to_list. Qed.

Lemma list_to_map_hash_iter m : list_to_map (hash_iter m) = m.
Proof.
  rewrite <- (list_to_map_to_list m) at 2.
  apply list_to_map_proper; [apply hash_iter_NoDup_keys | apply hash_iter_perm].
Qed.

(** Inserting the entries one by one, in traversal order, rebuilds the map. *)
Lemma foldl_insert_hash_iter m : foldl (fun acc kv => <[kv.1 := kv.2]> acc) ∅ (hash_iter m) = m.
Proof.
  rewrite <- (list_to_map_hash_iter m) at 2. rewrite <- (reverse_involutive (hash_iter m)) at 1.
  assert (forall (l : list (K * V)), foldl (fun (acc : gmap K V) kv => <[kv.1 := kv.2]> acc) ∅ (reverse l) =
    list_to_map l) as ->.
  { induction l as [|kv l IH]; [done|]. rewrite reverse_cons, foldl_app. simpl. by rewrite IH. }
  apply list_to_map_proper; [|apply reverse_Permutation].
  rewrite reverse_Permutation. apply hash_iter_NoDup_keys.
Qed.
End hash_map.
