(* ===== verification/Dirty.v ===== *)
(** * Dirty-page bitmap (chronos-mem/src/dirty.rs)

    [DirtyPageSet] is a vector of 64-bit words with a cached population count.
    The abstract view of a bitmap is the finite set [dirty_set d] of the page
    numbers whose bit is set; the theorems show that every operation refines
    the set operation it stands for, for both build profiles. *)

From S2P Require Import Prelude Machine.

(** ** Data and operations *)

Record DirtyPageSet := MkDirtyPageSet {
  bits : list N;
  capacity_pages : N;
  count : N
}.

#[export] Instance DirtyPageSet_eq_dec : EqDecision DirtyPageSet.
Proof. solve_decision. Defined.

Section operations.
Context `{BuildProfile}.

Definition DirtyPageSet_new (capacity_pages : N) : outcome DirtyPageSet :=
  n ← uadd 64 capacity_pages 63;
  let words := n / 64 in
  Ret (MkDirtyPageSet (replicate (N.to_nat (N.max words 1)) 0) capacity_pages 0).

Definition DirtyPageSet_mark (d : DirtyPageSet) (page_idx : N) : outcome DirtyPageSet :=
  _ ← debug_assert (page_idx <? capacity_pages d);
  let word := page_idx / 64 in
  let bit := page_idx mod 64 in
  let mask := N.shiftl 1 bit in
  w ← vec_index (bits d) word;
  if N.land w mask =? 0 then
    bits' ← vec_set (bits d) word (N.lor w mask);
    count' ← uadd 64 (count d) 1;
    Ret (MkDirtyPageSet bits' (capacity_pages d) count')
  else Ret d.

End operations.

Definition DirtyPageSet_is_dirty (d : DirtyPageSet) (page_idx : N) : bool :=
  let word := page_idx / 64 in
  let bit := page_idx mod 64 in
  match bits d !! N.to_nat word with
  | None => false
  | Some w => negb (N.land w (N.shiftl 1 bit) =? 0)
  end.

(** The inner closure of [iter_dirty]: the set bits of one word. *)
Definition word_pages (word_idx word : N) : list N :=
  omap (fun bit =>
    if negb (N.land word (N.shiftl 1 bit) =? 0) then Some (word_idx * 64 + bit) else None)
    (nrange 0 64).

(** [bits.iter().enumerate().flat_map(..)], numbering the words from [word_idx]. *)
Fixpoint iter_words (word_idx : N) (ws : list N) : list N :=
  match ws with
  | [] => []
  | w :: ws => word_pages word_idx w ++ iter_words (word_idx + 1) ws
  end.

Definition DirtyPageSet_iter_dirty (d : DirtyPageSet) : list N := iter_words 0 (bits d).

Definition DirtyPageSet_len (d : DirtyPageSet) : N := count d.

Definition DirtyPageSet_is_empty (d : DirtyPageSet) : bool := count d =? 0.

Definition DirtyPageSet_clear_all (d : DirtyPageSet) : DirtyPageSet :=
  MkDirtyPageSet ((fun _ => 0) <$> bits d) (capacity_pages d) 0.

(** ** Abstract view and invariant *)

Definition dirty_set (d : DirtyPageSet) : gset N := list_to_set (DirtyPageSet_iter_dirty d).

Record dirty_wf (d : DirtyPageSet) : Prop := {
  dirty_wf_words : Forall (fun w => w < 2 ^ 64) (bits d);
  dirty_wf_room : capacity_pages d <= 64 * #|bits d|;
  dirty_wf_len : 1 <= #|bits d| < 2 ^ 58;
  dirty_wf_count : count d = N.of_nat (size (dirty_set d))
}.

(** ** Bits of one word *)

Lemma land_mask_zero w b : (N.land w (N.shiftl 1 b) =? 0) = negb (N.testbit w b).
Proof.
  rewrite N.shiftl_1_l. destruct (N.testbit w b) eqn:E; simpl.
  - apply N.eqb_neq. intros H0. apply (f_equal (fun x => N.testbit x b)) in H0.
    rewrite N.land_spec, E, N.pow2_bits_true, N.bits_0 in H0. done.
  - apply N.eqb_eq, N.bits_inj. intros i. rewrite N.land_spec, N.bits_0.
    destruct (decide (i = b)) as [->|Hi]; [by rewrite E|].
    rewrite N.pow2_bits_false by done. apply andb_false_r.
Qed.

Lemma lor_mask_testbit w b i :
  N.testbit (N.lor w (N.shiftl 1 b)) i = N.testbit w i || (i =? b).
Proof.
  rewrite N.lor_spec, N.shiftl_1_l, N.pow2_bits_eqb. f_equal. apply N.eqb_sym.
Qed.

Lemma lor_mask_bound w b : w < 2 ^ 64 -> b < 64 -> N.lor w (N.shiftl 1 b) < 2 ^ 64.
Proof.
  intros Hw Hb. apply lor_lt_pow2; [done|]. rewrite N.shiftl_1_l. apply N.pow_lt_mono_r; lia.
Qed.

Lemma elem_of_word_pages k w x :
  x ∈ word_pages k w <-> exists b, b < 64 /\ N.testbit w b = true /\ x = k * 64 + b.
Proof.
  unfold word_pages. rewrite list_elem_of_omap. setoid_rewrite land_mask_zero.
  setoid_rewrite negb_involutive. setoid_rewrite elem_of_nrange. split.
  - intros (b & Hb & Hx). exists b.
    destruct (N.testbit w b); simplify_eq; split; [lia | done].
  - intros (b & Hb & Ht & ->). exists b. rewrite Ht. split; [lia | done].
Qed.

Lemma word_pages_sorted k w : StronglySorted N.lt (word_pages k w).
Proof.
  apply (omap_nrange_sorted _ 64 0). intros i j x y Hij Hx Hy.
  repeat case_match; simplify_eq. lia.
Qed.

(** ** The whole bitmap *)

Lemma elem_of_iter_words k ws x :
  x ∈ iter_words k ws <->
  exists i w b, ws !! i = Some w /\ b < 64 /\ N.testbit w b = true /\ x = (k + N.of_nat i) * 64 + b.
Proof.
  revert k. induction ws as [|w ws IH]; intros k; simpl.
  { split; [by intros ?%elem_of_nil | by intros (? & ? & ? & ? & _)]. }
  rewrite elem_of_app, elem_of_word_pages, IH. split.
  - intros [(b & Hb & Ht & ->)|(i & w' & b & Hi & Hb & Ht & ->)].
    + exists 0%nat, w, b. split_and!; [done..|lia].
    + exists (S i), w', b. split_and!; [done..|lia].
  - intros ([|i] & w' & b & Hi & Hb & Ht & ->); simpl in Hi; simplify_eq.
    + left. exists b. split_and!; [done..|lia].
    + right. exists i, w', b. split_and!; [done..|lia].
Qed.

Lemma iter_words_sorted k ws : StronglySorted N.lt (iter_words k ws).
Proof.
  revert k. induction ws as [|w ws IH]; intros k; simpl; [constructor|].
  apply StronglySorted_app_between; [apply word_pages_sorted | apply IH |].
  intros x y (b & Hb & _ & ->)%elem_of_word_pages (i & w' & b' & _ & Hb' & _ & ->)%elem_of_iter_words.
  lia.
Qed.

(** The page number splits uniquely into a word and a bit. *)
Lemma page_split p i b : b < 64 -> p = i * 64 + b -> i = p / 64 /\ b = p mod 64.
Proof.
  intros Hb ->. split.
  - rewrite N.add_comm, N.div_add, N.div_small by lia. lia.
  - rewrite N.add_comm, N.Div0.mod_add, N.mod_small by lia. lia.
Qed.

Lemma is_dirty_testbit d p :
  DirtyPageSet_is_dirty d p = true <->
  exists w, bits d !! N.to_nat (p / 64) = Some w /\ N.testbit w (p mod 64) = true.
Proof.
  unfold DirtyPageSet_is_dirty. destruct (bits d !! N.to_nat (p / 64)) as [w|].
  - rewrite land_mask_zero, negb_involutive. naive_solver.
  - naive_solver.
Qed.

Lemma elem_of_iter_dirty d p :
  p ∈ DirtyPageSet_iter_dirty d <-> DirtyPageSet_is_dirty d p = true.
Proof.
  unfold DirtyPageSet_iter_dirty. rewrite elem_of_iter_words, is_dirty_testbit. split.
  - intros (i & w & b & Hi & Hb & Ht & Hp). exists w.
    destruct (page_split p (N.of_nat i) b) as [H1 H2]; [lia..|].
    rewrite <- H1, <- H2, Nat2N.id. done.
  - intros (w & Hi & Ht). exists (N.to_nat (p / 64)), w, (p mod 64).
    split_and!; [done | apply N.mod_lt; lia | done |].
    rewrite N2Nat.id, (N.div_mod p 64) at 1 by lia. lia.
Qed.

Lemma elem_of_dirty_set d p : p ∈ dirty_set d <-> DirtyPageSet_is_dirty d p = true.
Proof. unfold dirty_set. by rewrite elem_of_list_to_set, elem_of_iter_dirty. Qed.

Lemma iter_dirty_sorted d : StronglySorted N.lt (DirtyPageSet_iter_dirty d).
Proof. apply iter_words_sorted. Qed.

Lemma iter_dirty_NoDup d : NoDup (DirtyPageSet_iter_dirty d).
Proof. apply StronglySorted_lt_NoDup, iter_dirty_sorted. Qed.

Lemma size_dirty_set d : size (dirty_set d) = length (DirtyPageSet_iter_dirty d).
Proof. apply size_list_to_set, iter_dirty_NoDup. Qed.

Lemma dirty_set_bound d p : p ∈ dirty_set d -> p < 64 * #|bits d|.
Proof.
  intros (w & Hw & _)%elem_of_dirty_set%is_dirty_testbit. apply len_lookup_Some in Hw.
  euclid p 64. lia.
Qed.

(** ** The operations refine finite sets *)

Section refinement.
Context `{BuildProfile}.

Lemma new_refines cap :
  cap + 63 < 2 ^ 64 ->
  exists d, DirtyPageSet_new cap = Ret d /\ dirty_wf d /\ dirty_set d = ∅ /\ capacity_pages d = cap.
Proof.
  intros Hcap. unfold DirtyPageSet_new. rewrite uadd_ok by done. simpl.
  eexists. split; [done|]. set (d := MkDirtyPageSet _ _ _).
  assert (dirty_set d = ∅) as Hempty.
  { apply set_eq. intros p. rewrite elem_of_dirty_set, is_dirty_testbit. split; [|set_solver].
    intros (w & [-> _]%lookup_replicate & Hw). by rewrite N.bits_0 in Hw. }
  euclid (cap + 63) 64.
  split_and!; [|done..]. constructor; simpl.
  - apply Forall_replicate. lia.
  - rewrite len_replicate. lia.
  - rewrite len_replicate. lia.
  - by rewrite Hempty.
Qed.

Lemma insert_word_dirty d p w :
  bits d !! N.to_nat (p / 64) = Some w ->
  dirty_set (MkDirtyPageSet (<[N.to_nat (p / 64) := N.lor w (N.shiftl 1 (p mod 64))]> (bits d))
    (capacity_pages d) (count d + 1)) = {[p]} ∪ dirty_set d.
Proof.
  intros Hw. apply set_eq. intros q. rewrite elem_of_union, elem_of_singleton, !elem_of_dirty_set,
    !is_dirty_testbit. simpl. pose proof (lookup_lt_Some _ _ _ Hw) as Hlt.
  euclid p 64. euclid q 64.
  destruct (decide (q / 64 = p / 64)) as [Hqp|Hqp].
  - rewrite Hqp, list_lookup_insert_eq by done. split.
    + intros (w' & [= <-] & Ht). rewrite lor_mask_testbit in Ht.
      apply orb_true_iff in Ht as [Ht|Ht]; [eauto|]. left. bool_to_prop. congruence.
    + intros [->|(w' & Hw' & Ht)]; eexists; (split; [done|]); rewrite lor_mask_testbit.
      * by rewrite N.eqb_refl, orb_true_r.
      * simplify_eq. by rewrite Ht.
  - rewrite list_lookup_insert_ne by lia. split; [by right|].
    intros [->|?]; [done | done].
Qed.

Lemma mark_refines d p :
  dirty_wf d -> p < capacity_pages d ->
  exists d', DirtyPageSet_mark d p = Ret d' /\ dirty_wf d' /\
    dirty_set d' = {[p]} ∪ dirty_set d /\ capacity_pages d' = capacity_pages d.
Proof.
  intros [Hwords Hroom Hlen Hcount] Hp. unfold DirtyPageSet_mark.
  rewrite debug_assert_ok by (by apply N.ltb_lt). simpl.
  assert (p / 64 < #|bits d|) as Hword by (apply N.Div0.div_lt_upper_bound; lia).
  destruct (len_lookup_is_Some _ _ Hword) as [w Hw]. unfold vec_index. rewrite Hw. simpl.
  rewrite land_mask_zero. destruct (N.testbit w (p mod 64)) eqn:Ht; simpl.
  - exists d. split_and!; [done | done | | done].
    assert (p ∈ dirty_set d) by (apply elem_of_dirty_set, is_dirty_testbit; eauto). set_solver.
  - rewrite vec_set_ok by done. simpl.
    assert (p ∉ dirty_set d) as Hnew.
    { rewrite elem_of_dirty_set, is_dirty_testbit. intros (w' & ? & ?). congruence. }
    pose proof (insert_word_dirty d p w Hw) as Hset.
    assert (N.of_nat (size ({[p]} ∪ dirty_set d)) <= 64 * #|bits d|) as Hsize.
    { apply size_below. intros x [->%elem_of_singleton|Hx]%elem_of_union; [|by apply dirty_set_bound].
      euclid p 64. lia. }
    rewrite size_union, size_singleton in Hsize by set_solver.
    rewrite uadd_ok by lia. simpl. eexists. split_and!; [done | | exact Hset | done].
    constructor; simpl; [| | |].
    + apply Forall_insert; [done|]. apply lor_mask_bound; [|apply N.mod_lt; lia].
      exact (Forall_lookup_1 _ _ _ _ Hwords Hw).
    + by rewrite len_insert.
    + by rewrite len_insert.
    + rewrite Hset, size_union, size_singleton by set_solver. lia.
Qed.

Lemma clear_all_empty d : dirty_set (DirtyPageSet_clear_all d) = ∅.
Proof.
  apply set_eq. intros p. rewrite elem_of_dirty_set, is_dirty_testbit. simpl. split; [|set_solver].
  intros (w & (? & -> & _)%list_lookup_fmap_Some_1 & Hw). by rewrite N.bits_0 in Hw.
Qed.

Lemma clear_all_refines d :
  dirty_wf d -> dirty_wf (DirtyPageSet_clear_all d) /\ dirty_set (DirtyPageSet_clear_all d) = ∅.
Proof.
  intros [Hwords Hroom Hlen Hcount]. split; [|apply clear_all_empty].
  constructor; simpl; unfold len; rewrite ?length_fmap; [|done..|].
  - apply Forall_fmap, Forall_true. intros; simpl; lia.
  - by rewrite clear_all_empty.
Qed.

(** ** Histories of a bitmap *)

Inductive dirty_op :=
| OpMark (page_idx : N)
| OpClear.

Definition run_op (d : DirtyPageSet) (o : dirty_op) : outcome DirtyPageSet :=
  match o with
  | OpMark p => DirtyPageSet_mark d p
  | OpClear => Ret (DirtyPageSet_clear_all d)
  end.

(** The same history on the abstract set. *)
Definition spec_op (X : gset N) (o : dirty_op) : gset N :=
  match o with
  | OpMark p => {[p]} ∪ X
  | OpClear => ∅
  end.

Definition op_in_range (cap : N) (o : dirty_op) : Prop :=
  match o with OpMark p => p < cap | OpClear => True end.

Lemma run_ops_refine cap ops d :
  dirty_wf d -> capacity_pages d = cap -> Forall (op_in_range cap) ops ->
  exists d', for_each run_op ops d = Ret d' /\ dirty_wf d' /\
    dirty_set d' = foldl spec_op (dirty_set d) ops.
Proof.
  intros Hwf Hcap Hops. revert d Hwf Hcap.
  induction Hops as [|o ops Ho _ IH]; intros d Hwf Hcap; simpl; [eauto|].
  destruct o as [p|]; simpl in *.
  - destruct (mark_refines d p) as (d1 & -> & Hwf1 & <- & Hc1); [done | by rewrite Hcap |].
    apply IH; [done | congruence].
  - destruct (clear_all_refines d Hwf) as [Hwf1 Hset]. rewrite <- Hset. by apply IH.
Qed.

Lemma dirty_count_size d : dirty_wf d -> DirtyPageSet_len d = N.of_nat (size (dirty_set d)).
Proof. apply dirty_wf_count. Qed.

Lemma is_empty_iff d : dirty_wf d -> DirtyPageSet_is_empty d = true <-> dirty_set d = ∅.
Proof.
  intros Hwf. unfold DirtyPageSet_is_empty. rewrite (dirty_wf_count d Hwf), N.eqb_eq.
  rewrite <- leibniz_equiv_iff, <- size_empty_iff. lia.
Qed.

(** C14. Any history of in-range [mark]s and [clear_all]s on a fresh bitmap runs
    without a panic in either build profile, and the bitmap it ends in is the
    set the history describes: [is_dirty] decides membership, [iter_dirty]
    lists the members in strictly increasing order, [len] is their number and
    [is_empty] tells whether there is none. *)
Theorem dirty_history_refines_set (cap : N) (ops : list dirty_op) :
  cap + 63 < 2 ^ 64 -> Forall (op_in_range cap) ops ->
  exists d, (d0 ← DirtyPageSet_new cap; for_each run_op ops d0) = Ret d /\
    let X := foldl spec_op ∅ ops in
    (forall p, DirtyPageSet_is_dirty d p = true <-> p ∈ X) /\
    (forall p, p ∈ DirtyPageSet_iter_dirty d <-> p ∈ X) /\
    StronglySorted N.lt (DirtyPageSet_iter_dirty d) /\
    DirtyPageSet_len d = N.of_nat (size X) /\
    (DirtyPageSet_is_empty d = true <-> X = ∅).
Proof.
  intros Hcap Hops. destruct (new_refines cap Hcap) as (d0 & -> & Hwf0 & Hset0 & Hc0). simpl.
  destruct (run_ops_refine cap ops d0 Hwf0 Hc0 Hops) as (d & -> & Hwf & Hset).
  rewrite Hset0 in Hset. exists d. split; [done|]. rewrite <- Hset. split_and!.
  - intros p. by rewrite elem_of_dirty_set.
  - intros p. by rewrite elem_of_iter_dirty, elem_of_dirty_set.
  - apply iter_dirty_sorted.
  - by apply dirty_count_size.
  - by apply is_empty_iff.
Qed.

(** What [mark] does with a page number outside the tracked range: with
    debug assertions it panics before it reads the bitmap; without them it
    panics on the vector index when the word does not exist, and otherwise it
    returns a bitmap whose set has gained exactly that page. *)
Theorem mark_out_of_range (d : DirtyPageSet) (p : N) :
  capacity_pages d <= p ->
  (debug_assertions = true -> DirtyPageSet_mark d p = Panic DebugAssertFailed) /\
  (debug_assertions = false -> 64 * #|bits d| <= p -> DirtyPageSet_mark d p = Panic IndexOutOfBounds) /\
  (forall d', DirtyPageSet_mark d p = Ret d' ->
    debug_assertions = false /\ p < 64 * #|bits d| /\ dirty_set d' = {[p]} ∪ dirty_set d).
Proof.
  intros Hp. unfold DirtyPageSet_mark, debug_assert, vec_index.
  rewrite (proj2 (N.ltb_ge _ _) Hp), andb_true_r. euclid p 64.
  destruct debug_assertions eqn:Hdbg; simpl; split_and!; try done.
  - intros _ Hge. rewrite lookup_ge_None_2; [done|]. unfold len in Hge. lia.
  - intros d' Hret. destruct (bits d !! N.to_nat (p / 64)) as [w|] eqn:Hw; [|done]. simpl in Hret.
    pose proof (len_lookup_Some _ _ _ Hw) as Hlt. split_and!; [done | lia |].
    rewrite land_mask_zero in Hret. destruct (N.testbit w (p mod 64)) eqn:Ht; simpl in Hret.
    + inv_ret. assert (p ∈ dirty_set d') by (apply elem_of_dirty_set, is_dirty_testbit; eauto).
      set_solver.
    + rewrite vec_set_ok in Hret by done. simpl in Hret. inv_ret.
      rewrite <- (insert_word_dirty d p w Hw). done.
Qed.

End refinement.

Lemma dirty_history_refines_set_witness :
  exists d, (d0 ← @DirtyPageSet_new dev_profile 200;
    for_each (@run_op dev_profile) [OpMark 7; OpClear; OpMark 199; OpMark 63; OpMark 64; OpMark 63] d0) = Ret d /\
    DirtyPageSet_len d = 3.
Proof.
  destruct (@dirty_history_refines_set dev_profile 200
    [OpMark 7; OpClear; OpMark 199; OpMark 63; OpMark 64; OpMark 63]) as (d & Hd & Hspec).
  - vm_compute. reflexivity.
  - repeat constructor; vm_compute; reflexivity.
  - exists d. split; [exact Hd|]. destruct Hspec as (_ & _ & _ & Hlen & _). rewrite Hlen.
    vm_compute. reflexivity.
Defined.

Lemma mark_out_of_range_witness :
  let d := MkDirtyPageSet [0] 10 0 in
  @DirtyPageSet_mark dev_profile d 10 = Panic DebugAssertFailed /\
  @DirtyPageSet_mark release_profile d 64 = Panic IndexOutOfBounds.
Proof.
  split.
  - apply (proj1 (@mark_out_of_range dev_profile (MkDirtyPageSet [0] 10 0) 10 ltac:(vm_compute; discriminate))).
    reflexivity.
  - apply (proj1 (proj2 (@mark_out_of_range release_profile (MkDirtyPageSet [0] 10 0) 64
      ltac:(vm_compute; discriminate)))).
    + reflexivity.
    + vm_compute. discriminate.
Defined.
