(* ===== verification/GuardedMemory.v ===== *)
(** * Guarded linear memory (chronos-mem/src/guarded_memory.rs)

    [MmapGuardedMemory] owns one anonymous mapping: the quota, rounded up to
    pages, followed by one guard page. The mapping's bytes are part of the
    record ([heap], by offset from [base]; an absent offset holds the zero the
    kernel filled it with). The operating system is a parameter [HostOs]: the
    answers of [mmap] and [mprotect]; [MmapGuardedMemory_new] also returns the
    calls it made, so that the theorems can speak about live mappings. *)

From S2P Require Import Prelude Machine Dirty.

Definition PAGE_SIZE : N := 4096.
Arguments PAGE_SIZE : simpl never.

(** ** Faults and the operating system *)

(** [std::io::Error], by its errno. *)
Abbreviation io_error := Z.

Inductive MemFault :=
| OutOfBounds (ptr len size : N)
| QuotaExceeded (requested quota : N)
| MmapFailed (e : io_error)
| MprotectFailed (e : io_error)
| LayoutOverflow.

#[export] Instance MemFault_eq_dec : EqDecision MemFault.
Proof. solve_decision. Defined.

Record HostOs := {
  os_mmap : N -> result io_error N;
  os_mprotect_none : N -> N -> option io_error
}.

Inductive OsCall :=
| CallMmap (length : N) (answer : result io_error N)
| CallMprotectNone (addr length : N) (answer : option io_error)
| CallMunmap (addr length : N).

(** The mappings a trace of calls leaves behind, as (address, length) pairs. *)
Definition live_step (live : list (N * N)) (c : OsCall) : list (N * N) :=
  match c with
  | CallMmap n (Ok a) => (a, n) :: live
  | CallMunmap a n => filter (fun m => m <> (a, n)) live
  | _ => live
  end.

Definition live_mappings (trace : list OsCall) : list (N * N) := foldl live_step [] trace.

(** ** The memory interface *)

(** The trait [GuardedMemory]. A [&mut] accessor is a setter. *)
Class GuardedMemory (M : Type) := {
  translate : M -> N -> N -> result MemFault N;
  grow : M -> N -> M * result MemFault N;
  size_bytes : M -> N;
  dirty_pages : M -> DirtyPageSet;
  dirty_pages_mut : M -> DirtyPageSet -> M;
  mark_dirty : M -> N -> outcome M;
  page_bytes : M -> N -> outcome (list N)
}.

Record MmapGuardedMemory := MkMmapGuardedMemory {
  base : N;
  mapped_len : N;
  mem_size_bytes : N;
  quota_bytes : N;
  dirty : DirtyPageSet;
  heap : gmap N N
}.

#[export] Instance MmapGuardedMemory_eq_dec : EqDecision MmapGuardedMemory.
Proof. solve_decision. Defined.

Section operations.
Context `{BuildProfile}.

Definition MmapGuardedMemory_new (os : HostOs) (initial_bytes quota_bytes : N) :
    outcome (list OsCall * result MemFault MmapGuardedMemory) :=
  if quota_bytes <? initial_bytes then Ret ([], Err (QuotaExceeded initial_bytes quota_bytes)) else
  n ← uadd 64 quota_bytes PAGE_SIZE;
  let quota_pages := (n - 1) / PAGE_SIZE in
  match checked_mul 64 quota_pages PAGE_SIZE with
  | None => Ret ([], Err LayoutOverflow)
  | Some quota_rounded =>
    let guard_bytes := PAGE_SIZE in
    match checked_add 64 quota_rounded guard_bytes with
    | None => Ret ([], Err LayoutOverflow)
    | Some mapped_len =>
      match os_mmap os mapped_len with
      | Err e => Ret ([CallMmap mapped_len (Err e)], Err (MmapFailed e))
      | Ok addr =>
        let guard_ptr := addr + quota_rounded in
        let rc := os_mprotect_none os guard_ptr guard_bytes in
        let calls := [CallMmap mapped_len (Ok addr); CallMprotectNone guard_ptr guard_bytes rc] in
        match rc with
        | Some err => Ret (calls ++ [CallMunmap addr mapped_len], Err (MprotectFailed err))
        | None =>
          dirty ← DirtyPageSet_new (quota_rounded / PAGE_SIZE);
          Ret (calls, Ok (MkMmapGuardedMemory addr mapped_len initial_bytes quota_bytes dirty ∅))
        end
      end
    end
  end.

(** [Drop]: the calls made when the region goes out of scope. *)
Definition MmapGuardedMemory_drop (m : MmapGuardedMemory) : list OsCall :=
  [CallMunmap (base m) (mapped_len m)].

Definition MmapGuardedMemory_translate (m : MmapGuardedMemory) (guest_ptr len : N) : result MemFault N :=
  match checked_add 32 guest_ptr len with
  | None => Err (OutOfBounds guest_ptr len (mem_size_bytes m))
  | Some stop =>
    if mem_size_bytes m <? stop then Err (OutOfBounds guest_ptr len (mem_size_bytes m))
    else Ok (base m + guest_ptr)
  end.

Definition with_size (m : MmapGuardedMemory) (n : N) : MmapGuardedMemory :=
  MkMmapGuardedMemory (base m) (mapped_len m) n (quota_bytes m) (dirty m) (heap m).

Definition with_dirty (m : MmapGuardedMemory) (d : DirtyPageSet) : MmapGuardedMemory :=
  MkMmapGuardedMemory (base m) (mapped_len m) (mem_size_bytes m) (quota_bytes m) d (heap m).

(** The products and sums are below [2 ^ 45], so [u64] arithmetic is exact. *)
Definition MmapGuardedMemory_grow (m : MmapGuardedMemory) (delta_pages : N) :
    MmapGuardedMemory * result MemFault N :=
  let delta_bytes := delta_pages * PAGE_SIZE in
  let new_size := mem_size_bytes m + delta_bytes in
  if quota_bytes m <? new_size then (m, Err (QuotaExceeded (as_unsigned 32 new_size) (quota_bytes m)))
  else
    let previous_pages := mem_size_bytes m / PAGE_SIZE in
    (with_size m (as_unsigned 32 new_size), Ok previous_pages).

Definition MmapGuardedMemory_mark_dirty (m : MmapGuardedMemory) (page_idx : N) : outcome MmapGuardedMemory :=
  d ← DirtyPageSet_mark (dirty m) page_idx;
  Ret (with_dirty m d).

(** The bytes of the mapping from an offset on. *)
Definition read_bytes (h : gmap N N) (offset n : N) : list N :=
  (fun k => default 0 (h !! (offset + k))) <$> nrange 0 n.

Arguments read_bytes : simpl never.

(** [from_raw_parts] is meaningful inside the readable part of the mapping,
    which ends where the guard page starts. *)
Definition MmapGuardedMemory_page_bytes (m : MmapGuardedMemory) (page_idx : N) : outcome (list N) :=
  offset ← umul 64 page_idx PAGE_SIZE;
  _ ← (if debug_assertions then
         stop ← uadd 64 offset PAGE_SIZE;
         debug_assert (stop <=? mem_size_bytes m)
       else Ret tt);
  if mapped_len m - PAGE_SIZE <? offset + PAGE_SIZE then Panic UndefinedBehaviour
  else Ret (read_bytes (heap m) offset PAGE_SIZE).

#[export] Instance MmapGuardedMemory_GuardedMemory : GuardedMemory MmapGuardedMemory := {|
  translate := MmapGuardedMemory_translate;
  grow := MmapGuardedMemory_grow;
  size_bytes := mem_size_bytes;
  dirty_pages := dirty;
  dirty_pages_mut := with_dirty;
  mark_dirty := MmapGuardedMemory_mark_dirty;
  page_bytes := MmapGuardedMemory_page_bytes
|}.

End operations.

(** ** Invariant *)

(** The quota rounded up to whole pages. *)
Definition page_round_up (n : N) : N := (n + PAGE_SIZE - 1) / PAGE_SIZE * PAGE_SIZE.

Record mem_wf (m : MmapGuardedMemory) : Prop := {
  mem_wf_size : mem_size_bytes m <= quota_bytes m;
  mem_wf_quota : quota_bytes m < 2 ^ 32;
  mem_wf_mapped : mapped_len m = page_round_up (quota_bytes m) + PAGE_SIZE;
  mem_wf_dirty : dirty_wf (dirty m);
  mem_wf_capacity : capacity_pages (dirty m) * PAGE_SIZE = page_round_up (quota_bytes m)
}.

(** The content of a page, as the mapping holds it. *)
Definition mem_page (m : MmapGuardedMemory) (page_idx : N) : list N :=
  read_bytes (heap m) (page_idx * PAGE_SIZE) PAGE_SIZE.

(** ** Lemmas *)

(** Linear arithmetic with the value of [PAGE_SIZE], used for side conditions
    so that the constant stays folded in the goals themselves. *)
Ltac page_lia := unfold PAGE_SIZE in *; lia.

Lemma page_round_up_bounds n : n <= page_round_up n < n + PAGE_SIZE.
Proof. unfold page_round_up, PAGE_SIZE. euclid (n + 4096 - 1) 4096. lia. Qed.

Lemma page_round_up_div n : page_round_up n / PAGE_SIZE * PAGE_SIZE = page_round_up n.
Proof. unfold page_round_up. by rewrite N.div_mul. Qed.

Lemma length_read_bytes h o n : length (read_bytes h o n) = N.to_nat n.
Proof. unfold read_bytes. rewrite length_fmap, length_nrange. lia. Qed.

Lemma len_mem_page m p : #|mem_page m p| = PAGE_SIZE.
Proof. unfold len, mem_page. rewrite length_read_bytes. lia. Qed.

Lemma read_bytes_zero o n : read_bytes ∅ o n = replicate (N.to_nat n) 0.
Proof.
  unfold read_bytes. apply list_eq_same_length with (n := N.to_nat n).
  - by rewrite length_replicate.
  - rewrite length_fmap, length_nrange. lia.
  - intros i x y _ (k & -> & _)%list_lookup_fmap_Some_1 [-> _]%lookup_replicate.
    by rewrite lookup_empty.
Qed.

Section theorems.
Context `{BuildProfile}.

(** What a finished construction looks like to the operating system. *)
Definition new_post (os : HostOs) (initial quota : N) (trace : list OsCall)
    (r : result MemFault MmapGuardedMemory) : Prop :=
  match r with
  | Ok m =>
      initial <= quota /\ mem_wf m /\ mem_size_bytes m = initial /\ quota_bytes m = quota /\
      dirty_set (dirty m) = ∅ /\ (forall p, mem_page m p = replicate (N.to_nat PAGE_SIZE) 0) /\
      CallMprotectNone (base m + page_round_up quota) PAGE_SIZE None ∈ trace /\
      live_mappings trace = [(base m, mapped_len m)] /\ live_mappings (trace ++ MmapGuardedMemory_drop m) = []
  | Err (QuotaExceeded req q) => req = initial /\ q = quota /\ quota < initial /\ trace = []
  | Err (MmapFailed e) => initial <= quota /\ os_mmap os (page_round_up quota + PAGE_SIZE) = Err e /\
      live_mappings trace = []
  | Err (MprotectFailed e) => initial <= quota /\ live_mappings trace = [] /\
      exists a, os_mmap os (page_round_up quota + PAGE_SIZE) = Ok a /\
        os_mprotect_none os (a + page_round_up quota) PAGE_SIZE = Some e
  | Err (OutOfBounds _ _ _) | Err LayoutOverflow => False
  end.

(** The layout arithmetic of [new] is exact for a 32-bit quota. *)
Lemma layout_arith quota :
  quota < 2 ^ 32 ->
  uadd 64 quota PAGE_SIZE = Ret (quota + PAGE_SIZE) /\
  checked_mul 64 ((quota + PAGE_SIZE - 1) / PAGE_SIZE) PAGE_SIZE = Some (page_round_up quota) /\
  checked_add 64 (page_round_up quota) PAGE_SIZE = Some (page_round_up quota + PAGE_SIZE).
Proof.
  intros Hq. pose proof (page_round_up_bounds quota) as Hb. unfold PAGE_SIZE in *. split_and!.
  - apply uadd_ok. lia.
  - unfold checked_mul. fold (page_round_up quota). rewrite (proj2 (N.ltb_lt _ _)); [done|].
    change (page_round_up quota < 2 ^ 64). lia.
  - unfold checked_add. rewrite (proj2 (N.ltb_lt _ _)); [done | lia].
Qed.

Lemma memory_new_post (os : HostOs) (initial quota : N) :
  quota < 2 ^ 32 ->
  exists trace r, MmapGuardedMemory_new os initial quota = Ret (trace, r) /\
    new_post os initial quota trace r.
Proof.
  intros Hq. unfold MmapGuardedMemory_new. case_test; [by do 2 eexists; split|].
  destruct (layout_arith quota Hq) as (-> & E2 & E3). unfold mbind, outcome_bind at 1.
  rewrite E2, E3. destruct (os_mmap os _) as [a|e] eqn:Em; [|by do 2 eexists; split].
  destruct (os_mprotect_none os _ _) as [e|] eqn:Ep.
  { do 2 eexists. split; [done|]. split_and!; [done | | by eauto].
    unfold live_mappings. simpl. rewrite filter_cons_False; [done | naive_solver]. }
  pose proof (page_round_up_bounds quota) as Hb.
  destruct (new_refines (page_round_up quota / PAGE_SIZE)) as (d & -> & Hwf & Hset & Hcap).
  { unfold PAGE_SIZE in *. euclid (page_round_up quota) 4096. lia. }
  do 2 eexists. split; [done|]. simpl. split_and!; [done | | done | done | done | | | done |].
  - constructor; simpl; [done..|]. by rewrite Hcap, page_round_up_div.
  - intros p. apply read_bytes_zero.
  - rewrite !elem_of_cons. tauto.
  - unfold live_mappings. simpl. rewrite filter_cons_False; [done | naive_solver].
Qed.

(** The fault a construction has to report, read off its arguments and the
    answers of the operating system for the layout: the quota rounded up to
    pages, then one guard page. *)
Definition construction_fault (os : HostOs) (initial quota : N) : option MemFault :=
  if quota <? initial then Some (QuotaExceeded initial quota) else
  match os_mmap os (page_round_up quota + PAGE_SIZE) with
  | Err e => Some (MmapFailed e)
  | Ok a => MprotectFailed <$> os_mprotect_none os (a + page_round_up quota) PAGE_SIZE
  end.

Lemma memory_new_fault (os : HostOs) (initial quota : N) :
  quota < 2 ^ 32 ->
  exists trace r, MmapGuardedMemory_new os initial quota = Ret (trace, r) /\
    match r with
    | Ok m => construction_fault os initial quota = None /\
        os_mmap os (page_round_up quota + PAGE_SIZE) = Ok (base m)
    | Err f => construction_fault os initial quota = Some f
    end.
Proof.
  intros Hq. unfold MmapGuardedMemory_new, construction_fault. case_test; [by do 2 eexists|].
  destruct (layout_arith quota Hq) as (-> & E2 & E3). unfold mbind, outcome_bind at 1.
  rewrite E2, E3. destruct (os_mmap os _) as [a|e] eqn:Em; [|by do 2 eexists].
  destruct (os_mprotect_none os _ _) as [e|] eqn:Ep; [by do 2 eexists|].
  pose proof (page_round_up_bounds quota) as Hb.
  destruct (new_refines (page_round_up quota / PAGE_SIZE)) as (d & -> & _).
  { unfold PAGE_SIZE in *. euclid (page_round_up quota) 4096. lia. }
  by do 2 eexists.
Qed.

(** C32. Constructing a region never panics and reports exactly the fault that
    occurred; the layout cannot overflow for a 32-bit quota. On success the
    region is well formed, holds only zeros and clean pages, has the guard page
    protected right behind the rounded quota, its mapping is the only one left,
    and dropping the region releases it; on every error path no mapping is left
    behind. *)
Theorem memory_new_total (os : HostOs) (initial quota : N) :
  quota < 2 ^ 32 ->
  exists trace r, MmapGuardedMemory_new os initial quota = Ret (trace, r) /\
    new_post os initial quota trace r.
Proof. apply memory_new_post. Qed.

(** C12. The bounds check is exact: [translate] approves an access if and only if
    all its bytes lie below the committed size, whatever the 32-bit pointer and
    length (the sum that would wrap around is refused too), and an approved
    access stays inside the mapping, strictly before the guard page. *)
Theorem translate_exact (m : MmapGuardedMemory) (guest_ptr len : N) :
  mem_wf m -> guest_ptr < 2 ^ 32 -> len < 2 ^ 32 ->
  (guest_ptr + len <= mem_size_bytes m /\
   MmapGuardedMemory_translate m guest_ptr len = Ok (base m + guest_ptr) /\
   base m + guest_ptr + len <= base m + (mapped_len m - PAGE_SIZE)) \/
  (mem_size_bytes m < guest_ptr + len /\
   MmapGuardedMemory_translate m guest_ptr len = Err (OutOfBounds guest_ptr len (mem_size_bytes m))).
Proof.
  intros [Hsize Hquota Hmap _ _] Hp Hl. unfold MmapGuardedMemory_translate, checked_add.
  pose proof (page_round_up_bounds (quota_bytes m)) as Hb. unfold PAGE_SIZE in *.
  case_test; [case_test|]; [right | left | right]; split_and!; try done; lia.
Qed.

(** C13. Cross-tenant isolation: when the operating system keeps two mappings
    apart, no address reachable through one region's [translate] is reachable
    through the other's. *)
Theorem translate_isolated (m1 m2 : MmapGuardedMemory) (p1 l1 p2 l2 a1 a2 k1 k2 : N) :
  mem_wf m1 -> mem_wf m2 ->
  base m1 + mapped_len m1 <= base m2 \/ base m2 + mapped_len m2 <= base m1 ->
  MmapGuardedMemory_translate m1 p1 l1 = Ok a1 -> MmapGuardedMemory_translate m2 p2 l2 = Ok a2 ->
  k1 < l1 -> k2 < l2 -> a1 + k1 <> a2 + k2.
Proof.
  intros [Hs1 Hq1 Hm1 _ _] [Hs2 Hq2 Hm2 _ _] Hdisj. unfold MmapGuardedMemory_translate, checked_add.
  pose proof (page_round_up_bounds (quota_bytes m1)) as Hb1.
  pose proof (page_round_up_bounds (quota_bytes m2)) as Hb2.
  repeat case_test; intros [= <-] [= <-]; lia.
Qed.

Lemma grow_ok m n :
  mem_wf m -> mem_size_bytes m + n * PAGE_SIZE <= quota_bytes m ->
  MmapGuardedMemory_grow m n =
    (with_size m (mem_size_bytes m + n * PAGE_SIZE), Ok (mem_size_bytes m / PAGE_SIZE)).
Proof.
  intros Hwf Hle. unfold MmapGuardedMemory_grow, as_unsigned.
  rewrite (proj2 (N.ltb_ge _ _) Hle), N.mod_small; [done|]. pose proof (mem_wf_quota m Hwf). lia.
Qed.

Lemma grow_err m n :
  quota_bytes m < mem_size_bytes m + n * PAGE_SIZE ->
  MmapGuardedMemory_grow m n =
    (m, Err (QuotaExceeded ((mem_size_bytes m + n * PAGE_SIZE) mod 2 ^ 32) (quota_bytes m))).
Proof. intros Hlt. unfold MmapGuardedMemory_grow. by rewrite (proj2 (N.ltb_lt _ _) Hlt). Qed.

(** C24. [grow] keeps the region well formed and its bytes and dirty set as they
    were; it succeeds exactly when the new size fits the quota, then commits
    precisely the requested pages and answers the previous page count; a refused
    growth changes nothing. *)
Theorem grow_spec (m m' : MmapGuardedMemory) (delta_pages : N) (r : result MemFault N) :
  mem_wf m -> MmapGuardedMemory_grow m delta_pages = (m', r) ->
  mem_wf m' /\ heap m' = heap m /\ dirty m' = dirty m /\ base m' = base m /\ mapped_len m' = mapped_len m /\
  match r with
  | Ok prev => prev = mem_size_bytes m / PAGE_SIZE /\
      mem_size_bytes m' = mem_size_bytes m + delta_pages * PAGE_SIZE /\
      mem_size_bytes m' <= quota_bytes m
  | Err e => m' = m /\ quota_bytes m < mem_size_bytes m + delta_pages * PAGE_SIZE /\
      e = QuotaExceeded ((mem_size_bytes m + delta_pages * PAGE_SIZE) mod 2 ^ 32) (quota_bytes m)
  end.
Proof.
  intros Hwf Hg. destruct (N.le_gt_cases (mem_size_bytes m + delta_pages * PAGE_SIZE) (quota_bytes m)).
  - rewrite grow_ok in Hg by done. simplify_eq. split_and!; [|done..].
    destruct Hwf. by constructor.
  - rewrite grow_err in Hg by done. by simplify_eq.
Qed.

Lemma page_bytes_ok m p :
  mem_wf m -> (p + 1) * PAGE_SIZE <= mem_size_bytes m ->
  MmapGuardedMemory_page_bytes m p = Ret (mem_page m p).
Proof.
  intros [Hsize Hquota Hmap _ _] Hp. pose proof (page_round_up_bounds (quota_bytes m)) as Hb.
  unfold MmapGuardedMemory_page_bytes, mem_page. rewrite umul_ok by page_lia. simpl.
  rewrite uadd_ok by page_lia. unfold debug_assert. simpl.
  rewrite (proj2 (N.leb_le _ _)) by page_lia. rewrite andb_false_r.
  rewrite (proj2 (N.ltb_ge _ _)) by page_lia. by destruct debug_assertions.
Qed.

Lemma page_bytes_release m p :
  mem_wf m -> debug_assertions = false -> p < capacity_pages (dirty m) ->
  MmapGuardedMemory_page_bytes m p = Ret (mem_page m p).
Proof.
  intros [Hsize Hquota Hmap Hd Hcap] Hdbg Hp. pose proof (page_round_up_bounds (quota_bytes m)) as Hb.
  unfold MmapGuardedMemory_page_bytes, mem_page. rewrite umul_ok by page_lia. simpl.
  rewrite Hdbg. simpl. by rewrite (proj2 (N.ltb_ge _ _)) by page_lia.
Qed.

Lemma page_bytes_inv m p bs :
  mem_wf m -> p < capacity_pages (dirty m) -> MmapGuardedMemory_page_bytes m p = Ret bs -> bs = mem_page m p.
Proof.
  intros [Hsize Hquota Hmap Hd Hcap] Hp. pose proof (page_round_up_bounds (quota_bytes m)) as Hb.
  unfold MmapGuardedMemory_page_bytes, mem_page. rewrite umul_ok by page_lia. simpl.
  intros Hr. inv_ret. case_test_in Hr; by inv_ret.
Qed.

(** A page that the committed size cuts in the middle: the guest may write
    its first bytes ([translate] approves them and the page is inside the dirty
    bitmap), yet reading the page back for a checkpoint panics when debug
    assertions are on; without them it returns the page. *)
Theorem page_bytes_partial_page (m : MmapGuardedMemory) (p : N) :
  mem_wf m -> p * PAGE_SIZE < mem_size_bytes m < (p + 1) * PAGE_SIZE ->
  MmapGuardedMemory_translate m (p * PAGE_SIZE) 1 = Ok (base m + p * PAGE_SIZE) /\
  p < capacity_pages (dirty m) /\
  MmapGuardedMemory_page_bytes m p =
    if debug_assertions then Panic DebugAssertFailed else Ret (mem_page m p).
Proof.
  intros Hwf Hp. destruct Hwf as [Hsize Hquota Hmap Hd Hcap] eqn:Ewf.
  pose proof (page_round_up_bounds (quota_bytes m)) as Hb.
  assert (p < capacity_pages (dirty m)) as Hlt by page_lia.
  split_and!; [|done|].
  - unfold MmapGuardedMemory_translate, checked_add.
    rewrite (proj2 (N.ltb_lt _ _)) by page_lia. by rewrite (proj2 (N.ltb_ge _ _)) by page_lia.
  - destruct debug_assertions eqn:Hdbg; [|by apply page_bytes_release].
    unfold MmapGuardedMemory_page_bytes, debug_assert. rewrite umul_ok by page_lia. simpl.
    rewrite Hdbg. simpl. rewrite uadd_ok by page_lia. simpl. by rewrite (proj2 (N.leb_gt _ _)) by page_lia.
Qed.

End theorems.

(** ** Witnesses *)

(** A host that maps every request at one address and protects every range. *)
Definition permissive_os : HostOs := {|
  os_mmap := fun _ => Ok 65536;
  os_mprotect_none := fun _ _ => None
|}.

(** A host that maps every request and protects no range. *)
Definition guardless_os : HostOs := {|
  os_mmap := fun _ => Ok 65536;
  os_mprotect_none := fun _ _ => Some 12%Z
|}.

(** A region of one and a half committed pages out of a quota of three. *)
Definition sample_memory (at_addr : N) : MmapGuardedMemory :=
  MkMmapGuardedMemory at_addr 16384 6144 12288 (MkDirtyPageSet [0] 3 0) ∅.

Lemma sample_memory_wf a : mem_wf (sample_memory a).
Proof.
  constructor; simpl.
  - lia.
  - lia.
  - reflexivity.
  - constructor; simpl; [repeat constructor | unfold len; simpl; lia.. | reflexivity].
  - reflexivity.
Qed.

Lemma memory_new_total_witness :
  exists trace r, @MmapGuardedMemory_new dev_profile permissive_os 6144 12288 = Ret (trace, r) /\
    new_post permissive_os 6144 12288 trace r.
Proof. apply (@memory_new_total dev_profile). vm_compute. reflexivity. Defined.

Lemma translate_exact_witness :
  MmapGuardedMemory_translate (sample_memory 0) 6000 144 = Ok 6000 /\
  MmapGuardedMemory_translate (sample_memory 0) 4294967295 2 = Err (OutOfBounds 4294967295 2 6144).
Proof.
  split.
  - destruct (translate_exact (sample_memory 0) 6000 144 (sample_memory_wf 0)) as [(_ & H & _)|[H _]];
      [reflexivity | reflexivity | exact H | vm_compute in H; discriminate].
  - destruct (translate_exact (sample_memory 0) 4294967295 2 (sample_memory_wf 0)) as [(H & _)|[_ H]];
      [reflexivity | reflexivity | exfalso; apply H; reflexivity | exact H].
Defined.

Lemma translate_isolated_witness : 0 + 6000 + 100 <> 16384 + 10 + 5.
Proof.
  apply (translate_isolated (sample_memory 0) (sample_memory 16384) 6000 144 10 6
    (0 + 6000) (16384 + 10) 100 5).
  - apply sample_memory_wf.
  - apply sample_memory_wf.
  - left. vm_compute. discriminate.
  - vm_compute. reflexivity.
  - vm_compute. reflexivity.
  - vm_compute. reflexivity.
  - vm_compute. reflexivity.
Defined.

Lemma grow_spec_witness :
  mem_wf (fst (MmapGuardedMemory_grow (sample_memory 0) 1)) /\
  mem_size_bytes (fst (MmapGuardedMemory_grow (sample_memory 0) 1)) = 10240.
Proof.
  destruct (grow_spec (sample_memory 0) _ 1 _ (sample_memory_wf 0)
    (surjective_pairing (MmapGuardedMemory_grow (sample_memory 0) 1))) as (H & _ & _ & _ & _ & Hr).
  split; [exact H|]. destruct Hr as (_ & Hs & _). exact Hs.
Defined.

Lemma page_bytes_partial_page_witness :
  @MmapGuardedMemory_page_bytes dev_profile (sample_memory 0) 1 = Panic DebugAssertFailed.
Proof.
  apply (proj2 (proj2 (@page_bytes_partial_page dev_profile (sample_memory 0) 1 (sample_memory_wf 0)
    ltac:(vm_compute; split; reflexivity)))).
Defined.
