(* ===== verification/Delta.v ===== *)
(** * Delta-compression engine (chronos-mem/src/delta.rs)

    A page delta is either the page itself or the run-length encoded XOR of the
    page with the receiver's previous copy. The model follows the code's index
    loops over a [PAGE_SIZE] array; the theorems show that decoding inverts
    encoding, that the two engines of a replication pair stay in step over any
    stream of page updates, and that a delta never costs more than the raw page. *)

From S2P Require Import Prelude Machine GuardedMemory.

(** ** Data *)

Record RunLiteral := MkRunLiteral {
  zero_run : N;
  literal : list N
}.

Inductive PageDelta :=
| Xor (page_idx : N) (runs : list RunLiteral)
| Raw (page_idx : N) (bytes : list N).

#[export] Instance RunLiteral_eq_dec : EqDecision RunLiteral.
Proof. solve_decision. Defined.
#[export] Instance PageDelta_eq_dec : EqDecision PageDelta.
Proof. solve_decision. Defined.

Definition PageDelta_page_idx (d : PageDelta) : N :=
  match d with Xor i _ => i | Raw i _ => i end.

Definition PageDelta_encoded_len (d : PageDelta) : N :=
  match d with
  | Xor _ runs => foldr (fun r acc => 4 + 4 + #|literal r| + acc) 0 runs
  | Raw _ _ => PAGE_SIZE
  end.

(** [[0u8; PAGE_SIZE]]. *)
Definition zero_page : list N := replicate (N.to_nat PAGE_SIZE) 0.
Arguments zero_page : simpl never.

(** ** Run-length coding *)

(** [while i < PAGE_SIZE && p(buf[i]) { i += 1; }], at most [fuel] rounds. *)
Fixpoint scan_while (p : N -> bool) (buf : list N) (fuel : nat) (i : N) : N :=
  match fuel with
  | O => i
  | S fuel =>
    if (i <? PAGE_SIZE) && p (buf !!! N.to_nat i) then scan_while p buf fuel (i + 1) else i
  end.

(** The outer loop from index [i] on; the result lists the runs in push order. *)
Fixpoint rle_encode_loop (fuel : nat) (buf : list N) (i : N) : list RunLiteral :=
  match fuel with
  | O => []
  | S fuel =>
    if i <? PAGE_SIZE then
      let run_start := i in
      let i1 := scan_while (fun b => b =? 0) buf (N.to_nat PAGE_SIZE) run_start in
      let zero_run := as_unsigned 32 (i1 - run_start) in
      let lit_start := i1 in
      let i2 := scan_while (fun b => negb (b =? 0)) buf (N.to_nat PAGE_SIZE) lit_start in
      let literal := take (N.to_nat (i2 - lit_start)) (drop (N.to_nat lit_start) buf) in
      if (0 <? zero_run) || negb (#|literal| =? 0)
      then MkRunLiteral zero_run literal :: rle_encode_loop fuel buf i2
      else rle_encode_loop fuel buf i2
    else []
  end.

Definition rle_encode (buf : list N) : list RunLiteral :=
  rle_encode_loop (N.to_nat PAGE_SIZE) buf 0.

Section operations.
Context `{BuildProfile}.

(** One round of the decoder: [(out, pos)] is the output array and the cursor. *)
Definition rle_decode_run (st : list N * N) (r : RunLiteral) : outcome (list N * N) :=
  let '(out, pos0) := st in
  pos ← uadd 64 pos0 (zero_run r);
  stop0 ← uadd 64 pos #|literal r|;
  let stop := N.min stop0 PAGE_SIZE in
  out' ← (if pos <? PAGE_SIZE then
            src ← slice_to (literal r) (stop - pos);
            slice_copy out pos stop src
          else Ret out);
  Ret (out', stop).

Definition rle_decode (runs : list RunLiteral) : outcome (list N) :=
  st ← for_each rle_decode_run runs (zero_page, 0);
  Ret (fst st).

(** ** The engine *)

Record DeltaEngine := MkDeltaEngine {
  baseline : list (list N);
  have_baseline : list bool
}.

Definition DeltaEngine_new (initial_capacity_pages : N) : outcome DeltaEngine :=
  baseline ← vec_resize PAGE_SIZE [] initial_capacity_pages zero_page;
  Ret (MkDeltaEngine baseline (replicate (N.to_nat initial_capacity_pages) false)).

Definition DeltaEngine_ensure_capacity (e : DeltaEngine) (page_idx : N) : outcome DeltaEngine :=
  if #|baseline e| <=? page_idx then
    n ← uadd 64 page_idx 1;
    baseline' ← vec_resize PAGE_SIZE (baseline e) n zero_page;
    have' ← vec_resize 1 (have_baseline e) n false;
    Ret (MkDeltaEngine baseline' have')
  else Ret e.

Definition DeltaEngine_diff_and_commit (e0 : DeltaEngine) (page_idx : N) (current : list N) :
    outcome (DeltaEngine * PageDelta) :=
  if negb (#|current| =? PAGE_SIZE) then Panic AssertFailed else
  let idx := page_idx in
  e ← DeltaEngine_ensure_capacity e0 idx;
  have ← vec_index (have_baseline e) idx;
  if negb have then
    baseline' ← vec_set (baseline e) idx current;
    have' ← vec_set (have_baseline e) idx true;
    Ret (MkDeltaEngine baseline' have', Raw page_idx current)
  else
    prev ← vec_index (baseline e) idx;
    let xor_buf := zip_with N.lxor prev current in
    let runs := rle_encode xor_buf in
    let raw_saved_size := PAGE_SIZE in
    let rle_size := foldr (fun r acc => 8 + #|literal r| + acc) 0 runs in
    baseline' ← vec_set (baseline e) idx current;
    let e' := MkDeltaEngine baseline' (have_baseline e) in
    if rle_size <? raw_saved_size then Ret (e', Xor page_idx runs)
    else Ret (e', Raw page_idx current).

Definition DeltaEngine_apply (e0 : DeltaEngine) (delta : PageDelta) : outcome (DeltaEngine * list N) :=
  let idx := PageDelta_page_idx delta in
  e ← DeltaEngine_ensure_capacity e0 idx;
  out ← match delta with
        | Raw _ bytes => Ret bytes
        | Xor _ runs =>
          have ← vec_index (have_baseline e) idx;
          prev ← (if (have : bool) then vec_index (baseline e) idx else Ret zero_page);
          xor_buf ← rle_decode runs;
          Ret (zip_with N.lxor prev xor_buf)
        end;
  baseline' ← vec_set (baseline e) idx out;
  have' ← vec_set (have_baseline e) idx true;
  Ret (MkDeltaEngine baseline' have', out).

End operations.

#[export] Instance DeltaEngine_eq_dec : EqDecision DeltaEngine.
Proof. solve_decision. Defined.

(** ** Invariant and abstract view *)

Record engine_wf (e : DeltaEngine) : Prop := {
  engine_wf_len : length (baseline e) = length (have_baseline e);
  engine_wf_pages : Forall (fun p => #|p| = PAGE_SIZE) (baseline e)
}.

(** The copy an engine holds of a page, if it has seen the page. *)
Definition engine_page (e : DeltaEngine) (i : N) : option (list N) :=
  match have_baseline e !! N.to_nat i with
  | Some true => baseline e !! N.to_nat i
  | _ => None
  end.

(** Page numbers whose table fits the address space. *)
Definition page_fits (i : N) : Prop := (i + 1) * PAGE_SIZE < 2 ^ 63.

(** ** Run-length coding: lemmas *)

Lemma len_zero_page : #|zero_page| = PAGE_SIZE.
Proof. apply len_replicate. Qed.

Lemma scan_while_spec p buf fuel i :
  i <= PAGE_SIZE -> PAGE_SIZE - i <= N.of_nat fuel ->
  let j := scan_while p buf fuel i in
  i <= j <= PAGE_SIZE /\
  (forall k, i <= k < j -> p (buf !!! N.to_nat k) = true) /\
  (j < PAGE_SIZE -> p (buf !!! N.to_nat j) = false).
Proof.
  revert i. induction fuel as [|fuel IH]; intros i Hi Hf; simpl.
  { split_and!; [lia | lia | intros k; lia | lia]. }
  case_test.
  - destruct (IH (i + 1)) as (Hj & Hin & Hout); [lia..|]. split_and!; [lia.. | | done].
    intros k Hk. destruct (decide (k = i)) as [->|]; [done | apply Hin; lia].
  - split_and!; [lia.. | intros k; lia |]. intros Hlt. destruct E as [E|E]; [|done].
    bool_to_prop. lia.
Qed.

(** A round of the encoder moves the index. *)
Lemma scan_progress buf i :
  i < PAGE_SIZE ->
  let i1 := scan_while (fun b => b =? 0) buf (N.to_nat PAGE_SIZE) i in
  let i2 := scan_while (fun b => negb (b =? 0)) buf (N.to_nat PAGE_SIZE) i1 in
  i <= i1 <= i2 /\ i < i2 <= PAGE_SIZE.
Proof.
  intros Hi i1 i2.
  destruct (scan_while_spec (fun b => b =? 0) buf (N.to_nat PAGE_SIZE) i) as (Hi1 & _ & Hnz); [lia..|].
  fold i1 in Hi1, Hnz.
  destruct (scan_while_spec (fun b => negb (b =? 0)) buf (N.to_nat PAGE_SIZE) i1) as (Hi2 & _ & Hstop); [lia..|].
  fold i2 in Hi2, Hstop. clearbody i2. clearbody i1. destruct (decide (i < i2)); [lia|]. exfalso. assert (i2 = i1) as -> by lia.
  specialize (Hnz ltac:(lia)). specialize (Hstop ltac:(lia)). simpl in *. by rewrite Hnz in Hstop.
Qed.

(** One round of the encoder: a maximal stretch of zero bytes followed by a
    maximal stretch of non-zero bytes, at least one of them not empty. *)
Lemma rle_encode_step buf fuel i :
  #|buf| = PAGE_SIZE -> i < PAGE_SIZE ->
  exists i1 i2,
    rle_encode_loop (S fuel) buf i =
      MkRunLiteral (i1 - i) (take (N.to_nat (i2 - i1)) (drop (N.to_nat i1) buf)) ::
      rle_encode_loop fuel buf i2 /\
    i <= i1 <= i2 /\ i2 <= PAGE_SIZE /\ i < i2 /\
    (forall k, i <= k < i1 -> buf !!! N.to_nat k = 0) /\
    (forall k, i1 <= k < i2 -> buf !!! N.to_nat k <> 0).
Proof.
  intros Hlen Hi. cbn [rle_encode_loop]. rewrite (proj2 (N.ltb_lt _ _) Hi).
  destruct (scan_progress buf i Hi) as [Hi12 Hprog].
  destruct (scan_while_spec (fun b => b =? 0) buf (N.to_nat PAGE_SIZE) i) as (Hi1 & Hz & _); [lia..|].
  set (i1 := scan_while _ _ _ i) in *.
  destruct (scan_while_spec (fun b => negb (b =? 0)) buf (N.to_nat PAGE_SIZE) i1) as (Hi2 & Hl & _); [lia..|].
  set (i2 := scan_while _ _ _ i1) in *. clearbody i2. clearbody i1. simpl in *.
  exists i1, i2. split_and!; [|lia|lia|lia|lia| |].
  - assert (as_unsigned 32 (i1 - i) = i1 - i) as -> by (apply N.mod_small; page_lia).
    rewrite (proj2 (orb_true_iff _ _)); [done|]. destruct (decide (i < i1)).
    + left. apply N.ltb_lt. lia.
    + right. apply negb_true_iff, N.eqb_neq. rewrite len_take; rewrite ?len_drop; lia.
  - intros k Hk. apply N.eqb_eq, Hz, Hk.
  - intros k Hk. apply N.eqb_neq, negb_true_iff, Hl, Hk.
Qed.

(** A decoder state that has reproduced the first [i] bytes of [buf]. *)
Definition decoded_upto (buf : list N) (i : N) : list N * N :=
  (take (N.to_nat i) buf ++ replicate (N.to_nat (PAGE_SIZE - i)) 0, i).

(** A stretch of zero bytes, as a replicated zero. *)
Lemma take_zeros buf i j :
  i <= j <= #|buf| -> (forall k, i <= k < j -> buf !!! N.to_nat k = 0) ->
  take (N.to_nat j) buf = take (N.to_nat i) buf ++ replicate (N.to_nat (j - i)) 0.
Proof.
  intros Hij Hz. unfold len in Hij. apply list_eq. intros k.
  destruct (decide (k < N.to_nat i)%nat).
  { rewrite lookup_app_l by (rewrite length_take; lia). by rewrite !lookup_take_lt by lia. }
  rewrite lookup_app_r by (rewrite length_take; lia). rewrite length_take, Nat.min_l by lia.
  destruct (decide (k < N.to_nat j)%nat).
  - rewrite lookup_take_lt, lookup_replicate_2 by lia.
    specialize (Hz (N.of_nat k)). rewrite Nat2N.id in Hz.
    rewrite list_lookup_lookup_total_lt by lia. f_equal. apply Hz. lia.
  - rewrite lookup_take_ge by lia. symmetry. apply lookup_ge_None_2. rewrite length_replicate. lia.
Qed.

(** Skipping zero bytes does not change the decoder's output array. *)
Lemma decoded_skip_zeros buf i j :
  #|buf| = PAGE_SIZE -> i <= j <= PAGE_SIZE -> (forall k, i <= k < j -> buf !!! N.to_nat k = 0) ->
  fst (decoded_upto buf i) = fst (decoded_upto buf j).
Proof.
  intros Hlen Hij Hz. simpl. rewrite (take_zeros buf i j) by (rewrite ?Hlen; done).
  rewrite <- app_assoc, <- replicate_add. do 2 f_equal. lia.
Qed.

Section decoding.
Context `{BuildProfile}.

Lemma rle_decode_run_step buf i i1 i2 :
  #|buf| = PAGE_SIZE -> i <= i1 <= i2 -> i2 <= PAGE_SIZE ->
  (forall k, i <= k < i1 -> buf !!! N.to_nat k = 0) ->
  rle_decode_run (decoded_upto buf i)
    (MkRunLiteral (i1 - i) (take (N.to_nat (i2 - i1)) (drop (N.to_nat i1) buf))) =
  Ret (decoded_upto buf i2).
Proof.
  intros Hlen Hi Hi2 Hz. pose proof (decoded_skip_zeros buf i i1 Hlen ltac:(lia) Hz) as Hskip.
  simpl in Hskip. unfold rle_decode_run, decoded_upto. rewrite Hskip. simpl.
  assert (#|take (N.to_nat (i2 - i1)) (drop (N.to_nat i1) buf)| = i2 - i1) as Hlit.
  { apply len_take. rewrite len_drop. lia. }
  rewrite uadd_ok by page_lia. simpl. replace (i + (i1 - i)) with i1 by lia.
  rewrite Hlit, uadd_ok by page_lia. simpl. replace (N.min (i1 + (i2 - i1)) PAGE_SIZE) with i2 by lia.
  case_test; [|by replace i2 with i1 by lia].
  rewrite slice_to_ok by lia. simpl. rewrite take_take, Nat.min_id.
  rewrite slice_copy_ok; [|rewrite len_app, len_replicate, len_take; lia | done]. simpl.
  do 2 f_equal. unfold len in Hlen.
  rewrite take_app_le by (rewrite length_take; lia). rewrite take_take, Nat.min_id.
  rewrite drop_app_ge by (rewrite length_take; lia). rewrite drop_replicate, app_assoc.
  rewrite take_take_drop. f_equal; f_equal; [lia | rewrite length_take; lia].
Qed.

Lemma rle_decode_loop buf fuel i :
  #|buf| = PAGE_SIZE -> i <= PAGE_SIZE -> PAGE_SIZE - i <= N.of_nat fuel ->
  for_each rle_decode_run (rle_encode_loop fuel buf i) (decoded_upto buf i) =
  Ret (decoded_upto buf PAGE_SIZE).
Proof.
  intros Hlen. revert i. induction fuel as [|fuel IH]; intros i Hi Hf.
  { simpl. by replace i with PAGE_SIZE by lia. }
  destruct (decide (i < PAGE_SIZE)) as [Hlt|Hge].
  - destruct (rle_encode_step buf fuel i Hlen Hlt) as (i1 & i2 & -> & Hi1 & Hi2 & Hprog & Hz & _).
    cbn [for_each]. rewrite rle_decode_run_step by (done || lia). apply IH; lia.
  - cbn [rle_encode_loop]. rewrite (proj2 (N.ltb_ge _ _)) by lia. simpl.
    by replace i with PAGE_SIZE by lia.
Qed.

Lemma rle_decode_encode buf : #|buf| = PAGE_SIZE -> rle_decode (rle_encode buf) = Ret buf.
Proof.
  intros Hlen. unfold rle_decode, rle_encode.
  change (zero_page, 0) with (decoded_upto buf 0).
  rewrite rle_decode_loop by (done || lia).
  cbn [mbind outcome_bind fst decoded_upto]. f_equal.
  rewrite N.sub_diag. cbn [N.to_nat replicate]. rewrite app_nil_r. apply take_ge. unfold len in Hlen. lia.
Qed.

(** The runs an encoder emits: not empty, with literals free of zero bytes. *)
Definition run_canonical (r : RunLiteral) : Prop :=
  0 < zero_run r + #|literal r| /\ Forall (fun b => b <> 0) (literal r).

Definition runs_span (runs : list RunLiteral) : N :=
  foldr (fun r acc => zero_run r + #|literal r| + acc) 0 runs.

Lemma rle_encode_loop_canonical buf fuel i :
  #|buf| = PAGE_SIZE -> i <= PAGE_SIZE -> PAGE_SIZE - i <= N.of_nat fuel ->
  Forall run_canonical (rle_encode_loop fuel buf i) /\
  runs_span (rle_encode_loop fuel buf i) = PAGE_SIZE - i.
Proof.
  intros Hlen. revert i. induction fuel as [|fuel IH]; intros i Hi Hf.
  { simpl. split; [constructor | lia]. }
  destruct (decide (i < PAGE_SIZE)) as [Hlt|Hge].
  - destruct (rle_encode_step buf fuel i Hlen Hlt) as (i1 & i2 & -> & Hi1 & Hi2 & Hprog & _ & Hnz).
    assert (#|take (N.to_nat (i2 - i1)) (drop (N.to_nat i1) buf)| = i2 - i1) as Hlit.
    { apply len_take. rewrite len_drop. lia. }
    destruct (IH i2) as [Hc Hs]; [lia..|]. split.
    + constructor; [|done]. split; simpl; [rewrite Hlit; lia|].
      apply Forall_lookup. intros k b [Hb Hk]%lookup_take_Some.
      rewrite lookup_drop in Hb. specialize (Hnz (i1 + N.of_nat k)).
      rewrite N2Nat.inj_add, Nat2N.id in Hnz. erewrite list_lookup_total_correct in Hnz by exact Hb.
      apply Hnz. lia.
    + simpl. rewrite Hlit, Hs. lia.
  - cbn [rle_encode_loop]. rewrite (proj2 (N.ltb_ge _ _)) by lia. simpl. split; [constructor | lia].
Qed.

Lemma rle_encode_canonical buf :
  #|buf| = PAGE_SIZE ->
  Forall run_canonical (rle_encode buf) /\ runs_span (rle_encode buf) = PAGE_SIZE.
Proof.
  intros Hlen. unfold rle_encode.
  destruct (rle_encode_loop_canonical buf (N.to_nat PAGE_SIZE) 0 Hlen) as [Hc Hs]; [lia..|].
  split; [done|]. rewrite Hs. lia.
Qed.

(** Runs as their types allow: a [u32] and a vector, whose length is below [isize::MAX]. *)
Definition run_typed (r : RunLiteral) : Prop := zero_run r < 2 ^ 32 /\ #|literal r| < 2 ^ 63.

(** The decoder returns a page made of zero bytes and bytes of the literals. *)
Lemma rle_decode_bytes (P : N -> Prop) runs :
  P 0 -> Forall (fun r => run_typed r /\ Forall P (literal r)) runs ->
  exists out, rle_decode runs = Ret out /\ #|out| = PAGE_SIZE /\ Forall P out.
Proof.
  intros Hp0 Hty. unfold rle_decode.
  destruct (for_each_inv (fun st => (#|st.1| = PAGE_SIZE /\ Forall P st.1) /\ st.2 <= PAGE_SIZE)
    rle_decode_run runs (zero_page, 0)) as ([out pos] & -> & [Hlen HP] & _); [| |by exists out].
  { split; [split; [apply len_zero_page | by apply Forall_replicate] | simpl; lia]. }
  intros [out pos] r [[Hout HP] Hpos] Hr. rewrite Forall_forall in Hty. destruct (Hty r Hr) as [[Hz Hl] Hlit].
  simpl in *. unfold rle_decode_run. rewrite uadd_ok by page_lia. simpl. rewrite uadd_ok by page_lia. simpl.
  case_test; simpl; [|eexists; split; [done|]; simpl; split; [done | lia]].
  rewrite slice_to_ok by lia. simpl. rewrite slice_copy_ok; [|lia | rewrite len_take; lia]. simpl.
  eexists. split; [done|]. simpl. split; [|lia]. split.
  - rewrite !len_app, !len_take, len_drop by lia. lia.
  - apply Forall_app_2; [by apply Forall_take|]. apply Forall_app_2; [by apply Forall_take | by apply Forall_drop].
Qed.

Lemma rle_decode_typed runs :
  Forall run_typed runs -> exists out, rle_decode runs = Ret out /\ #|out| = PAGE_SIZE.
Proof.
  intros Hty. destruct (rle_decode_bytes (fun _ => True) runs) as (out & H1 & H2 & _); [done | | by exists out].
  eapply Forall_impl; [exact Hty|]. intros r Hr. split; [done | by apply Forall_true].
Qed.

End decoding.

(** ** Engine: lemmas *)

(** From here on the codec is used through its lemmas only. *)
#[local] Opaque rle_encode rle_decode zero_page.

Lemma engine_page_len e i p : engine_wf e -> engine_page e i = Some p -> #|p| = PAGE_SIZE.
Proof.
  intros [_ Hp] He. unfold engine_page in He. repeat case_match; try done.
  exact (Forall_lookup_1 _ _ _ _ Hp He).
Qed.

(** Writing a page and its flag. *)
Lemma engine_page_set e i p j :
  engine_wf e -> i < #|baseline e| ->
  engine_page (MkDeltaEngine (<[N.to_nat i := p]> (baseline e)) (<[N.to_nat i := true]> (have_baseline e))) j =
  if decide (j = i) then Some p else engine_page e j.
Proof.
  intros [Hl _] Hi. unfold engine_page, len in *. simpl. case_decide as Hj.
  - subst j. by rewrite !list_lookup_insert_eq by lia.
  - by rewrite !list_lookup_insert_ne by lia.
Qed.

Lemma engine_wf_set e i p :
  engine_wf e -> #|p| = PAGE_SIZE ->
  engine_wf (MkDeltaEngine (<[N.to_nat i := p]> (baseline e)) (<[N.to_nat i := true]> (have_baseline e))).
Proof. intros [Hl Hp] Hlen. constructor; simpl; [by rewrite !length_insert | by apply Forall_insert]. Qed.

Lemma flag_not_set {A} n i (x : option A) :
  match replicate n false !! i with Some true => x | _ => None end = None.
Proof. destruct (replicate n false !! i) as [b|] eqn:Hr; [|done]. by apply lookup_replicate in Hr as [-> _]. Qed.

Section engine.
Context `{BuildProfile}.

Lemma ensure_capacity_ok e i :
  engine_wf e -> page_fits i ->
  exists e', DeltaEngine_ensure_capacity e i = Ret e' /\ engine_wf e' /\
    (forall j, engine_page e' j = engine_page e j) /\ i < #|baseline e'|.
Proof.
  intros [Hl Hp] Hi. unfold DeltaEngine_ensure_capacity. case_test; [|by exists e].
  unfold page_fits in Hi. rewrite uadd_ok by page_lia. simpl.
  rewrite !vec_resize_ok by page_lia. simpl. unfold len in E.
  rewrite !take_ge by lia. eexists. split; [done|]. split_and!.
  - constructor; simpl; [by rewrite !length_app, !length_replicate, Hl|].
    apply Forall_app. split; [done|]. apply Forall_replicate, len_zero_page.
  - intros j. unfold engine_page. simpl. rewrite !lookup_app.
    destruct (have_baseline e !! N.to_nat j) as [[]|] eqn:Hj; [| done |].
    + apply lookup_lt_Some in Hj. destruct (baseline e !! N.to_nat j) eqn:Hb; [done|].
      apply lookup_ge_None in Hb. lia.
    + by rewrite flag_not_set.
  - simpl. unfold len. rewrite length_app, length_replicate. lia.
Qed.

Lemma new_engine_ok cap :
  cap * PAGE_SIZE < 2 ^ 63 ->
  exists e, DeltaEngine_new cap = Ret e /\ engine_wf e /\ forall j, engine_page e j = None.
Proof.
  intros Hcap. unfold DeltaEngine_new. rewrite vec_resize_ok by done. simpl.
  rewrite take_nil. simpl. rewrite Nat.sub_0_r. eexists. split; [done|]. split.
  - constructor; simpl; [by rewrite !length_replicate | apply Forall_replicate, len_zero_page].
  - intros j. unfold engine_page. simpl. by rewrite flag_not_set.
Qed.

(** XOR with the old page undoes XOR with the old page. *)
Lemma xor_page_cancel (prev c : list N) :
  length prev = length c -> zip_with N.lxor prev (zip_with N.lxor prev c) = c.
Proof.
  intros Hlen. revert c Hlen. induction prev as [|x prev IH]; intros [|y c] Hlen; simplify_eq/=; [done|].
  by rewrite <- N.lxor_assoc, N.lxor_nilpotent, N.lxor_0_l, IH.
Qed.

Lemma xor_zero_page (c : list N) : #|c| = PAGE_SIZE -> zip_with N.lxor zero_page c = c.
Proof.
  intros Hc. assert (zero_page = replicate (length c) 0) as ->.
  { change (replicate (N.to_nat PAGE_SIZE) 0 = replicate (length c) 0). f_equal. unfold len in Hc. lia. }
  clear Hc. induction c as [|x c IH]; simpl; [done|]. by rewrite IH.
Qed.

Lemma len_xor_page (prev c : list N) :
  #|prev| = PAGE_SIZE -> #|c| = PAGE_SIZE -> #|zip_with N.lxor prev c| = PAGE_SIZE.
Proof. unfold len. rewrite length_zip_with. lia. Qed.

Lemma rle_size_encoded_len i runs :
  foldr (fun r acc => 8 + #|literal r| + acc) 0 runs = PageDelta_encoded_len (Xor i runs).
Proof. simpl. induction runs as [|r runs IH]; simpl; [done|]. rewrite IH. lia. Qed.

(** What a sender emits for [current]: the page, or its cheaper difference. *)
Definition delta_for (e : DeltaEngine) (i : N) (current : list N) (d : PageDelta) : Prop :=
  PageDelta_encoded_len d <= PAGE_SIZE /\
  (d = Raw i current \/
   exists prev, engine_page e i = Some prev /\ d = Xor i (rle_encode (zip_with N.lxor prev current)) /\
     PageDelta_encoded_len d < PAGE_SIZE).

Lemma diff_and_commit_ok e i c :
  engine_wf e -> page_fits i -> #|c| = PAGE_SIZE ->
  exists e' d, DeltaEngine_diff_and_commit e i c = Ret (e', d) /\ engine_wf e' /\
    (forall j, engine_page e' j = if decide (j = i) then Some c else engine_page e j) /\
    delta_for e i c d.
Proof.
  intros Hwf Hi Hc. unfold DeltaEngine_diff_and_commit. rewrite Hc, N.eqb_refl. simpl.
  destruct (ensure_capacity_ok e i Hwf Hi) as (e1 & -> & Hwf1 & Hview & Hlt). simpl.
  pose proof (engine_wf_len e1 Hwf1) as Hl.
  assert (i < #|have_baseline e1|) as Hlt' by (unfold len in *; lia).
  destruct (len_lookup_is_Some _ _ Hlt') as [have Hhave].
  destruct (len_lookup_is_Some _ _ Hlt) as [prev Hprev].
  rewrite (proj2 (vec_index_Ret _ _ _) Hhave). simpl.
  set (e2 := MkDeltaEngine (<[N.to_nat i:=c]> (baseline e1)) (<[N.to_nat i:=true]> (have_baseline e1))).
  assert (engine_wf e2) as Hwf2 by (by apply engine_wf_set).
  assert (forall j, engine_page e2 j = if decide (j = i) then Some c else engine_page e j) as Hview2.
  { intros j. rewrite <- Hview. by apply engine_page_set. }
  assert (delta_for e i c (Raw i c)) as Hraw by (split; [simpl; lia | by left]).
  destruct have; simpl.
  - rewrite (proj2 (vec_index_Ret _ _ _) Hprev). simpl. rewrite vec_set_ok by done. simpl.
    assert (MkDeltaEngine (<[N.to_nat i:=c]> (baseline e1)) (have_baseline e1) = e2) as ->.
    { unfold e2. f_equal. symmetry. by apply list_insert_id. }
    rewrite (rle_size_encoded_len i). case_test; [|by exists e2, (Raw i c)].
    do 2 eexists. split_and!; [done..|]. split; [lia|]. right. exists prev. split_and!; [|done..].
    rewrite <- Hview. unfold engine_page. by rewrite Hhave.
  - rewrite !vec_set_ok by done. by exists e2, (Raw i c).
Qed.

(** What [apply] does with its output page, whatever the delta. *)
Lemma apply_commit e d out :
  engine_wf e -> page_fits (PageDelta_page_idx d) -> #|out| = PAGE_SIZE ->
  (forall e1, engine_wf e1 -> (forall j, engine_page e1 j = engine_page e j) ->
    PageDelta_page_idx d < #|baseline e1| ->
    match d with
    | Raw _ bytes => Ret bytes
    | Xor _ runs =>
      have ← vec_index (have_baseline e1) (PageDelta_page_idx d);
      prev ← (if (have : bool) then vec_index (baseline e1) (PageDelta_page_idx d) else Ret zero_page);
      xor_buf ← rle_decode runs;
      Ret (zip_with N.lxor prev xor_buf)
    end = Ret out) ->
  exists e', DeltaEngine_apply e d = Ret (e', out) /\ engine_wf e' /\
    forall j, engine_page e' j = if decide (j = PageDelta_page_idx d) then Some out else engine_page e j.
Proof.
  intros Hwf Hfit Hlen Hout. unfold DeltaEngine_apply.
  destruct (ensure_capacity_ok e _ Hwf Hfit) as (e1 & -> & Hwf1 & Hview & Hlt).
  cbn [mbind outcome_bind]. rewrite Hout by done. cbn [mbind outcome_bind].
  pose proof (engine_wf_len e1 Hwf1) as Hl.
  rewrite !vec_set_ok by (unfold len in *; lia). simpl. eexists. split; [done|]. split.
  - by apply engine_wf_set.
  - intros j. rewrite <- Hview. by apply engine_page_set.
Qed.

Lemma apply_raw_ok e i c :
  engine_wf e -> page_fits i -> #|c| = PAGE_SIZE ->
  exists e', DeltaEngine_apply e (Raw i c) = Ret (e', c) /\ engine_wf e' /\
    forall j, engine_page e' j = if decide (j = i) then Some c else engine_page e j.
Proof. intros. by apply (apply_commit e (Raw i c)). Qed.

(** A difference against the page the receiver holds, for any encoding of it. *)
Lemma apply_xor_runs e i prev c runs xor_buf :
  engine_wf e -> page_fits i -> #|c| = PAGE_SIZE -> engine_page e i = Some prev ->
  rle_decode runs = Ret xor_buf -> zip_with N.lxor prev xor_buf = c ->
  exists e', DeltaEngine_apply e (Xor i runs) = Ret (e', c) /\ engine_wf e' /\
    forall j, engine_page e' j = if decide (j = i) then Some c else engine_page e j.
Proof.
  intros Hwf Hfit Hc Hprev Hdec Hxor.
  apply (apply_commit e (Xor i runs)); [done..|]. simpl. intros e1 Hwf1 Hview Hlt.
  rewrite <- Hview in Hprev. unfold engine_page in Hprev.
  destruct (have_baseline e1 !! N.to_nat i) as [[]|] eqn:Hh; [|done..].
  rewrite (proj2 (vec_index_Ret _ _ _) Hh). simpl. rewrite (proj2 (vec_index_Ret _ _ _) Hprev). simpl.
  rewrite Hdec. simpl. by rewrite Hxor.
Qed.

Lemma apply_xor_ok e i prev c :
  engine_wf e -> page_fits i -> #|c| = PAGE_SIZE -> engine_page e i = Some prev ->
  exists e', DeltaEngine_apply e (Xor i (rle_encode (zip_with N.lxor prev c))) = Ret (e', c) /\ engine_wf e' /\
    forall j, engine_page e' j = if decide (j = i) then Some c else engine_page e j.
Proof.
  intros Hwf Hfit Hc Hprev. pose proof (engine_page_len e i prev Hwf Hprev) as Hpl.
  apply (apply_xor_runs e i prev c _ (zip_with N.lxor prev c)); [done..| |].
  - by apply rle_decode_encode, len_xor_page.
  - apply xor_page_cancel, len_inj. congruence.
Qed.

(** The receiver's side of one update, for a receiver in step with the sender. *)
Lemma apply_delta_for p s i c d :
  engine_wf s -> page_fits i -> #|c| = PAGE_SIZE -> engine_page p i = engine_page s i -> delta_for p i c d ->
  exists s', DeltaEngine_apply s d = Ret (s', c) /\ engine_wf s' /\
    forall j, engine_page s' j = if decide (j = i) then Some c else engine_page s j.
Proof.
  intros Hwf Hfit Hc Heq [_ [->|(prev & Hprev & -> & _)]]; [by apply apply_raw_ok|].
  apply apply_xor_ok; [done..|congruence].
Qed.

(** A difference for a page the receiver holds no copy of. *)
Lemma apply_xor_none e i runs out :
  engine_wf e -> page_fits i -> rle_decode runs = Ret out -> #|out| = PAGE_SIZE -> engine_page e i = None ->
  exists e', DeltaEngine_apply e (Xor i runs) = Ret (e', out) /\ engine_wf e' /\
    forall j, engine_page e' j = if decide (j = i) then Some out else engine_page e j.
Proof.
  intros Hwf Hfit Hdec Hlen Hnone. apply (apply_commit e (Xor i runs) out Hwf Hfit Hlen).
  intros e1 Hwf1 Hview Hlt. simpl in *. rewrite <- Hview in Hnone. unfold engine_page in Hnone.
  pose proof (engine_wf_len e1 Hwf1) as Hl.
  destruct (len_lookup_is_Some (have_baseline e1) i) as [have Hh]; [unfold len in *; lia|].
  destruct (len_lookup_is_Some _ _ Hlt) as [prev Hprev].
  rewrite (proj2 (vec_index_Ret _ _ _) Hh). simpl. rewrite Hh, Hprev in Hnone.
  destruct have; [done|]. simpl. rewrite Hdec. simpl. by rewrite xor_zero_page.
Qed.

(** ** Theorems *)

(** C17. Decoding inverts encoding: for every page-sized buffer the encoder's
    runs cover exactly [PAGE_SIZE] bytes, none is empty, no literal holds a zero
    byte, and the decoder turns them back into the buffer without a panic. *)
Theorem rle_roundtrip (buf : list N) :
  #|buf| = PAGE_SIZE ->
  rle_decode (rle_encode buf) = Ret buf /\
  Forall run_canonical (rle_encode buf) /\ runs_span (rle_encode buf) = PAGE_SIZE.
Proof.
  intros Hlen. split; [by apply rle_decode_encode | by apply rle_encode_canonical].
Qed.

(** C38. The decoder is total on what a peer can send: for any sequence of
    well-typed runs, canonical or not, overlong or not, it returns a full page
    instead of panicking on a slice bound. *)
Theorem rle_decode_total (runs : list RunLiteral) :
  Forall run_typed runs -> exists out, rle_decode runs = Ret out /\ #|out| = PAGE_SIZE.
Proof. apply rle_decode_typed. Qed.

(** One page update carried from a sending engine to a receiving one; the
    pages the receiver produced are collected. *)
Definition carry_update (st : DeltaEngine * DeltaEngine * list (list N)) (u : N * list N) :
    outcome (DeltaEngine * DeltaEngine * list (list N)) :=
  let '(primary, standby, outs) := st in
  '(primary', delta) ← DeltaEngine_diff_and_commit primary u.1 u.2;
  '(standby', out) ← DeltaEngine_apply standby delta;
  Ret (primary', standby', outs ++ [out]).

(** The last content an update stream gives a page. *)
Definition latest_page (i : N) (us : list (N * list N)) : option (list N) :=
  foldl (fun acc u => if decide (u.1 = i) then Some u.2 else acc) None us.

Lemma carry_updates_in_step us p s outs base_view :
  engine_wf p -> engine_wf s -> Forall (fun u => page_fits u.1 /\ #|u.2| = PAGE_SIZE) us ->
  (forall i, engine_page p i = base_view i /\ engine_page s i = base_view i) ->
  exists p' s', for_each carry_update us (p, s, outs) = Ret (p', s', outs ++ us.*2) /\
    forall i, let v := foldl (fun acc u => if decide (u.1 = i) then Some u.2 else acc) (base_view i) us in
      engine_page p' i = v /\ engine_page s' i = v.
Proof.
  intros Hp Hs Hus. revert p s outs base_view Hp Hs.
  induction Hus as [|[i c] us [Hfit Hlen] _ IH]; intros p s outs base_view Hp Hs Hview; simpl.
  { exists p, s. by rewrite app_nil_r. }
  destruct (diff_and_commit_ok p i c Hp Hfit Hlen) as (p1 & d & -> & Hp1 & Hv1 & Hd). simpl.
  destruct (apply_delta_for p s i c d Hs Hfit Hlen) as (s1 & -> & Hs1 & Hv2); [|done|].
  { by destruct (Hview i) as [-> ->]. }
  simpl. destruct (IH p1 s1 (outs ++ [c]) (fun j => if decide (i = j) then Some c else base_view j))
    as (p' & s' & -> & Hv); [done..| |].
  { intros j. rewrite Hv1, Hv2. destruct (Hview j) as [-> ->]. by repeat case_decide. }
  exists p', s'. by rewrite <- app_assoc.
Qed.

(** C10. Replication codec: two fresh engines, of any initial capacities, stay in
    step over any stream of page updates. No call panics, the receiver produces
    every page exactly as the sender saw it (through raw and XOR deltas alike),
    and afterwards both engines hold, for every page, its latest content. *)
Theorem delta_stream_in_step (cap1 cap2 : N) (us : list (N * list N)) :
  cap1 * PAGE_SIZE < 2 ^ 63 -> cap2 * PAGE_SIZE < 2 ^ 63 ->
  Forall (fun u => page_fits u.1 /\ #|u.2| = PAGE_SIZE) us ->
  exists p0 s0 p s, DeltaEngine_new cap1 = Ret p0 /\ DeltaEngine_new cap2 = Ret s0 /\
    for_each carry_update us (p0, s0, []) = Ret (p, s, us.*2) /\
    forall i, engine_page p i = latest_page i us /\ engine_page s i = latest_page i us.
Proof.
  intros H1 H2 Hus. destruct (new_engine_ok cap1 H1) as (p0 & E1 & Hp & Hvp).
  destruct (new_engine_ok cap2 H2) as (s0 & E2 & Hs & Hvs).
  destruct (carry_updates_in_step us p0 s0 [] (fun _ => None) Hp Hs Hus) as (p & s & E & Hv); [done|].
  by exists p0, s0, p, s.
Qed.

(** Size bound: whatever the engine's history, a delta never costs more than
    the raw page; the XOR form is chosen only against a known previous copy and
    only when it is strictly smaller. *)
Theorem diff_never_larger_than_page (e e' : DeltaEngine) (i : N) (current : list N) (d : PageDelta) :
  engine_wf e -> page_fits i -> DeltaEngine_diff_and_commit e i current = Ret (e', d) ->
  PageDelta_page_idx d = i /\ PageDelta_encoded_len d <= PAGE_SIZE /\
  match d with
  | Raw _ bytes => bytes = current
  | Xor _ _ => is_Some (engine_page e i) /\ PageDelta_encoded_len d < PAGE_SIZE
  end.
Proof.
  intros Hwf Hfit Hd. destruct (decide (#|current| = PAGE_SIZE)) as [Hlen|Hlen].
  - destruct (diff_and_commit_ok e i current Hwf Hfit Hlen) as (e1 & d1 & E & _ & _ & Hle & Hform).
    assert (d1 = d) as -> by congruence.
    destruct Hform as [->|(prev & Hprev & -> & Hlt)]; [done|]. by rewrite Hprev.
  - unfold DeltaEngine_diff_and_commit in Hd. apply N.eqb_neq in Hlen as E. by rewrite E in Hd.
Qed.

(** A receiver that has no copy of the page does not notice: a difference is
    then taken against the zero page, so the result is the difference itself,
    returned and stored as if it were the page. *)
Theorem apply_without_baseline (e : DeltaEngine) (i : N) (runs : list RunLiteral) :
  engine_wf e -> page_fits i -> Forall run_typed runs -> engine_page e i = None ->
  exists e' out, rle_decode runs = Ret out /\ DeltaEngine_apply e (Xor i runs) = Ret (e', out) /\
    engine_page e' i = Some out.
Proof.
  intros Hwf Hfit Hty Hnone. destruct (rle_decode_typed runs Hty) as (out & Hdec & Hlen).
  destruct (apply_xor_none e i runs out Hwf Hfit Hdec Hlen Hnone) as (e' & He & _ & Hv).
  exists e', out. split_and!; [done..|]. rewrite Hv. by rewrite decide_True.
Qed.

End engine.

(** ** Witnesses *)

Definition filled_page (b : N) : list N := replicate (N.to_nat PAGE_SIZE) b.
Arguments filled_page : simpl never.

(** A page with one byte changed. *)
Definition poke_page (p : list N) (at_byte b : N) : list N := <[N.to_nat at_byte := b]> p.

Lemma rle_roundtrip_witness :
  let buf := poke_page (poke_page zero_page 10 1) 2000 99 in
  @rle_decode dev_profile (rle_encode buf) = Ret buf /\
  rle_encode buf = [MkRunLiteral 10 [1]; MkRunLiteral 1989 [99]; MkRunLiteral 2095 []].
Proof.
  split.
  - apply (@rle_roundtrip dev_profile (poke_page (poke_page zero_page 10 1) 2000 99)).
    vm_compute. reflexivity.
  - vm_compute. reflexivity.
Defined.

Lemma rle_decode_total_witness :
  exists out, @rle_decode dev_profile [MkRunLiteral 4090 [1; 2; 3; 4; 5; 6; 7; 8]; MkRunLiteral 4294967295 [9]] =
    Ret out /\ #|out| = PAGE_SIZE.
Proof. apply (@rle_decode_total dev_profile). repeat constructor. Defined.

Definition sample_updates : list (N * list N) :=
  [(0, filled_page 7); (2, filled_page 1); (0, poke_page (filled_page 7) 100 8)].

Lemma delta_stream_in_step_witness :
  exists p0 s0 p s, DeltaEngine_new 1 = Ret p0 /\ DeltaEngine_new 4 = Ret s0 /\
    for_each (@carry_update release_profile) sample_updates (p0, s0, []) = Ret (p, s, sample_updates.*2) /\
    engine_page s 0 = Some (poke_page (filled_page 7) 100 8).
Proof.
  destruct (@delta_stream_in_step release_profile 1 4 sample_updates) as (p0 & s0 & p & s & E1 & E2 & E & Hv).
  - vm_compute. reflexivity.
  - vm_compute. reflexivity.
  - repeat constructor; vm_compute; reflexivity.
  - exists p0, s0, p, s. split; [exact E1|]. split; [exact E2|]. split; [exact E|].
    destruct (Hv 0) as [_ Hs]. rewrite Hs. vm_compute. reflexivity.
Defined.

(** An engine that holds one page. *)
Definition one_page_engine : DeltaEngine := MkDeltaEngine [filled_page 7] [true].

Lemma one_page_engine_wf : engine_wf one_page_engine.
Proof. constructor; [reflexivity|]. repeat constructor. Qed.

Lemma diff_never_larger_than_page_witness :
  exists e' d, @DeltaEngine_diff_and_commit dev_profile one_page_engine 0 (poke_page (filled_page 7) 5 0) = Ret (e', d) /\
    PageDelta_encoded_len d <= PAGE_SIZE.
Proof.
  eexists _, _. split; [vm_compute; reflexivity|].
  eapply (@diff_never_larger_than_page dev_profile one_page_engine _ 0 (poke_page (filled_page 7) 5 0)).
  - exact one_page_engine_wf.
  - vm_compute. reflexivity.
  - vm_compute. reflexivity.
Defined.

Lemma apply_without_baseline_witness :
  exists e' out, @rle_decode dev_profile [MkRunLiteral 5 [3]; MkRunLiteral 4090 []] = Ret out /\
    @DeltaEngine_apply dev_profile one_page_engine (Xor 1 [MkRunLiteral 5 [3]; MkRunLiteral 4090 []]) = Ret (e', out) /\
    engine_page e' 1 = Some out.
Proof.
  apply (@apply_without_baseline dev_profile one_page_engine 1).
  - exact one_page_engine_wf.
  - vm_compute. reflexivity.
  - repeat constructor.
  - reflexivity.
Defined.
