(* ===== verification/Blake.v ===== *)
(** * The hash function (crate blake3)

    BLAKE3 is third-party code: a parameter of the model. [Blake3] lists the
    operations the program calls, [Blake3Laws] what their documentation says:
    a hash is a 32-byte value and incremental hashing hashes the concatenation.
    No collision resistance is assumed anywhere; the integrity theorems hand
    back an explicit [hash_collision] instead. *)

From stdpp Require Import vector.
From S2P Require Import Prelude Machine.

Class Blake3 := {
  Hash : Type;
  Hash_eq_dec : EqDecision Hash;
  as_bytes : Hash -> list N;
  hash : list N -> Hash;
  Hasher : Type;
  Hasher_new : Hasher;
  Hasher_update : Hasher -> list N -> Hasher;
  Hasher_finalize : Hasher -> Hash
}.

#[export] Existing Instance Hash_eq_dec.

Class Blake3Laws `{Blake3} : Prop := {
  as_bytes_len : forall h, length (as_bytes h) = 32%nat;
  as_bytes_inj : forall h1 h2, as_bytes h1 = as_bytes h2 -> h1 = h2;
  finalize_chunks : forall cs, Hasher_finalize (foldl Hasher_update Hasher_new cs) = hash (concat cs)
}.

(** Two different inputs with the same hash. *)
Definition hash_collision `{Blake3} : Prop := exists x y : list N, x <> y /\ hash x = hash y.

Section lemmas.
Context `{Blake3Laws}.

(** Equal hashes: equal inputs, or a collision. *)
Lemma hash_eq_or_collision x y : hash x = hash y -> x = y \/ hash_collision.
Proof. intros Hxy. destruct (decide (x = y)); [by left | right; by exists x, y]. Qed.

Lemma as_bytes_app_inj h1 h2 (l1 l2 : list N) :
  as_bytes h1 ++ l1 = as_bytes h2 ++ l2 -> h1 = h2 /\ l1 = l2.
Proof.
  intros Heq. apply app_inj_1 in Heq as [Hh ->]; [|by rewrite !as_bytes_len].
  split; [by apply as_bytes_inj | done].
Qed.

End lemmas.

(** ** A small executable hash, for concrete runs *)

Definition checksum (l : list N) : N := foldl (fun acc b => (acc * 31 + b + 1) mod 65521) 7 l.

Definition toy_hash (l : list N) : vec N 32 :=
  let c := checksum l in
  fun_to_vec (fun i : fin 32 => (c * (N.of_nat (fin_to_nat i) + 1)) mod 251).

Definition toy_blake3 : Blake3 := {|
  Hash := vec N 32;
  Hash_eq_dec := _;
  as_bytes := vec_to_list;
  hash := toy_hash;
  Hasher := list N;
  Hasher_new := [];
  Hasher_update := fun s c => s ++ c;
  Hasher_finalize := toy_hash
|}.

Lemma toy_blake3_laws : @Blake3Laws toy_blake3.
Proof.
  constructor; simpl.
  - intros h. apply length_vec_to_list.
  - intros h1 h2. apply vec_to_list_inj2.
  - intros cs. f_equal. assert (forall acc : list N, foldl (fun s c => s ++ c) acc cs = acc ++ concat cs) as Haux.
    { induction cs as [|c cs IH]; intros acc; simpl; [by rewrite app_nil_r|]. by rewrite IH, app_assoc. }
    apply Haux.
Qed.
