(* ===== verification/Smt.v ===== *)
(** * Sparse Merkle tree (chronos-mem/src/smt.rs, [SparseMerkleTree])

    The tree stores only the hashes of touched leaves and rebuilds its root
    level by level. The reference is the full binary Merkle tree of depth 32
    over all page numbers, [merkle]; the theorems show that the sparse
    computation yields its root in whatever order the hash maps are traversed,
    and that the root commits to every leaf. *)

From S2P Require Import Prelude Machine Blake GuardedMemory Delta.

Definition TREE_DEPTH : nat := 32.
Arguments TREE_DEPTH : simpl never.

Section tree.
Context `{Blake3} `{HashMapIter}.

(** Hash of an inner node: the two child hashes, fed one after the other. *)
Definition hash_children (left right : Hash) : Hash :=
  Hasher_finalize (Hasher_update (Hasher_update Hasher_new (as_bytes left)) (as_bytes right)).

(** The array of [TREE_DEPTH + 1] hashes, filled in bottom-up. *)
Definition default_hashes : list Hash :=
  let hashes0 := replicate (TREE_DEPTH + 1) (hash []) in
  let hashes1 := <[0%nat := hash zero_page]> hashes0 in
  foldl (fun hashes d =>
      let prev := nth (d - 1) hashes (hash []) in
      <[d := hash_children prev prev]> hashes)
    hashes1 (seq 1 TREE_DEPTH).

Record SparseMerkleTree := MkSparseMerkleTree {
  leaves : gmap N Hash;
  defaults : list Hash
}.

Definition SparseMerkleTree_new : SparseMerkleTree := MkSparseMerkleTree ∅ default_hashes.

Definition SparseMerkleTree_default : SparseMerkleTree := SparseMerkleTree_new.

Definition SparseMerkleTree_update_leaf (t : SparseMerkleTree) (page_idx : N) (page_bytes : list N) :
    SparseMerkleTree :=
  let h := hash page_bytes in
  MkSparseMerkleTree (<[page_idx := h]> (leaves t)) (defaults t).

(** [self.defaults[d]], for [d <= TREE_DEPTH]. *)
Definition default_at (t : SparseMerkleTree) (d : nat) : Hash := nth d (defaults t) (hash []).

Definition SparseMerkleTree_leaf_hash (t : SparseMerkleTree) (page_idx : N) : Hash :=
  default (default_at t 0) (leaves t !! page_idx).

(** The loop body for one entry of a level. *)
Definition parent_step (default_child : Hash) (level next : gmap N Hash) (idx : N) : gmap N Hash :=
  let parent := N.shiftr idx 1 in
  match next !! parent with
  | Some _ => next
  | None =>
    let left_idx := N.shiftl parent 1 in
    let right_idx := left_idx + 1 in
    let left := default default_child (level !! left_idx) in
    let right := default default_child (level !! right_idx) in
    <[parent := hash_children left right]> next
  end.

Definition next_level (default_child : Hash) (level : gmap N Hash) : gmap N Hash :=
  foldl (fun next kv => parent_step default_child level next kv.1) ∅ (hash_iter level).

Definition SparseMerkleTree_root (t : SparseMerkleTree) : Hash :=
  if decide (leaves t = ∅) then default_at t TREE_DEPTH
  else
    let level0 := list_to_map (hash_iter (leaves t)) in
    let level := foldl (fun level depth => next_level (default_at t depth) level) level0 (seq 0 TREE_DEPTH) in
    match hash_iter level with
    | (_, h) :: _ => h
    | [] => default_at t TREE_DEPTH
    end.

(** ** Reference tree *)

(** Root of the subtree of height [d] at position [i] of the full binary tree
    whose leaves are [leaf]. *)
Fixpoint merkle (leaf : N -> Hash) (d : nat) (i : N) : Hash :=
  match d with
  | O => leaf i
  | S d => hash_children (merkle leaf d (2 * i)) (merkle leaf d (2 * i + 1))
  end.

(** Root of a subtree of height [d] without any touched leaf. *)
Fixpoint default_root (d : nat) : Hash :=
  match d with
  | O => hash zero_page
  | S d => hash_children (default_root d) (default_root d)
  end.

Record smt_wf (t : SparseMerkleTree) : Prop := {
  smt_wf_defaults : defaults t = default_hashes;
  smt_wf_keys : forall i, is_Some (leaves t !! i) -> i < 2 ^ N.of_nat TREE_DEPTH
}.

(** ** Lemmas *)

Lemma length_default_loop l (hashes : list Hash) :
  length (foldl (fun hashes d =>
      let prev := nth (d - 1) hashes (hash []) in
      <[d := hash_children prev prev]> hashes) hashes l) = length hashes.
Proof. revert hashes. induction l as [|d l IH]; intros hashes; simpl; [done|]. by rewrite IH, length_insert. Qed.

(** The filling loop makes the entries it has passed equal to [default_root]. *)
Lemma default_loop n d (hashes : list Hash) :
  (1 <= d)%nat -> (d + n <= length hashes)%nat ->
  (forall k, (k < d)%nat -> nth k hashes (hash []) = default_root k) ->
  forall k, (k < d + n)%nat ->
  nth k (foldl (fun hashes d =>
      let prev := nth (d - 1) hashes (hash []) in
      <[d := hash_children prev prev]> hashes) hashes (seq d n)) (hash []) = default_root k.
Proof.
  revert d hashes. induction n as [|n IH]; intros d hashes Hd Hlen Hpre k Hk; simpl.
  { apply Hpre. lia. }
  apply IH; [lia | rewrite length_insert; lia | | lia].
  intros j Hj. rewrite nth_lookup. destruct (decide (j = d)) as [->|].
  - rewrite list_lookup_insert_eq by lia. simpl. destruct d as [|d]; [lia|]. simpl.
    rewrite Nat.sub_0_r, Hpre by lia. done.
  - rewrite list_lookup_insert_ne, <- nth_lookup by lia. apply Hpre. lia.
Qed.

Lemma default_hashes_spec k : (k <= TREE_DEPTH)%nat -> nth k default_hashes (hash []) = default_root k.
Proof.
  intros Hk. apply (default_loop TREE_DEPTH 1); [lia | by rewrite length_insert, length_replicate | | lia].
  intros j Hj. replace j with 0%nat by lia. done.
Qed.

Lemma default_at_spec t k : smt_wf t -> (k <= TREE_DEPTH)%nat -> default_at t k = default_root k.
Proof. intros Hwf Hk. unfold default_at. rewrite (smt_wf_defaults t Hwf). by apply default_hashes_spec. Qed.

Lemma merkle_ext leaf1 leaf2 d i :
  (forall j, leaf1 j = leaf2 j) -> merkle leaf1 d i = merkle leaf2 d i.
Proof. intros Heq. revert i. induction d as [|d IH]; intros i; simpl; [done|]. by rewrite !IH. Qed.

(** ** One level *)

Lemma child_parent i p : N.shiftr i 1 = p <-> i = 2 * p \/ i = 2 * p + 1.
Proof. rewrite <- N.div2_spec, N.div2_div. euclid i 2. lia. Qed.

Lemma left_child p : N.shiftl p 1 = 2 * p.
Proof. rewrite N.shiftl_mul_pow2. lia. Qed.

Definition node_of (dc : Hash) (level : gmap N Hash) (p : N) : Hash :=
  hash_children (default dc (level !! (2 * p))) (default dc (level !! (2 * p + 1))).

Lemma parent_step_lookup dc level next i p :
  (forall q h, next !! q = Some h -> h = node_of dc level q) ->
  parent_step dc level next i !! p =
    if decide (N.shiftr i 1 = p) then Some (node_of dc level p) else next !! p.
Proof.
  intros Hnext. unfold parent_step. rewrite left_child. case_decide as Hp.
  - rewrite Hp. destruct (next !! p) as [h|] eqn:E; [by rewrite E, (Hnext p h E)|].
    by rewrite lookup_insert_eq.
  - destruct (next !! N.shiftr i 1) as [h|]; [done|]. by rewrite lookup_insert_ne.
Qed.

Lemma parent_fold_lookup dc level (l : list (N * Hash)) next p :
  (forall q h, next !! q = Some h -> h = node_of dc level q) ->
  foldl (fun next kv => parent_step dc level next kv.1) next l !! p =
    if decide (Exists (fun kv => N.shiftr kv.1 1 = p) l) then Some (node_of dc level p) else next !! p.
Proof.
  revert next. induction l as [|[i h] l IH]; intros next Hnext; simpl.
  { done. }
  rewrite IH.
  - rewrite parent_step_lookup by done. simpl. repeat case_decide; try done; exfalso.
    + match goal with Hn : ~ Exists _ (_ :: _) |- _ => apply Hn; by right end.
    + match goal with Hn : ~ Exists _ (_ :: _) |- _ => apply Hn; by left end.
    + match goal with He : Exists _ (_ :: _) |- _ => apply Exists_cons in He as [?|?]; done end.
  - intros q h'. rewrite parent_step_lookup by done. destruct (decide (N.shiftr i 1 = q)); [by intros [= <-] | apply Hnext].
Qed.

Context `{!HashMapIterLaws}.

Lemma next_level_lookup dc level p :
  next_level dc level !! p =
    if decide (is_Some (level !! (2 * p)) \/ is_Some (level !! (2 * p + 1)))
    then Some (node_of dc level p) else None.
Proof.
  unfold next_level. rewrite parent_fold_lookup by done. rewrite lookup_empty.
  assert (Exists (fun kv : N * Hash => N.shiftr kv.1 1 = p) (hash_iter level) <->
    is_Some (level !! (2 * p)) \/ is_Some (level !! (2 * p + 1))) as Hiff.
  { rewrite Exists_exists. split.
    - intros ([i h] & Hin%elem_of_hash_iter & Hp). simpl in Hp.
      apply child_parent in Hp as [-> | ->]; [left | right]; eauto.
    - intros [[h Hh]|[h Hh]]; eexists (_, h); rewrite elem_of_hash_iter, child_parent; simpl; eauto. }
  repeat case_decide; tauto.
Qed.

(** A level that represents the subtrees of height [d]: what it stores, and the
    default hash where it stores nothing, are the subtree roots. *)
Definition level_represents (leaf : N -> Hash) (d : nat) (level : gmap N Hash) : Prop :=
  forall i, default (default_root d) (level !! i) = merkle leaf d i.

Lemma next_level_represents leaf d level :
  level_represents leaf d level -> level_represents leaf (S d) (next_level (default_root d) level).
Proof.
  intros Hrep i. simpl. rewrite next_level_lookup. case_decide as Hc; simpl.
  - unfold node_of. by rewrite !Hrep.
  - rewrite <- !Hrep. destruct (level !! (2 * i)); [exfalso; eauto|].
    destruct (level !! (2 * i + 1)); [exfalso; eauto | done].
Qed.

(** Number of entries a level can have: keys stay below [2 ^ (32 - d)]. *)
Definition level_bounded (b : N) (level : gmap N Hash) : Prop :=
  level <> ∅ /\ forall i, is_Some (level !! i) -> i < b.

Lemma next_level_bounded dc b level : level_bounded (2 * b) level -> level_bounded b (next_level dc level).
Proof.
  intros [Hne Hb]. split.
  - apply map_choose in Hne as (i & h & Hi). intros Hempty.
    pose proof (next_level_lookup dc level (N.shiftr i 1)) as Hl. rewrite Hempty, lookup_empty in Hl.
    rewrite decide_True in Hl; [done|].
    destruct (proj1 (child_parent i _) eq_refl) as [<- | <-]; [left | right]; eauto.
  - intros p. rewrite next_level_lookup. case_decide as Hc; [|by intros [? ?]].
    intros _. destruct Hc as [Hc|Hc]; apply Hb in Hc; lia.
Qed.

Lemma levels_spec leaf t n d level :
  smt_wf t -> (d + n = TREE_DEPTH)%nat ->
  level_represents leaf d level -> level_bounded (2 ^ N.of_nat n) level ->
  let top := foldl (fun level depth => next_level (default_at t depth) level) level (seq d n) in
  level_represents leaf TREE_DEPTH top /\ level_bounded 1 top.
Proof.
  intros Hwf. revert d level. induction n as [|n IH]; intros d level Hd Hrep Hb; simpl.
  { rewrite Nat.add_0_r in Hd. subst d. done. }
  apply IH; [lia | |].
  - rewrite default_at_spec by (done || lia). by apply next_level_represents.
  - apply next_level_bounded. replace (2 * 2 ^ N.of_nat n) with (2 ^ N.of_nat (S n)); [done|].
    rewrite Nat2N.inj_succ. apply N.pow_succ_r'.
Qed.

(** A map with at most the key 0 is traversed in the only possible order. *)
Lemma hash_iter_single (m : gmap N Hash) h0 :
  level_bounded 1 m -> exists h rest, hash_iter m = (0, h) :: rest /\ default h0 (m !! 0) = h.
Proof.
  intros [Hne Hb]. destruct (hash_iter m) as [|[i h] rest] eqn:E.
  - exfalso. apply Hne, map_empty. intros i. destruct (m !! i) as [h|] eqn:Hi; [|done].
    apply elem_of_hash_iter in Hi. rewrite E in Hi. by apply elem_of_nil in Hi.
  - assert (m !! i = Some h) as Hi. { apply elem_of_hash_iter. rewrite E. left. }
    assert (i = 0) as ->. { apply N.lt_1_r, Hb. eauto. }
    exists h, rest. by rewrite Hi.
Qed.

Lemma merkle_untouched t d i :
  smt_wf t -> leaves t = ∅ -> merkle (SparseMerkleTree_leaf_hash t) d i = default_root d.
Proof.
  intros Hwf He. revert i. induction d as [|d IH]; intros i; simpl.
  - unfold SparseMerkleTree_leaf_hash. rewrite He, lookup_empty. simpl. apply (default_at_spec t 0 Hwf). lia.
  - by rewrite !IH.
Qed.

Lemma root_is_merkle t :
  smt_wf t -> SparseMerkleTree_root t = merkle (SparseMerkleTree_leaf_hash t) TREE_DEPTH 0.
Proof.
  intros Hwf. unfold SparseMerkleTree_root. case_decide as He.
  { rewrite (merkle_untouched t _ _ Hwf He). by apply default_at_spec. }
  rewrite list_to_map_hash_iter.
  destruct (levels_spec (SparseMerkleTree_leaf_hash t) t TREE_DEPTH 0 (leaves t) Hwf) as [Hrep Hb].
  - done.
  - intros i. simpl. unfold SparseMerkleTree_leaf_hash. by rewrite (default_at_spec t 0 Hwf) by lia.
  - split; [done|]. apply (smt_wf_keys t Hwf).
  - destruct (hash_iter_single _ (default_root TREE_DEPTH) Hb) as (h & rest & -> & <-). apply Hrep.
Qed.

Lemma new_smt_wf : smt_wf SparseMerkleTree_new.
Proof. constructor; [done|]. intros i [h Hh]. simpl in Hh. by rewrite lookup_empty in Hh. Qed.

Lemma update_leaf_wf t i bs : smt_wf t -> i < 2 ^ N.of_nat TREE_DEPTH -> smt_wf (SparseMerkleTree_update_leaf t i bs).
Proof.
  intros [Hd Hk] Hi. constructor; [done|]. simpl. intros j.
  destruct (decide (i = j)) as [->|]; [done|]. rewrite lookup_insert_ne by done. apply Hk.
Qed.

Lemma update_leaf_leaf_hash t i j bs :
  SparseMerkleTree_leaf_hash (SparseMerkleTree_update_leaf t i bs) j =
  if decide (j = i) then hash bs else SparseMerkleTree_leaf_hash t j.
Proof.
  unfold SparseMerkleTree_leaf_hash. simpl. case_decide as Hj.
  - subst j. by rewrite lookup_insert_eq.
  - by rewrite lookup_insert_ne.
Qed.

Lemma new_leaf_hash j : SparseMerkleTree_leaf_hash SparseMerkleTree_new j = hash zero_page.
Proof.
  unfold SparseMerkleTree_leaf_hash. cbn [leaves SparseMerkleTree_new]. rewrite lookup_empty.
  apply (default_at_spec SparseMerkleTree_new 0 new_smt_wf). unfold TREE_DEPTH. lia.
Qed.

(** ** Commitment *)

Context `{!Blake3Laws}.

Lemma hash_children_concat l r : hash_children l r = hash (as_bytes l ++ as_bytes r).
Proof.
  unfold hash_children. pose proof (finalize_chunks [as_bytes l; as_bytes r]) as Hf.
  simpl in Hf. by rewrite app_nil_r in Hf.
Qed.

Lemma hash_children_inj l1 r1 l2 r2 :
  hash_children l1 r1 = hash_children l2 r2 -> (l1 = l2 /\ r1 = r2) \/ hash_collision.
Proof.
  rewrite !hash_children_concat. intros [Heq|?]%hash_eq_or_collision; [left | by right].
  apply as_bytes_app_inj in Heq as [-> Heq]. split; [done | by apply as_bytes_inj].
Qed.

Lemma merkle_binding leaf1 leaf2 d i :
  merkle leaf1 d i = merkle leaf2 d i ->
  (forall j, i * 2 ^ N.of_nat d <= j < (i + 1) * 2 ^ N.of_nat d -> leaf1 j = leaf2 j) \/ hash_collision.
Proof.
  revert i. induction d as [|d IH]; intros i Heq.
  { left. intros j Hj. simpl in *. by replace j with i by lia. }
  simpl in Heq. apply hash_children_inj in Heq as [[Hl Hr]|?]; [|by right].
  apply IH in Hl as [Hl|?]; [|by right]. apply IH in Hr as [Hr|?]; [|by right].
  left. intros j Hj. rewrite Nat2N.inj_succ, N.pow_succ_r' in Hj.
  destruct (N.lt_ge_cases j ((2 * i + 1) * 2 ^ N.of_nat d)); [apply Hl | apply Hr]; lia.
Qed.

Lemma root_binding (t1 t2 : SparseMerkleTree) :
  smt_wf t1 -> smt_wf t2 -> SparseMerkleTree_root t1 = SparseMerkleTree_root t2 ->
  (forall j, j < 2 ^ 32 -> SparseMerkleTree_leaf_hash t1 j = SparseMerkleTree_leaf_hash t2 j) \/ hash_collision.
Proof.
  intros Hwf1 Hwf2. rewrite !root_is_merkle by done. intros [Hl|?]%merkle_binding; [left | by right].
  intros j Hj. apply Hl. change (2 ^ N.of_nat TREE_DEPTH) with (2 ^ 32). lia.
Qed.

(** ** Theorems *)

(** C8. The root of the sparse tree is the root of the full Merkle tree of depth
    32 over all [2 ^ 32] page numbers, in which every page never updated counts
    as an all-zero page: skipping untouched subtrees, and the order in which the
    hash maps are traversed, make no difference. *)
Theorem root_is_full_merkle_root (t : SparseMerkleTree) :
  smt_wf t ->
  SparseMerkleTree_root t = merkle (SparseMerkleTree_leaf_hash t) TREE_DEPTH 0 /\
  forall i, leaves t !! i = None -> SparseMerkleTree_leaf_hash t i = hash zero_page.
Proof.
  intros Hwf. split; [by apply root_is_merkle|]. intros i Hi.
  unfold SparseMerkleTree_leaf_hash. rewrite Hi. apply (default_at_spec t 0 Hwf). unfold TREE_DEPTH. lia.
Qed.

(** C21. The root commits to the whole heap: two trees with the same root agree on
    the leaf hash of every page number, or an explicit collision of the hash
    function is at hand. *)
Theorem root_binds_leaves (t1 t2 : SparseMerkleTree) :
  smt_wf t1 -> smt_wf t2 -> SparseMerkleTree_root t1 = SparseMerkleTree_root t2 ->
  (forall j, j < 2 ^ 32 -> SparseMerkleTree_leaf_hash t1 j = SparseMerkleTree_leaf_hash t2 j) \/ hash_collision.
Proof. apply root_binding. Qed.

End tree.

Arguments merkle : simpl never.

(** Two hosts that traverse their hash maps in different orders compute the
    same root from the same leaves. *)
Theorem root_order_independent `{Blake3} (order1 order2 : HashMapIter) (t : SparseMerkleTree) :
  @HashMapIterLaws order1 -> @HashMapIterLaws order2 -> smt_wf t ->
  @SparseMerkleTree_root _ order1 t = @SparseMerkleTree_root _ order2 t.
Proof. intros Ho1 Ho2 Hwf. by rewrite (@root_is_merkle _ order1), (@root_is_merkle _ order2). Qed.

(** ** Witnesses *)

#[local] Existing Instance toy_blake3.

(** A tree with three touched pages. *)
Definition sample_tree : SparseMerkleTree :=
  SparseMerkleTree_update_leaf
    (SparseMerkleTree_update_leaf
      (SparseMerkleTree_update_leaf SparseMerkleTree_new 0 (filled_page 1)) 5 (filled_page 2))
    1000000 (filled_page 3).

Lemma sample_tree_wf : smt_wf sample_tree.
Proof. repeat apply update_leaf_wf; try (vm_compute; reflexivity). apply new_smt_wf. Qed.

Lemma root_is_full_merkle_root_witness :
  @SparseMerkleTree_root toy_blake3 iter_backward sample_tree =
  merkle (SparseMerkleTree_leaf_hash sample_tree) TREE_DEPTH 0.
Proof.
  exact (proj1 (@root_is_full_merkle_root toy_blake3 iter_backward iter_backward_laws sample_tree sample_tree_wf)).
Defined.

Lemma root_binds_leaves_witness :
  (forall j, j < 2 ^ 32 ->
    SparseMerkleTree_leaf_hash sample_tree j =
    SparseMerkleTree_leaf_hash (SparseMerkleTree_update_leaf sample_tree 5 (filled_page 2)) j) \/ hash_collision.
Proof.
  apply (@root_binds_leaves toy_blake3 iter_forward iter_forward_laws toy_blake3_laws).
  - exact sample_tree_wf.
  - apply update_leaf_wf; [exact sample_tree_wf | vm_compute; reflexivity].
  - vm_compute. reflexivity.
Defined.

Lemma root_order_independent_witness :
  @SparseMerkleTree_root _ iter_forward sample_tree = @SparseMerkleTree_root _ iter_backward sample_tree.
Proof.
  apply root_order_independent; [exact iter_forward_laws | exact iter_backward_laws | exact sample_tree_wf].
Defined.
