(* ===== verification/Chain.v ===== *)
(** * Checkpoint chain (chronos-mem/src/smt.rs, [CheckpointChain])

    A checkpoint rehashes the dirty pages into the sparse Merkle tree and
    appends an entry whose [chain_hash] covers the previous entry's. The
    theorems: rehashing only dirty pages gives the root a full rehash of the
    heap would give; an auditor's [verify_chain] over an honest chain ends in
    its latest hash; and two claim sequences that verify to the same hash are
    the same sequence, or exhibit a hash collision. *)

From S2P Require Import Prelude Machine Dirty GuardedMemory Delta Blake Smt.

(** [b"chronos-uvm-genesis"]. *)
Definition GENESIS : list N :=
  [99; 104; 114; 111; 110; 111; 115; 45; 117; 118; 109; 45; 103; 101; 110; 101; 115; 105; 115].

Inductive ChainVerifyError := Empty.

Section chain.
Context `{Blake3} `{HashMapIter}.

Record CheckpointEntry := MkCheckpointEntry {
  entry_tick : N;
  smt_root : Hash;
  register_digest : Hash;
  chain_hash : Hash
}.

Record CheckpointChain := MkCheckpointChain {
  tree : SparseMerkleTree;
  entries : list CheckpointEntry
}.

Definition CheckpointChain_new : CheckpointChain := MkCheckpointChain SparseMerkleTree_new [].

Definition CheckpointChain_default : CheckpointChain := CheckpointChain_new.

(** The folding function shared by [checkpoint] and [verify_chain]. *)
Definition fold_chain (prev_chain_hash smt_root register_digest : Hash) (tick : N) : Hash :=
  let hasher := Hasher_update Hasher_new (as_bytes prev_chain_hash) in
  let hasher := Hasher_update hasher (as_bytes smt_root) in
  let hasher := Hasher_update hasher (as_bytes register_digest) in
  let hasher := Hasher_update hasher (le_bytes 8 tick) in
  Hasher_finalize hasher.

Definition CheckpointChain_latest (c : CheckpointChain) : option CheckpointEntry := last (entries c).

Definition CheckpointChain_checkpoint {M} `{GuardedMemory M} (c : CheckpointChain) (tick : N) (mem : M)
    (dirty : DirtyPageSet) (register_digest : Hash) : outcome (CheckpointChain * CheckpointEntry) :=
  tree' ← for_each (fun t page_idx =>
      bytes ← page_bytes mem page_idx;
      Ret (SparseMerkleTree_update_leaf t page_idx bytes))
    (DirtyPageSet_iter_dirty dirty) (tree c);
  let smt_root := SparseMerkleTree_root tree' in
  let prev_chain_hash :=
    match last (entries c) with Some e => chain_hash e | None => hash GENESIS end in
  let chain_hash := fold_chain prev_chain_hash smt_root register_digest tick in
  let entry := MkCheckpointEntry tick smt_root register_digest chain_hash in
  Ret (MkCheckpointChain tree' (entries c ++ [entry]), entry).

Definition CheckpointChain_verify_chain (claims : list (N * Hash * Hash)) : result ChainVerifyError Hash :=
  Ok (foldl (fun chain_hash '(tick, smt_root, register_digest) =>
        fold_chain chain_hash smt_root register_digest tick) (hash GENESIS) claims).

(** ** Specifications *)

(** What an auditor is told about a chain. *)
Definition chain_claims (c : CheckpointChain) : list (N * Hash * Hash) :=
  (fun e => (entry_tick e, smt_root e, register_digest e)) <$> entries c.

(** The hash the next entry will be linked to. *)
Definition chain_tip (c : CheckpointChain) : Hash :=
  match last (entries c) with Some e => chain_hash e | None => hash GENESIS end.

(** Every entry is linked to the one before it. *)
Definition chain_linked (c : CheckpointChain) : Prop :=
  CheckpointChain_verify_chain (chain_claims c) = Ok (chain_tip c).

(** The tree holds, for every page number, the hash of that page's content. *)
Definition tree_reflects (t : SparseMerkleTree) (content : N -> list N) : Prop :=
  forall i, SparseMerkleTree_leaf_hash t i = hash (content i).

(** ** Lemmas *)

Lemma new_chain_linked : chain_linked CheckpointChain_new.
Proof. done. Qed.

Lemma new_tree_reflects : tree_reflects (tree CheckpointChain_new) (fun _ => zero_page).
Proof. intros i. apply new_leaf_hash. Qed.

Lemma rehash_dirty {M} `{GuardedMemory M} (mem : M) (content : N -> list N) l t :
  (forall p, p ∈ l -> page_bytes mem p = Ret (content p) /\ p < 2 ^ 32) -> smt_wf t ->
  exists t', for_each (fun t page_idx =>
      bytes ← page_bytes mem page_idx;
      Ret (SparseMerkleTree_update_leaf t page_idx bytes)) l t = Ret t' /\ smt_wf t' /\
    forall i, SparseMerkleTree_leaf_hash t' i =
      if decide (i ∈ l) then hash (content i) else SparseMerkleTree_leaf_hash t i.
Proof.
  revert t. induction l as [|p l IH]; intros t Hl Hwf; simpl.
  { by exists t. }
  destruct (Hl p) as [Hp Hlt]; [left|]. rewrite Hp. simpl.
  destruct (IH (SparseMerkleTree_update_leaf t p (content p))) as (t' & -> & Hwf' & Hh).
  { intros q Hq. apply Hl. by right. }
  { by apply update_leaf_wf. }
  exists t'. split_and!; [done..|]. intros i. rewrite Hh, update_leaf_leaf_hash.
  destruct (decide (i ∈ l)), (decide (i ∈ p :: l)) as [Hin|Hin], (decide (i = p)); subst;
    try done; exfalso; set_solver.
Qed.

Lemma verify_snoc claims h tick root dig :
  CheckpointChain_verify_chain claims = Ok h ->
  CheckpointChain_verify_chain (claims ++ [(tick, root, dig)]) = Ok (fold_chain h root dig tick).
Proof. unfold CheckpointChain_verify_chain. rewrite foldl_app. by intros [= ->]. Qed.

Lemma checkpoint_appends {M} `{GuardedMemory M} c tick (mem : M) d dig c' e :
  CheckpointChain_checkpoint c tick mem d dig = Ret (c', e) ->
  entries c' = entries c ++ [e] /\ entry_tick e = tick /\ register_digest e = dig /\
  smt_root e = SparseMerkleTree_root (tree c') /\ (chain_linked c -> chain_linked c').
Proof.
  unfold CheckpointChain_checkpoint. intros Hc. inv_ret. injection Hc as <- <-. simpl.
  split_and!; [done..|]. unfold chain_linked, chain_claims, chain_tip. simpl. intros Hl.
  rewrite fmap_app, last_snoc. simpl. by apply verify_snoc.
Qed.

Context `{!HashMapIterLaws}.

Lemma checkpoint_reflects {M} `{GuardedMemory M} c tick (mem : M) d dig (old new : N -> list N) :
  smt_wf (tree c) -> tree_reflects (tree c) old ->
  (forall i, i ∉ dirty_set d -> new i = old i) ->
  (forall i, i ∈ dirty_set d -> page_bytes mem i = Ret (new i) /\ i < 2 ^ 32) ->
  exists c' e, CheckpointChain_checkpoint c tick mem d dig = Ret (c', e) /\
    smt_wf (tree c') /\ tree_reflects (tree c') new /\
    smt_root e = merkle (fun i => hash (new i)) TREE_DEPTH 0.
Proof.
  intros Hwf Hrefl Hclean Hdirty. unfold CheckpointChain_checkpoint.
  destruct (rehash_dirty mem new (DirtyPageSet_iter_dirty d) (tree c)) as (t' & -> & Hwf' & Hh); [|done|].
  { intros p Hp. apply Hdirty. unfold dirty_set. by rewrite elem_of_list_to_set. }
  assert (tree_reflects t' new) as Hrefl'.
  { intros i. rewrite Hh. case_decide as Hi; [done|]. rewrite Hrefl, Hclean; [done|].
    unfold dirty_set. by rewrite elem_of_list_to_set. }
  do 2 eexists. split; [reflexivity|]. cbn [tree smt_root]. split_and!; [done..|].
  rewrite root_is_merkle by done. by apply merkle_ext.
Qed.
(** ** The folding function is injective up to collisions *)

Context `{!Blake3Laws}.

Definition fold_input (prev root dig : Hash) (tick : N) : list N :=
  as_bytes prev ++ as_bytes root ++ as_bytes dig ++ le_bytes 8 tick.

Lemma fold_chain_concat prev root dig tick : fold_chain prev root dig tick = hash (fold_input prev root dig tick).
Proof.
  unfold fold_chain, fold_input.
  pose proof (finalize_chunks [as_bytes prev; as_bytes root; as_bytes dig; le_bytes 8 tick]) as Hf.
  cbn [foldl concat] in Hf. by rewrite app_nil_r in Hf.
Qed.

Lemma fold_chain_inj p1 r1 d1 t1 p2 r2 d2 t2 :
  t1 < 2 ^ 64 -> t2 < 2 ^ 64 -> fold_chain p1 r1 d1 t1 = fold_chain p2 r2 d2 t2 ->
  (p1 = p2 /\ (t1, r1, d1) = (t2, r2, d2)) \/ hash_collision.
Proof.
  intros Ht1 Ht2. rewrite !fold_chain_concat. intros [Heq|?]%hash_eq_or_collision; [left | by right].
  unfold fold_input in Heq. apply as_bytes_app_inj in Heq as [-> Heq].
  apply as_bytes_app_inj in Heq as [-> Heq]. apply as_bytes_app_inj in Heq as [-> Heq].
  split; [done|]. f_equal. f_equal. by apply (le_bytes_inj 8).
Qed.

(** The genesis string is too short to be the input of a chain link. *)
Lemma fold_chain_not_genesis p r d t : fold_chain p r d t = hash GENESIS -> hash_collision.
Proof.
  rewrite fold_chain_concat. intros [Heq|?]%hash_eq_or_collision; [|done]. exfalso.
  apply (f_equal length) in Heq. unfold fold_input in Heq.
  rewrite !length_app, !as_bytes_len, length_le_bytes in Heq. done.
Qed.

Lemma verify_fold_inj (claims1 claims2 : list (N * Hash * Hash)) :
  Forall (fun cl => cl.1.1 < 2 ^ 64) claims1 -> Forall (fun cl => cl.1.1 < 2 ^ 64) claims2 ->
  foldl (fun h '(t, r, d) => fold_chain h r d t) (hash GENESIS) claims1 =
  foldl (fun h '(t, r, d) => fold_chain h r d t) (hash GENESIS) claims2 ->
  claims1 = claims2 \/ hash_collision.
Proof.
  revert claims2. induction claims1 as [|[[t1 r1] d1] claims1 IH] using rev_ind;
    intros claims2 Hf1 Hf2; destruct claims2 as [|[[t2 r2] d2] claims2 _] using rev_ind.
  - by left.
  - rewrite foldl_app. simpl. intros Heq. right. symmetry in Heq. by apply fold_chain_not_genesis in Heq.
  - rewrite foldl_app. simpl. intros Heq. right. by apply fold_chain_not_genesis in Heq.
  - rewrite !foldl_app. simpl. intros Heq.
    apply Forall_app in Hf1 as [Hf1 Ht1]. apply Forall_app in Hf2 as [Hf2 Ht2].
    rewrite Forall_singleton in Ht1, Ht2. simpl in Ht1, Ht2.
    destruct (fold_chain_inj _ _ _ _ _ _ _ _ Ht1 Ht2 Heq) as [[Hp Hl]|?]; [|by right].
    destruct (IH claims2 Hf1 Hf2 Hp) as [->|?]; [left; by rewrite Hl | by right].
Qed.

(** ** Theorems *)

(** C22. Incremental checkpointing is exact: if the tree reflects an earlier state
    of the heap and every page that differs from it is in the dirty set, then
    rehashing the dirty pages alone yields the Merkle root of the whole current
    heap (all [2 ^ 32] pages), and the tree reflects the current heap. Proved for
    any memory behind the [GuardedMemory] interface. *)
Theorem checkpoint_root_is_full_rehash {M} `{GuardedMemory M} (c : CheckpointChain) (tick : N) (mem : M)
    (d : DirtyPageSet) (digest : Hash) (old new : N -> list N) :
  smt_wf (tree c) -> tree_reflects (tree c) old ->
  (forall i, i ∉ dirty_set d -> new i = old i) ->
  (forall i, i ∈ dirty_set d -> page_bytes mem i = Ret (new i) /\ i < 2 ^ 32) ->
  exists c' e, CheckpointChain_checkpoint c tick mem d digest = Ret (c', e) /\
    tree_reflects (tree c') new /\ smt_root e = merkle (fun i => hash (new i)) TREE_DEPTH 0 /\
    CheckpointChain_latest c' = Some e.
Proof.
  intros Hwf Hrefl Hclean Hdirty.
  destruct (checkpoint_reflects c tick mem d digest old new Hwf Hrefl Hclean Hdirty)
    as (c' & e & Hc & _ & Hr & Hroot).
  exists c', e. split_and!; [done..|]. destruct (checkpoint_appends _ _ _ _ _ _ _ Hc) as (He & _).
  unfold CheckpointChain_latest. by rewrite He, last_snoc.
Qed.

(** A checkpoint request: tick, memory, dirty set and register digest. *)
Definition run_checkpoints {M} `{GuardedMemory M} (reqs : list (N * M * DirtyPageSet * Hash)) :
    outcome CheckpointChain :=
  for_each (fun c '(tick, mem, d, digest) =>
      '(c', _) ← CheckpointChain_checkpoint c tick mem d digest; Ret c')
    reqs CheckpointChain_new.

Lemma run_checkpoints_linked {M} `{GuardedMemory M} (reqs : list (N * M * DirtyPageSet * Hash)) c :
  run_checkpoints reqs = Ret c ->
  chain_linked c /\ (fun cl => (cl.1.1, cl.2)) <$> chain_claims c = (fun r => (r.1.1.1, r.2)) <$> reqs.
Proof.
  revert c. induction reqs as [|[[[tick mem] d] dig] reqs IH] using rev_ind; intros c Hrun.
  { injection Hrun as <-. split; [apply new_chain_linked | done]. }
  unfold run_checkpoints in Hrun. rewrite for_each_app in Hrun.
  apply bind_Ret in Hrun as (c0 & H0' & Hrun). cbn [for_each] in Hrun. inv_ret.
  match goal with Hx : CheckpointChain_checkpoint _ _ _ _ _ = Ret ?p |- _ => destruct p as [c1 e];
    apply checkpoint_appends in Hx as (He & Ht & Hd & _ & Hl) end.
  inv_ret. apply IH in H0' as [Hl0 Hreqs].
  split; [by apply Hl|]. unfold chain_claims in *. rewrite He, !fmap_app, <- Hreqs. done.
Qed.

(** C23. An honest chain verifies: after any sequence of checkpoints the auditor's
    fold over the recorded (tick, root, digest) triples ends in the chain hash of
    the latest entry, and the chain holds one entry per checkpoint, in order. *)
Theorem honest_chain_verifies {M} `{GuardedMemory M} (reqs : list (N * M * DirtyPageSet * Hash))
    (c : CheckpointChain) :
  run_checkpoints reqs = Ret c ->
  CheckpointChain_verify_chain (chain_claims c) =
    Ok (match CheckpointChain_latest c with Some e => chain_hash e | None => hash GENESIS end) /\
  (fun cl => (cl.1.1, cl.2)) <$> chain_claims c = (fun r => (r.1.1.1, r.2)) <$> reqs.
Proof.
  intros Hrun. apply (run_checkpoints_linked reqs) in Hrun as [Hl Hreq]. done.
Qed.

(** C9. Tamper evidence: two claim sequences, of any lengths, that verify to the
    same hash are identical, or the hash function has an explicit collision. *)
Theorem verify_chain_tamper_evident (claims1 claims2 : list (N * Hash * Hash)) :
  Forall (fun cl => cl.1.1 < 2 ^ 64) claims1 -> Forall (fun cl => cl.1.1 < 2 ^ 64) claims2 ->
  CheckpointChain_verify_chain claims1 = CheckpointChain_verify_chain claims2 ->
  claims1 = claims2 \/ hash_collision.
Proof. intros H1' H2' [= Heq]. by apply verify_fold_inj. Qed.

(** The verifier accepts every claim sequence, the empty one included, for
    which it answers the genesis hash: its declared [Empty] error never occurs. *)
Theorem verify_chain_accepts_all (claims : list (N * Hash * Hash)) :
  (exists h, CheckpointChain_verify_chain claims = Ok h) /\
  CheckpointChain_verify_chain [] = Ok (hash GENESIS) /\
  CheckpointChain_verify_chain claims <> Err Empty.
Proof. split_and!; [by eexists | done | done]. Qed.

End chain.

(** ** Witnesses *)

#[local] Existing Instance toy_blake3.
#[local] Existing Instance iter_forward.
#[local] Existing Instance dev_profile.

(** One committed page out of a quota of two, with byte 3 set and the page dirty. *)
Definition touched_memory : MmapGuardedMemory :=
  MkMmapGuardedMemory 0 12288 4096 8192 (MkDirtyPageSet [1] 2 1) {[3 := 77]}.

Definition touched_content (i : N) : list N := if decide (i = 0) then mem_page touched_memory 0 else zero_page.

Lemma checkpoint_root_is_full_rehash_witness :
  exists c' e, CheckpointChain_checkpoint CheckpointChain_new 4 touched_memory (dirty touched_memory) (hash []) = Ret (c', e) /\
    smt_root e = merkle (fun i => hash (touched_content i)) TREE_DEPTH 0.
Proof.
  destruct (@checkpoint_root_is_full_rehash toy_blake3 iter_forward iter_forward_laws MmapGuardedMemory _
    CheckpointChain_new 4 touched_memory (dirty touched_memory) (hash []) (fun _ => zero_page) touched_content)
    as (c' & e & Hc & _ & Hroot & _).
  - apply new_smt_wf.
  - apply new_tree_reflects.
  - intros i Hi. unfold touched_content. destruct (decide (i = 0)) as [->|]; [|reflexivity].
    exfalso. apply Hi. vm_compute. reflexivity.
  - intros i Hi. apply elem_of_dirty_set, elem_of_iter_dirty in Hi.
    change (i ∈ [0]) in Hi. apply list_elem_of_singleton in Hi as ->. split; vm_compute; reflexivity.
  - exists c', e. split; [exact Hc | exact Hroot].
Defined.

Lemma honest_chain_verifies_witness :
  exists c, run_checkpoints [(4, touched_memory, dirty touched_memory, hash [1]);
      (8, touched_memory, dirty touched_memory, hash [2])] = Ret c /\
    CheckpointChain_verify_chain (chain_claims c) =
      Ok (match CheckpointChain_latest c with Some e => chain_hash e | None => hash GENESIS end).
Proof.
  destruct (returned_Ret (run_checkpoints [(4, touched_memory, dirty touched_memory, hash [1]);
      (8, touched_memory, dirty touched_memory, hash [2])])) as [c E].
  - vm_compute. reflexivity.
  - exists c. split; [exact E|]. exact (proj1 (honest_chain_verifies _ c E)).
Defined.

Lemma verify_chain_tamper_evident_witness :
  [(4, hash [1], hash [2])] = [(4, hash [1], hash [2])] \/ hash_collision.
Proof.
  apply (@verify_chain_tamper_evident toy_blake3 toy_blake3_laws).
  - repeat constructor.
  - repeat constructor.
  - reflexivity.
Defined.
