(* ===== verification/EventLog.v ===== *)
(** * Non-determinism record and replay (chronos-core/src/event_log.rs)

    Every clock read and random draw of a cell goes through an [EventRecorder]
    keyed by (tick, call ordinal). The real sources are closures over host
    state: the model passes a host state [W] through them, so that a theorem can
    say they were not called. A cell's behaviour is an adaptive program
    [guest], which may choose its next call from the results seen so far; the
    main theorem says that a replay on any other host, from the exported log in
    any order, shows such a program exactly what the recording showed it. *)

From S2P Require Import Prelude Machine.

(** ** Data *)

Inductive RecorderMode := ModeRecord | ModeReplay.

(** [EventKey { tick, call_ordinal }]. *)
Abbreviation EventKey := (N * N)%type.

Inductive RecordedValue :=
| RecordedClock (v : N)
| RecordedRandom (bytes : list N).

Inductive ReplayEntry :=
| EntryClock (v : N)
| EntryRandom (bytes : list N).

Inductive ReplayError :=
| MissingEntry (tick ordinal : N)
| TypeMismatch (tick ordinal : N).

Record EventRecorder := MkEventRecorder {
  mode : RecorderMode;
  log : gmap EventKey RecordedValue;
  current_tick : N;
  current_ordinal : N
}.

#[export] Instance RecorderMode_eq_dec : EqDecision RecorderMode.
Proof. solve_decision. Defined.
#[export] Instance RecordedValue_eq_dec : EqDecision RecordedValue.
Proof. solve_decision. Defined.
#[export] Instance ReplayError_eq_dec : EqDecision ReplayError.
Proof. solve_decision. Defined.

(** ** Operations *)

Definition EventRecorder_new (m : RecorderMode) : EventRecorder := MkEventRecorder m ∅ 0 0.

Definition value_of_entry (e : ReplayEntry) : RecordedValue :=
  match e with EntryClock v => RecordedClock v | EntryRandom v => RecordedRandom v end.

Definition entry_of_value (v : RecordedValue) : ReplayEntry :=
  match v with RecordedClock c => EntryClock c | RecordedRandom r => EntryRandom r end.

Definition EventRecorder_from_replay_log (es : list (N * N * ReplayEntry)) : EventRecorder :=
  let log := foldl (fun log '(tick, ordinal, entry) => <[(tick, ordinal) := value_of_entry entry]> log) ∅ es in
  MkEventRecorder ModeReplay log 0 0.

Definition EventRecorder_export_log `{HashMapIter} (r : EventRecorder) : list (N * N * ReplayEntry) :=
  (fun '(k, v) => (fst k, snd k, entry_of_value v)) <$> hash_iter (log r).

Definition with_log (r : EventRecorder) (l : gmap EventKey RecordedValue) : EventRecorder :=
  MkEventRecorder (mode r) l (current_tick r) (current_ordinal r).

Section operations.
Context `{BuildProfile}.

Definition EventRecorder_next_ordinal (r : EventRecorder) (tick : N) : outcome (EventRecorder * N) :=
  let r1 := if negb (tick =? current_tick r) then MkEventRecorder (mode r) (log r) tick 0 else r in
  let ordinal := current_ordinal r1 in
  ordinal' ← uadd 64 ordinal 1;
  Ret (MkEventRecorder (mode r1) (log r1) (current_tick r1) ordinal', ordinal).

(** The closures [real_now_fn] and [real_random_fn], over a host state. *)
Definition EventRecorder_wall_clock_now {W} (r0 : EventRecorder) (tick : N) (real_now_fn : W -> W * N) (w : W) :
    outcome (EventRecorder * W * result ReplayError N) :=
  '(r, ordinal) ← EventRecorder_next_ordinal r0 tick;
  let key := (tick, ordinal) in
  match mode r with
  | ModeRecord =>
    let '(w', value) := real_now_fn w in
    Ret (with_log r (<[key := RecordedClock value]> (log r)), w', Ok value)
  | ModeReplay =>
    match log r !! key with
    | Some (RecordedClock v) => Ret (r, w, Ok v)
    | Some _ => Ret (r, w, Err (TypeMismatch tick ordinal))
    | None => Ret (r, w, Err (MissingEntry tick ordinal))
    end
  end.

(** The buffer is returned as the third component. *)
Definition EventRecorder_random_bytes {W} (r0 : EventRecorder) (tick : N) (buf : list N)
    (real_random_fn : W -> list N -> W * list N) (w : W) :
    outcome (EventRecorder * W * list N * result ReplayError unit) :=
  '(r, ordinal) ← EventRecorder_next_ordinal r0 tick;
  let key := (tick, ordinal) in
  match mode r with
  | ModeRecord =>
    let '(w', buf') := real_random_fn w buf in
    Ret (with_log r (<[key := RecordedRandom buf']> (log r)), w', buf', Ok tt)
  | ModeReplay =>
    match log r !! key with
    | Some (RecordedRandom v) =>
      if negb (#|v| =? #|buf|) then Ret (r, w, buf, Err (TypeMismatch tick ordinal))
      else Ret (r, w, v, Ok tt)
    | Some _ => Ret (r, w, buf, Err (TypeMismatch tick ordinal))
    | None => Ret (r, w, buf, Err (MissingEntry tick ordinal))
    end
  end.

End operations.

(** The host-call surface: the trait [NonDeterminismSource]. *)
Class NonDeterminismSource `{BuildProfile} (S : Type) := {
  wall_clock_now : forall {W}, S -> N -> (W -> W * N) -> W -> outcome (S * W * result ReplayError N);
  random_bytes : forall {W}, S -> N -> list N -> (W -> list N -> W * list N) -> W ->
    outcome (S * W * list N * result ReplayError unit)
}.

#[export] Instance EventRecorder_NonDeterminismSource `{BuildProfile} : NonDeterminismSource EventRecorder := {|
  wall_clock_now := fun W => EventRecorder_wall_clock_now (W := W);
  random_bytes := fun W => EventRecorder_random_bytes (W := W)
|}.

(** ** Guests and what they observe *)

(** A program of host calls; each continuation sees the call's result. *)
Inductive guest :=
| GuestDone
| GuestClock (tick : N) (k : result ReplayError N -> guest)
| GuestRandom (tick : N) (buf : list N) (k : list N -> result ReplayError unit -> guest).

Inductive observation :=
| SawClock (r : result ReplayError N)
| SawRandom (buf : list N) (r : result ReplayError unit).

(** The two real sources of a host. *)
Record host_sources (W : Type) := MkHostSources {
  real_now : W -> W * N;
  real_random : W -> list N -> W * list N
}.
Arguments real_now {_} _ _.
Arguments real_random {_} _ _ _.

Section guests.
Context `{BuildProfile}.

Fixpoint run_guest {W} (h : host_sources W) (g : guest) (r : EventRecorder) (w : W) :
    outcome (EventRecorder * W * list observation) :=
  match g with
  | GuestDone => Ret (r, w, [])
  | GuestClock tick k =>
    '(r1, w1, res) ← wall_clock_now r tick (real_now h) w;
    '(r2, w2, obs) ← run_guest h (k res) r1 w1;
    Ret (r2, w2, SawClock res :: obs)
  | GuestRandom tick buf k =>
    '(r1, w1, buf', res) ← random_bytes r tick buf (real_random h) w;
    '(r2, w2, obs) ← run_guest h (k buf' res) r1 w1;
    Ret (r2, w2, SawRandom buf' res :: obs)
  end.

End guests.

(** The ticks of a guest's calls never decrease, starting from [t]. *)
Fixpoint ticks_from (t : N) (g : guest) : Prop :=
  match g with
  | GuestDone => True
  | GuestClock tick k => t <= tick /\ forall r, ticks_from tick (k r)
  | GuestRandom tick _ k => t <= tick /\ forall b r, ticks_from tick (k b r)
  end.

(** The guest makes at most [n] calls. *)
Fixpoint calls_within (n : nat) (g : guest) : Prop :=
  match g, n with
  | GuestDone, _ => True
  | _, O => False
  | GuestClock _ k, S n => forall r, calls_within n (k r)
  | GuestRandom _ _ k, S n => forall b r, calls_within n (k b r)
  end.

Definition observation_ok (o : observation) : Prop :=
  match o with
  | SawClock (Ok _) | SawRandom _ (Ok _) => True
  | _ => False
  end.

(** ** Lemmas *)

(** The ordinal the next call at [tick] gets. *)
Definition ordinal_at (r : EventRecorder) (tick : N) : N :=
  if tick =? current_tick r then current_ordinal r else 0.

(** Every recorded key precedes the next one. *)
Definition log_before (r : EventRecorder) : Prop :=
  forall t o v, log r !! (t, o) = Some v -> t < current_tick r \/ (t = current_tick r /\ o < current_ordinal r).

(** The recorder after a call at [tick], with the given log. *)
Definition advanced (r : EventRecorder) (tick : N) (l : gmap EventKey RecordedValue) : EventRecorder :=
  MkEventRecorder (mode r) l tick (ordinal_at r tick + 1).

Lemma log_before_fresh r tick : log_before r -> current_tick r <= tick -> log r !! (tick, ordinal_at r tick) = None.
Proof.
  intros Hb Ht. destruct (log r !! (tick, ordinal_at r tick)) as [v|] eqn:E; [|done].
  apply Hb in E. unfold ordinal_at in E. case_test_in E; lia.
Qed.

Lemma log_before_advanced r tick v :
  log_before r -> current_tick r <= tick ->
  log_before (advanced r tick (<[(tick, ordinal_at r tick) := v]> (log r))).
Proof.
  intros Hb Ht t o v'. simpl. rewrite lookup_insert. case_decide as Hk; simplify_eq; [lia|].
  intros Hl. apply Hb in Hl. unfold ordinal_at. case_test; lia.
Qed.

Lemma new_log_before m : log_before (EventRecorder_new m).
Proof. intros t o v Hl. simpl in Hl. by rewrite lookup_empty in Hl. Qed.

Section replay.
Context `{BuildProfile}.

Lemma next_ordinal_ok r tick :
  ordinal_at r tick + 1 < 2 ^ 64 ->
  EventRecorder_next_ordinal r tick = Ret (advanced r tick (log r), ordinal_at r tick).
Proof.
  unfold EventRecorder_next_ordinal, advanced, ordinal_at.
  destruct (tick =? current_tick r) eqn:E; cbn [negb current_ordinal]; intros Ho; rewrite uadd_ok by done.
  - by apply N.eqb_eq in E as ->.
  - done.
Qed.

(** One clock read, in each mode. *)
Lemma wall_clock_record {W} r tick (f : W -> W * N) w :
  mode r = ModeRecord -> ordinal_at r tick + 1 < 2 ^ 64 ->
  wall_clock_now r tick f w =
    Ret (advanced r tick (<[(tick, ordinal_at r tick) := RecordedClock (f w).2]> (log r)), (f w).1, Ok (f w).2).
Proof.
  intros Hm Ho. simpl. unfold EventRecorder_wall_clock_now. rewrite next_ordinal_ok by done. simpl.
  rewrite Hm. by destruct (f w).
Qed.

Lemma wall_clock_replay {W} r tick (f : W -> W * N) w :
  mode r = ModeReplay -> ordinal_at r tick + 1 < 2 ^ 64 ->
  wall_clock_now r tick f w =
    Ret (advanced r tick (log r), w,
      match log r !! (tick, ordinal_at r tick) with
      | Some (RecordedClock v) => Ok v
      | Some _ => Err (TypeMismatch tick (ordinal_at r tick))
      | None => Err (MissingEntry tick (ordinal_at r tick))
      end).
Proof.
  intros Hm Ho. simpl. unfold EventRecorder_wall_clock_now. rewrite next_ordinal_ok by done. simpl.
  rewrite Hm. by repeat case_match.
Qed.

(** One random draw, in each mode. *)
Lemma random_record {W} r tick buf (f : W -> list N -> W * list N) w :
  mode r = ModeRecord -> ordinal_at r tick + 1 < 2 ^ 64 ->
  random_bytes r tick buf f w =
    Ret (advanced r tick (<[(tick, ordinal_at r tick) := RecordedRandom (f w buf).2]> (log r)),
      (f w buf).1, (f w buf).2, Ok tt).
Proof.
  intros Hm Ho. simpl. unfold EventRecorder_random_bytes. rewrite next_ordinal_ok by done. simpl.
  rewrite Hm. by destruct (f w buf).
Qed.

Lemma random_replay {W} r tick buf (f : W -> list N -> W * list N) w :
  mode r = ModeReplay -> ordinal_at r tick + 1 < 2 ^ 64 ->
  random_bytes r tick buf f w =
    let '(buf', res) :=
      match log r !! (tick, ordinal_at r tick) with
      | Some (RecordedRandom v) =>
        if #|v| =? #|buf| then (v, Ok tt) else (buf, Err (TypeMismatch tick (ordinal_at r tick)))
      | Some _ => (buf, Err (TypeMismatch tick (ordinal_at r tick)))
      | None => (buf, Err (MissingEntry tick (ordinal_at r tick)))
      end in
    Ret (advanced r tick (log r), w, buf', res).
Proof.
  intros Hm Ho. simpl. unfold EventRecorder_random_bytes. rewrite next_ordinal_ok by done. simpl.
  rewrite Hm. destruct (log r !! _) as [[v|v]|]; [done | | done]. by destruct (#|v| =? #|buf|).
Qed.

(** The [FnMut(&mut [u8])] contract: a slice keeps its length. *)
Definition fills_buffer {W} (h : host_sources W) : Prop :=
  forall w buf, length (real_random h w buf).2 = length buf.

(** A finished recording: what it logged only grows, every call succeeded, and
    any replay whose log contains the final one repeats it call by call without
    touching its own host. *)
Definition replays {W} (h : host_sources W) (g : guest) (r : EventRecorder) (w : W) : Prop :=
  exists rf wf obs, run_guest h g r w = Ret (rf, wf, obs) /\ log r ⊆ log rf /\ Forall observation_ok obs /\
    forall W2 (h2 : host_sources W2) rr (w2 : W2),
      mode rr = ModeReplay -> current_tick rr = current_tick r -> current_ordinal rr = current_ordinal r ->
      log rf ⊆ log rr -> exists rr', run_guest h2 g rr w2 = Ret (rr', w2, obs).

Lemma ordinal_at_eq r rr tick :
  current_tick rr = current_tick r -> current_ordinal rr = current_ordinal r -> ordinal_at rr tick = ordinal_at r tick.
Proof. unfold ordinal_at. by intros -> ->. Qed.

Lemma ordinal_room r n tick :
  current_ordinal r + N.of_nat (S n) < 2 ^ 64 -> ordinal_at r tick + N.of_nat (S n) < 2 ^ 64.
Proof. unfold ordinal_at. case_test; lia. Qed.

Lemma insert_fresh_subset (m m' : gmap EventKey RecordedValue) k v :
  m !! k = None -> <[k := v]> m ⊆ m' -> m ⊆ m' /\ m' !! k = Some v.
Proof.
  intros Hk Hsub. split.
  - etrans; [by apply insert_subseteq | done].
  - eapply lookup_weaken; [|done]. apply lookup_insert_eq.
Qed.

Lemma record_then_replay {W} (h : host_sources W) g n r w :
  fills_buffer h -> mode r = ModeRecord -> log_before r -> ticks_from (current_tick r) g ->
  calls_within n g -> current_ordinal r + N.of_nat n < 2 ^ 64 -> replays h g r w.
Proof.
  intros Hfill. revert n r w. induction g as [|tick k IH|tick buf k IH]; intros n r w Hm Hb Ht Hn Ho.
  - exists r, w, []. split_and!; [done..|]. intros. by eexists.
  - destruct n as [|n]; [done|]. destruct Ht as [Htick Ht]. apply (ordinal_room r n tick) in Ho.
    set (v := (real_now h w).2).
    destruct (IH (Ok v) n (advanced r tick (<[(tick, ordinal_at r tick) := RecordedClock v]> (log r)))
      (real_now h w).1) as (rf & wf & obs & Hrun & Hsub & Hok & Hrep); [done|by apply log_before_advanced|done|done|simpl; lia|].
    destruct (insert_fresh_subset _ _ _ _ (log_before_fresh r tick Hb Htick) Hsub) as [Hsub' Hval].
    exists rf, wf, (SawClock (Ok v) :: obs). split_and!; [|done|by constructor|].
    + cbn [run_guest]. rewrite wall_clock_record by (done || lia). simpl. fold v. by rewrite Hrun.
    + intros W2 h2 rr w2 Hmr Hct Hco Hlog. cbn [run_guest].
      rewrite wall_clock_replay by (done || (rewrite (ordinal_at_eq r) by done; lia)).
      rewrite (ordinal_at_eq r rr) by done. rewrite (lookup_weaken _ _ _ _ Hval Hlog). simpl.
      destruct (Hrep W2 h2 (advanced rr tick (log rr)) w2) as [rr' ->]; [done|done| |done|by eexists].
      simpl. by rewrite (ordinal_at_eq r rr).
  - destruct n as [|n]; [done|]. destruct Ht as [Htick Ht]. apply (ordinal_room r n tick) in Ho.
    set (v := (real_random h w buf).2).
    destruct (IH v (Ok tt) n (advanced r tick (<[(tick, ordinal_at r tick) := RecordedRandom v]> (log r)))
      (real_random h w buf).1) as (rf & wf & obs & Hrun & Hsub & Hok & Hrep); [done|by apply log_before_advanced|done|done|simpl; lia|].
    destruct (insert_fresh_subset _ _ _ _ (log_before_fresh r tick Hb Htick) Hsub) as [Hsub' Hval].
    exists rf, wf, (SawRandom v (Ok tt) :: obs). split_and!; [|done|by constructor|].
    + cbn [run_guest]. rewrite random_record by (done || lia). simpl. fold v. by rewrite Hrun.
    + intros W2 h2 rr w2 Hmr Hct Hco Hlog. cbn [run_guest].
      rewrite random_replay by (done || (rewrite (ordinal_at_eq r) by done; lia)).
      rewrite (ordinal_at_eq r rr) by done. rewrite (lookup_weaken _ _ _ _ Hval Hlog).
      assert ((#|v| =? #|buf|) = true) as -> by (apply N.eqb_eq; unfold len, v; by rewrite Hfill). simpl.
      destruct (Hrep W2 h2 (advanced rr tick (log rr)) w2) as [rr' ->]; [done|done| |done|by eexists].
      simpl. by rewrite (ordinal_at_eq r rr).
Qed.

(** Importing an exported log, in whatever order it was exported. *)
Lemma import_export_log `{HashMapIterLaws} r :
  log (EventRecorder_from_replay_log (EventRecorder_export_log r)) = log r.
Proof.
  unfold EventRecorder_from_replay_log, EventRecorder_export_log. cbn [log].
  rewrite <- (foldl_insert_hash_iter (log r)) at 2. rewrite foldl_fmap.
  generalize (∅ : gmap EventKey RecordedValue). induction (hash_iter (log r)) as [|[[t o] v] l IH]; intros acc; [done|].
  simpl. rewrite IH. by destruct v.
Qed.

(** ** Theorems *)

(** C4. Replay is bit-identical. Any adaptive guest that makes fewer than
    [2 ^ 64] calls with ticks that never decrease, recorded on any host whose
    entropy source keeps the length of the buffer it fills, runs to the end with
    every call answered; replayed from the exported log, exported in any order, on any other host, it
    observes exactly the same results, and the other host's clock and entropy
    are never consulted (its state is returned as it was). *)
Theorem replay_bit_identical `{HashMapIterLaws} {W} (h : host_sources W) (g : guest) (n : nat) (w : W) :
  fills_buffer h -> ticks_from 0 g -> calls_within n g -> N.of_nat n < 2 ^ 64 ->
  exists r wf obs, run_guest h g (EventRecorder_new ModeRecord) w = Ret (r, wf, obs) /\
    Forall observation_ok obs /\
    forall W2 (h2 : host_sources W2) (w2 : W2),
      exists r', run_guest h2 g (EventRecorder_from_replay_log (EventRecorder_export_log r)) w2 = Ret (r', w2, obs).
Proof.
  intros Hfill Ht Hn Hlt.
  destruct (record_then_replay h g n (EventRecorder_new ModeRecord) w) as (r & wf & obs & Hrun & _ & Hok & Hrep);
    [done | done | apply new_log_before | done..|].
  exists r, wf, obs. split_and!; [done..|]. intros W2 h2 w2. apply Hrep; [done..|]. by rewrite import_export_log.
Qed.

(** Export and import are inverse: a replay recorder built from an exported
    log holds the same value under every key, whatever the traversal order. *)
Theorem export_import_roundtrip `{HashMapIterLaws} (r : EventRecorder) (tick ordinal : N) :
  log (EventRecorder_from_replay_log (EventRecorder_export_log r)) !! (tick, ordinal) = log r !! (tick, ordinal).
Proof. by rewrite import_export_log. Qed.

(** A replayed clock read is decided by the log alone: the recorded value, or
    a type mismatch, or a missing entry carrying the key, never the host's clock;
    the log and the host state are left as they were. *)
Theorem replay_clock_exact {W} (r : EventRecorder) (tick : N) (real_now_fn : W -> W * N) (w : W) :
  mode r = ModeReplay -> ordinal_at r tick + 1 < 2 ^ 64 ->
  exists r' res, EventRecorder_wall_clock_now r tick real_now_fn w = Ret (r', w, res) /\
    log r' = log r /\ current_tick r' = tick /\ current_ordinal r' = ordinal_at r tick + 1 /\
    (forall v, res = Ok v <-> log r !! (tick, ordinal_at r tick) = Some (RecordedClock v)) /\
    (res = Err (MissingEntry tick (ordinal_at r tick)) <-> log r !! (tick, ordinal_at r tick) = None) /\
    (res = Err (TypeMismatch tick (ordinal_at r tick)) <->
      exists b, log r !! (tick, ordinal_at r tick) = Some (RecordedRandom b)).
Proof.
  intros Hm Ho. do 2 eexists. split; [by apply wall_clock_replay|]. simpl. split_and!; [done..| | |].
  all: destruct (log r !! _) as [[v|v]|]; naive_solver.
Qed.

(** C40. A replayed random draw is decided by the log alone, with the exact error:
    it delivers the recorded bytes when they fit the buffer exactly; it reports
    [MissingEntry] with the key when nothing is recorded under it, and
    [TypeMismatch] with the key when a clock reading, or bytes of another length,
    are. The buffer is untouched unless the draw succeeds, the recorder moves to
    the next ordinal, and the log and the host are left as they were. *)
Theorem replay_random_exact {W} (r : EventRecorder) (tick : N) (buf : list N)
    (real_random_fn : W -> list N -> W * list N) (w : W) :
  mode r = ModeReplay -> ordinal_at r tick + 1 < 2 ^ 64 ->
  exists r' buf' res, EventRecorder_random_bytes r tick buf real_random_fn w = Ret (r', w, buf', res) /\
    log r' = log r /\ current_tick r' = tick /\ current_ordinal r' = ordinal_at r tick + 1 /\
    (res = Ok tt <-> log r !! (tick, ordinal_at r tick) = Some (RecordedRandom buf') /\ #|buf'| = #|buf|) /\
    (res = Err (MissingEntry tick (ordinal_at r tick)) <-> log r !! (tick, ordinal_at r tick) = None) /\
    (res = Err (TypeMismatch tick (ordinal_at r tick)) <->
      (exists v, log r !! (tick, ordinal_at r tick) = Some (RecordedClock v)) \/
      (exists v, log r !! (tick, ordinal_at r tick) = Some (RecordedRandom v) /\ #|v| <> #|buf|)) /\
    (res <> Ok tt -> buf' = buf).
Proof.
  intros Hm Ho. pose proof (random_replay r tick buf real_random_fn w Hm Ho) as Hrun. simpl in Hrun.
  destruct (log r !! (tick, ordinal_at r tick)) as [[v|v]|]; [|destruct (#|v| =? #|buf|) eqn:E; bool_to_prop|];
    rewrite Hrun; do 3 eexists; (split; [done|]); split_and!; try done; naive_solver.
Qed.

(** Without monotone ticks replay is not faithful: a guest that reads the
    clock at ticks 1, 2 and 1 again overwrites the first reading in the log, and
    the replay answers the third reading in its place. *)
Theorem revisited_tick_overwrites `{HashMapIterLaws} {W} (h : host_sources W) (w w1 w2 w3 : W) (a b c : N) :
  real_now h w = (w1, a) -> real_now h w1 = (w2, b) -> real_now h w2 = (w3, c) ->
  let g := GuestClock 1 (fun _ => GuestClock 2 (fun _ => GuestClock 1 (fun _ => GuestDone))) in
  exists r, run_guest h g (EventRecorder_new ModeRecord) w = Ret (r, w3, [SawClock (Ok a); SawClock (Ok b); SawClock (Ok c)]) /\
    exists r', run_guest h g (EventRecorder_from_replay_log (EventRecorder_export_log r)) w =
      Ret (r', w, [SawClock (Ok c); SawClock (Ok b); SawClock (Ok c)]).
Proof.
  intros Ha Hb Hc g. eexists. split.
  - unfold g. cbn [run_guest]. rewrite wall_clock_record by done. rewrite Ha. cbn [mbind outcome_bind fst snd].
    rewrite wall_clock_record by done. rewrite Hb. cbn [mbind outcome_bind fst snd].
    rewrite wall_clock_record by done. rewrite Hc. cbn [mbind outcome_bind fst snd]. done.
  - set (r := advanced _ _ _). unfold g. cbn [run_guest].
    pose proof (import_export_log r) as Hlog.
    rewrite wall_clock_replay by done. rewrite Hlog. cbn [mbind outcome_bind].
    rewrite wall_clock_replay by done. cbn [mbind outcome_bind].
    rewrite wall_clock_replay by done. eexists. done.
Qed.

End replay.

(** ** Witnesses *)

(** A host whose clock advances by 7 and whose entropy is a counter. *)
Definition ticking_host : host_sources N :=
  MkHostSources N (fun w => (w + 7, w + 7)) (fun w buf => (w + 1, (fun _ => w mod 256) <$> buf)).

(** A guest that draws random bytes only if its two clock reads differ. *)
Definition sample_guest : guest :=
  GuestClock 1 (fun r1 => GuestClock 1 (fun r2 =>
    if decide (r1 = r2) then GuestDone else GuestRandom 3 [0; 0] (fun _ _ => GuestDone))).

Lemma ticking_host_fills : fills_buffer ticking_host.
Proof. intros w buf. simpl. by rewrite length_fmap. Qed.

Lemma sample_guest_ticks : ticks_from 0 sample_guest.
Proof. simpl. split; [lia|]. intros r1. split; [lia|]. intros r2. case_decide; simpl; [done|]. split; [lia | done]. Qed.

Lemma sample_guest_calls : calls_within 3 sample_guest.
Proof. simpl. intros r1 r2. by case_decide. Qed.

Lemma replay_bit_identical_witness :
  exists r wf obs, @run_guest dev_profile N ticking_host sample_guest (EventRecorder_new ModeRecord) 1000 = Ret (r, wf, obs) /\
    exists r', @run_guest dev_profile N ticking_host sample_guest
      (EventRecorder_from_replay_log (@EventRecorder_export_log iter_backward r)) 5 = Ret (r', 5, obs).
Proof.
  destruct (@replay_bit_identical dev_profile iter_backward iter_backward_laws N ticking_host sample_guest 3 1000)
    as (r & wf & obs & Hrun & _ & Hrep).
  - exact ticking_host_fills.
  - exact sample_guest_ticks.
  - exact sample_guest_calls.
  - vm_compute. reflexivity.
  - exists r, wf, obs. split; [exact Hrun | exact (Hrep N ticking_host 5)].
Defined.

Lemma export_import_roundtrip_witness :
  let r := MkEventRecorder ModeRecord {[(1, 0) := RecordedClock 1007; (1, 1) := RecordedRandom [4; 5]]} 1 2 in
  log (EventRecorder_from_replay_log (@EventRecorder_export_log iter_backward r)) !! (1, 1) = Some (RecordedRandom [4; 5]).
Proof.
  intros r. rewrite (@export_import_roundtrip iter_backward iter_backward_laws r 1 1). vm_compute. reflexivity.
Defined.

Lemma replay_clock_exact_witness :
  exists r' res, @EventRecorder_wall_clock_now dev_profile N (EventRecorder_from_replay_log []) 0 (fun w => (w, 42)) 9 =
    Ret (r', 9, res) /\ res = Err (MissingEntry 0 0).
Proof.
  destruct (@replay_clock_exact dev_profile N (EventRecorder_from_replay_log []) 0 (fun w => (w, 42)) 9)
    as (r' & res & Hrun & _ & _ & _ & _ & [_ Hmiss] & _); [reflexivity | vm_compute; reflexivity |].
  exists r', res. split; [exact Hrun | apply Hmiss; vm_compute; reflexivity].
Defined.

(** Three bytes are recorded where two are asked for. *)
Lemma replay_random_exact_witness :
  exists r' buf' res,
    @EventRecorder_random_bytes dev_profile N (EventRecorder_from_replay_log [(2, 0, EntryRandom [9; 8; 7])]) 2 [0; 0]
      (fun w b => (w, b)) 9 = Ret (r', 9, buf', res) /\ res = Err (TypeMismatch 2 0) /\ (res <> Ok tt -> buf' = [0; 0]).
Proof.
  destruct (@replay_random_exact dev_profile N (EventRecorder_from_replay_log [(2, 0, EntryRandom [9; 8; 7])]) 2 [0; 0]
    (fun w b => (w, b)) 9) as (r' & buf' & res & Hrun & _ & _ & _ & _ & _ & [_ Hmis] & Hbuf); [reflexivity | vm_compute; reflexivity |].
  exists r', buf', res. split; [exact Hrun|]. split; [|exact Hbuf].
  apply Hmis. right. exists [9; 8; 7]. split; [vm_compute; reflexivity | vm_compute; discriminate].
Defined.

Lemma revisited_tick_overwrites_witness :
  exists r, @run_guest dev_profile N ticking_host
      (GuestClock 1 (fun _ => GuestClock 2 (fun _ => GuestClock 1 (fun _ => GuestDone)))) (EventRecorder_new ModeRecord) 0 =
    Ret (r, 21, [SawClock (Ok 7); SawClock (Ok 14); SawClock (Ok 21)]).
Proof.
  destruct (@revisited_tick_overwrites dev_profile iter_forward iter_forward_laws N ticking_host 0 7 14 21 7 14 21)
    as (r & Hr & _); [reflexivity.. |]. exists r. exact Hr.
Defined.
