(* ===== verification/Io.v ===== *)
(** * I/O front end (chronos-io/src/lib.rs)

    Per-cell descriptor tables and completion queues, the [IoSubsystem] trait
    and its in-process stub. Guest descriptors are handed out in increasing
    order and never recycled; completions are delivered in arrival order. *)

From stdpp Require Import strings.
From S2P Require Import Prelude Machine.

(** ** Data *)

Inductive IoError :=
| UnknownFd (fd : N)
| SubmissionQueueFull
| SetupFailed (msg : string)
| BufferRegistrationFailed (msg : string).

Record IoCompletion := MkIoCompletion {
  comp_cell : N;
  comp_guest_fd : N;
  comp_request_id : N;
  comp_result : Z
}.

#[export] Instance IoError_eq_dec : EqDecision IoError.
Proof. solve_decision. Defined.
#[export] Instance IoCompletion_eq_dec : EqDecision IoCompletion.
Proof. solve_decision. Defined.

(** ** Descriptor table *)

Record FdTable := MkFdTable {
  fd_entries : gmap N Z;
  next_guest_fd : N
}.

(** [derive(Default)]. *)
Definition FdTable_default : FdTable := MkFdTable ∅ 0.

Definition FdTable_new : FdTable := MkFdTable ∅ 3.

Definition FdTable_register `{BuildProfile} (t : FdTable) (host_fd : Z) : outcome (FdTable * N) :=
  let guest_fd := next_guest_fd t in
  next ← uadd 32 (next_guest_fd t) 1;
  Ret (MkFdTable (<[guest_fd := host_fd]> (fd_entries t)) next, guest_fd).

Definition FdTable_resolve (t : FdTable) (guest_fd : N) : result IoError Z :=
  match fd_entries t !! guest_fd with
  | Some h => Ok h
  | None => Err (UnknownFd guest_fd)
  end.

Definition FdTable_close (t : FdTable) (guest_fd : N) : FdTable * option Z :=
  (MkFdTable (delete guest_fd (fd_entries t)) (next_guest_fd t), fd_entries t !! guest_fd).

(** ** Completion queue *)

Record PendingCompletions := MkPendingCompletions { queue : list IoCompletion }.

Definition PendingCompletions_new : PendingCompletions := MkPendingCompletions [].

Definition PendingCompletions_push (q : PendingCompletions) (c : IoCompletion) : PendingCompletions :=
  MkPendingCompletions (queue q ++ [c]).

Definition PendingCompletions_drain_for_dispatch (q : PendingCompletions) : PendingCompletions * list IoCompletion :=
  (MkPendingCompletions [], queue q).

Definition PendingCompletions_is_empty (q : PendingCompletions) : bool :=
  match queue q with [] => true | _ => false end.

(** ** Subsystems *)

(** The trait [IoSubsystem]: registering a buffer, submitting a read or a write
    (cell, guest fd, host fd, buffer index, offset, length, request id), and
    draining completions. *)
Class IoSubsystem (S : Type) := {
  register_fixed_buffer : S -> N -> list N -> S * result IoError unit;
  submit_read_fixed : S -> N -> N -> Z -> N -> N -> N -> N -> outcome (S * result IoError unit);
  submit_write_fixed : S -> N -> N -> Z -> N -> N -> N -> N -> outcome (S * result IoError unit);
  poll_completions : S -> S * list IoCompletion
}.

Record StubIoSubsystem := MkStubIoSubsystem { completions : list IoCompletion }.

Definition StubIoSubsystem_new : StubIoSubsystem := MkStubIoSubsystem [].

Definition StubIoSubsystem_register_fixed_buffer (s : StubIoSubsystem) (buffer_index : N) (buf : list N) :
    StubIoSubsystem * result IoError unit := (s, Ok tt).

Definition StubIoSubsystem_submit_read_fixed (s : StubIoSubsystem) (cell guest_fd : N) (host_fd : Z)
    (buffer_index offset len request_id : N) : outcome (StubIoSubsystem * result IoError unit) :=
  Ret (MkStubIoSubsystem (completions s ++ [MkIoCompletion cell guest_fd request_id (as_i32 len)]), Ok tt).

Definition StubIoSubsystem_submit_write_fixed (s : StubIoSubsystem) (cell guest_fd : N) (host_fd : Z)
    (buffer_index offset len request_id : N) : outcome (StubIoSubsystem * result IoError unit) :=
  Ret (MkStubIoSubsystem (completions s ++ [MkIoCompletion cell guest_fd request_id (as_i32 len)]), Ok tt).

Definition StubIoSubsystem_poll_completions (s : StubIoSubsystem) : StubIoSubsystem * list IoCompletion :=
  (MkStubIoSubsystem [], completions s).

#[export] Instance StubIoSubsystem_IoSubsystem : IoSubsystem StubIoSubsystem := {|
  register_fixed_buffer := StubIoSubsystem_register_fixed_buffer;
  submit_read_fixed := StubIoSubsystem_submit_read_fixed;
  submit_write_fixed := StubIoSubsystem_submit_write_fixed;
  poll_completions := StubIoSubsystem_poll_completions
|}.

(** ** What a subsystem promises its clients *)

(** A request is named by its cell, guest descriptor and request id. *)
Definition request : Type := N * N * N.
Definition comp_request (c : IoCompletion) : request := (comp_cell c, comp_guest_fd c, comp_request_id c).

(** Whether a submission with this answer put a request in flight: only a full
    submission queue turns it away. *)
Definition queued (r : result IoError unit) : bool :=
  match r with Err SubmissionQueueFull => false | _ => true end.

(** The contract: for the identifiers a backend can carry, a submission never
    panics and puts at most the named request in flight, and polling delivers
    completions only for requests in flight, each once. *)
Class IoSubsystemLaws (S : Type) `{IoSubsystem S} := {
  addressable : request -> Prop;
  outstanding : S -> list request;
  submit_read_law : forall s cell fd host buf off len rid, addressable (cell, fd, rid) ->
    exists s' r, submit_read_fixed s cell fd host buf off len rid = Ret (s', r) /\
      outstanding s' ≡ₚ (if queued r then [(cell, fd, rid)] else []) ++ outstanding s;
  submit_write_law : forall s cell fd host buf off len rid, addressable (cell, fd, rid) ->
    exists s' r, submit_write_fixed s cell fd host buf off len rid = Ret (s', r) /\
      outstanding s' ≡ₚ (if queued r then [(cell, fd, rid)] else []) ++ outstanding s;
  poll_law : forall s,
    (comp_request <$> snd (poll_completions s)) ++ outstanding (fst (poll_completions s)) ≡ₚ outstanding s;
  register_buffer_law : forall s i buf, outstanding (fst (register_fixed_buffer s i buf)) ≡ₚ outstanding s
}.

#[export] Program Instance StubIoSubsystem_laws : IoSubsystemLaws StubIoSubsystem := {|
  addressable := fun _ => True;
  outstanding := fun s => comp_request <$> completions s
|}.
Next Obligation.
  intros. do 2 eexists. split; [done|]. simpl. rewrite fmap_app. simpl. by rewrite Permutation_app_comm.
Qed.
Next Obligation.
  intros. do 2 eexists. split; [done|]. simpl. rewrite fmap_app. simpl. by rewrite Permutation_app_comm.
Qed.
Next Obligation. intros. simpl. by rewrite app_nil_r. Qed.
Next Obligation. done. Qed.

(** ** Histories of a client *)

Inductive io_op :=
| IoRegister (buffer_index : N) (buf : list N)
| IoRead (cell guest_fd : N) (host_fd : Z) (buffer_index offset len request_id : N)
| IoWrite (cell guest_fd : N) (host_fd : Z) (buffer_index offset len request_id : N)
| IoPoll.

Section io_history.
Context {S : Type} `{IoSubsystem S}.

(** A run keeps the requests put in flight and the completions delivered. *)
Record io_trace := MkIoTrace { io_state : S; in_flight_log : list request; delivered_log : list IoCompletion }.

Definition run_io_op (t : io_trace) (o : io_op) : outcome io_trace :=
  match o with
  | IoRegister i buf => Ret (MkIoTrace (fst (register_fixed_buffer (io_state t) i buf)) (in_flight_log t) (delivered_log t))
  | IoRead cell fd host buf off len rid =>
      '(s', r) ← submit_read_fixed (io_state t) cell fd host buf off len rid;
      Ret (MkIoTrace s' (in_flight_log t ++ (if queued r then [(cell, fd, rid)] else [])) (delivered_log t))
  | IoWrite cell fd host buf off len rid =>
      '(s', r) ← submit_write_fixed (io_state t) cell fd host buf off len rid;
      Ret (MkIoTrace s' (in_flight_log t ++ (if queued r then [(cell, fd, rid)] else [])) (delivered_log t))
  | IoPoll =>
      Ret (MkIoTrace (fst (poll_completions (io_state t))) (in_flight_log t)
        (delivered_log t ++ snd (poll_completions (io_state t))))
  end.

Definition op_request (o : io_op) : option request :=
  match o with
  | IoRead cell fd _ _ _ _ rid | IoWrite cell fd _ _ _ _ rid => Some (cell, fd, rid)
  | _ => None
  end.

Context `{!IoSubsystemLaws S}.

Definition op_addressable (o : io_op) : Prop :=
  match op_request o with Some q => addressable q | None => True end.

(** Delivered and outstanding requests are together the ones put in flight. *)
Definition accounted (t : io_trace) : Prop :=
  (comp_request <$> delivered_log t) ++ outstanding (io_state t) ≡ₚ in_flight_log t.

Lemma submit_accounted t (s' : S) q (r : result IoError unit) :
  outstanding s' ≡ₚ (if queued r then [q] else []) ++ outstanding (io_state t) -> accounted t ->
  accounted (MkIoTrace s' (in_flight_log t ++ (if queued r then [q] else [])) (delivered_log t)).
Proof. unfold accounted. simpl. intros -> <-. solve_Permutation. Qed.

Lemma run_io_op_accounted t o :
  op_addressable o -> accounted t -> exists t', run_io_op t o = Ret t' /\ accounted t'.
Proof.
  destruct o as [i buf|cell fd host buf off len rid|cell fd host buf off len rid|]; intros Ha Ht; cbn [run_io_op].
  - eexists. split; [done|]. unfold accounted. simpl. by rewrite register_buffer_law.
  - destruct (submit_read_law (io_state t) cell fd host buf off len rid Ha) as (s' & r & -> & Hs).
    eexists. split; [done|]. by apply submit_accounted.
  - destruct (submit_write_law (io_state t) cell fd host buf off len rid Ha) as (s' & r & -> & Hs).
    eexists. split; [done|]. by apply submit_accounted.
  - eexists. split; [done|]. unfold accounted. simpl. by rewrite fmap_app, <- app_assoc, poll_law.
Qed.

Lemma run_io_accounted s ops :
  outstanding s ≡ₚ [] -> Forall op_addressable ops ->
  exists t, for_each run_io_op ops (MkIoTrace s [] []) = Ret t /\ accounted t.
Proof.
  intros Hs Hops. apply (for_each_inv accounted); [done|].
  intros t o Ht Ho. apply run_io_op_accounted; [|done]. by eapply Forall_forall in Hops.
Qed.
End io_history.
Arguments io_trace : clear implicits.

(** ** Histories of a completion queue *)

Inductive pending_op :=
| OpPush (c : IoCompletion)
| OpDrain.

(** The queue at the end of a history and what each drain delivered. *)
Fixpoint run_pending (ops : list pending_op) (q : PendingCompletions) : PendingCompletions * list (list IoCompletion) :=
  match ops with
  | [] => (q, [])
  | OpPush c :: ops => run_pending ops (PendingCompletions_push q c)
  | OpDrain :: ops =>
      let '(q1, out) := PendingCompletions_drain_for_dispatch q in
      let '(q2, outs) := run_pending ops q1 in (q2, out :: outs)
  end.

Definition pushed (ops : list pending_op) : list IoCompletion :=
  omap (fun o => match o with OpPush c => Some c | OpDrain => None end) ops.

Lemma run_pending_fifo ops q q' outs :
  run_pending ops q = (q', outs) -> concat outs ++ queue q' = queue q ++ pushed ops.
Proof.
  revert q outs. induction ops as [|[c|] ops IH]; intros q outs; simpl.
  - intros [= <- <-]. simpl. by rewrite app_nil_r.
  - intros Hrun. rewrite (IH _ _ Hrun). simpl. by rewrite <- app_assoc.
  - destruct (run_pending ops _) as [q2 outs2] eqn:E. intros [= <- <-]. simpl.
    rewrite <- app_assoc. rewrite (IH _ _ E). done.
Qed.

(** ** Histories of a descriptor table *)

Inductive fd_op :=
| OpRegister (host_fd : Z)
| OpClose (guest_fd : N).

Section fd_lemmas.
Context `{BuildProfile}.

Definition run_fd_op (t : FdTable) (o : fd_op) : outcome FdTable :=
  match o with
  | OpRegister h => '(t', _) ← FdTable_register t h; Ret t'
  | OpClose fd => Ret (fst (FdTable_close t fd))
  end.

Fixpoint registrations (ops : list fd_op) : N :=
  match ops with
  | [] => 0
  | OpRegister _ :: ops => 1 + registrations ops
  | OpClose _ :: ops => registrations ops
  end.

(** Every open descriptor is one already handed out. *)
Definition fd_wf (t : FdTable) : Prop := forall fd, is_Some (fd_entries t !! fd) -> fd < next_guest_fd t.

Lemma register_ok t h :
  next_guest_fd t + 1 < 2 ^ 32 ->
  FdTable_register t h =
    Ret (MkFdTable (<[next_guest_fd t := h]> (fd_entries t)) (next_guest_fd t + 1), next_guest_fd t).
Proof. intros Hlt. unfold FdTable_register. by rewrite uadd_ok. Qed.

Lemma run_fd_op_ok t o :
  fd_wf t -> next_guest_fd t + registrations [o] < 2 ^ 32 ->
  exists t', run_fd_op t o = Ret t' /\ fd_wf t' /\ next_guest_fd t' = next_guest_fd t + registrations [o] /\
    forall fd, fd < next_guest_fd t -> fd_entries t !! fd = None -> fd_entries t' !! fd = None.
Proof.
  intros Hwf Hlt. destruct o as [h|fd0]; cbn [registrations] in Hlt |- *; cbn [run_fd_op].
  - rewrite register_ok by lia. eexists. split; [done|]. simpl. split_and!; [|done|].
    + intros fd. simpl. rewrite lookup_insert. case_decide; [lia|]. intros Hfd%Hwf. lia.
    + intros fd Hfd Hnone. by rewrite lookup_insert_ne by lia.
  - eexists. split; [done|]. simpl. split_and!; [|lia|].
    + intros fd. simpl. rewrite lookup_delete. case_decide; [by intros [? ?] | apply Hwf].
    + intros fd _ Hnone. rewrite lookup_delete. by case_decide.
Qed.

Lemma run_fd_ops_ok t ops :
  fd_wf t -> next_guest_fd t + registrations ops < 2 ^ 32 ->
  exists t', for_each run_fd_op ops t = Ret t' /\ fd_wf t' /\ next_guest_fd t' = next_guest_fd t + registrations ops /\
    forall fd, fd < next_guest_fd t -> fd_entries t !! fd = None -> fd_entries t' !! fd = None.
Proof.
  revert t. induction ops as [|o ops IH]; intros t Hwf Hlt.
  { exists t. split_and!; [done | done | simpl; lia | done]. }
  assert (registrations (o :: ops) = registrations [o] + registrations ops) as Hreg by (destruct o; simpl; lia).
  rewrite Hreg in *. destruct (run_fd_op_ok t o Hwf) as (t1 & Hrun & Hwf1 & Hn1 & Hc1); [lia|].
  destruct (IH t1 Hwf1) as (t' & Hrun' & Hwf' & Hn' & Hc'); [lia|].
  exists t'. cbn [for_each]. rewrite Hrun. cbn [mbind outcome_bind].
  split_and!; [done | done | lia |]. intros fd Hfd Hnone. apply Hc'; [lia | by apply Hc1].
Qed.

Lemma new_fd_wf : fd_wf FdTable_new.
Proof. intros fd [h Hh]. simpl in Hh. by rewrite lookup_empty in Hh. Qed.

(** ** Theorems *)

(** C36. Opening a descriptor after any history of opens and closes: the guest
    gets a number it was never given before (the next one in sequence, so never
    one of the reserved 0, 1, 2), which resolves to the host descriptor just
    registered, and every other number resolves as before. *)
Theorem fd_register_fresh (ops : list fd_op) (host_fd : Z) :
  registrations ops + 4 < 2 ^ 32 ->
  exists t t' fd, for_each run_fd_op ops FdTable_new = Ret t /\ FdTable_register t host_fd = Ret (t', fd) /\
    fd = 3 + registrations ops /\ FdTable_resolve t fd = Err (UnknownFd fd) /\
    FdTable_resolve t' fd = Ok host_fd /\
    forall fd', fd' <> fd -> FdTable_resolve t' fd' = FdTable_resolve t fd'.
Proof.
  intros Hlt. destruct (run_fd_ops_ok FdTable_new ops new_fd_wf) as (t & Hrun & Hwf & Hn & _); [simpl; lia|].
  simpl in Hn. rewrite <- Hn in *. exists t. do 2 eexists. split; [done|]. split; [apply register_ok; lia|].
  split; [done|]. unfold FdTable_resolve. cbn [fd_entries]. rewrite lookup_insert_eq. split_and!; [|done|].
  - destruct (fd_entries t !! next_guest_fd t) eqn:E; [|done]. exfalso.
    assert (next_guest_fd t < next_guest_fd t) by (apply Hwf; eauto). lia.
  - intros fd' Hfd. by rewrite lookup_insert_ne.
Qed.

(** A closed descriptor stays closed: once a number that was handed out has
    been closed, no later history of opens and closes makes it resolve again, so
    a stale descriptor can never reach a file opened later. *)
Theorem closed_fd_never_reused (before after : list fd_op) (fd : N) :
  3 + registrations before + registrations after < 2 ^ 32 -> fd < 3 + registrations before ->
  exists t t', for_each run_fd_op before FdTable_new = Ret t /\
    for_each run_fd_op after (fst (FdTable_close t fd)) = Ret t' /\ FdTable_resolve t' fd = Err (UnknownFd fd).
Proof.
  intros Hlt Hfd. destruct (run_fd_ops_ok FdTable_new before new_fd_wf) as (t & Hrun & Hwf & Hn & _); [simpl; lia|].
  simpl in Hn. destruct (run_fd_op_ok t (OpClose fd) Hwf) as (t1 & [= <-] & Hwf1 & Hn1 & _); [simpl; lia|].
  destruct (run_fd_ops_ok _ after Hwf1) as (t' & Hrun' & _ & _ & Hc); [simpl in *; lia|].
  exists t, t'. split_and!; [done..|]. unfold FdTable_resolve. rewrite Hc; [done | simpl in *; lia |].
  apply lookup_delete_eq.
Qed.

End fd_lemmas.

(** At the end of the 32-bit number space the build profile decides: with
    overflow checks the last registration panics; without them it succeeds, the
    counter wraps to 0, and the next registration hands out the reserved 0. *)
Theorem fd_space_exhausted (m : gmap N Z) (h1 h2 : Z) :
  @FdTable_register dev_profile (MkFdTable m (2 ^ 32 - 1)) h1 = Panic ArithmeticOverflow /\
  exists t1 t2, @FdTable_register release_profile (MkFdTable m (2 ^ 32 - 1)) h1 = Ret (t1, 2 ^ 32 - 1) /\
    @FdTable_register release_profile t1 h2 = Ret (t2, 0).
Proof. split; [done|]. do 2 eexists. split; done. Qed.

(** The two constructors disagree: a table from [new] starts at descriptor 3,
    while the derived [Default] hands out the reserved 0 first. *)
Theorem fd_default_breaks_reservation `{BuildProfile} (host_fd : Z) :
  (exists t, FdTable_register FdTable_new host_fd = Ret (t, 3)) /\
  (exists t, FdTable_register FdTable_default host_fd = Ret (t, 0)).
Proof. split; eexists; rewrite register_ok by (simpl; lia); done. Qed.

Lemma fd_register_fresh_witness :
  registrations [OpRegister 10; OpClose 3; OpRegister 11] + 4 < 2 ^ 32 /\
  exists t t' fd, for_each (@run_fd_op release_profile) [OpRegister 10; OpClose 3; OpRegister 11] FdTable_new = Ret t /\
    @FdTable_register release_profile t 12 = Ret (t', fd) /\ fd = 5.
Proof.
  split; [done|].
  destruct (@fd_register_fresh release_profile [OpRegister 10; OpClose 3; OpRegister 11] 12) as (t & t' & fd & H1 & H2 & H3 & _);
    [done|]. exists t, t', fd. split_and!; [exact H1 | exact H2 | exact H3].
Defined.

Lemma closed_fd_never_reused_witness :
  3 + registrations [OpRegister 10] + registrations [OpRegister 11; OpRegister 12] < 2 ^ 32 /\
  3 < 3 + registrations [OpRegister 10] /\
  exists t t', for_each (@run_fd_op dev_profile) [OpRegister 10] FdTable_new = Ret t /\
    for_each (@run_fd_op dev_profile) [OpRegister 11; OpRegister 12] (fst (FdTable_close t 3)) = Ret t' /\
    FdTable_resolve t' 3 = Err (UnknownFd 3).
Proof.
  split; [done|]. split; [done|].
  exact (@closed_fd_never_reused dev_profile [OpRegister 10] [OpRegister 11; OpRegister 12] 3 eq_refl eq_refl).
Defined.

(** C37. Completions reach a cell in arrival order, none lost and none twice, for
    every interleaving of arrivals and dispatches: what the dispatches delivered,
    in order, followed by what is still queued, is exactly what arrived; and a
    dispatch leaves the queue empty. *)
Theorem pending_fifo (ops : list pending_op) :
  (let '(q, outs) := run_pending ops PendingCompletions_new in concat outs ++ queue q = pushed ops) /\
  forall q, PendingCompletions_is_empty (fst (PendingCompletions_drain_for_dispatch q)) = true.
Proof.
  split; [|done]. destruct (run_pending ops _) as [q outs] eqn:E. by rewrite (run_pending_fifo _ _ _ _ E).
Qed.

(** Against any backend that keeps the contract of [IoSubsystem]: after any
    history of registrations, reads, writes and polls with addressable
    identifiers the run does not panic, and the completions delivered are for
    exactly the requests put in flight less the ones still outstanding: no
    completion is invented, duplicated or given to another request. *)
Theorem completions_account_for_requests {S : Type} `{IoSubsystemLaws S} (s : S) (ops : list io_op) :
  outstanding s ≡ₚ [] -> Forall op_addressable ops ->
  exists t, for_each run_io_op ops (MkIoTrace s [] []) = Ret t /\
    (comp_request <$> delivered_log t) ++ outstanding (io_state t) ≡ₚ in_flight_log t.
Proof. apply run_io_accounted. Qed.

Definition sample_io : list io_op := [IoRead 1 3 5 0 0 4096 42; IoPoll; IoWrite 2 3 6 0 0 512 43].

Lemma completions_account_for_requests_witness :
  Forall op_addressable sample_io /\
  exists t, for_each run_io_op sample_io (MkIoTrace StubIoSubsystem_new [] []) = Ret t /\
    (comp_request <$> delivered_log t) ++ outstanding (io_state t) ≡ₚ in_flight_log t.
Proof.
  assert (Forall op_addressable sample_io) as Hops by (by repeat constructor).
  split; [exact Hops|]. exact (completions_account_for_requests StubIoSubsystem_new sample_io (reflexivity _) Hops).
Defined.

(** The stub reports a full transfer for requests shorter than 2 GiB; a
    longer one comes back as a negative number, which the completion's contract
    reads as an error code. *)
Theorem stub_result_sign (s : StubIoSubsystem) (cell fd : N) (host : Z) (buf off len rid : N) :
  len < 2 ^ 32 ->
  exists s', submit_read_fixed s cell fd host buf off len rid = Ret (s', Ok tt) /\
    submit_write_fixed s cell fd host buf off len rid = Ret (s', Ok tt) /\
    exists r, snd (poll_completions s') = completions s ++ [MkIoCompletion cell fd rid r] /\
      (if decide (len < 2 ^ 31) then r = Z.of_N len else (r < 0)%Z).
Proof.
  intros Hlen. eexists. split; [done|]. split; [done|]. eexists. split; [done|].
  unfold as_i32. destruct (decide (len < 2 ^ 31)) as [Hlt|Hge].
  - by rewrite (proj2 (N.ltb_lt _ _) Hlt).
  - rewrite (proj2 (N.ltb_ge _ _)); [|by apply N.nlt_ge]. lia.
Qed.

Lemma stub_result_sign_witness :
  4096 < 2 ^ 32 /\
  exists s', submit_read_fixed StubIoSubsystem_new 0 3 5 0 0 4096 42 = Ret (s', Ok tt) /\
    snd (poll_completions s') = [MkIoCompletion 0 3 42 4096].
Proof.
  split; [done|].
  destruct (stub_result_sign StubIoSubsystem_new 0 3 5 0 0 4096 42) as (s' & H1 & _ & r & H2 & H3); [done|].
  exists s'. split; [exact H1|]. rewrite H2. simpl in H3. by rewrite H3.
Defined.
