(* ===== verification/Uring.v ===== *)
(** * io_uring backend (chronos-io/src/linux_ring.rs)

    The identifiers of a request travel through the kernel packed in one 64-bit
    word. The [io-uring] crate and the kernel behind it are a parameter, with
    what their documentation promises as laws; the backend is then shown to keep
    the contract of [Io.IoSubsystemLaws] for identifiers that fit the word. *)

From stdpp Require Import strings.
From S2P Require Import Prelude Machine Io.

(** ** Packing *)

Definition pack_user_data `{BuildProfile} (cell guest_fd request_id : N) : outcome N :=
  _ ← debug_assert (cell <? N.shiftl 1 24);
  _ ← debug_assert (guest_fd <? N.shiftl 1 20);
  _ ← debug_assert (request_id <? N.shiftl 1 20);
  Ret (N.lor (N.lor (ushl 64 cell 40) (ushl 64 guest_fd 20)) (N.land request_id 0xFFFFF)).

Definition unpack_user_data (bits : N) : N * N * N :=
  let cell := N.shiftr bits 40 in
  let guest_fd := as_unsigned 32 (N.land (N.shiftr bits 20) 0xFFFFF) in
  let request_id := N.land bits 0xFFFFF in
  (cell, guest_fd, request_id).

Arguments unpack_user_data : simpl never.

(** ** The io-uring crate *)

Inductive opcode := ReadFixed | WriteFixed.

(** A submission entry: operation, host descriptor, length, index of the
    registered buffer, file offset and the caller's word. *)
Record Sqe := MkSqe {
  sqe_op : opcode;
  sqe_fd : Z;
  sqe_len : N;
  sqe_buf_index : N;
  sqe_offset : N;
  sqe_user_data : N
}.

Record Cqe := MkCqe { cqe_user_data : N; cqe_result : Z }.

(** The calls the backend makes: creating a ring, replacing the table of
    registered buffers, pushing on the submission queue, submitting, and
    synchronising the completion queue and reading it to its end. *)
Class IoUring := {
  Ring : Type;
  IoUring_new : N -> result string Ring;
  register_buffers : Ring -> list (list N) -> Ring * result string unit;
  submission_push : Ring -> Sqe -> Ring * result unit unit;
  submit : Ring -> Ring * result string N;
  completion_sync_drain : Ring -> Ring * list Cqe
}.

(** What the crate documents: an entry accepted by the submission queue yields
    one completion, whenever it comes, that carries the entry's word unchanged;
    nothing else yields completions, and a refused entry leaves no trace.
    [pending_words] lists the words whose completion has not been read. *)
Class IoUringLaws `{IoUring} := {
  pending_words : Ring -> list N;
  ring_new_law : forall entries r, IoUring_new entries = Ok r -> pending_words r = [];
  register_buffers_law : forall r bufs, pending_words (fst (register_buffers r bufs)) ≡ₚ pending_words r;
  push_law : forall r e,
    pending_words (fst (submission_push r e)) ≡ₚ
      match snd (submission_push r e) with Ok _ => [sqe_user_data e] | Err _ => [] end ++ pending_words r;
  submit_law : forall r, pending_words (fst (submit r)) ≡ₚ pending_words r;
  drain_law : forall r,
    (cqe_user_data <$> snd (completion_sync_drain r)) ++ pending_words (fst (completion_sync_drain r)) ≡ₚ pending_words r
}.

(** ** The backend *)

Section backend.
Context `{IoUring}.

Record UringIoSubsystem := MkUringIoSubsystem {
  ring : Ring;
  registered_buffer_lens : gmap N N
}.

Definition UringIoSubsystem_new (entries : N) : result IoError UringIoSubsystem :=
  match IoUring_new entries with
  | Ok r => Ok (MkUringIoSubsystem r ∅)
  | Err e => Err (SetupFailed e)
  end.

Definition UringIoSubsystem_register_fixed_buffer (s : UringIoSubsystem) (buffer_index : N) (buf : list N) :
    UringIoSubsystem * result IoError unit :=
  let '(r, res) := register_buffers (ring s) [buf] in
  match res with
  | Err e => (MkUringIoSubsystem r (registered_buffer_lens s), Err (BufferRegistrationFailed e))
  | Ok _ => (MkUringIoSubsystem r (<[buffer_index := #|buf|]> (registered_buffer_lens s)), Ok tt)
  end.

Definition UringIoSubsystem_submit_read_fixed `{BuildProfile} (s : UringIoSubsystem) (cell guest_fd : N) (host_fd : Z)
    (buffer_index offset len request_id : N) : outcome (UringIoSubsystem * result IoError unit) :=
  user_data ← pack_user_data cell guest_fd request_id;
  let read_e := MkSqe ReadFixed host_fd len buffer_index offset user_data in
  let '(r1, pushed) := submission_push (ring s) read_e in
  match pushed with
  | Err _ => Ret (MkUringIoSubsystem r1 (registered_buffer_lens s), Err SubmissionQueueFull)
  | Ok _ =>
      let '(r2, submitted) := submit r1 in
      match submitted with
      | Err e => Ret (MkUringIoSubsystem r2 (registered_buffer_lens s), Err (SetupFailed e))
      | Ok _ => Ret (MkUringIoSubsystem r2 (registered_buffer_lens s), Ok tt)
      end
  end.

Definition UringIoSubsystem_submit_write_fixed `{BuildProfile} (s : UringIoSubsystem) (cell guest_fd : N) (host_fd : Z)
    (buffer_index offset len request_id : N) : outcome (UringIoSubsystem * result IoError unit) :=
  user_data ← pack_user_data cell guest_fd request_id;
  let write_e := MkSqe WriteFixed host_fd len buffer_index offset user_data in
  let '(r1, pushed) := submission_push (ring s) write_e in
  match pushed with
  | Err _ => Ret (MkUringIoSubsystem r1 (registered_buffer_lens s), Err SubmissionQueueFull)
  | Ok _ =>
      let '(r2, submitted) := submit r1 in
      match submitted with
      | Err e => Ret (MkUringIoSubsystem r2 (registered_buffer_lens s), Err (SetupFailed e))
      | Ok _ => Ret (MkUringIoSubsystem r2 (registered_buffer_lens s), Ok tt)
      end
  end.

Definition UringIoSubsystem_poll_completions (s : UringIoSubsystem) : UringIoSubsystem * list IoCompletion :=
  let '(r, cq) := completion_sync_drain (ring s) in
  let out := (fun cqe =>
    let '(cell, guest_fd, request_id) := unpack_user_data (cqe_user_data cqe) in
    MkIoCompletion cell guest_fd request_id (cqe_result cqe)) <$> cq in
  (MkUringIoSubsystem r (registered_buffer_lens s), out).

#[export] Instance UringIoSubsystem_IoSubsystem `{BuildProfile} : IoSubsystem UringIoSubsystem := {|
  register_fixed_buffer := UringIoSubsystem_register_fixed_buffer;
  submit_read_fixed := UringIoSubsystem_submit_read_fixed;
  submit_write_fixed := UringIoSubsystem_submit_write_fixed;
  poll_completions := UringIoSubsystem_poll_completions
|}.
End backend.
Arguments UringIoSubsystem : clear implicits.
Arguments UringIoSubsystem {_}.

(** ** A ring in memory, for concrete executions *)

Record MemRing := MkMemRing { mem_capacity : N; mem_sq : list Sqe; mem_cq : list Cqe }.

(** Entries complete in order, each with a full transfer, as soon as they are
    submitted. *)
Definition mem_ring : IoUring := {|
  Ring := MemRing;
  IoUring_new := fun entries => if entries =? 0 then Err "Invalid argument"%string else Ok (MkMemRing entries [] []);
  register_buffers := fun r _ => (r, Ok tt);
  submission_push := fun r e =>
    if #|mem_sq r| <? mem_capacity r then (MkMemRing (mem_capacity r) (mem_sq r ++ [e]) (mem_cq r), Ok tt)
    else (r, Err tt);
  submit := fun r =>
    (MkMemRing (mem_capacity r) [] (mem_cq r ++ ((fun e => MkCqe (sqe_user_data e) (as_i32 (sqe_len e))) <$> mem_sq r)),
     Ok #|mem_sq r|);
  completion_sync_drain := fun r => (MkMemRing (mem_capacity r) (mem_sq r) [], mem_cq r)
|}.

#[export] Program Instance mem_ring_laws : @IoUringLaws mem_ring := {|
  pending_words := fun r : MemRing => (cqe_user_data <$> mem_cq r) ++ (sqe_user_data <$> mem_sq r)
|}.
Next Obligation. intros entries r. simpl. case_test; [done|]. by intros [= <-]. Qed.
Next Obligation. done. Qed.
Next Obligation. intros r e. simpl. case_test; simpl; [|done]. rewrite fmap_app. simpl. solve_Permutation. Qed.
Next Obligation. intros r. simpl. by rewrite fmap_app, <- list_fmap_compose, app_nil_r. Qed.
Next Obligation. done. Qed.

(** ** Bit arithmetic of the word *)

Lemma ushl_small w a s : a * 2 ^ s < 2 ^ w -> ushl w a s = a * 2 ^ s.
Proof. intros. unfold ushl. rewrite N.shiftl_mul_pow2. by apply N.mod_small. Qed.

Lemma land_20 a : N.land a 0xFFFFF = a mod 2 ^ 20.
Proof. change 0xFFFFF with (N.ones 20). apply N.land_ones. Qed.

(** The packed word, before any range check. *)
Definition packed (cell guest_fd request_id : N) : N :=
  N.lor (N.lor (ushl 64 cell 40) (ushl 64 guest_fd 20)) (N.land request_id 0xFFFFF).

(** Decide every comparison of bit positions in the goal. *)
Ltac bit_cases :=
  repeat match goal with
  | |- context [?a <? ?b] => destruct (N.ltb_spec a b)
  | |- context [?a <=? ?b] => destruct (N.leb_spec a b)
  end; simpl; try lia.

Lemma testbit_mod_pow2 a n i : N.testbit (a mod 2 ^ n) i = (i <? n) && N.testbit a i.
Proof. bit_cases; [by apply N.mod_pow2_bits_low | by apply N.mod_pow2_bits_high]. Qed.

Lemma testbit_ushl w a s i : N.testbit (ushl w a s) i = (i <? w) && (s <=? i) && N.testbit a (i - s).
Proof.
  unfold ushl. rewrite testbit_mod_pow2, <- andb_assoc. f_equal.
  bit_cases; [by apply N.shiftl_spec_high' | by apply N.shiftl_spec_low].
Qed.

Lemma testbit_packed cell fd rid i :
  N.testbit (packed cell fd rid) i =
    ((i <? 64) && (40 <=? i) && N.testbit cell (i - 40)) ||
    ((i <? 64) && (20 <=? i) && N.testbit fd (i - 20)) ||
    ((i <? 20) && N.testbit rid i).
Proof. unfold packed. by rewrite !N.lor_spec, !testbit_ushl, land_20, testbit_mod_pow2. Qed.

Lemma packed_cell cell fd rid :
  fd < 2 ^ 32 -> N.shiftr (packed cell fd rid) 40 = N.lor (cell mod 2 ^ 24) (fd / 2 ^ 20).
Proof.
  intros Hfd. apply N.bits_inj. intros i.
  rewrite N.shiftr_spec', testbit_packed, N.lor_spec, testbit_mod_pow2, <- N.shiftr_div_pow2, N.shiftr_spec'.
  replace (i + 40 - 40) with i by lia. replace (i + 40 - 20) with (i + 20) by lia.
  bit_cases; rewrite ?orb_false_r; [done|]. symmetry. apply (testbit_above _ 32); [done | lia].
Qed.

Lemma packed_fd cell fd rid :
  as_unsigned 32 (N.land (N.shiftr (packed cell fd rid) 20) 0xFFFFF) = fd mod 2 ^ 20.
Proof.
  rewrite land_20. unfold as_unsigned. apply N.bits_inj. intros i.
  rewrite !testbit_mod_pow2, N.shiftr_spec', testbit_packed. replace (i + 20 - 20) with i by lia.
  bit_cases; by rewrite ?orb_false_r.
Qed.

Lemma packed_rid cell fd rid : N.land (packed cell fd rid) 0xFFFFF = rid mod 2 ^ 20.
Proof. rewrite land_20. apply N.bits_inj. intros i. rewrite !testbit_mod_pow2, testbit_packed. by bit_cases. Qed.

Lemma unpack_packed cell fd rid :
  fd < 2 ^ 32 ->
  unpack_user_data (packed cell fd rid) = (N.lor (cell mod 2 ^ 24) (fd / 2 ^ 20), fd mod 2 ^ 20, rid mod 2 ^ 20).
Proof. intros Hfd. unfold unpack_user_data. by rewrite packed_cell, packed_fd, packed_rid. Qed.

(** Identifiers that fit their fields of the word. *)
Definition fits_word (q : request) : Prop := q.1.1 < 2 ^ 24 /\ q.1.2 < 2 ^ 20 /\ q.2 < 2 ^ 20.

Lemma pack_ok `{BuildProfile} cell fd rid :
  fits_word (cell, fd, rid) ->
  pack_user_data cell fd rid = Ret (packed cell fd rid) /\ unpack_user_data (packed cell fd rid) = (cell, fd, rid).
Proof.
  intros (Hc & Hf & Hr). cbn [fst snd] in *. split.
  - unfold pack_user_data. rewrite !debug_assert_ok by (by apply N.ltb_lt). done.
  - rewrite unpack_packed by lia. rewrite !N.mod_small, N.div_small by done. by rewrite N.lor_0_r.
Qed.

Lemma pack_release cell fd rid : @pack_user_data release_profile cell fd rid = Ret (packed cell fd rid).
Proof. done. Qed.

(** ** The backend keeps the contract *)

Section refinement.
Context `{BuildProfile} `{IoUringLaws}.

Lemma unpack_cqes (cq : list Cqe) :
  comp_request <$> ((fun cqe => let '(cell, fd, rid) := unpack_user_data (cqe_user_data cqe) in
    MkIoCompletion cell fd rid (cqe_result cqe)) <$> cq) = unpack_user_data <$> (cqe_user_data <$> cq).
Proof.
  induction cq as [|cqe cq IH]; [done|]. by rewrite !fmap_cons, IH.
Qed.

(** The backend's submissions differ in the entry only. *)
Lemma submission_law (s : UringIoSubsystem) op host buf off len cell fd rid :
  fits_word (cell, fd, rid) ->
  exists s' r,
    (user_data ← pack_user_data cell fd rid;
     let '(r1, pushed) := submission_push (ring s) (MkSqe op host len buf off user_data) in
     match pushed with
     | Err _ => Ret (MkUringIoSubsystem r1 (registered_buffer_lens s), Err SubmissionQueueFull)
     | Ok _ =>
         let '(r2, submitted) := submit r1 in
         match submitted with
         | Err e => Ret (MkUringIoSubsystem r2 (registered_buffer_lens s), Err (SetupFailed e))
         | Ok _ => Ret (MkUringIoSubsystem r2 (registered_buffer_lens s), Ok tt)
         end
     end) = Ret (s', r) /\
    unpack_user_data <$> pending_words (ring s') ≡ₚ
      (if queued r then [(cell, fd, rid)] else []) ++ (unpack_user_data <$> pending_words (ring s)).
Proof.
  intros Hfit. destruct (pack_ok cell fd rid Hfit) as [-> Hunpack]. cbn [mbind outcome_bind].
  pose proof (push_law (ring s) (MkSqe op host len buf off (packed cell fd rid))) as Hpush.
  destruct (submission_push _ _) as [r1 [[]|[]]]; simpl in Hpush.
  - pose proof (submit_law r1) as Hsub. destruct (submit r1) as [r2 [n|e]]; simpl in Hsub;
      do 2 eexists; (split; [done|]); simpl; by rewrite Hsub, Hpush; simpl; rewrite Hunpack.
  - do 2 eexists. split; [done|]. simpl. by rewrite Hpush.
Qed.

#[export] Program Instance UringIoSubsystem_laws : IoSubsystemLaws UringIoSubsystem := {|
  addressable := fits_word;
  outstanding := fun s => unpack_user_data <$> pending_words (ring s)
|}.
Next Obligation. intros. by apply submission_law. Qed.
Next Obligation. intros. by apply submission_law. Qed.
Next Obligation.
  intros s. simpl. unfold UringIoSubsystem_poll_completions.
  pose proof (drain_law (ring s)) as Hdrain. destruct (completion_sync_drain _) as [r cq]. simpl in *.
  rewrite unpack_cqes. by rewrite <- fmap_app, Hdrain.
Qed.
Next Obligation.
  intros s i buf. simpl. unfold UringIoSubsystem_register_fixed_buffer.
  pose proof (register_buffers_law (ring s) [buf]) as Hreg.
  destruct (register_buffers _ _) as [r [[]|e]]; simpl in *; by rewrite Hreg.
Qed.

(** ** Theorems *)

(** C11. The io_uring backend delivers to every cell exactly its own completions:
    from a fresh ring, after any history of registrations, reads, writes and
    polls whose identifiers fit the packed word (24, 20 and 20 bits), no call
    panics and the delivered completions, with the requests still in flight,
    are the requests accepted, whatever order the kernel completes them in. A
    request whose submission reported [SetupFailed] counts as accepted: its
    entry is already in the queue and its completion still arrives. *)
Theorem uring_completions_routed (entries : N) (s : UringIoSubsystem) (ops : list io_op) :
  UringIoSubsystem_new entries = Ok s ->
  Forall (fun o => match op_request o with Some q => fits_word q | None => True end) ops ->
  exists t, for_each run_io_op ops (MkIoTrace s [] []) = Ret t /\
    (comp_request <$> delivered_log t) ++ (unpack_user_data <$> pending_words (ring (io_state t))) ≡ₚ in_flight_log t.
Proof.
  intros Hnew Hops. refine (run_io_accounted (S := UringIoSubsystem) s ops _ Hops).
  unfold UringIoSubsystem_new in Hnew. destruct (IoUring_new entries) as [r|e] eqn:E; [|done].
  injection Hnew as <-. simpl. by rewrite (ring_new_law _ _ E).
Qed.
End refinement.

(** Packing round trips: identifiers that fit their fields go through the
    kernel's word and come back unchanged, in every build profile. *)
Theorem pack_unpack_roundtrip `{BuildProfile} (cell guest_fd request_id : N) :
  cell < 2 ^ 24 -> guest_fd < 2 ^ 20 -> request_id < 2 ^ 20 ->
  exists bits, pack_user_data cell guest_fd request_id = Ret bits /\ bits < 2 ^ 64 /\
    unpack_user_data bits = (cell, guest_fd, request_id).
Proof.
  intros Hc Hf Hr. exists (packed cell guest_fd request_id).
  destruct (pack_ok cell guest_fd request_id) as [Hp Hu]; [done|]. split_and!; [done | | done].
  unfold packed. repeat apply lor_lt_pow2; [apply N.mod_lt; lia.. |].
  rewrite land_20. eapply N.lt_le_trans; [apply N.mod_lt; lia | done].
Qed.

(** C35. Out of range the profile decides. With debug assertions packing panics
    exactly when an identifier does not fit. Without them it always returns, and
    the word decodes to other identifiers: the high bits of the descriptor are
    merged into the cell number, so the completion of a request on descriptor
    2^20 * k of cell 0 is delivered to cell k. *)
Theorem pack_out_of_range (cell guest_fd request_id : N) :
  guest_fd < 2 ^ 32 ->
  (@pack_user_data dev_profile cell guest_fd request_id = Panic DebugAssertFailed <->
    ~ fits_word (cell, guest_fd, request_id)) /\
  (exists bits, @pack_user_data release_profile cell guest_fd request_id = Ret bits /\
    unpack_user_data bits =
      (N.lor (cell mod 2 ^ 24) (guest_fd / 2 ^ 20), guest_fd mod 2 ^ 20, request_id mod 2 ^ 20)).
Proof.
  intros Hfd. split.
  - unfold pack_user_data, debug_assert, fits_word. simpl. change (N.shiftl 1 24) with (2 ^ 24).
    change (N.shiftl 1 20) with (2 ^ 20). bit_cases;
      (split; [try done; intros _ (? & ? & ?) | try done; intros Hn; exfalso; apply Hn]); simpl in *; lia.
  - exists (packed cell guest_fd request_id). split; [done | by apply unpack_packed].
Qed.

Lemma uring_completions_routed_witness :
  exists s, @UringIoSubsystem_new mem_ring 8 = Ok s /\
  Forall (fun o => match op_request o with Some q => fits_word q | None => True end) sample_io /\
  exists t, for_each (@run_io_op _ (@UringIoSubsystem_IoSubsystem mem_ring dev_profile)) sample_io
      (MkIoTrace s [] []) = Ret t /\
    (comp_request <$> delivered_log t) ++ (unpack_user_data <$> @pending_words mem_ring mem_ring_laws (ring (io_state t)))
      ≡ₚ in_flight_log t.
Proof.
  eexists. split; [reflexivity|].
  assert (Forall (fun o => match op_request o with Some q => fits_word q | None => True end) sample_io) as Hops
    by (by repeat constructor).
  split; [exact Hops|]. exact (@uring_completions_routed dev_profile mem_ring mem_ring_laws 8 _ sample_io eq_refl Hops).
Defined.

Lemma pack_unpack_roundtrip_witness :
  12345 < 2 ^ 24 /\ 99 < 2 ^ 20 /\ 555 < 2 ^ 20 /\
  exists bits, @pack_user_data dev_profile 12345 99 555 = Ret bits /\ bits < 2 ^ 64 /\
    unpack_user_data bits = (12345, 99, 555).
Proof. split_and!; [done..|]. exact (@pack_unpack_roundtrip dev_profile 12345 99 555 eq_refl eq_refl eq_refl). Defined.

Lemma pack_out_of_range_witness :
  2 ^ 20 * 7 + 3 < 2 ^ 32 /\
  exists bits, @pack_user_data release_profile 0 (2 ^ 20 * 7 + 3) 1 = Ret bits /\ unpack_user_data bits = (7, 3, 1).
Proof. split; [done|]. exact (proj2 (pack_out_of_range 0 (2 ^ 20 * 7 + 3) 1 eq_refl)). Defined.
