(* ===== verification/Cell.v ===== *)
(** * Cells and the logical clock (chronos-core/src/cell.rs, clock.rs)

    A cell is the whole state of one tenant; the clock is the counter of
    dispatched quanta. Construction of a cell acquires its memory first and
    everything else afterwards, so that a fault leaves nothing behind. *)

From S2P Require Import Prelude Machine Dirty GuardedMemory Delta Blake Smt Chain EventLog Io.

(** ** The logical clock *)

Record LogicalClock := MkLogicalClock { clock_tick : N }.

Definition LogicalClock_new : LogicalClock := MkLogicalClock 0.

Definition LogicalClock_default : LogicalClock := LogicalClock_new.

Definition LogicalClock_advance `{BuildProfile} (c : LogicalClock) : outcome (LogicalClock * N) :=
  tick ← uadd 64 (clock_tick c) 1;
  Ret (MkLogicalClock tick, tick).

Definition LogicalClock_snapshot (c : LogicalClock) : N := clock_tick c.

(** ** Cells *)

Record CellConfig := MkCellConfig {
  cfg_id : N;
  cfg_initial_memory_bytes : N;
  cfg_quota_bytes : N;
  cfg_checkpoint_interval_ticks : N
}.

Section cells.
Context `{Blake3}.

Record Cell := MkCell {
  config : CellConfig;
  memory : MmapGuardedMemory;
  recorder : EventRecorder;
  checkpoints : CheckpointChain;
  fd_table : FdTable;
  pending_io : PendingCompletions;
  last_checkpoint_tick : N
}.

(** The operating-system calls made are returned with the result. *)
Definition Cell_new `{BuildProfile} (os : HostOs) (cfg : CellConfig) (recorder_mode : RecorderMode) :
    outcome (list OsCall * result MemFault Cell) :=
  '(calls, r) ← MmapGuardedMemory_new os (cfg_initial_memory_bytes cfg) (cfg_quota_bytes cfg);
  match r with
  | Err e => Ret (calls, Err e)
  | Ok memory =>
      Ret (calls, Ok (MkCell cfg memory (EventRecorder_new recorder_mode) CheckpointChain_new
        FdTable_new PendingCompletions_new 0))
  end.

Definition Cell_checkpoint_due (c : Cell) (tick : N) : bool :=
  cfg_checkpoint_interval_ticks (config c) <=? saturating_sub tick (last_checkpoint_tick c).

(** Field updates of [&mut Cell]. *)
Definition with_memory (c : Cell) (m : MmapGuardedMemory) : Cell :=
  MkCell (config c) m (recorder c) (checkpoints c) (fd_table c) (pending_io c) (last_checkpoint_tick c).
Definition with_pending (c : Cell) (q : PendingCompletions) : Cell :=
  MkCell (config c) (memory c) (recorder c) (checkpoints c) (fd_table c) q (last_checkpoint_tick c).
Definition with_checkpoint (c : Cell) (ch : CheckpointChain) (tick : N) : Cell :=
  MkCell (config c) (memory c) (recorder c) ch (fd_table c) (pending_io c) tick.

(** ** Invariant *)

(** A cell's memory is well formed and its checkpoint tree and chain are. *)
Record cell_wf (c : Cell) : Prop := {
  cell_wf_mem : mem_wf (memory c);
  cell_wf_tree : smt_wf (tree (checkpoints c));
  cell_wf_linked : chain_linked (checkpoints c)
}.

(** ** Lemmas *)

Lemma advance_ok `{BuildProfile} c :
  clock_tick c + 1 < 2 ^ 64 -> LogicalClock_advance c = Ret (MkLogicalClock (clock_tick c + 1), clock_tick c + 1).
Proof. intros. unfold LogicalClock_advance. by rewrite uadd_ok. Qed.

Lemma checkpoint_due_iff c t :
  Cell_checkpoint_due c t = true <->
  last_checkpoint_tick c + cfg_checkpoint_interval_ticks (config c) <= t \/ cfg_checkpoint_interval_ticks (config c) = 0.
Proof. unfold Cell_checkpoint_due, saturating_sub. rewrite N.leb_le. lia. Qed.

(** A new cell: empty, clean, nothing recorded. *)
Definition fresh_cell (cfg : CellConfig) (m : RecorderMode) (c : Cell) : Prop :=
  config c = cfg /\ cell_wf c /\ recorder c = EventRecorder_new m /\ entries (checkpoints c) = [] /\
  tree_reflects (tree (checkpoints c)) (fun _ => zero_page) /\ (forall p, mem_page (memory c) p = zero_page) /\
  dirty_set (dirty (memory c)) = ∅ /\ fd_table c = FdTable_new /\ queue (pending_io c) = [] /\
  last_checkpoint_tick c = 0 /\ mem_size_bytes (memory c) = cfg_initial_memory_bytes cfg /\
  quota_bytes (memory c) = cfg_quota_bytes cfg.

(** Construction succeeds or fails as the memory does, with the memory's own
    fault, and no other mapping is left than the one of the new cell. *)
Lemma cell_new_ok `{BuildProfile} os cfg m :
  cfg_quota_bytes cfg < 2 ^ 32 ->
  exists calls r, Cell_new os cfg m = Ret (calls, r) /\
    match r with
    | Ok c => fresh_cell cfg m c /\ live_mappings calls = [(base (memory c), mapped_len (memory c))] /\
        construction_fault os (cfg_initial_memory_bytes cfg) (cfg_quota_bytes cfg) = None /\
        os_mmap os (page_round_up (cfg_quota_bytes cfg) + PAGE_SIZE) = Ok (base (memory c))
    | Err f => live_mappings calls = [] /\
        construction_fault os (cfg_initial_memory_bytes cfg) (cfg_quota_bytes cfg) = Some f
    end.
Proof.
  intros Hq. unfold Cell_new.
  destruct (memory_new_fault os (cfg_initial_memory_bytes cfg) (cfg_quota_bytes cfg) Hq) as (calls' & r' & Hrun & Hfault).
  destruct (memory_new_post os (cfg_initial_memory_bytes cfg) (cfg_quota_bytes cfg) Hq) as (calls & r & Hrun' & Hpost).
  rewrite Hrun' in Hrun. injection Hrun as <- <-. rewrite Hrun'.
  destruct r as [mem|e]; simpl.
  - destruct Hpost as (_ & Hwf & Hsz & Hquota & Hset & Hzero & _ & Hlive & _).
    do 2 eexists. split; [done|]. simpl. split; [|done].
    split_and!; try done. constructor; [done | apply new_smt_wf | apply new_chain_linked].
  - do 2 eexists. split; [done|]. split; [|done].
    destruct e; simpl in Hpost; [done | by destruct Hpost as (_ & _ & _ & ->) | naive_solver..].
Qed.

End cells.

Definition sample_config (id : N) : CellConfig := MkCellConfig id 4096 65536 4.

(** A cell for concrete executions. *)
Definition sample_cell `{Blake3} (id : N) : Cell :=
  MkCell (sample_config id) (sample_memory 0) (EventRecorder_new ModeRecord) CheckpointChain_new
    FdTable_new PendingCompletions_new 0.
