(* ===== verification/Scheduler.v ===== *)
(** * Round-robin scheduler (chronos-core/src/scheduler.rs)

    The scheduler is a rotation of cell identifiers and the global clock. A
    dispatch moves the front of the rotation to the back and advances the clock;
    nothing else about the cells influences the choice. *)

From S2P Require Import Prelude Machine Blake Chain Io Cell.

Record DispatchOutcome := MkDispatchOutcome {
  out_cell_id : N;
  out_tick : N;
  out_checkpoint_due : bool
}.

Record Scheduler := MkScheduler {
  order : list N;
  clock : LogicalClock
}.

Definition Scheduler_new (cell_ids : list N) : Scheduler := MkScheduler cell_ids LogicalClock_new.

Definition Scheduler_register_cell (s : Scheduler) (cell_id : N) : Scheduler :=
  MkScheduler (order s ++ [cell_id]) (clock s).

Definition Scheduler_deregister_cell (s : Scheduler) (cell_id : N) : Scheduler :=
  MkScheduler (filter (fun id => id <> cell_id) (order s)) (clock s).

Definition Scheduler_current_tick (s : Scheduler) : N := LogicalClock_snapshot (clock s).

Section dispatch.
Context `{Blake3} `{BuildProfile}.

Definition Scheduler_next_dispatch (s : Scheduler) (cells : gmap N Cell) : outcome (Scheduler * option DispatchOutcome) :=
  match order s with
  | [] => Ret (s, None)
  | cell_id :: rest =>
      let order' := rest ++ [cell_id] in
      '(clock', tick) ← LogicalClock_advance (clock s);
      let checkpoint_due :=
        match cells !! cell_id with Some c => Cell_checkpoint_due c tick | None => false end in
      Ret (MkScheduler order' clock', Some (MkDispatchOutcome cell_id tick checkpoint_due))
  end.

(** ** Histories *)

(** Dispatches in a row, each seeing the cells as they are at that moment. *)
Fixpoint dispatches (s : Scheduler) (views : list (gmap N Cell)) : outcome (Scheduler * list (option DispatchOutcome)) :=
  match views with
  | [] => Ret (s, [])
  | cells :: views =>
      '(s1, o) ← Scheduler_next_dispatch s cells;
      '(s2, os) ← dispatches s1 views;
      Ret (s2, o :: os)
  end.

Inductive sched_op :=
| SchedRegister (id : N)
| SchedDeregister (id : N)
| SchedDispatch (cells : gmap N Cell).

(** The scheduler and the dispatches made so far, oldest first. *)
Definition run_sched_op (st : Scheduler * list DispatchOutcome) (o : sched_op) : outcome (Scheduler * list DispatchOutcome) :=
  let '(s, outs) := st in
  match o with
  | SchedRegister id => Ret (Scheduler_register_cell s id, outs)
  | SchedDeregister id => Ret (Scheduler_deregister_cell s id, outs)
  | SchedDispatch cells =>
      '(s', out) ← Scheduler_next_dispatch s cells;
      Ret (s', outs ++ option_list out)
  end.

(** The set of registered cells a history leaves, and the history's rotations. *)
Definition registered_step (X : gset N) (o : sched_op) : gset N :=
  match o with
  | SchedRegister id => X ∪ {[id]}
  | SchedDeregister id => X ∖ {[id]}
  | SchedDispatch _ => X
  end.

(** ** Lemmas *)

(** The outcome the policy prescribes for a dispatch. *)
Definition prescribed (cells : gmap N Cell) (id tick : N) : DispatchOutcome :=
  MkDispatchOutcome id tick
    match cells !! id with Some c => Cell_checkpoint_due c tick | None => false end.

Lemma next_dispatch_ok s cells id rest :
  order s = id :: rest -> clock_tick (clock s) + 1 < 2 ^ 64 ->
  Scheduler_next_dispatch s cells =
    Ret (MkScheduler (rest ++ [id]) (MkLogicalClock (clock_tick (clock s) + 1)),
         Some (prescribed cells id (clock_tick (clock s) + 1))).
Proof. intros Ho Ht. unfold Scheduler_next_dispatch. by rewrite Ho, advance_ok. Qed.

(** Moving the front to the back shifts cyclic positions by one. *)
Lemma cyclic_shift (x : N) (r : list N) (k : nat) :
  (r ++ [x]) !! (k `mod` length (r ++ [x]))%nat = (x :: r) !! (S k `mod` length (x :: r))%nat.
Proof.
  rewrite length_app, Nat.add_1_r. cbn [length]. set (n := length r).
  pose proof (Nat.mod_upper_bound k (S n) ltac:(lia)) as Hlt.
  pose proof (Nat.div_mod k (S n) ltac:(lia)) as Hdm.
  destruct (decide (k `mod` S n = n)%nat) as [Heq|Hne].
  - rewrite Heq. replace (S k) with (0 + (S (k / S n)) * S n)%nat by lia.
    rewrite Nat.Div0.mod_add, Nat.Div0.mod_0_l, lookup_app_r by done. by rewrite Nat.sub_diag.
  - replace (S k) with (S (k `mod` S n) + (k / S n) * S n)%nat by lia.
    rewrite Nat.Div0.mod_add, (Nat.mod_small (S _)) by lia. rewrite lookup_app_l by (fold n; lia). done.
Qed.

(** The rotation and the outcomes of a row of dispatches. *)
Lemma dispatches_ok s views :
  order s <> [] -> clock_tick (clock s) + #|views| < 2 ^ 64 ->
  exists s' outs, dispatches s views = Ret (s', outs) /\ order s' ≡ₚ order s /\
    clock_tick (clock s') = clock_tick (clock s) + #|views| /\
    forall k cells, views !! k = Some cells ->
      exists id, order s !! (k `mod` length (order s))%nat = Some id /\
        outs !! k = Some (Some (prescribed cells id (clock_tick (clock s) + N.of_nat k + 1))).
Proof.
  revert s. induction views as [|cells views IH]; intros s Hne Ht.
  { exists s, []. split_and!; [done | done | rewrite len_nil; lia | done]. }
  rewrite len_cons in *. destruct (order s) as [|id rest] eqn:Ho; [done|].
  cbn [dispatches]. rewrite (next_dispatch_ok s cells id rest) by (done || lia). cbn [mbind outcome_bind].
  set (s1 := MkScheduler (rest ++ [id]) _).
  destruct (IH s1) as (s' & outs & -> & Hperm & Hclk & Houts); [by destruct rest | simpl; lia |].
  cbn [mbind outcome_bind]. do 2 eexists. split; [done|]. simpl in Hclk. split_and!.
  - rewrite Hperm. simpl. by rewrite Permutation_app_comm.
  - lia.
  - intros [|k] cs Hk; simpl in Hk.
    + injection Hk as <-. exists id. rewrite Nat.Div0.mod_0_l. split; [done|]. by rewrite N.add_0_r.
    + destruct (Houts k cs Hk) as (id' & Hid & Hout). exists id'. rewrite <- cyclic_shift. split; [done|].
      simpl in *. rewrite Hout. do 3 f_equal. lia.
Qed.

(** As many dispatches as a prefix of the rotation is long serve that prefix. *)
Lemma dispatches_prefix s l1 l2 views :
  order s = l1 ++ l2 -> length views = length l1 -> clock_tick (clock s) + #|views| < 2 ^ 64 ->
  exists s' outs, dispatches s views = Ret (s', outs) /\ order s' = l2 ++ l1 /\
    option_map out_cell_id <$> outs = Some <$> l1.
Proof.
  revert s l2 views. induction l1 as [|id l1 IH]; intros s l2 [|cells views] Ho Hlen Ht; try done.
  { exists s, []. by rewrite app_nil_r. }
  rewrite len_cons in Ht. cbn [dispatches].
  rewrite (next_dispatch_ok s cells id (l1 ++ l2)) by (done || lia). cbn [mbind outcome_bind].
  set (s1 := MkScheduler _ _).
  destruct (IH s1 (l2 ++ [id]) views) as (s' & outs & -> & Ho' & Houts);
    [simpl; by rewrite app_assoc | simpl in Hlen; lia | simpl; lia |].
  cbn [mbind outcome_bind]. do 2 eexists. split; [done|]. split; [by rewrite Ho', <- app_assoc|].
  by rewrite !fmap_cons, Houts.
Qed.

(** State of a history: consecutive ticks, each registered cell once. *)
Record history_inv (X : gset N) (st : Scheduler * list DispatchOutcome) : Prop := {
  hist_ticks : out_tick <$> snd st = nrange 1 (clock_tick (clock (fst st)) + 1);
  hist_registered : forall id, id ∈ order (fst st) <-> id ∈ X
}.

Lemma run_sched_op_inv X st o :
  history_inv X st -> clock_tick (clock (fst st)) + 1 < 2 ^ 64 ->
  exists st', run_sched_op st o = Ret st' /\ history_inv (registered_step X o) st' /\
    clock_tick (clock (fst st')) <= clock_tick (clock (fst st)) + 1 /\
    match o with
    | SchedDispatch _ => if decide (X = ∅) then snd st' = snd st
        else exists out, snd st' = snd st ++ [out] /\ out_cell_id out ∈ X
    | _ => snd st' = snd st
    end.
Proof.
  destruct st as [s outs]. intros [Ht Hr] Hlt. simpl in *. destruct o as [id|id|cells]; simpl.
  - eexists. split; [done|]. split_and!; [|simpl; lia | done]. constructor; simpl; [done|].
    intros id'. rewrite elem_of_app, list_elem_of_singleton, Hr. set_solver.
  - eexists. split; [done|]. split_and!; [|simpl; lia | done]. constructor; simpl; [done|].
    intros id'. rewrite list_elem_of_filter, Hr. set_solver.
  - destruct (order s) as [|id rest] eqn:Ho.
    { unfold Scheduler_next_dispatch. rewrite Ho. simpl. eexists. split; [done|].
      assert (X = ∅) as -> by (apply set_eq; intros id; rewrite <- Hr; set_solver). rewrite app_nil_r.
      split_and!; [|simpl; lia | by rewrite decide_True]. constructor; simpl; [done | by rewrite Ho]. }
    rewrite (next_dispatch_ok s cells id rest) by done. simpl. eexists. split; [done|].
    split_and!; [|simpl; lia |].
    + constructor; simpl.
      * rewrite fmap_app, Ht. simpl. by rewrite (nrange_snoc 1 (clock_tick (clock s) + 1)) by lia.
      * intros id'. rewrite <- Hr. set_solver.
    + destruct (decide (X = ∅)) as [->|]; [set_solver|]. eexists. split; [done|]. simpl. apply Hr. left.
Qed.

Lemma run_sched_history ops X st :
  history_inv X st -> clock_tick (clock (fst st)) + #|ops| < 2 ^ 64 ->
  exists st', for_each run_sched_op ops st = Ret st' /\ history_inv (foldl registered_step X ops) st' /\
    clock_tick (clock (fst st')) <= clock_tick (clock (fst st)) + #|ops|.
Proof.
  revert X st. induction ops as [|o ops IH]; intros X st Hinv Ht.
  { exists st. rewrite len_nil in *. split_and!; [done | done | lia]. }
  rewrite len_cons in *. destruct (run_sched_op_inv X st o Hinv) as (st1 & Hrun & Hinv1 & Hle & _); [lia|].
  cbn [for_each]. rewrite Hrun. cbn [mbind outcome_bind foldl].
  destruct (IH _ _ Hinv1) as (st' & Hrun' & Hinv' & Hle'); [lia|]. exists st'. split_and!; [done | done | lia].
Qed.

(** ** Theorems *)

(** C26. Strict round robin: in a row of dispatches the [k]-th goes to the cell at
    position [k mod n] of the rotation, carries the tick [t + k + 1], and reports
    a checkpoint due exactly when the cell, as it is at that moment, is due at
    that tick. Which cells are ready, due or faulty does not influence the order. *)
Theorem round_robin_exact (s : Scheduler) (views : list (gmap N Cell)) :
  order s <> [] -> clock_tick (clock s) + #|views| < 2 ^ 64 ->
  exists s' outs, dispatches s views = Ret (s', outs) /\ Scheduler_current_tick s' = Scheduler_current_tick s + #|views| /\
    forall k cells, views !! k = Some cells ->
      exists id, order s !! (k `mod` length (order s))%nat = Some id /\
        outs !! k = Some (Some (MkDispatchOutcome id (Scheduler_current_tick s + N.of_nat k + 1)
          match cells !! id with
          | Some c => Cell_checkpoint_due c (Scheduler_current_tick s + N.of_nat k + 1)
          | None => false
          end)).
Proof.
  intros Hne Ht. destruct (dispatches_ok s views Hne Ht) as (s' & outs & Hrun & _ & Hclk & Houts).
  by exists s', outs.
Qed.

(** C27. No starvation: from any moment on, as many dispatches as there are
    entries in the rotation serve every entry once, in order, and bring the
    rotation back to where it was. *)
Theorem full_rotation (s : Scheduler) (views : list (gmap N Cell)) :
  length views = length (order s) -> clock_tick (clock s) + #|views| < 2 ^ 64 ->
  exists s' outs, dispatches s views = Ret (s', outs) /\ order s' = order s /\
    option_map out_cell_id <$> outs = Some <$> order s.
Proof.
  intros Hlen Ht. apply (dispatches_prefix s (order s) []); [by rewrite app_nil_r | done..].
Qed.

(** C28. Ticks number the dispatches: in any history of registrations,
    deregistrations and dispatches from a new scheduler, the dispatches made
    carry the ticks 1, 2, 3, ... without gap or repetition, only a cell that is
    registered at that moment is dispatched, and a dispatch yields nothing
    exactly when no cell is registered. Deregistering leaves the count alone. *)
Theorem ticks_number_dispatches (ids : list N) (ops : list sched_op) (cells : gmap N Cell) :
  #|ops| + 1 < 2 ^ 64 ->
  let X := foldl registered_step (list_to_set ids) ops in
  exists s outs s' out, for_each run_sched_op ops (Scheduler_new ids, []) = Ret (s, outs) /\
    out_tick <$> outs = nrange 1 (Scheduler_current_tick s + 1) /\
    Scheduler_next_dispatch s cells = Ret (s', out) /\
    match out with Some o => out_cell_id o ∈ X /\ out_tick o = #|outs| + 1 | None => X = ∅ end.
Proof.
  intros Ht X.
  assert (history_inv (list_to_set ids) (Scheduler_new ids, [])) as Hinit.
  { constructor; [done|]. intros id. simpl. by rewrite elem_of_list_to_set. }
  destruct (run_sched_history ops _ _ Hinit) as ([s outs] & Hrun & [Hticks Hreg] & Hle); [simpl; lia|].
  simpl in *. exists s, outs. destruct (order s) as [|id rest] eqn:Ho.
  - exists s, None. split_and!; [done | done | unfold Scheduler_next_dispatch; by rewrite Ho |].
    apply set_eq. intros id. fold X in Hreg. rewrite <- Hreg. set_solver.
  - do 2 eexists. split_and!; [done | done | apply (next_dispatch_ok s cells id rest); [done | lia] |].
    simpl. split; [apply Hreg; left|]. apply (f_equal length) in Hticks.
    rewrite length_fmap, length_nrange in Hticks. unfold len. lia.
Qed.
End dispatch.

(** ** Witnesses *)

#[local] Existing Instance toy_blake3.
#[local] Existing Instance dev_profile.

Definition two_cells : gmap N Cell := {[1 := sample_cell 1; 2 := sample_cell 2]}.

Lemma round_robin_exact_witness :
  order (Scheduler_new [1; 2; 3]) <> [] /\
  exists s' outs, dispatches (Scheduler_new [1; 2; 3]) (replicate 5 two_cells) = Ret (s', outs) /\
    exists id, [1; 2; 3] !! (3 `mod` 3)%nat = Some id /\ outs !! 3%nat = Some (Some (MkDispatchOutcome id 4 true)).
Proof.
  split; [done|].
  destruct (@round_robin_exact toy_blake3 dev_profile (Scheduler_new [1; 2; 3]) (replicate 5 two_cells))
    as (s' & outs & Hrun & _ & Hk); [done | done |].
  exists s', outs. split; [exact Hrun|]. destruct (Hk 3%nat two_cells eq_refl) as (id & Hid & Hout).
  injection Hid as <-. exists 1. split; [reflexivity | exact Hout].
Defined.

Lemma full_rotation_witness :
  exists s' outs, dispatches (Scheduler_new [4; 5]) [two_cells; two_cells] = Ret (s', outs) /\
    order s' = [4; 5] /\ option_map out_cell_id <$> outs = [Some 4; Some 5].
Proof. exact (@full_rotation toy_blake3 dev_profile (Scheduler_new [4; 5]) [two_cells; two_cells] eq_refl eq_refl). Defined.

Lemma ticks_number_dispatches_witness :
  let ops := [SchedDispatch two_cells; SchedRegister 9; SchedDispatch two_cells; SchedDeregister 1] in
  #|ops| + 1 < 2 ^ 64 /\
  exists s outs, for_each run_sched_op ops (Scheduler_new [1; 2], []) = Ret (s, outs) /\
    out_tick <$> outs = nrange 1 (Scheduler_current_tick s + 1).
Proof.
  intros ops. split; [done|].
  destruct (@ticks_number_dispatches toy_blake3 dev_profile [1; 2] ops two_cells eq_refl) as (s & outs & _ & _ & H1 & H2 & _).
  exists s, outs. split; [exact H1 | exact H2].
Defined.
