(* ===== verification/Replicate.v ===== *)
(** * Replication ring and standby (chronos-replicate/src/lib.rs)

    [DeltaRing] carries batches of page deltas from the primary to the standby
    through a bounded queue of the crossbeam crate, which is a parameter with its
    documented behaviour as laws. The standby applies batches in tick order. *)

From S2P Require Import Prelude Machine GuardedMemory Delta.

(** ** The crossbeam queue *)

(** [ArrayQueue]: a refused element is handed back by [push]. *)
Class ArrayQueue := {
  Queue : Type -> Type;
  queue_new : forall {A}, N -> outcome (Queue A);
  queue_push : forall {A}, Queue A -> A -> Queue A * result A unit;
  queue_pop : forall {A}, Queue A -> Queue A * option A;
  queue_capacity : forall {A}, Queue A -> N
}.

(** What crossbeam documents: [new] panics on a zero capacity, [push] refuses
    only when the queue is full, elements leave in the order they came, and the
    capacity never changes. *)
Class ArrayQueueLaws `{ArrayQueue} := {
  contents : forall {A}, Queue A -> list A;
  queue_bounded : forall {A} (q : Queue A), #|contents q| <= queue_capacity q;
  queue_new_law : forall {A} cap,
    if cap =? 0 then queue_new (A := A) cap = Panic AssertFailed
    else exists q : Queue A, queue_new cap = Ret q /\ contents q = [] /\ queue_capacity q = cap;
  queue_push_law : forall {A} (q : Queue A) x,
    if #|contents q| <? queue_capacity q
    then exists q', queue_push q x = (q', Ok tt) /\ contents q' = contents q ++ [x] /\ queue_capacity q' = queue_capacity q
    else queue_push q x = (q, Err x);
  queue_pop_law : forall {A} (q : Queue A),
    match contents q with
    | [] => queue_pop q = (q, None)
    | x :: rest => exists q', queue_pop q = (q', Some x) /\ contents q' = rest /\ queue_capacity q' = queue_capacity q
    end
}.

(** ** Data *)

Record TickBatch := MkTickBatch {
  batch_tick : N;
  deltas : list PageDelta
}.

Inductive RingError := Full (capacity : N).

Inductive ApplyError := OutOfOrder (expected_after got : N).

Section ring.
Context `{ArrayQueue}.

(** ** The ring, as its owner sees it *)

Record DeltaRing := MkDeltaRing {
  ring_queue : Queue TickBatch;
  ring_last_pushed_tick : N
}.

Definition DeltaRing_new (capacity : N) : outcome DeltaRing :=
  q ← queue_new capacity;
  Ret (MkDeltaRing q 0).

Definition DeltaRing_push (r : DeltaRing) (batch : TickBatch) : DeltaRing * result RingError unit :=
  let tick := batch_tick batch in
  let '(q, pushed) := queue_push (ring_queue r) batch in
  match pushed with
  | Err _ => (MkDeltaRing q (ring_last_pushed_tick r), Err (Full (queue_capacity q)))
  | Ok _ => (MkDeltaRing q tick, Ok tt)
  end.

(** [while let Some(batch) = self.queue.pop()], at most [fuel] rounds. *)
Fixpoint drain_loop (fuel : nat) (q : Queue TickBatch) : Queue TickBatch * list TickBatch :=
  match fuel with
  | O => (q, [])
  | S fuel =>
    match queue_pop q with
    | (q', Some batch) => let '(q2, out) := drain_loop fuel q' in (q2, batch :: out)
    | (q', None) => (q', [])
    end
  end.

(** The queue never holds more than its capacity, so one round more than the
    capacity reaches the failing pop. *)
Definition DeltaRing_drain (r : DeltaRing) : DeltaRing * list TickBatch :=
  let '(q, out) := drain_loop (S (N.to_nat (queue_capacity (ring_queue r)))) (ring_queue r) in
  (MkDeltaRing q (ring_last_pushed_tick r), out).

Definition DeltaRing_last_pushed_tick (r : DeltaRing) : N := ring_last_pushed_tick r.

(** ** Producer handles *)

(** The queue behind its [Arc], and the atomic counters by address: the counter
    of a ring is a field of it, so it lives where the ring lives. *)
Record RingHeap := MkRingHeap {
  arcs : gmap N (Queue TickBatch);
  atomics : gmap N N
}.

(** A [DeltaRing] value placed in memory. *)
Record RingPlace := MkRingPlace { place_arc : N; place_addr : N }.

Record DeltaRingProducer := MkDeltaRingProducer {
  prod_queue : N;
  prod_last_pushed_tick : N
}.

Definition DeltaRing_producer_handle (p : RingPlace) : DeltaRingProducer :=
  MkDeltaRingProducer (place_arc p) (place_addr p).

(** The [Arc] keeps the queue alive; the address is dereferenced as it is. *)
Definition DeltaRingProducer_push (h : RingHeap) (p : DeltaRingProducer) (batch : TickBatch) :
    outcome (RingHeap * result RingError unit) :=
  match arcs h !! prod_queue p with
  | None => Panic UndefinedBehaviour
  | Some q0 =>
    let tick := batch_tick batch in
    let '(q, pushed) := queue_push q0 batch in
    let h1 := MkRingHeap (<[prod_queue p := q]> (arcs h)) (atomics h) in
    match pushed with
    | Err _ => Ret (h1, Err (Full (queue_capacity q)))
    | Ok _ =>
      match atomics h !! prod_last_pushed_tick p with
      | None => Panic UndefinedBehaviour
      | Some _ => Ret (MkRingHeap (arcs h1) (<[prod_last_pushed_tick p := tick]> (atomics h1)), Ok tt)
      end
    end
  end.

(** The ring value a place holds. *)
Definition ring_at (h : RingHeap) (p : RingPlace) : option DeltaRing :=
  q ← arcs h !! place_arc p; t ← atomics h !! place_addr p; Some (MkDeltaRing q t).

(** Rust moves a ring to another address: its counter goes with it. *)
Definition move_ring (h : RingHeap) (p : RingPlace) (addr : N) : RingHeap * RingPlace :=
  (MkRingHeap (arcs h)
    match atomics h !! place_addr p with
    | Some t => <[addr := t]> (delete (place_addr p) (atomics h))
    | None => atomics h
    end, MkRingPlace (place_arc p) addr).

End ring.
Arguments DeltaRing : clear implicits.
Arguments DeltaRing {_}.

(** ** The standby *)

Record StandbyApplyLoop := MkStandbyApplyLoop {
  engine : DeltaEngine;
  last_applied_tick : N
}.

Definition StandbyApplyLoop_new (initial_capacity_pages : N) : outcome StandbyApplyLoop :=
  e ← DeltaEngine_new initial_capacity_pages;
  Ret (MkStandbyApplyLoop e 0).

Definition StandbyApplyLoop_apply_batch `{BuildProfile} (s : StandbyApplyLoop) (batch : TickBatch) :
    outcome (StandbyApplyLoop * result ApplyError unit) :=
  if (batch_tick batch <=? last_applied_tick s) && negb (last_applied_tick s =? 0)
  then Ret (s, Err (OutOfOrder (last_applied_tick s) (batch_tick batch)))
  else
    e ← for_each (fun e delta => '(e', _) ← DeltaEngine_apply e delta; Ret e') (deltas batch) (engine s);
    Ret (MkStandbyApplyLoop e (batch_tick batch), Ok tt).

Definition StandbyApplyLoop_last_applied_tick (s : StandbyApplyLoop) : N := last_applied_tick s.

(** ** A queue in memory, for concrete executions *)

Record MemQueue (A : Type) := MkMemQueue { mq_cap : N; mq_items : list A }.
Arguments MkMemQueue {_} _ _.
Arguments mq_cap {_} _.
Arguments mq_items {_} _.

Definition mq_contents {A} (q : MemQueue A) : list A := take (N.to_nat (mq_cap q)) (mq_items q).

Definition mem_queue : ArrayQueue := {|
  Queue := MemQueue;
  queue_new := fun A cap => if cap =? 0 then Panic AssertFailed else Ret (MkMemQueue cap []);
  queue_push := fun A q x =>
    if #|mq_contents q| <? mq_cap q then (MkMemQueue (mq_cap q) (mq_contents q ++ [x]), Ok tt) else (q, Err x);
  queue_pop := fun A q =>
    match mq_contents q with [] => (q, None) | x :: rest => (MkMemQueue (mq_cap q) rest, Some x) end;
  queue_capacity := fun A q => mq_cap q
|}.

Lemma mq_contents_fits {A} cap (l : list A) : #|l| <= cap -> mq_contents (MkMemQueue cap l) = l.
Proof. unfold mq_contents, len. simpl. intros. apply take_ge. lia. Qed.

Lemma mq_contents_bounded {A} (q : MemQueue A) : #|mq_contents q| <= mq_cap q.
Proof. unfold mq_contents, len. rewrite length_take. lia. Qed.

#[export] Program Instance mem_queue_laws : @ArrayQueueLaws mem_queue := {|
  contents := fun A q => mq_contents q
|}.
Next Obligation. intros A q. apply mq_contents_bounded. Qed.
Next Obligation.
  intros A cap. simpl. case_test; [done|]. eexists. split; [done|]. split; [|done].
  apply mq_contents_fits. rewrite len_nil. lia.
Qed.
Next Obligation.
  intros A q x. simpl. case_test; [|done]. eexists. split; [done|]. split; [|done].
  apply mq_contents_fits. rewrite len_app, len_cons, len_nil. lia.
Qed.
Next Obligation.
  intros A q. simpl. pose proof (mq_contents_bounded q) as Hb. destruct (mq_contents q) as [|x rest] eqn:E; [done|].
  rewrite len_cons in Hb. eexists. split; [done|]. split; [|done]. apply mq_contents_fits. lia.
Qed.

(** ** Lemmas on the ring *)

Section ring_lemmas.
Context `{ArrayQueueLaws}.

Definition ring_contents (r : DeltaRing) : list TickBatch := contents (ring_queue r).
Definition ring_capacity (r : DeltaRing) : N := queue_capacity (ring_queue r).

Lemma ring_new_ok cap :
  cap <> 0 -> exists r, DeltaRing_new cap = Ret r /\ ring_contents r = [] /\ ring_capacity r = cap /\ ring_last_pushed_tick r = 0.
Proof.
  intros Hcap. pose proof (queue_new_law (A := TickBatch) cap) as Hnew. rewrite (proj2 (N.eqb_neq _ _) Hcap) in Hnew.
  destruct Hnew as (q & Hq & Hc & Hk). unfold DeltaRing_new. rewrite Hq. simpl. eexists. split; [done|]. done.
Qed.

Lemma ring_push_spec r b :
  if #|ring_contents r| <? ring_capacity r
  then exists r', DeltaRing_push r b = (r', Ok tt) /\ ring_contents r' = ring_contents r ++ [b] /\
    ring_capacity r' = ring_capacity r /\ ring_last_pushed_tick r' = batch_tick b
  else DeltaRing_push r b = (r, Err (Full (ring_capacity r))).
Proof.
  unfold DeltaRing_push, ring_contents, ring_capacity. pose proof (queue_push_law (ring_queue r) b) as Hp.
  destruct r as [q t]. simpl in *. case_test; [|by rewrite Hp].
  destruct Hp as (q' & -> & Hc & Hk). eexists. split; [done|]. done.
Qed.

Lemma drain_loop_all fuel q :
  (length (contents q) < fuel)%nat ->
  exists q', drain_loop fuel q = (q', contents q) /\ contents q' = [] /\ queue_capacity q' = queue_capacity q.
Proof.
  revert q. induction fuel as [|fuel IH]; intros q Hlt; [lia|]. simpl.
  pose proof (queue_pop_law q) as Hp. destruct (contents q) as [|x rest] eqn:Hc.
  - rewrite Hp. by exists q.
  - destruct Hp as (q1 & -> & Hc1 & Hk1). destruct (IH q1) as (q' & -> & Hc' & Hk').
    { rewrite Hc1. simpl in Hlt. lia. }
    exists q'. rewrite Hc1. split_and!; [done | done | congruence].
Qed.

Lemma ring_drain_spec r :
  exists r', DeltaRing_drain r = (r', ring_contents r) /\ ring_contents r' = [] /\
    ring_capacity r' = ring_capacity r /\ ring_last_pushed_tick r' = ring_last_pushed_tick r.
Proof.
  unfold DeltaRing_drain. destruct (drain_loop_all (S (N.to_nat (queue_capacity (ring_queue r)))) (ring_queue r))
    as (q' & -> & Hc & Hk).
  { pose proof (queue_bounded (ring_queue r)) as Hb. unfold len in Hb. lia. }
  eexists. split; [done|]. done.
Qed.

(** ** Histories of a ring *)

Inductive ring_op :=
| RingPush (b : TickBatch)
| RingDrain.

(** A run keeps the ring, the batches accepted and the batches drained. *)
Record ring_trace := MkRingTrace { tr_ring : DeltaRing; accepted : list TickBatch; drained : list TickBatch }.

Definition run_ring_op (t : ring_trace) (o : ring_op) : ring_trace :=
  match o with
  | RingPush b =>
      let '(r, res) := DeltaRing_push (tr_ring t) b in
      MkRingTrace r (accepted t ++ match res with Ok _ => [b] | Err _ => [] end) (drained t)
  | RingDrain =>
      let '(r, out) := DeltaRing_drain (tr_ring t) in MkRingTrace r (accepted t) (drained t ++ out)
  end.

Definition last_tick (bs : list TickBatch) : N := from_option batch_tick 0 (last bs).

Record ring_inv (cap : N) (t : ring_trace) : Prop := {
  ring_inv_fifo : drained t ++ ring_contents (tr_ring t) = accepted t;
  ring_inv_cap : ring_capacity (tr_ring t) = cap;
  ring_inv_last : ring_last_pushed_tick (tr_ring t) = last_tick (accepted t)
}.

Lemma run_ring_op_inv cap t o : ring_inv cap t -> ring_inv cap (run_ring_op t o).
Proof.
  intros [Hf Hc Hl]. destruct o as [b|]; simpl.
  - pose proof (ring_push_spec (tr_ring t) b) as Hp. case_test_in Hp.
    + destruct Hp as (r' & -> & Hc' & Hk' & Hl'). constructor; simpl; [by rewrite Hc', app_assoc, Hf | congruence |].
      unfold last_tick. by rewrite last_snoc.
    + rewrite Hp. constructor; simpl; by rewrite ?app_nil_r.
  - destruct (ring_drain_spec (tr_ring t)) as (r' & -> & Hc' & Hk' & Hl').
    constructor; simpl; [by rewrite Hc', app_nil_r | congruence | congruence].
Qed.

Lemma run_ring_ops_inv cap ops t : ring_inv cap t -> ring_inv cap (foldl run_ring_op t ops).
Proof. revert t. induction ops as [|o ops IH]; intros t Ht; simpl; [done|]. by apply IH, run_ring_op_inv. Qed.

(** ** Two threads *)

(** The producer and the consumer interleave at their atomic operations: the
    queue's push and pop, and the store of the counter. [c_storing] holds the
    tick of a push whose store is still to come; [c_partial] is the vector the
    running drain has filled so far. The last two fields record the history. *)
Record conc_state := MkConc {
  c_queue : Queue TickBatch;
  c_last : N;
  c_storing : option N;
  c_partial : list TickBatch;
  c_pushed : list TickBatch;
  c_delivered : list TickBatch
}.

Inductive conc_step : conc_state -> conc_state -> Prop :=
| conc_push q last out ps ds b q' :
    queue_push q b = (q', Ok tt) ->
    conc_step (MkConc q last None out ps ds) (MkConc q' last (Some (batch_tick b)) out (ps ++ [b]) ds)
| conc_push_full q last out ps ds b q' b' :
    queue_push q b = (q', Err b') ->
    conc_step (MkConc q last None out ps ds) (MkConc q' last None out ps ds)
| conc_store q last t out ps ds :
    conc_step (MkConc q last (Some t) out ps ds) (MkConc q t None out ps ds)
| conc_pop q last st out ps ds b q' :
    queue_pop q = (q', Some b) ->
    conc_step (MkConc q last st out ps ds) (MkConc q' last st (out ++ [b]) ps ds)
| conc_drain_done q last st out ps ds q' :
    queue_pop q = (q', None) ->
    conc_step (MkConc q last st out ps ds) (MkConc q' last st [] ps (ds ++ out)).

Definition conc_init (r : DeltaRing) : conc_state := MkConc (ring_queue r) (ring_last_pushed_tick r) None [] [] [].

Definition conc_inv (s : conc_state) : Prop :=
  c_delivered s ++ c_partial s ++ contents (c_queue s) = c_pushed s /\
  match c_storing s with
  | None => c_last s = last_tick (c_pushed s)
  | Some t => exists ps b, c_pushed s = ps ++ [b] /\ c_last s = last_tick ps /\ t = batch_tick b
  end.

Lemma queue_push_ok_inv (q q' : Queue TickBatch) b : queue_push q b = (q', Ok tt) -> contents q' = contents q ++ [b].
Proof. intros Hp. pose proof (queue_push_law q b) as Hl. case_test_in Hl; naive_solver congruence. Qed.

Lemma queue_push_err_inv (q q' : Queue TickBatch) b b' :
  queue_push q b = (q', Err b') -> q' = q /\ #|contents q| = queue_capacity q.
Proof.
  intros Hp. pose proof (queue_push_law q b) as Hl. pose proof (queue_bounded q) as Hb.
  case_test_in Hl; [naive_solver congruence|]. split; [congruence | lia].
Qed.

Lemma queue_pop_some_inv (q q' : Queue TickBatch) b : queue_pop q = (q', Some b) -> contents q = b :: contents q'.
Proof. intros Hp. pose proof (queue_pop_law q) as Hl. destruct (contents q); naive_solver congruence. Qed.

Lemma queue_pop_none_inv (q q' : Queue TickBatch) : queue_pop q = (q', None) -> q' = q /\ contents q = [].
Proof. intros Hp. pose proof (queue_pop_law q) as Hl. destruct (contents q); naive_solver congruence. Qed.

Lemma conc_step_inv s s' : conc_step s s' -> conc_inv s -> conc_inv s'.
Proof.
  unfold conc_inv. destruct 1 as [q last out ps ds b q' Hp|q last out ps ds b q' b' Hp|q last t out ps ds
    |q last st out ps ds b q' Hp|q last st out ps ds q' Hp]; simpl; intros [Hf Hl].
  - apply queue_push_ok_inv in Hp as ->. split; [by rewrite <- Hf, <- !app_assoc|]. eauto.
  - by apply queue_push_err_inv in Hp as [-> _].
  - destruct Hl as (ps' & b & -> & _ & ->). split; [done|]. unfold last_tick. by rewrite last_snoc.
  - apply queue_pop_some_inv in Hp. rewrite Hp in Hf. split; [by rewrite <- Hf, <- (app_assoc out) | done].
  - apply queue_pop_none_inv in Hp as [-> Hc]. split; [by rewrite <- Hf, <- app_assoc | done].
Qed.

Lemma conc_reach_inv s s' : rtc conc_step s s' -> conc_inv s -> conc_inv s'.
Proof. induction 1; eauto using conc_step_inv. Qed.

(** The sequential operations are runs of these steps. *)
Lemma push_steps r b ps ds :
  exists ps', rtc conc_step (MkConc (ring_queue r) (ring_last_pushed_tick r) None [] ps ds)
    (MkConc (ring_queue (fst (DeltaRing_push r b))) (ring_last_pushed_tick (fst (DeltaRing_push r b))) None [] ps' ds).
Proof.
  unfold DeltaRing_push. destruct (queue_push (ring_queue r) b) as [q [[]|b']] eqn:Hp; simpl.
  - eexists. eapply rtc_l; [by apply conc_push|]. apply rtc_once, conc_store.
  - exists ps. eapply rtc_once, conc_push_full, Hp.
Qed.

Lemma drain_steps q last st ps ds out fuel :
  (length (contents q) < fuel)%nat ->
  rtc conc_step (MkConc q last st out ps ds) (MkConc (fst (drain_loop fuel q)) last st [] ps (ds ++ out ++ snd (drain_loop fuel q))).
Proof.
  revert q out. induction fuel as [|fuel IH]; intros q out Hlt; [lia|]. simpl.
  destruct (queue_pop q) as [q' [b|]] eqn:Hp; simpl.
  - pose proof (queue_pop_some_inv _ _ _ Hp) as Hc. eapply rtc_l; [by apply conc_pop|].
    specialize (IH q' (out ++ [b])). destruct (drain_loop fuel q') as [q2 out2] eqn:Hd. simpl in *.
    rewrite <- app_assoc in IH. apply IH. rewrite Hc in Hlt. simpl in Hlt. lia.
  - rewrite app_nil_r. by apply rtc_once, conc_drain_done.
Qed.

(** ** Theorems on the ring *)

(** Ticks that never decrease end with the highest. *)
Lemma last_tick_highest bs :
  StronglySorted N.le (batch_tick <$> bs) -> Forall (fun b => batch_tick b <= last_tick bs) bs.
Proof.
  destruct bs as [|b bs _] using rev_ind; [by constructor|]. unfold last_tick. rewrite last_snoc, fmap_app. cbn [from_option].
  intros (Hle & _ & _)%StronglySorted_app. apply Forall_app_2; [|by apply Forall_singleton].
  apply Forall_forall. intros x Hx. apply Hle; [by apply list_elem_of_fmap_2 | by apply list_elem_of_singleton].
Qed.

(** C16. The ring is a bounded FIFO: after any history of pushes and drains the
    batches drained, followed by those still queued, are the accepted ones in
    push order, at most [capacity] are queued, and a drain empties the ring (its
    loop ends). The counter shows the tick of the last accepted push, which is
    the highest one if the accepted ticks never decrease (and need not be
    otherwise, see [counter_not_highest]). A push is refused exactly when the ring
    is full, with [Full(capacity)], and a refused push changes nothing. *)
Theorem ring_bounded_fifo (cap : N) (ops : list ring_op) (b : TickBatch) :
  cap <> 0 ->
  exists r0, DeltaRing_new cap = Ret r0 /\
  let t := foldl run_ring_op (MkRingTrace r0 [] []) ops in
  drained t ++ ring_contents (tr_ring t) = accepted t /\ #|ring_contents (tr_ring t)| <= cap /\
  DeltaRing_last_pushed_tick (tr_ring t) = last_tick (accepted t) /\
  (StronglySorted N.le (batch_tick <$> accepted t) ->
    Forall (fun b => batch_tick b <= DeltaRing_last_pushed_tick (tr_ring t)) (accepted t)) /\
  snd (DeltaRing_drain (tr_ring t)) = ring_contents (tr_ring t) /\
  ring_contents (fst (DeltaRing_drain (tr_ring t))) = [] /\
  (if decide (#|ring_contents (tr_ring t)| = cap) then DeltaRing_push (tr_ring t) b = (tr_ring t, Err (Full cap))
   else exists r', DeltaRing_push (tr_ring t) b = (r', Ok tt) /\ ring_contents r' = ring_contents (tr_ring t) ++ [b]).
Proof.
  intros Hcap. destruct (ring_new_ok cap Hcap) as (r0 & Hnew & Hc & Hk & Hl). exists r0. split; [done|]. intros t.
  assert (ring_inv cap t) as [Hf Hk' Hl'] by (apply run_ring_ops_inv; constructor; simpl; by rewrite ?Hc).
  pose proof (queue_bounded (ring_queue (tr_ring t))) as Hb.
  change (#|ring_contents (tr_ring t)| <= ring_capacity (tr_ring t)) in Hb. rewrite Hk' in Hb.
  destruct (ring_drain_spec (tr_ring t)) as (r' & Hd & Hc' & _). rewrite Hd.
  split_and!; try done; [unfold DeltaRing_last_pushed_tick; rewrite Hl'; apply last_tick_highest|].
  pose proof (ring_push_spec (tr_ring t) b) as Hp. rewrite Hk' in Hp. destruct (decide _) as [Heq|Hne].
  - by rewrite (proj2 (N.ltb_ge _ _)) in Hp by lia.
  - rewrite (proj2 (N.ltb_lt _ _)) in Hp by lia. naive_solver.
Qed.

(** C15. Two threads: whatever the interleaving of the producer's and the
    consumer's atomic operations, a push between two pops of a running drain
    included, no batch is lost, duplicated or reordered; and the counter shows
    the tick of the last accepted push or, while the store of that push is still
    to come, of the one before it. *)
Theorem ring_interleavings_fifo (cap : N) (r0 : DeltaRing) (s : conc_state) :
  DeltaRing_new cap = Ret r0 -> rtc conc_step (conc_init r0) s ->
  c_delivered s ++ c_partial s ++ contents (c_queue s) = c_pushed s /\
  match c_storing s with
  | None => c_last s = last_tick (c_pushed s)
  | Some t => exists ps b, c_pushed s = ps ++ [b] /\ c_last s = last_tick ps /\ t = batch_tick b
  end.
Proof.
  intros Hnew Hreach. apply (conc_reach_inv _ _ Hreach). unfold conc_inv, conc_init. simpl.
  assert (cap <> 0) as Hcap.
  { intros ->. unfold DeltaRing_new in Hnew. pose proof (queue_new_law (A := TickBatch) 0) as Hq.
    rewrite N.eqb_refl in Hq. by rewrite Hq in Hnew. }
  destruct (ring_new_ok cap Hcap) as (r & Hr & Hc & _ & Hl). rewrite Hr in Hnew. by injection Hnew as <-.
Qed.

(** The counter is documented as the highest tick pushed, but a later push of a
    lower tick is accepted and lowers it. *)
Theorem counter_not_highest (cap : N) (b1 b2 : TickBatch) :
  2 <= cap -> batch_tick b2 < batch_tick b1 ->
  exists r0 r1 r2, DeltaRing_new cap = Ret r0 /\ DeltaRing_push r0 b1 = (r1, Ok tt) /\ DeltaRing_push r1 b2 = (r2, Ok tt) /\
    DeltaRing_last_pushed_tick r1 = batch_tick b1 /\ DeltaRing_last_pushed_tick r2 = batch_tick b2.
Proof.
  intros Hcap _. destruct (ring_new_ok cap) as (r0 & Hnew & Hc0 & Hk0 & _); [lia|].
  pose proof (ring_push_spec r0 b1) as Hp1. rewrite Hc0, Hk0, len_nil, (proj2 (N.ltb_lt _ _)) in Hp1 by lia.
  destruct Hp1 as (r1 & Hp1 & Hc1 & Hk1 & Hl1). pose proof (ring_push_spec r1 b2) as Hp2.
  cbn [app] in Hc1. rewrite Hc1, Hk1, len_cons, len_nil, (proj2 (N.ltb_lt _ _)) in Hp2 by lia. destruct Hp2 as (r2 & Hp2 & _ & _ & Hl2).
  by exists r0, r1, r2.
Qed.

(** C39. A producer handle acts as the ring it came from while the ring stays in
    place: pushing through it has the effect and the answer of pushing on the
    ring itself. After the ring is moved to another address an accepted push
    through the old handle writes through a dangling address. *)
Theorem producer_handle_aliases (h : RingHeap) (p : RingPlace) (r : DeltaRing) (b : TickBatch) (addr : N) :
  ring_at h p = Some r ->
  (exists h', DeltaRingProducer_push h (DeltaRing_producer_handle p) b = Ret (h', snd (DeltaRing_push r b)) /\
    ring_at h' p = Some (fst (DeltaRing_push r b))) /\
  (addr <> place_addr p -> #|ring_contents r| < ring_capacity r ->
    ring_at (fst (move_ring h p addr)) (snd (move_ring h p addr)) = Some r /\
    DeltaRingProducer_push (fst (move_ring h p addr)) (DeltaRing_producer_handle p) b = Panic UndefinedBehaviour).
Proof.
  unfold ring_at. intros Hr. destruct (arcs h !! place_arc p) as [q|] eqn:Hq; [|done]. simpl in Hr.
  destruct (atomics h !! place_addr p) as [t|] eqn:Ht; [|done]. injection Hr as <-. split.
  - unfold DeltaRingProducer_push, DeltaRing_push. simpl. rewrite Hq.
    destruct (queue_push q b) as [q' [[]|b']] eqn:Hp; simpl.
    + rewrite Ht. eexists. split; [done|]. simpl. by rewrite !lookup_insert_eq.
    + eexists. split; [done|]. simpl. by rewrite lookup_insert_eq, Ht.
  - intros Haddr Hroom. split; simpl.
    + by rewrite Ht, Hq, lookup_insert_eq.
    + unfold DeltaRingProducer_push. simpl. rewrite Hq, Ht.
      pose proof (queue_push_law q b) as Hp. unfold ring_contents, ring_capacity in Hroom. simpl in Hroom.
      rewrite (proj2 (N.ltb_lt _ _) Hroom) in Hp. destruct Hp as (q' & -> & _).
      by rewrite lookup_insert_ne, lookup_delete_eq.
Qed.
End ring_lemmas.

(** ** The standby's view *)

Section standby.
Context `{BuildProfile}.

(** A delta as its type allows it, for a page number whose table fits the
    address space (the type alone allows any [u64]). *)
Definition delta_fits (d : PageDelta) : Prop :=
  page_fits (PageDelta_page_idx d) /\
  match d with Raw _ bytes => #|bytes| = PAGE_SIZE | Xor _ runs => Forall run_typed runs end.

(** The page a delta stands for at a receiver. *)
Definition delta_page (e : DeltaEngine) (d : PageDelta) : outcome (list N) :=
  match d with
  | Raw _ bytes => Ret bytes
  | Xor i runs => x ← rle_decode runs; Ret (zip_with N.lxor (default zero_page (engine_page e i)) x)
  end.

Lemma apply_typed_ok e d :
  engine_wf e -> delta_fits d ->
  exists e' out, DeltaEngine_apply e d = Ret (e', out) /\ engine_wf e' /\ delta_page e d = Ret out /\
    forall j, engine_page e' j = if decide (j = PageDelta_page_idx d) then Some out else engine_page e j.
Proof.
  intros Hwf [Hfit Hd]. destruct d as [i runs|i bytes]; cbn [PageDelta_page_idx delta_page] in *.
  - destruct (rle_decode_typed runs Hd) as (x & Hdec & Hx). rewrite Hdec. cbn [mbind outcome_bind].
    destruct (engine_page e i) as [prev|] eqn:Hprev; cbn [default from_option id].
    + assert (#|zip_with N.lxor prev x| = PAGE_SIZE) as Hlen by (apply len_xor_page; [by eapply engine_page_len | done]).
      destruct (apply_xor_runs e i prev _ runs x Hwf Hfit Hlen Hprev Hdec) as (e' & ? & ? & ?); [done|]. eauto 10.
    + destruct (apply_xor_none e i runs x Hwf Hfit Hdec Hx Hprev) as (e' & ? & ? & ?). rewrite xor_zero_page by done. eauto 10.
  - destruct (apply_raw_ok e i bytes Hwf Hfit Hd) as (e' & ? & ? & ?). eauto 10.
Qed.

Definition apply_one (e : DeltaEngine) (d : PageDelta) : outcome DeltaEngine := '(e', _) ← DeltaEngine_apply e d; Ret e'.

Lemma apply_one_ok e d e' out : DeltaEngine_apply e d = Ret (e', out) -> apply_one e d = Ret e'.
Proof. unfold apply_one. by intros ->. Qed.

Lemma apply_deltas_ok ds e :
  engine_wf e -> Forall delta_fits ds -> exists e', for_each apply_one ds e = Ret e' /\ engine_wf e'.
Proof.
  intros Hwf Hds. apply (for_each_inv engine_wf); [done|]. intros e1 d Hwf1 Hd.
  eapply Forall_forall in Hds; [|done]. destruct (apply_typed_ok e1 d Hwf1 Hds) as (e2 & out & E & Hwf2 & _).
  exists e2. split; [by eapply apply_one_ok | done].
Qed.

(** The page contents a list of raw deltas leaves, over an earlier view. *)
Definition view_after (ds : list PageDelta) (view : N -> option (list N)) (i : N) : option (list N) :=
  foldl (fun acc d => match d with
    | Raw j bytes => if decide (j = i) then Some bytes else acc
    | Xor _ _ => acc
    end) (view i) ds.

Definition delta_raw (d : PageDelta) : Prop := delta_fits d /\ match d with Raw _ _ => True | Xor _ _ => False end.

Lemma apply_raws_ok ds e view :
  engine_wf e -> (forall i, engine_page e i = view i) -> Forall delta_raw ds ->
  exists e', for_each apply_one ds e = Ret e' /\ engine_wf e' /\ forall i, engine_page e' i = view_after ds view i.
Proof.
  intros Hwf Hview Hds. revert e view Hwf Hview.
  induction Hds as [|d ds [[Hfit Hd] Hraw] _ IH]; intros e view Hwf Hview.
  { exists e. done. }
  destruct d as [|i bytes]; [done|]. simpl in Hfit, Hd.
  destruct (apply_raw_ok e i bytes Hwf Hfit Hd) as (e1 & E & Hwf1 & Hv1). cbn [for_each].
  rewrite (apply_one_ok _ _ _ _ E). cbn [mbind outcome_bind].
  destruct (IH e1 (fun j => if decide (i = j) then Some bytes else view j) Hwf1) as (e' & -> & Hwf' & Hv').
  { intros j. rewrite Hv1, Hview. by repeat case_decide. }
  by exists e'.
Qed.

Lemma apply_batch_accepts s b :
  last_applied_tick s < batch_tick b \/ last_applied_tick s = 0 ->
  StandbyApplyLoop_apply_batch s b =
    (e ← for_each apply_one (deltas b) (engine s); Ret (MkStandbyApplyLoop e (batch_tick b), Ok tt)).
Proof.
  intros Hacc. unfold StandbyApplyLoop_apply_batch.
  destruct (batch_tick b <=? last_applied_tick s) eqn:E1, (last_applied_tick s =? 0) eqn:E2; bool_to_prop; simpl; done || lia.
Qed.

Lemma apply_batch_rejects s b :
  batch_tick b <= last_applied_tick s -> last_applied_tick s <> 0 ->
  StandbyApplyLoop_apply_batch s b = Ret (s, Err (OutOfOrder (last_applied_tick s) (batch_tick b))).
Proof.
  intros H1 H2. unfold StandbyApplyLoop_apply_batch.
  by rewrite (proj2 (N.leb_le _ _) H1), (proj2 (N.eqb_neq _ _) H2).
Qed.

(** ** Histories of a standby *)

(** A standby and its answers to the batches it was fed, oldest first. *)
Record standby_trace := MkStandbyTrace {
  st_loop : StandbyApplyLoop;
  st_answers : list (TickBatch * result ApplyError unit)
}.

Definition run_apply (t : standby_trace) (b : TickBatch) : outcome standby_trace :=
  '(s, r) ← StandbyApplyLoop_apply_batch (st_loop t) b;
  Ret (MkStandbyTrace s (st_answers t ++ [(b, r)])).

(** The batches that were accepted. *)
Definition applied (answers : list (TickBatch * result ApplyError unit)) : list TickBatch :=
  omap (fun a => match a.2 with Ok _ => Some a.1 | Err _ => None end) answers.

(** The answer due to a batch after the batches in [before] were applied. *)
Definition answer_due (before : list TickBatch) (b : TickBatch) : result ApplyError unit :=
  if decide (last_tick before < batch_tick b \/ last_tick before = 0) then Ok tt
  else Err (OutOfOrder (last_tick before) (batch_tick b)).

Record standby_inv (e0 : DeltaEngine) (t : standby_trace) : Prop := {
  standby_engine : engine_wf (engine (st_loop t));
  standby_last : last_applied_tick (st_loop t) = last_tick (applied (st_answers t));
  standby_order : exists zeros ts, batch_tick <$> applied (st_answers t) = replicate zeros 0 ++ ts /\ StronglySorted N.lt (0 :: ts);
  standby_answers : forall k b r, st_answers t !! k = Some (b, r) -> r = answer_due (applied (take k (st_answers t))) b;
  standby_pages : for_each apply_one (applied (st_answers t) ≫= deltas) e0 = Ret (engine (st_loop t))
}.

Lemma applied_snoc answers b r :
  applied (answers ++ [(b, r)]) = applied answers ++ match r with Ok _ => [b] | Err _ => [] end.
Proof. unfold applied. rewrite omap_app. by destruct r. Qed.

(** One more answer, the one due. *)
Lemma answers_snoc (answers : list (TickBatch * result ApplyError unit)) b :
  (forall k b r, answers !! k = Some (b, r) -> r = answer_due (applied (take k answers)) b) ->
  forall k b' r, (answers ++ [(b, answer_due (applied answers) b)]) !! k = Some (b', r) ->
    r = answer_due (applied (take k (answers ++ [(b, answer_due (applied answers) b)]))) b'.
Proof.
  intros Hall k b' r Hk. apply lookup_app_Some in Hk as [Hk|[Hge Hk]].
  - rewrite take_app_le by (apply lookup_lt_Some in Hk; lia). by apply Hall.
  - apply list_lookup_singleton_Some in Hk as [Hk [= <- <-]]. rewrite take_app_length' by lia. done.
Qed.

Lemma last_tick_fmap bs : last_tick bs = default 0 (last (batch_tick <$> bs)).
Proof. unfold last_tick. rewrite fmap_last. by destruct (last bs). Qed.

(** A tick beyond the last extends a sorted list; a repeated zero only an
    all-zero one. *)
Lemma ticks_extend zeros (ts : list N) t :
  StronglySorted N.lt (0 :: ts) ->
  let l := default 0 (last (replicate zeros 0 ++ ts)) in
  l < t \/ l = 0 ->
  exists zeros' ts', (replicate zeros 0 ++ ts) ++ [t] = replicate zeros' 0 ++ ts' /\ StronglySorted N.lt (0 :: ts').
Proof.
  intros Hs l Hacc. destruct (decide (t = 0)) as [->|Ht].
  - assert (ts = []) as ->.
    { destruct ts as [|x ts _] using rev_ind; [done|]. unfold l in Hacc. rewrite app_assoc, last_snoc in Hacc. simpl in Hacc.
      apply StronglySorted_inv in Hs as [_ Hall]. apply Forall_app in Hall as [_ Hx].
      rewrite Forall_singleton in Hx. lia. }
    exists (S zeros), []. rewrite !app_nil_r, <- replicate_S_end. split; [done | repeat constructor].
  - exists zeros, (ts ++ [t]). split; [by rewrite app_assoc|].
    assert (forall x, x ∈ 0 :: ts -> x < t) as Hbelow.
    { destruct ts as [|y ts _] using rev_ind; intros x Hx.
      - apply list_elem_of_singleton in Hx as ->. lia.
      - unfold l in Hacc. rewrite app_assoc, last_snoc in Hacc. simpl in Hacc.
        assert (x <= y) as Hxy.
        { rewrite app_comm_cons in Hx, Hs. apply elem_of_app in Hx as [Hx|Hx%list_elem_of_singleton]; [|lia].
          apply StronglySorted_app_1_elem_of with (x1 := x) (x2 := y) in Hs; [lia | done | by apply list_elem_of_singleton]. }
        apply StronglySorted_inv in Hs as [_ Hall]. apply Forall_app in Hall as [_ Hy]. rewrite Forall_singleton in Hy. lia. }
    rewrite app_comm_cons. apply StronglySorted_app_between;
      [done | repeat constructor | intros x y Hx ->%list_elem_of_singleton; by apply Hbelow].
Qed.

Lemma run_apply_inv e0 t b :
  standby_inv e0 t -> Forall delta_fits (deltas b) ->
  exists t', run_apply t b = Ret t' /\ standby_inv e0 t' /\ st_answers t' = st_answers t ++ [(b, answer_due (applied (st_answers t)) b)].
Proof.
  intros [Hwf Hl (zeros & ts & Hts & Hsort) Ha Hp] Hb. unfold run_apply, answer_due. rewrite <- Hl.
  pose proof (answers_snoc _ b Ha) as Ha'. unfold answer_due at 1 3 in Ha'. rewrite <- Hl in Ha'.
  destruct (decide (last_applied_tick (st_loop t) < batch_tick b \/ last_applied_tick (st_loop t) = 0)) as [Hacc|Hrej].
  - rewrite apply_batch_accepts by done. destruct (apply_deltas_ok _ _ Hwf Hb) as (e & He & Hwf'). rewrite He. cbn [mbind outcome_bind].
    eexists. split; [done|]. split; [|done]. constructor; cbn [st_loop st_answers engine last_applied_tick]; rewrite ?applied_snoc.
    + done.
    + unfold last_tick. by rewrite last_snoc.
    + rewrite Hl, last_tick_fmap, Hts in Hacc. rewrite fmap_app, Hts. by apply ticks_extend.
    + exact Ha'.
    + by rewrite bind_app, for_each_app, Hp, bind_singleton.
  - rewrite apply_batch_rejects by lia. cbn [mbind outcome_bind]. eexists. split; [done|]. split; [|done].
    constructor; cbn [st_loop st_answers]; rewrite ?applied_snoc, ?app_nil_r; [done | done | eauto | exact Ha' | done].
Qed.

Lemma run_applies_inv e0 batches t :
  standby_inv e0 t -> Forall (fun b => Forall delta_fits (deltas b)) batches ->
  exists t', for_each run_apply batches t = Ret t' /\ standby_inv e0 t' /\ (st_answers t').*1 = (st_answers t).*1 ++ batches.
Proof.
  intros Ht Hbs. revert t Ht. induction Hbs as [|b batches Hb _ IH]; intros t Ht.
  { exists t. by rewrite app_nil_r. }
  destruct (run_apply_inv e0 t b Ht Hb) as (t1 & Hrun & Ht1 & Ha1). destruct (IH t1 Ht1) as (t' & Hrun' & Ht' & Ha').
  exists t'. cbn [for_each]. rewrite Hrun. cbn [mbind outcome_bind]. split_and!; [done | done |].
  by rewrite Ha', Ha1, fmap_app, <- app_assoc.
Qed.

(** ** Deltas from an engine *)

(** A primary that keeps one engine across ticks: the deltas of one batch. *)
Fixpoint diff_all (e : DeltaEngine) (us : list (N * list N)) : outcome (DeltaEngine * list PageDelta) :=
  match us with
  | [] => Ret (e, [])
  | u :: us =>
      '(e1, d) ← DeltaEngine_diff_and_commit e u.1 u.2;
      '(e2, ds) ← diff_all e1 us;
      Ret (e2, d :: ds)
  end.

(** One batch of page updates at a tick, from the primary's engine to the standby;
    the answers of the standby are collected. *)
Definition ship (st : DeltaEngine * StandbyApplyLoop * list (result ApplyError unit)) (b : N * list (N * list N)) :
    outcome (DeltaEngine * StandbyApplyLoop * list (result ApplyError unit)) :=
  let '(p, s, answers) := st in
  '(p', ds) ← diff_all p b.2;
  '(s', r) ← StandbyApplyLoop_apply_batch s (MkTickBatch b.1 ds);
  Ret (p', s', answers ++ [r]).

(** The content of a page after some updates, over an earlier one. *)
Definition updated (us : list (N * list N)) (view : N -> option (list N)) (i : N) : option (list N) :=
  foldl (fun acc u => if decide (u.1 = i) then Some u.2 else acc) (view i) us.

Lemma diff_all_applies us p e :
  engine_wf p -> engine_wf e -> (forall i, engine_page p i = engine_page e i) ->
  Forall (fun u => page_fits u.1 /\ #|u.2| = PAGE_SIZE) us ->
  exists p' ds e', diff_all p us = Ret (p', ds) /\ for_each apply_one ds e = Ret e' /\ engine_wf p' /\ engine_wf e' /\
    (forall i, engine_page p' i = engine_page e' i) /\ forall i, engine_page e' i = updated us (engine_page e) i.
Proof.
  intros Hp He Heq Hus. revert p e Hp He Heq. induction Hus as [|[i c] us [Hfit Hlen] _ IH]; intros p e Hp He Heq.
  { by exists p, [], e. }
  destruct (diff_and_commit_ok p i c Hp Hfit Hlen) as (p1 & d & Hd & Hp1 & Hv1 & Hfor).
  destruct (apply_delta_for p e i c d He Hfit Hlen (Heq i) Hfor) as (e1 & Ha & He1 & Hv2).
  destruct (IH p1 e1 Hp1 He1) as (p' & ds & e' & Hrun & Happ & Hp' & He' & Heq' & Hv).
  { intros j. rewrite Hv1, Hv2. by rewrite Heq. }
  exists p', (d :: ds), e'. cbn [diff_all for_each fst snd]. rewrite Hd. cbn [mbind outcome_bind]. rewrite Hrun.
  cbn [mbind outcome_bind]. rewrite (apply_one_ok _ _ _ _ Ha). cbn [mbind outcome_bind].
  split_and!; try done. intros j. rewrite Hv. unfold updated. cbn [foldl fst snd]. rewrite Hv2. f_equal. by repeat case_decide.
Qed.

Lemma updated_app us1 us2 view i : updated (us1 ++ us2) view i = updated us2 (updated us1 view) i.
Proof. unfold updated. by rewrite foldl_app. Qed.

Lemma ship_all_in_step bs p s answers :
  engine_wf p -> engine_wf (engine s) -> (forall i, engine_page p i = engine_page (engine s) i) ->
  Forall (fun b => Forall (fun u => page_fits u.1 /\ #|u.2| = PAGE_SIZE) b.2) bs ->
  StronglySorted N.lt (last_applied_tick s :: bs.*1) ->
  exists p' s', for_each ship bs (p, s, answers) = Ret (p', s', answers ++ replicate (length bs) (Ok tt)) /\
    (forall i, engine_page p' i = engine_page (engine s') i) /\
    forall i, engine_page (engine s') i = updated (bs ≫= snd) (engine_page (engine s)) i.
Proof.
  revert p s answers. induction bs as [|[t us] bs IH]; intros p s answers Hp He Heq Hus Hs.
  { exists p, s. by rewrite app_nil_r. }
  apply Forall_cons in Hus as [Hus Hbs]. cbn [fmap list_fmap fst snd] in *.
  apply StronglySorted_inv in Hs as [Hs Hlt]. apply Forall_cons in Hlt as [Hlt _].
  destruct (diff_all_applies us p (engine s) Hp He Heq Hus) as (p1 & ds & e1 & Hd & Ha & Hp1 & He1 & Heq1 & Hv1).
  destruct (IH p1 (MkStandbyApplyLoop e1 t) (answers ++ [Ok tt]) Hp1 He1 Heq1 Hbs Hs) as (p' & s' & Hrun & Heq' & Hv).
  exists p', s'. cbn [for_each ship snd fst]. rewrite Hd. cbn [mbind outcome_bind]. rewrite apply_batch_accepts by auto.
  cbn [deltas batch_tick]. rewrite Ha. cbn [mbind outcome_bind]. rewrite Hrun. split_and!; [|done|].
  - by rewrite <- app_assoc.
  - intros i. rewrite Hv, bind_cons, updated_app. cbn [engine snd]. unfold updated at 1 2. by rewrite Hv1.
Qed.

(** ** Theorems on the standby *)

(** C30. Tick order at the standby, exactly: fed any sequence of batches, in any
    order and with any ticks, the loop never panics and answers each of them; a
    batch is accepted if its tick exceeds the last applied one or the last applied
    one is 0, and otherwise refused with [OutOfOrder] naming the last applied tick
    and its own. The ticks applied are strictly increasing (after zeros at the
    start), the loop reports the last of them, and its pages are what the accepted
    batches alone, in order, make of an empty engine. *)
Theorem standby_strict_order (cap : N) (batches : list TickBatch) :
  cap * PAGE_SIZE < 2 ^ 63 -> Forall (fun b => Forall delta_fits (deltas b)) batches ->
  exists s0 t, StandbyApplyLoop_new cap = Ret s0 /\ for_each run_apply batches (MkStandbyTrace s0 []) = Ret t /\
    (st_answers t).*1 = batches /\
    (forall k b r, st_answers t !! k = Some (b, r) ->
      let last := last_tick (applied (take k (st_answers t))) in
      if decide (last < batch_tick b \/ last = 0) then r = Ok tt else r = Err (OutOfOrder last (batch_tick b))) /\
    (exists zeros ts, batch_tick <$> applied (st_answers t) = replicate zeros 0 ++ ts /\ StronglySorted N.lt (0 :: ts)) /\
    StandbyApplyLoop_last_applied_tick (st_loop t) = last_tick (applied (st_answers t)) /\
    for_each apply_one (applied (st_answers t) ≫= deltas) (engine s0) = Ret (engine (st_loop t)).
Proof.
  intros Hcap Hbs. destruct (new_engine_ok cap Hcap) as (e0 & He & Hwf & _).
  unfold StandbyApplyLoop_new. rewrite He. cbn [mbind outcome_bind]. eexists.
  destruct (run_applies_inv e0 batches (MkStandbyTrace (MkStandbyApplyLoop e0 0) [])) as (t & Hrun & [_ Hl Ho Ha Hp] & Hall);
    [|done|].
  - constructor; cbn; [done | done | | done | done]. exists 0%nat, []. split; [done | repeat constructor].
  - exists t. split_and!; [done | done | done | | done | done | done].
    intros k b r Hk. rewrite (Ha k b r Hk). unfold answer_due. cbv zeta. by case_decide.
Qed.

(** C31. XOR deltas through the standby loop: a primary that keeps its engine across
    ticks and a standby that starts in step with it stay in step over any
    sequence of batches with increasing ticks, each with any page updates (a page
    may occur several times). Every batch is accepted, nothing panics, and the
    standby ends with the latest content of every page. *)
Theorem engine_batches_in_step (p : DeltaEngine) (s : StandbyApplyLoop) (bs : list (N * list (N * list N))) :
  engine_wf p -> engine_wf (engine s) -> (forall i, engine_page p i = engine_page (engine s) i) ->
  Forall (fun b => Forall (fun u => page_fits u.1 /\ #|u.2| = PAGE_SIZE) b.2) bs ->
  StronglySorted N.lt (last_applied_tick s :: bs.*1) ->
  exists p' s', for_each ship bs (p, s, []) = Ret (p', s', replicate (length bs) (Ok tt)) /\
    forall i, engine_page p' i = engine_page (engine s') i /\
      engine_page (engine s') i = updated (bs ≫= snd) (engine_page (engine s)) i.
Proof.
  intros Hp He Heq Hbs Hs. destruct (ship_all_in_step bs p s [] Hp He Heq Hbs Hs) as (p' & s' & Hrun & H1 & H2).
  exists p', s'. split; [exact Hrun | by split].
Qed.

(** A refused batch is refused whole: neither the pages nor the tick of the
    standby change; an accepted batch of raw pages sets exactly those pages to
    their last content in the batch, and the tick. *)
Theorem apply_batch_atomic (s : StandbyApplyLoop) (b : TickBatch) :
  engine_wf (engine s) -> Forall delta_raw (deltas b) ->
  exists s' r, StandbyApplyLoop_apply_batch s b = Ret (s', r) /\
    if decide (last_applied_tick s < batch_tick b \/ last_applied_tick s = 0)
    then r = Ok tt /\ last_applied_tick s' = batch_tick b /\
      forall i, engine_page (engine s') i = view_after (deltas b) (engine_page (engine s)) i
    else r = Err (OutOfOrder (last_applied_tick s) (batch_tick b)) /\ s' = s.
Proof.
  intros Hwf Hb. destruct (decide _) as [Hacc|Hrej].
  - rewrite apply_batch_accepts by done.
    destruct (apply_raws_ok (deltas b) (engine s) (engine_page (engine s))) as (e & -> & _ & Hv); [done..|].
    do 2 eexists. split; [done|]. done.
  - rewrite apply_batch_rejects by lia. do 2 eexists. split; [done|]. done.
Qed.

(** The monotonicity check starts only after a non-zero tick: a standby whose
    last tick is 0 accepts any batch, so the same batch of tick 0 is accepted
    again and again. *)
Theorem tick_zero_accepted_again (s : StandbyApplyLoop) (ds : list PageDelta) :
  engine_wf (engine s) -> Forall delta_fits ds -> last_applied_tick s = 0 ->
  exists s1 s2, StandbyApplyLoop_apply_batch s (MkTickBatch 0 ds) = Ret (s1, Ok tt) /\
    StandbyApplyLoop_apply_batch s1 (MkTickBatch 0 ds) = Ret (s2, Ok tt).
Proof.
  intros Hwf Hds Hl. rewrite apply_batch_accepts by auto.
  destruct (apply_deltas_ok ds (engine s) Hwf Hds) as (e1 & He1 & Hwf1). cbn [deltas]. rewrite He1. cbn [mbind outcome_bind].
  destruct (apply_deltas_ok ds e1 Hwf1 Hds) as (e2 & He2 & _). do 2 eexists. split; [done|].
  rewrite apply_batch_accepts by auto. cbn [deltas engine]. by rewrite He2.
Qed.
End standby.

(** ** Witnesses *)

Definition empty_batch (tick : N) : TickBatch := MkTickBatch tick [].
Definition page_batch (tick i b : N) : TickBatch := MkTickBatch tick [Raw i (filled_page b)].

Lemma page_batch_raw tick i b : page_fits i -> Forall delta_raw (deltas (page_batch tick i b)).
Proof.
  intros Hi. apply Forall_singleton. split; [|done]. split; [exact Hi|]. apply len_replicate.
Qed.

Lemma page_batch_typed tick i b : page_fits i -> Forall delta_fits (deltas (page_batch tick i b)).
Proof. intros Hi. eapply Forall_impl; [by apply page_batch_raw|]. by intros d [? _]. Qed.

Lemma small_page_fits i : i < 2 ^ 32 -> page_fits i.
Proof. unfold page_fits. intros. page_lia. Qed.

Lemma ring_bounded_fifo_witness :
  2 <> 0 /\
  exists r0, @DeltaRing_new mem_queue 2 = Ret r0 /\
  let t := foldl (@run_ring_op mem_queue) (MkRingTrace r0 [] [])
    [RingPush (empty_batch 1); RingPush (empty_batch 2); RingPush (empty_batch 3); RingDrain; RingPush (empty_batch 4)] in
  drained t ++ ring_contents (tr_ring t) = accepted t.
Proof.
  split; [done|].
  destruct (@ring_bounded_fifo mem_queue mem_queue_laws 2 [RingPush (empty_batch 1); RingPush (empty_batch 2);
    RingPush (empty_batch 3); RingDrain; RingPush (empty_batch 4)] (empty_batch 5)) as (r0 & Hr & Hf & _); [done|].
  exists r0. split; [exact Hr | exact Hf].
Defined.

Lemma counter_not_highest_witness :
  exists r0 r1 r2, @DeltaRing_new mem_queue 2 = Ret r0 /\ DeltaRing_push r0 (empty_batch 5) = (r1, Ok tt) /\
    DeltaRing_push r1 (empty_batch 3) = (r2, Ok tt) /\ DeltaRing_last_pushed_tick r1 = 5 /\ DeltaRing_last_pushed_tick r2 = 3.
Proof. apply (@counter_not_highest mem_queue mem_queue_laws 2 (empty_batch 5) (empty_batch 3)); [lia | reflexivity]. Defined.

(** The counter is read between a push and its store, while a drain runs. *)
Lemma ring_interleavings_fifo_witness :
  exists r0 s, @DeltaRing_new mem_queue 2 = Ret r0 /\ rtc conc_step (conc_init r0) s /\ c_storing s = Some 7 /\
    c_delivered s ++ c_partial s ++ contents (c_queue s) = c_pushed s.
Proof.
  assert (exists s, rtc (@conc_step mem_queue) (conc_init (MkDeltaRing (MkMemQueue 2 [] : @Queue mem_queue TickBatch) 0)) s /\
    c_storing s = Some 7) as (s & Hreach & Hst).
  { eexists. split; [|shelve]. eapply rtc_l; [apply conc_push with (b := empty_batch 3); vm_compute; reflexivity|].
    eapply rtc_l; [apply conc_store|]. eapply rtc_l; [apply conc_pop; vm_compute; reflexivity|].
    apply rtc_once. apply conc_push with (b := empty_batch 7). vm_compute. reflexivity.
    Unshelve. reflexivity. }
  exists (MkDeltaRing (MkMemQueue 2 [] : @Queue mem_queue TickBatch) 0), s. split; [reflexivity|]. split; [exact Hreach|].
  split; [exact Hst|]. exact (proj1 (@ring_interleavings_fifo mem_queue mem_queue_laws 2 _ s eq_refl Hreach)).
Defined.

Definition placed_ring : @RingHeap mem_queue := MkRingHeap {[10 := MkMemQueue 2 [] : @Queue mem_queue TickBatch]} {[500 := 0]}.

Lemma producer_handle_aliases_witness :
  ring_at placed_ring (MkRingPlace 10 500) = Some (MkDeltaRing (MkMemQueue 2 [] : @Queue mem_queue TickBatch) 0) /\
  DeltaRingProducer_push (fst (move_ring placed_ring (MkRingPlace 10 500) 900))
    (DeltaRing_producer_handle (MkRingPlace 10 500)) (empty_batch 1) = Panic UndefinedBehaviour.
Proof.
  split; [reflexivity|].
  exact (proj2 (proj2 (@producer_handle_aliases mem_queue mem_queue_laws placed_ring (MkRingPlace 10 500) _ (empty_batch 1) 900 eq_refl)
    ltac:(done) eq_refl)).
Defined.

Lemma standby_strict_order_witness :
  4 * PAGE_SIZE < 2 ^ 63 /\
  exists s0 t, StandbyApplyLoop_new 4 = Ret s0 /\
    for_each (@run_apply dev_profile) [page_batch 5 0 1; empty_batch 3; page_batch 6 1 2] (MkStandbyTrace s0 []) = Ret t /\
    (st_answers t).*1 = [page_batch 5 0 1; empty_batch 3; page_batch 6 1 2].
Proof.
  split; [done|].
  destruct (@standby_strict_order dev_profile 4 [page_batch 5 0 1; empty_batch 3; page_batch 6 1 2]) as (s0 & t & H1 & H2 & H3 & _).
  - done.
  - apply Forall_cons_2; [apply page_batch_typed, small_page_fits; reflexivity|].
    apply Forall_cons_2; [apply Forall_nil_2|].
    apply Forall_cons_2; [apply page_batch_typed, small_page_fits; reflexivity | apply Forall_nil_2].
  - exists s0, t. split; [exact H1|]. split; [exact H2 | exact H3].
Defined.

Lemma apply_batch_atomic_witness :
  engine_wf one_page_engine /\
  exists s' r, @StandbyApplyLoop_apply_batch dev_profile (MkStandbyApplyLoop one_page_engine 5) (page_batch 5 0 9) = Ret (s', r) /\
    r = Err (OutOfOrder 5 5) /\ s' = MkStandbyApplyLoop one_page_engine 5.
Proof.
  split; [exact one_page_engine_wf|].
  exact (@apply_batch_atomic dev_profile (MkStandbyApplyLoop one_page_engine 5) (page_batch 5 0 9) one_page_engine_wf
    (page_batch_raw 5 0 9 (small_page_fits 0 eq_refl))).
Defined.

Lemma tick_zero_accepted_again_witness :
  engine_wf one_page_engine /\
  exists s1 s2, @StandbyApplyLoop_apply_batch dev_profile (MkStandbyApplyLoop one_page_engine 0) (page_batch 0 0 9) = Ret (s1, Ok tt) /\
    @StandbyApplyLoop_apply_batch dev_profile s1 (page_batch 0 0 9) = Ret (s2, Ok tt).
Proof.
  split; [exact one_page_engine_wf|].
  exact (@tick_zero_accepted_again dev_profile (MkStandbyApplyLoop one_page_engine 0) (deltas (page_batch 0 0 9)) one_page_engine_wf
    (page_batch_typed 0 0 9 (small_page_fits 0 eq_refl)) eq_refl).
Defined.

Lemma engine_batches_in_step_witness :
  engine_wf one_page_engine /\
  exists p' s', for_each (@ship dev_profile) [(4, [(0, filled_page 8); (1, filled_page 3)]); (6, [(1, poke_page (filled_page 3) 7 1)])]
      (one_page_engine, MkStandbyApplyLoop one_page_engine 2, []) = Ret (p', s', [Ok tt; Ok tt]) /\
    forall i, engine_page p' i = engine_page (engine s') i.
Proof.
  split; [exact one_page_engine_wf|].
  destruct (@engine_batches_in_step dev_profile one_page_engine (MkStandbyApplyLoop one_page_engine 2)
    [(4, [(0, filled_page 8); (1, filled_page 3)]); (6, [(1, poke_page (filled_page 3) 7 1)])]) as (p' & s' & Hrun & Hv).
  - exact one_page_engine_wf.
  - exact one_page_engine_wf.
  - intros i. reflexivity.
  - assert (forall b, #|filled_page b| = PAGE_SIZE) as Hfill by (intros b; apply len_replicate).
    repeat apply Forall_cons_2; try apply Forall_nil_2; (split; [apply small_page_fits; reflexivity|]);
      [apply Hfill | apply Hfill | unfold poke_page; cbn [snd]; rewrite len_insert; apply Hfill].
  - repeat constructor.
  - exists p', s'. split; [exact Hrun | intros i; apply Hv].
Defined.
