(* ===== verification/Loops.v ===== *)
(** * The [while] loops of the program (delta.rs, chronos-replicate/src/lib.rs)

    The source has four [while] loops: the three of [rle_encode] and the one of
    [drain]. Elsewhere they are modelled as functions with fuel; here they are
    transition systems without any, so that termination is a theorem about the
    loops and not a choice of the model. The encoder terminates on every buffer
    and its result is that of the function with fuel. The consumer's loop
    terminates if the producer pauses, and only then. *)

From S2P Require Import Prelude Machine GuardedMemory Delta Replicate.

(** ** The encoder *)

(** Which loop the encoder is in, with the variables that loop has set. *)
Inductive enc_pc :=
| Outer
| Zeros (run_start : N)
| Literals (zero_run lit_start : N).

(** [i] and [runs], and the position in the code. *)
Record enc_state := MkEnc {
  enc_at : enc_pc;
  enc_i : N;
  enc_runs : list RunLiteral
}.

(** One test of a loop condition and what follows it; [None] is the return. *)
Definition enc_step (buf : list N) (s : enc_state) : option enc_state :=
  let '(MkEnc pc i runs) := s in
  match pc with
  | Outer => if i <? PAGE_SIZE then Some (MkEnc (Zeros i) i runs) else None
  | Zeros run_start =>
      if (i <? PAGE_SIZE) && (buf !!! N.to_nat i =? 0) then Some (MkEnc pc (i + 1) runs)
      else Some (MkEnc (Literals (as_unsigned 32 (i - run_start)) i) i runs)
  | Literals zero_run lit_start =>
      if (i <? PAGE_SIZE) && negb (buf !!! N.to_nat i =? 0) then Some (MkEnc pc (i + 1) runs)
      else
        let literal := take (N.to_nat (i - lit_start)) (drop (N.to_nat lit_start) buf) in
        Some (MkEnc Outer i
          (if (0 <? zero_run) || negb (#|literal| =? 0) then runs ++ [MkRunLiteral zero_run literal] else runs))
  end.

Definition enc_start : enc_state := MkEnc Outer 0 [].

Definition enc_steps (buf : list N) (s s' : enc_state) : Prop := enc_step buf s = Some s'.

(** Tests left before the index moves, at a byte that is zero, not zero, or past
    the end. *)
Definition enc_rank (buf : list N) (pc : enc_pc) (i : N) : N :=
  if i <? PAGE_SIZE then
    if buf !!! N.to_nat i =? 0 then match pc with Literals _ _ => 3 | Outer => 2 | Zeros _ => 1 end
    else match pc with Outer => 3 | Zeros _ => 2 | Literals _ _ => 1 end
  else match pc with Zeros _ => 2 | Literals _ _ => 1 | Outer => 0 end.

Definition enc_measure (buf : list N) (s : enc_state) : N := 4 * (PAGE_SIZE - enc_i s) + enc_rank buf (enc_at s) (enc_i s).

(** Every step makes progress, from whatever state. *)
Lemma enc_step_decreases buf s s' : enc_steps buf s s' -> enc_measure buf s' < enc_measure buf s.
Proof.
  unfold enc_steps, enc_measure, enc_rank. destruct s as [pc i runs]. pose proof (eq_refl : PAGE_SIZE = 4096) as Hps.
  destruct pc as [|rs|zr ls]; cbn [enc_step enc_at enc_i]; intros Hs.
  - destruct (i <? PAGE_SIZE) eqn:Hi; simplify_eq. cbn [enc_at enc_i]. rewrite Hi. destruct (_ =? 0); lia.
  - destruct (i <? PAGE_SIZE) eqn:Hi; cbn [andb] in Hs; [destruct (buf !!! N.to_nat i =? 0) eqn:Hb|]; simplify_eq; cbn [enc_at enc_i];
      rewrite ?Hi, ?Hb; [|lia..]. apply N.ltb_lt in Hi. repeat case_match; lia.
  - destruct (i <? PAGE_SIZE) eqn:Hi; cbn [andb] in Hs; [destruct (buf !!! N.to_nat i =? 0) eqn:Hb|]; cbn [negb] in Hs; simplify_eq;
      cbn [enc_at enc_i]; rewrite ?Hi, ?Hb; [lia| |lia]. apply N.ltb_lt in Hi. repeat case_match; lia.
Qed.

Lemma enc_steps_wf buf : well_founded (flip (enc_steps buf)).
Proof.
  apply (wf_projected N.lt (enc_measure buf)); [|apply N.lt_wf_0]. intros s' s Hs. by apply enc_step_decreases.
Qed.

Lemma enc_nsteps_bound buf k s s' : nsteps (enc_steps buf) k s s' -> N.of_nat k <= enc_measure buf s.
Proof.
  induction 1 as [|k s1 s2 s3 Hs _ IH]; [lia|]. apply enc_step_decreases in Hs. lia.
Qed.

(** The two inner loops are [scan_while]. *)
Lemma scan_zeros buf rs runs fuel i :
  i <= PAGE_SIZE -> PAGE_SIZE - i <= N.of_nat fuel ->
  let j := scan_while (fun b => b =? 0) buf fuel i in
  rtc (enc_steps buf) (MkEnc (Zeros rs) i runs) (MkEnc (Literals (as_unsigned 32 (j - rs)) j) j runs).
Proof.
  revert i. induction fuel as [|fuel IH]; intros i Hi Hf; cbn [scan_while].
  - apply rtc_once. unfold enc_steps. cbn [enc_step]. by rewrite (proj2 (N.ltb_ge _ _)) by lia.
  - destruct ((i <? PAGE_SIZE) && _) eqn:Hb.
    + eapply rtc_l; [unfold enc_steps; cbn [enc_step]; by rewrite Hb|]. bool_to_prop. apply IH; lia.
    + apply rtc_once. unfold enc_steps. cbn [enc_step]. by rewrite Hb.
Qed.

Lemma scan_literals buf zr ls runs fuel i :
  i <= PAGE_SIZE -> PAGE_SIZE - i <= N.of_nat fuel ->
  let j := scan_while (fun b => negb (b =? 0)) buf fuel i in
  let literal := take (N.to_nat (j - ls)) (drop (N.to_nat ls) buf) in
  rtc (enc_steps buf) (MkEnc (Literals zr ls) i runs)
    (MkEnc Outer j (if (0 <? zr) || negb (#|literal| =? 0) then runs ++ [MkRunLiteral zr literal] else runs)).
Proof.
  revert i. induction fuel as [|fuel IH]; intros i Hi Hf; cbn [scan_while].
  - apply rtc_once. unfold enc_steps. cbn [enc_step]. by rewrite (proj2 (N.ltb_ge _ _)) by lia.
  - destruct ((i <? PAGE_SIZE) && _) eqn:Hb.
    + eapply rtc_l; [unfold enc_steps; cbn [enc_step]; by rewrite Hb|]. bool_to_prop. apply IH; lia.
    + apply rtc_once. unfold enc_steps. cbn [enc_step]. by rewrite Hb.
Qed.

(** The outer loop is [rle_encode_loop]. *)
Lemma enc_loop buf fuel i runs :
  #|buf| = PAGE_SIZE -> i <= PAGE_SIZE -> PAGE_SIZE - i <= N.of_nat fuel ->
  rtc (enc_steps buf) (MkEnc Outer i runs) (MkEnc Outer PAGE_SIZE (runs ++ rle_encode_loop fuel buf i)).
Proof.
  intros Hlen. revert i runs. induction fuel as [|fuel IH]; intros i runs Hi Hf.
  { replace i with PAGE_SIZE by lia. cbn [rle_encode_loop]. by rewrite app_nil_r. }
  destruct (decide (i < PAGE_SIZE)) as [Hlt|Hge].
  2:{ replace i with PAGE_SIZE by lia. cbn [rle_encode_loop]. rewrite N.ltb_irrefl. by rewrite app_nil_r. }
  cbn [rle_encode_loop]. rewrite (proj2 (N.ltb_lt _ _) Hlt).
  eapply rtc_l; [unfold enc_steps; cbn [enc_step]; by rewrite (proj2 (N.ltb_lt _ _) Hlt)|].
  destruct (scan_progress buf i Hlt) as [Hi12 Hprog].
  etrans; [apply (scan_zeros buf i runs (N.to_nat PAGE_SIZE)); lia|].
  set (i1 := scan_while _ _ _ i) in *.
  etrans; [apply (scan_literals buf _ i1 runs (N.to_nat PAGE_SIZE)); lia|].
  set (i2 := scan_while _ _ _ i1) in *. clearbody i2 i1. cbv zeta.
  destruct ((0 <? _) || _); [|apply IH; lia].
  set (r := MkRunLiteral _ _). specialize (IH i2 (runs ++ [r]) ltac:(lia) ltac:(lia)). by rewrite <- app_assoc in IH.
Qed.

(** C18. The encoder terminates: no state of its three loops starts an infinite
    execution, and from the beginning, on every page-sized buffer, it returns
    within four tests per byte (and three more) with the runs that [rle_encode]
    gives. *)
Theorem rle_encode_terminates (buf : list N) :
  #|buf| = PAGE_SIZE ->
  well_founded (flip (enc_steps buf)) /\
  exists k s, nsteps (enc_steps buf) k enc_start s /\ N.of_nat k <= 4 * PAGE_SIZE + 3 /\
    enc_step buf s = None /\ enc_runs s = rle_encode buf.
Proof.
  intros Hlen. split; [apply enc_steps_wf|].
  assert (exists fuel, rle_encode buf = rle_encode_loop fuel buf 0 /\ PAGE_SIZE - 0 <= N.of_nat fuel) as (fuel & -> & Hf).
  { exists (N.to_nat PAGE_SIZE). split; [reflexivity | lia]. }
  pose proof (enc_loop buf fuel 0 [] Hlen ltac:(lia) Hf) as Hr. apply rtc_nsteps_1 in Hr as [k Hk].
  exists k, (MkEnc Outer PAGE_SIZE (rle_encode_loop fuel buf 0)). split; [exact Hk|]. split; [|by split].
  apply enc_nsteps_bound in Hk. etrans; [exact Hk|]. unfold enc_measure, enc_rank, enc_start. cbn [enc_i enc_at].
  repeat case_match; lia.
Qed.

(** ** The consumer's loop, with the producer running *)

Section drain.
Context `{ArrayQueue}.

(** The producer's pushes between two pops: the queue and the accepted batches. *)
Fixpoint push_attempts (q : Queue TickBatch) (bs : list TickBatch) : Queue TickBatch * list TickBatch :=
  match bs with
  | [] => (q, [])
  | b :: bs =>
    match queue_push q b with
    | (q1, Ok _) => let '(q2, acc) := push_attempts q1 bs in (q2, b :: acc)
    | (q1, Err _) => push_attempts q1 bs
    end
  end.

(** [while let Some(batch) = self.queue.pop() { out.push(batch); }] from the
    [k]-th pop on, where the producer makes the pushes [env k] just before it;
    [None] when the loop has not ended after [fuel] pops. The result is the queue,
    the vector returned, and the batches accepted from the producer meanwhile. *)
Fixpoint drain_interfered (fuel : nat) (env : nat -> list TickBatch) (k : nat) (q : Queue TickBatch) (out accepted : list TickBatch) :
    option (Queue TickBatch * list TickBatch * list TickBatch) :=
  match fuel with
  | O => None
  | S fuel =>
    let '(q1, acc) := push_attempts q (env k) in
    match queue_pop q1 with
    | (q2, Some batch) => drain_interfered fuel env (S k) q2 (out ++ [batch]) (accepted ++ acc)
    | (q2, None) => Some (q2, out, accepted ++ acc)
    end
  end.

Context `{!ArrayQueueLaws}.

Lemma push_attempts_spec bs q :
  exists q' acc, push_attempts q bs = (q', acc) /\ contents q' = contents q ++ acc /\ acc `sublist_of` bs /\
    queue_capacity q' = queue_capacity q.
Proof.
  revert q. induction bs as [|b bs IH]; intros q; simpl.
  { exists q, []. by rewrite app_nil_r. }
  pose proof (queue_push_law q b) as Hp. case_test_in Hp.
  - destruct Hp as (q1 & -> & Hc & Hk). destruct (IH q1) as (q' & acc & -> & Hc' & Hs & Hk').
    exists q', (b :: acc). split_and!; [done | by rewrite Hc', Hc, <- app_assoc | by constructor | congruence].
  - rewrite Hp. destruct (IH q) as (q' & acc & -> & Hc' & Hs & Hk'). exists q', acc. split_and!; [done.. | by constructor | done].
Qed.

(** After a push was tried on a queue with room for one, a pop finds a batch. *)
Lemma push_attempts_nonempty bs q :
  bs <> [] -> queue_capacity q <> 0 -> contents (fst (push_attempts q bs)) <> [].
Proof.
  intros Hbs Hcap. destruct bs as [|b bs]; [done|]. simpl. pose proof (queue_push_law q b) as Hp.
  case_test_in Hp.
  - destruct Hp as (q1 & -> & Hc & _). destruct (push_attempts_spec bs q1) as (q' & acc & -> & Hc' & _).
    simpl. rewrite Hc', Hc. by destruct (contents q).
  - rewrite Hp. destruct (push_attempts_spec bs q) as (q' & acc & -> & Hc' & _). simpl. rewrite Hc'.
    destruct (contents q); [rewrite len_nil in *; lia | done].
Qed.

(** Each run is an interleaving of the two threads' atomic steps. *)
Lemma push_attempts_steps bs q last out ps ds :
  exists last', rtc conc_step (MkConc q last None out ps ds)
    (MkConc (fst (push_attempts q bs)) last' None out (ps ++ snd (push_attempts q bs)) ds).
Proof.
  revert q last ps. induction bs as [|b bs IH]; intros q last ps; simpl.
  { exists last. by rewrite app_nil_r. }
  destruct (queue_push q b) as [q1 [[]|b']] eqn:Hp.
  - destruct (IH q1 (batch_tick b) (ps ++ [b])) as [last' Hr]. exists last'.
    destruct (push_attempts q1 bs) as [q2 acc]. simpl in *. rewrite <- app_assoc in Hr.
    eapply rtc_l; [by apply conc_push|]. eapply rtc_l; [apply conc_store | exact Hr].
  - destruct (IH q1 last ps) as [last' Hr]. exists last'. eapply rtc_l; [by eapply conc_push_full | exact Hr].
Qed.

(** What was accepted before stays. *)
Lemma drain_interfered_acc fuel env k q out acc q' out' acc' :
  drain_interfered fuel env k q out acc = Some (q', out', acc') -> exists ps, acc' = acc ++ ps.
Proof.
  revert k q out acc. induction fuel as [|fuel IH]; intros k q out acc Hd; [done|]. cbn [drain_interfered] in Hd.
  destruct (push_attempts q (env k)) as [q1 acc1]. destruct (queue_pop q1) as [q2 [b|]].
  - apply IH in Hd as [ps ->]. rewrite <- app_assoc. eauto.
  - injection Hd as _ _ <-. eauto.
Qed.

Lemma drain_interfered_steps fuel env k q out acc0 q' out' acc last ps ds :
  drain_interfered fuel env k q out acc0 = Some (q', out', acc0 ++ acc) ->
  exists last', rtc conc_step (MkConc q last None out ps ds) (MkConc q' last' None [] (ps ++ acc) (ds ++ out')).
Proof.
  revert k q out acc0 acc last ps. induction fuel as [|fuel IH]; intros k q out acc0 acc last ps Hd; [done|]. cbn [drain_interfered] in Hd.
  destruct (push_attempts_steps (env k) q last out ps ds) as [last1 Hr].
  destruct (push_attempts q (env k)) as [q1 acc1]. simpl in Hr. destruct (queue_pop q1) as [q2 [b|]] eqn:Hp.
  - destruct (drain_interfered_acc _ _ _ _ _ _ _ _ _ Hd) as [acc2 Hacc]. rewrite <- app_assoc in Hacc.
    apply app_inv_head in Hacc as ->. rewrite app_assoc in Hd.
    destruct (IH (S k) q2 (out ++ [b]) _ _ last1 (ps ++ acc1) Hd) as (last' & Hr'). exists last'.
    rewrite app_assoc. etrans; [exact Hr|]. eapply rtc_l; [by apply conc_pop | exact Hr'].
  - injection Hd as <- <- Hacc. apply app_inv_head in Hacc as ->. exists last1. etrans; [exact Hr|]. by apply rtc_once, conc_drain_done.
Qed.

Lemma drain_interfered_more fuel fuel' env k q out acc r :
  drain_interfered fuel env k q out acc = Some r -> (fuel <= fuel')%nat -> drain_interfered fuel' env k q out acc = Some r.
Proof.
  revert fuel' k q out acc. induction fuel as [|fuel IH]; intros fuel' k q out acc Hd Hle; [done|].
  destruct fuel' as [|fuel']; [lia|]. cbn [drain_interfered] in *. destruct (push_attempts q (env k)) as [q1 acc1].
  destruct (queue_pop q1) as [q2 [b|]]; [|done]. apply IH; [done | lia].
Qed.

(** With the producer quiet the loop takes what there is. *)
Lemma drain_quiet fuel env k q out acc :
  (forall j, (k <= j)%nat -> env j = []) -> (length (contents q) < fuel)%nat ->
  exists q', drain_interfered fuel env k q out acc = Some (q', out ++ contents q, acc) /\ contents q' = [].
Proof.
  revert k q out. induction fuel as [|fuel IH]; intros k q out Henv Hlt; [lia|]. cbn [drain_interfered].
  rewrite Henv by lia. cbn [push_attempts]. rewrite app_nil_r. pose proof (queue_pop_law q) as Hp. destruct (contents q) as [|b rest] eqn:Hc.
  - rewrite Hp. exists q. by rewrite app_nil_r.
  - destruct Hp as (q2 & -> & Hc2 & _). destruct (IH (S k) q2 (out ++ [b])) as (q' & -> & He);
      [intros; apply Henv; lia | rewrite Hc2; simpl in Hlt; lia |]. exists q'. by rewrite Hc2, <- app_assoc.
Qed.

Lemma drain_until_quiet pause fuel env k q out acc :
  (forall j, (k + pause <= j)%nat -> env j = []) -> (pause + N.to_nat (queue_capacity q) < fuel)%nat ->
  exists q' ps, drain_interfered fuel env k q out acc = Some (q', out ++ contents q ++ ps, acc ++ ps) /\ contents q' = [] /\
    ps `sublist_of` concat (env <$> seq k pause).
Proof.
  revert fuel k q out acc. induction pause as [|pause IH]; intros fuel k q out acc Henv Hlt.
  { destruct (drain_quiet fuel env k q out acc) as (q' & -> & He).
    - intros j Hj. apply Henv. lia.
    - pose proof (queue_bounded q) as Hb. unfold len in Hb. lia.
    - exists q', []. rewrite !app_nil_r. by split_and!; [|..|apply sublist_nil_l]. }
  destruct fuel as [|fuel]; [lia|]. cbn [drain_interfered].
  destruct (push_attempts_spec (env k) q) as (q1 & acc1 & -> & Hc1 & Hs & Hk1).
  pose proof (queue_pop_law q1) as Hp. destruct (contents q1) as [|b rest] eqn:Hc.
  - rewrite Hp. symmetry in Hc1. apply app_eq_nil in Hc1 as [-> ->]. exists q1, []. rewrite !app_nil_r.
    split_and!; [done | done | apply sublist_nil_l].
  - destruct Hp as (q2 & -> & Hc2 & Hk2). destruct (IH fuel (S k) q2 (out ++ [b]) (acc ++ acc1)) as (q' & ps & -> & He & Hps);
      [intros; apply Henv; lia | rewrite Hk2, Hk1; lia |].
    exists q', (acc1 ++ ps). split_and!; [|done|by apply sublist_app].
    rewrite Hc2, <- !app_assoc. do 3 f_equal. rewrite (app_assoc (contents q)), <- Hc1. done.
Qed.

(** ** Theorems on the consumer's loop *)

(** C19. A drain returns once the producer pauses, and loses nothing: if the producer
    makes no pushes from the [pause]-th pop on, the loop ends after at most
    [pause + capacity + 1] pops, with the queue empty, and the vector it returns
    is exactly the batches that were queued followed by all those accepted while
    it ran, in order. *)
Theorem drain_terminates (r : DeltaRing) (env : nat -> list TickBatch) (pause : nat) :
  (forall k, (pause <= k)%nat -> env k = []) ->
  exists q' accepted, contents q' = [] /\ accepted `sublist_of` concat (env <$> seq 0 pause) /\
    forall fuel, (pause + N.to_nat (ring_capacity r) < fuel)%nat ->
      drain_interfered fuel env 0 (ring_queue r) [] [] = Some (q', ring_contents r ++ accepted, accepted).
Proof.
  intros Henv.
  destruct (drain_until_quiet pause (S (pause + N.to_nat (ring_capacity r))) env 0 (ring_queue r) [] []) as (q' & ps & Hd & He & Hs);
    [done | unfold ring_capacity; lia |].
  exists q', ps. split_and!; [done | done |]. intros fuel Hf. by eapply drain_interfered_more.
Qed.

(** A producer that keeps up starves the caller of [drain]: if it makes a push
    before every pop, the loop never ends, on a ring of any capacity. *)
Theorem drain_never_returns (r : DeltaRing) (env : nat -> list TickBatch) (fuel : nat) :
  ring_capacity r <> 0 -> (forall k, env k <> []) -> drain_interfered fuel env 0 (ring_queue r) [] [] = None.
Proof.
  unfold ring_capacity. intros Hcap Henv. generalize (@nil TickBatch) at 2 as acc. generalize (@nil TickBatch) as out, 0%nat as k.
  revert Hcap. generalize (ring_queue r) as q. clear r.
  induction fuel as [|fuel IH]; intros q Hcap out k acc; [done|]. cbn [drain_interfered].
  pose proof (push_attempts_nonempty (env k) q (Henv k) Hcap) as Hne.
  destruct (push_attempts_spec (env k) q) as (q1 & acc1 & Heq & _ & _ & Hk). rewrite Heq in *. cbn [fst] in Hne.
  pose proof (queue_pop_law q1) as Hp. destruct (contents q1) as [|b rest]; [done|]. destruct Hp as (q2 & -> & _ & Hk2).
  apply IH. congruence.
Qed.
End drain.

(** ** Witnesses *)

Lemma rle_encode_terminates_witness :
  #|poke_page zero_page 10 1| = PAGE_SIZE /\
  exists k s, nsteps (enc_steps (poke_page zero_page 10 1)) k enc_start s /\ enc_step (poke_page zero_page 10 1) s = None /\
    enc_runs s = rle_encode (poke_page zero_page 10 1).
Proof.
  split; [vm_compute; reflexivity|].
  destruct (rle_encode_terminates (poke_page zero_page 10 1)) as (_ & k & s & Hk & _ & Hstop & Hruns); [vm_compute; reflexivity|].
  exists k, s. split; [exact Hk|]. split; [exact Hstop | exact Hruns].
Defined.

(** A full ring of one, and a producer that pushes before the first two pops. *)
Lemma drain_terminates_witness :
  let r := MkDeltaRing (MkMemQueue 1 [empty_batch 1] : @Queue mem_queue TickBatch) 1 in
  let env := fun k : nat => if decide (k < 2)%nat then [empty_batch (N.of_nat k + 2)] else [] in
  exists q' accepted, contents q' = [] /\
    drain_interfered 4 env 0 (ring_queue r) [] [] = Some (q', ring_contents r ++ accepted, accepted) /\ accepted = [empty_batch 3].
Proof.
  intros r env. destruct (@drain_terminates mem_queue mem_queue_laws r env 2) as (q' & ps & He & Hs & Hd).
  - intros k Hk. unfold env. rewrite decide_False by lia. reflexivity.
  - assert (drain_interfered 4 env 0 (ring_queue r) [] [] = Some (q', ring_contents r ++ ps, ps)) as Hrun.
    { apply Hd. change (N.to_nat (ring_capacity r)) with 1%nat. lia. }
    exists q', ps. split; [exact He|]. split; [exact Hrun|]. apply (f_equal (option_map snd)) in Hrun. cbn [option_map snd] in Hrun.
    injection Hrun as <-. vm_compute. reflexivity.
Defined.

Lemma drain_never_returns_witness :
  let r := MkDeltaRing (MkMemQueue 1 [] : @Queue mem_queue TickBatch) 0 in
  ring_capacity r <> 0 /\ drain_interfered 100 (fun _ => [empty_batch 1]) 0 (ring_queue r) [] [] = None.
Proof.
  intros r. split; [done|]. apply (@drain_never_returns mem_queue mem_queue_laws r (fun _ => [empty_batch 1]) 100); [done|].
  intros k. discriminate.
Defined.
