(* ===== verification/EngineSpec.v ===== *)
(** * The delta engine against an abstract page map (chronos-mem/src/delta.rs)

    The engine keeps two growing vectors and codes differences; what it promises
    is simpler: a finite map from page numbers to pages. This file states that
    promise as a specification (what each call answers and does to the map, and
    which calls are refused) and proves that the engine refines it over every
    history of calls, panics included. The decoder's meaning is stated without
    its loop: the runs laid end to end, cut or padded to one page. *)

From S2P Require Import Prelude Machine GuardedMemory Delta Replicate.

(** ** Rust types *)

Definition byte (b : N) : Prop := b < 2 ^ 8.

(** [[u8; PAGE_SIZE]]. *)
Definition page_typed (p : list N) : Prop := #|p| = PAGE_SIZE /\ Forall byte p.

(** [PageDelta]: any [u64] page number, an array or a vector of runs. *)
Definition delta_typed (d : PageDelta) : Prop :=
  PageDelta_page_idx d < 2 ^ 64 /\
  match d with
  | Raw _ bytes => page_typed bytes
  | Xor _ runs => Forall (fun r => run_typed r /\ Forall byte (literal r)) runs
  end.

(** The calls of an engine's interface, and their answers. *)
Inductive engine_op :=
| EngineDiff (page_idx : N) (current : list N)
| EngineApply (d : PageDelta).

Inductive engine_answer :=
| Emitted (d : PageDelta)
| Returned (page : list N).

(** What the argument types promise: a [u64] and a byte slice of any length. *)
Definition engine_op_typed (o : engine_op) : Prop :=
  match o with EngineDiff i c => i < 2 ^ 64 /\ Forall byte c | EngineApply d => delta_typed d end.

(** ** Specification *)

(** The bytes a sequence of runs lays end to end. *)
Definition runs_bytes (runs : list RunLiteral) : list N :=
  runs ≫= (fun r => replicate (N.to_nat (zero_run r)) 0 ++ literal r).

(** The page a delta stands for, given the pages held: a page never seen counts
    as zero, runs are cut or padded with zeros to one page. *)
Definition delta_meaning (pages : gmap N (list N)) (d : PageDelta) : list N :=
  match d with
  | Raw _ bytes => bytes
  | Xor i runs => zip_with N.lxor (default zero_page (pages !! i)) (resize (N.to_nat PAGE_SIZE) 0 (runs_bytes runs))
  end.

(** The calls that are answered: a page number whose table fits the address
    space and, for a difference, a slice of exactly one page. *)
Definition engine_accepts (o : engine_op) : Prop :=
  match o with
  | EngineDiff i c => page_fits i /\ #|c| = PAGE_SIZE
  | EngineApply d => page_fits (PageDelta_page_idx d)
  end.

#[local] Instance engine_accepts_dec o : Decision (engine_accepts o).
Proof. destruct o; unfold engine_accepts, page_fits; apply _. Defined.

(** A difference is answered by some delta of that page, no larger than a page,
    that stands for the new content given the pages held before the call; an
    application by the page the delta stands for. Both store that page. *)
Inductive engine_spec : gmap N (list N) -> list engine_op -> list engine_answer -> gmap N (list N) -> Prop :=
| spec_done pages : engine_spec pages [] [] pages
| spec_diff pages i c d ops answers pages' :
    delta_typed d -> PageDelta_page_idx d = i -> PageDelta_encoded_len d <= PAGE_SIZE -> delta_meaning pages d = c ->
    engine_spec (<[i := c]> pages) ops answers pages' ->
    engine_spec pages (EngineDiff i c :: ops) (Emitted d :: answers) pages'
| spec_apply pages d ops answers pages' :
    engine_spec (<[PageDelta_page_idx d := delta_meaning pages d]> pages) ops answers pages' ->
    engine_spec pages (EngineApply d :: ops) (Returned (delta_meaning pages d) :: answers) pages'.

(** ** Lemmas *)

Lemma lxor_bound n a b : a < 2 ^ n -> b < 2 ^ n -> N.lxor a b < 2 ^ n.
Proof.
  intros Ha Hb. assert (N.lxor a b = N.lxor a b mod 2 ^ n) as ->; [|apply N.mod_lt; by apply N.pow_nonzero].
  apply N.bits_inj. intros m. destruct (N.lt_ge_cases m n).
  - by rewrite N.mod_pow2_bits_low.
  - rewrite N.mod_pow2_bits_high, N.lxor_spec by done.
    by rewrite <- (N.mod_small a (2 ^ n)), <- (N.mod_small b (2 ^ n)), !N.mod_pow2_bits_high.
Qed.

Lemma xor_page_typed p q : page_typed p -> page_typed q -> page_typed (zip_with N.lxor p q).
Proof.
  intros [Hp Hbp] [Hq Hbq]. split; [by apply len_xor_page|]. clear Hp Hq. revert q Hbq.
  induction Hbp as [|x p Hx _ IH]; intros q Hq; [constructor|]. destruct Hq as [|y q Hy Hq]; constructor; [by apply lxor_bound | by apply IH].
Qed.

Lemma zero_page_typed : page_typed zero_page.
Proof. split; [apply len_zero_page | by apply Forall_replicate]. Qed.

(** The encoder's runs fit their fields and carry bytes of the buffer. *)
Lemma rle_encode_loop_typed (P : N -> Prop) fuel buf i :
  #|buf| = PAGE_SIZE -> Forall P buf ->
  Forall (fun r => run_typed r /\ Forall P (literal r)) (rle_encode_loop fuel buf i).
Proof.
  intros Hlen HP. revert i. induction fuel as [|fuel IH]; intros i; cbn [rle_encode_loop]; [constructor|].
  case_match; [|constructor]. case_match; [|apply IH]. constructor; [|apply IH]. split; [split|]; cbn [zero_run literal].
  - apply N.mod_lt. done.
  - unfold len in *. rewrite length_take, length_drop. page_lia.
  - by apply Forall_take, Forall_drop.
Qed.

Lemma rle_encode_typed (P : N -> Prop) buf :
  #|buf| = PAGE_SIZE -> Forall P buf -> Forall (fun r => run_typed r /\ Forall P (literal r)) (rle_encode buf).
Proof. apply rle_encode_loop_typed. Qed.

#[local] Opaque rle_encode zero_page.

Section engine_spec.
Context `{BuildProfile}.

(** One round of the decoder extends the laid-out bytes by one run. *)
Lemma rle_decode_run_flat l r :
  run_typed r ->
  rle_decode_run (resize (N.to_nat PAGE_SIZE) 0 l, N.min PAGE_SIZE #|l|) r =
  let l' := l ++ replicate (N.to_nat (zero_run r)) 0 ++ literal r in
  Ret (resize (N.to_nat PAGE_SIZE) 0 l', N.min PAGE_SIZE #|l'|).
Proof.
  intros [Hz Hl]. unfold rle_decode_run. rewrite uadd_ok by page_lia. cbn [mbind outcome_bind].
  rewrite uadd_ok by page_lia. cbn [mbind outcome_bind]. rewrite !len_app, len_replicate.
  generalize PAGE_SIZE as P. intros P. case_test.
  - rewrite slice_to_ok by lia. cbn [mbind outcome_bind]. unfold len in *.
    rewrite slice_copy_ok; [|unfold len; rewrite length_resize; lia | unfold len; rewrite length_take; lia].
    cbn [mbind outcome_bind]. do 2 f_equal; [|lia]. rewrite take_resize_le by lia. rewrite drop_resize_le by lia.
    rewrite (resize_ge _ (N.to_nat _)) by lia. rewrite (drop_ge l) by lia. rewrite resize_nil.
    rewrite (app_assoc l (replicate _ _) (literal r)).
    rewrite (resize_app_ge (l ++ _)) by (rewrite length_app, length_replicate; lia).
    rewrite length_app, length_replicate, resize_spec. rewrite <- !app_assoc.
    do 2 f_equal; [f_equal; lia|]. f_equal; [|f_equal; lia].
    destruct (Nat.le_gt_cases (length (literal r)) (N.to_nat P - (length l + N.to_nat (zero_run r)))).
    + rewrite !take_ge by lia. done.
    + f_equal. lia.
  - cbn [mbind outcome_bind]. unfold len in *. do 2 f_equal; [|lia]. rewrite app_assoc.
    destruct (Nat.le_gt_cases (N.to_nat P) (length l)).
    + by rewrite <- app_assoc, resize_app_le by lia.
    + rewrite resize_app_le by (rewrite length_app, length_replicate; lia).
      rewrite resize_app_ge by lia. by rewrite resize_replicate, resize_ge by lia.
Qed.

Lemma rle_decode_flat runs :
  Forall run_typed runs -> rle_decode runs = Ret (resize (N.to_nat PAGE_SIZE) 0 (runs_bytes runs)).
Proof.
  intros Hruns. unfold rle_decode.
  assert (forall l, exists pos, for_each rle_decode_run runs (resize (N.to_nat PAGE_SIZE) 0 l, N.min PAGE_SIZE #|l|) =
    Ret (resize (N.to_nat PAGE_SIZE) 0 (l ++ runs_bytes runs), pos)) as Hloop.
  { induction Hruns as [|r runs Hr _ IH]; intros l; [change (runs_bytes []) with (@nil N); rewrite app_nil_r; by eexists|].
    cbn [for_each]. rewrite rle_decode_run_flat by done. cbn [mbind outcome_bind].
    destruct (IH (l ++ replicate (N.to_nat (zero_run r)) 0 ++ literal r)) as [pos Hpos]. cbv zeta. rewrite Hpos.
    exists pos. do 3 f_equal. change (runs_bytes (r :: runs)) with ((replicate (N.to_nat (zero_run r)) 0 ++ literal r) ++ runs_bytes runs).
    by rewrite <- !app_assoc. }
  destruct (Hloop []) as [pos Hpos]. rewrite resize_nil in Hpos. change (replicate (N.to_nat PAGE_SIZE) 0) with zero_page in Hpos.
  change (N.min PAGE_SIZE #|@nil N|) with 0 in Hpos. rewrite Hpos. done.
Qed.

#[local] Opaque rle_decode.

(** ** Growth of the table *)

(** The table of an engine never outgrows the address space. *)
Definition engine_bounded (e : DeltaEngine) : Prop := #|baseline e| * PAGE_SIZE < 2 ^ 63.

Lemma vec_set_len {A} (v v' : list A) i x : vec_set v i x = Ret v' -> #|v'| = #|v|.
Proof. unfold vec_set. case_test; [|done]. intros [= <-]. unfold len. by rewrite length_insert. Qed.

Lemma ensure_capacity_bounded e i e' :
  DeltaEngine_ensure_capacity e i = Ret e' -> engine_bounded e -> engine_bounded e'.
Proof.
  unfold DeltaEngine_ensure_capacity, engine_bounded. case_test; [|by intros [= <-]].
  intros Hrun Hb. apply bind_Ret in Hrun as (n & _ & Hrun). apply bind_Ret in Hrun as (b & Hv & Hrun).
  apply bind_Ret in Hrun as (h & _ & Hrun). injection Hrun as <-. cbn [baseline].
  unfold vec_resize in Hv. destruct (2 ^ 63 <=? n * PAGE_SIZE) eqn:Hn; [done|]. injection Hv as <-. apply N.leb_gt in Hn.
  unfold len in *. rewrite length_app, length_take, length_replicate. nia.
Qed.

Lemma diff_bounded e i c e' d :
  DeltaEngine_diff_and_commit e i c = Ret (e', d) -> engine_bounded e -> engine_bounded e'.
Proof.
  unfold DeltaEngine_diff_and_commit. case_test; [done|]. intros Hrun Hb.
  apply bind_Ret in Hrun as (e1 & He1 & Hrun). apply (ensure_capacity_bounded _ _ _ He1) in Hb. unfold engine_bounded in *.
  apply bind_Ret in Hrun as ([] & _ & Hrun); cbn [negb] in Hrun; cbv zeta in Hrun.
  - apply bind_Ret in Hrun as (prev & _ & Hrun). apply bind_Ret in Hrun as (b & Hset%vec_set_len & Hrun).
    case_match; injection Hrun as <- _; cbn [baseline]; by rewrite Hset.
  - apply bind_Ret in Hrun as (b & Hset%vec_set_len & Hrun). apply bind_Ret in Hrun as (h & _ & Hrun).
    injection Hrun as <- _. cbn [baseline]. by rewrite Hset.
Qed.

Lemma apply_bounded e d e' out : DeltaEngine_apply e d = Ret (e', out) -> engine_bounded e -> engine_bounded e'.
Proof.
  unfold DeltaEngine_apply. intros Hrun Hb. apply bind_Ret in Hrun as (e1 & He1 & Hrun).
  apply (ensure_capacity_bounded _ _ _ He1) in Hb. unfold engine_bounded in *. apply bind_Ret in Hrun as (o & _ & Hrun).
  apply bind_Ret in Hrun as (b & Hset%vec_set_len & Hrun). apply bind_Ret in Hrun as (h & _ & Hrun).
  injection Hrun as <- _. cbn [baseline]. by rewrite Hset.
Qed.

(** A page number outside the address space: growing the table panics, or, when
    the increment of [u64::MAX] wraps, empties it. *)
Lemma ensure_capacity_refused e i :
  engine_bounded e -> i < 2 ^ 64 -> ~ page_fits i ->
  (exists p, DeltaEngine_ensure_capacity e i = Panic p) \/ DeltaEngine_ensure_capacity e i = Ret (MkDeltaEngine [] []).
Proof.
  unfold engine_bounded, page_fits, DeltaEngine_ensure_capacity. intros Hb Hi Hfit.
  rewrite (proj2 (N.leb_le _ _)) by page_lia. unfold uadd. destruct (i + 1 <? 2 ^ 64) eqn:E; bool_to_prop.
  - left. cbn [mbind outcome_bind]. unfold vec_resize. rewrite (proj2 (N.leb_le _ ((i + 1) * PAGE_SIZE))) by page_lia. by eexists.
  - destruct overflow_checks; [left; eauto|]. right. assert (i + 1 = 2 ^ 64) as -> by lia. done.
Qed.

(** ** Single calls *)

Record engine_refines (e : DeltaEngine) (pages : gmap N (list N)) : Prop := {
  refines_wf : engine_wf e;
  refines_bounded : engine_bounded e;
  refines_view : forall i, engine_page e i = pages !! i;
  refines_typed : map_Forall (fun _ p => page_typed p) pages
}.

Lemma refines_insert e e' pages i p :
  engine_refines e pages -> engine_wf e' -> engine_bounded e' -> page_typed p ->
  (forall j, engine_page e' j = if decide (j = i) then Some p else engine_page e j) ->
  engine_refines e' (<[i := p]> pages).
Proof.
  intros [_ _ Hview Hty] Hwf Hb Hp Hv. constructor; [done | done | | by apply map_Forall_insert_2].
  intros j. rewrite Hv, Hview, lookup_insert. by repeat case_decide.
Qed.

(** The coded difference of two pages stands for the new one. *)
Lemma xor_meaning pages i prev c :
  pages !! i = Some prev -> #|prev| = PAGE_SIZE -> #|c| = PAGE_SIZE ->
  delta_meaning pages (Xor i (rle_encode (zip_with N.lxor prev c))) = c.
Proof.
  intros Hprev Hlp Hlc. cbn [delta_meaning]. rewrite Hprev. cbn [default from_option id].
  assert (#|zip_with N.lxor prev c| = PAGE_SIZE) as Hx by (by apply len_xor_page).
  assert (Ret (resize (N.to_nat PAGE_SIZE) 0 (runs_bytes (rle_encode (zip_with N.lxor prev c)))) = Ret (zip_with N.lxor prev c)) as Hd.
  { rewrite <- (rle_decode_encode _ Hx). symmetry. apply rle_decode_flat.
    eapply Forall_impl; [by apply (rle_encode_typed (fun _ => True)), Forall_true|]. by intros r [? _]. }
  injection Hd as ->. apply xor_page_cancel, len_inj. congruence.
Qed.

Lemma diff_refines e pages i c :
  engine_refines e pages -> page_fits i -> page_typed c ->
  exists e' d, DeltaEngine_diff_and_commit e i c = Ret (e', d) /\ engine_refines e' (<[i := c]> pages) /\
    delta_typed d /\ PageDelta_page_idx d = i /\ PageDelta_encoded_len d <= PAGE_SIZE /\ delta_meaning pages d = c.
Proof.
  intros Hr Hfit Hc. destruct (diff_and_commit_ok e i c (refines_wf _ _ Hr) Hfit (proj1 Hc)) as (e' & d & Hd & Hwf' & Hv & Henc & Hfor).
  exists e', d. split; [done|]. split.
  { eapply refines_insert; try done. by eapply diff_bounded, refines_bounded. }
  assert (i < 2 ^ 64) as Hi by (unfold page_fits in Hfit; page_lia).
  destruct Hfor as [->|(prev & Hprev & -> & _)]; [by repeat split; try apply Hc|].
  rewrite (refines_view _ _ Hr) in Hprev. pose proof (refines_typed _ _ Hr _ _ Hprev) as Hpt.
  split_and!; [|done | done | apply xor_meaning; by try apply Hpt; try apply Hc].
  split; [done|]. destruct (xor_page_typed prev c Hpt Hc) as [Hxl Hxb]. by apply rle_encode_typed.
Qed.

Lemma delta_meaning_typed pages d :
  map_Forall (fun _ p => page_typed p) pages -> delta_typed d -> page_typed (delta_meaning pages d).
Proof.
  intros Hpages [_ Hd]. destruct d as [i runs|i bytes]; cbn [delta_meaning]; [|done]. apply xor_page_typed.
  - destruct (pages !! i) as [prev|] eqn:Hprev; [by eapply Hpages | apply zero_page_typed].
  - split; [unfold len; rewrite length_resize; lia|]. apply Forall_resize; [done|]. unfold runs_bytes.
    apply Forall_bind. eapply Forall_impl; [exact Hd|]. intros r [_ Hl]. by apply Forall_app_2; [apply Forall_replicate|].
Qed.

Lemma apply_refines e pages d :
  engine_refines e pages -> page_fits (PageDelta_page_idx d) -> delta_typed d ->
  exists e', DeltaEngine_apply e d = Ret (e', delta_meaning pages d) /\
    engine_refines e' (<[PageDelta_page_idx d := delta_meaning pages d]> pages).
Proof.
  intros Hr Hfit Hd. assert (delta_fits d) as Hdf.
  { split; [done|]. destruct Hd as [_ Hd]. destruct d; [|by apply Hd]. eapply Forall_impl; [exact Hd|]. by intros r [? _]. }
  destruct (apply_typed_ok e d (refines_wf _ _ Hr) Hdf) as (e' & out & Ha & Hwf' & Hout & Hv).
  assert (out = delta_meaning pages d) as ->.
  { destruct d as [i runs|i bytes]; cbn [delta_page delta_meaning] in *; [|by injection Hout].
    rewrite rle_decode_flat in Hout by apply Hdf. cbn [mbind outcome_bind] in Hout. rewrite (refines_view _ _ Hr) in Hout. by injection Hout. }
  exists e'. split; [done|]. eapply refines_insert; try done; [by eapply apply_bounded, refines_bounded|].
  by apply delta_meaning_typed; [apply Hr|].
Qed.
(** ** Histories *)

(** The engine and the answers given so far. *)
Definition run_engine_op (st : DeltaEngine * list engine_answer) (o : engine_op) : outcome (DeltaEngine * list engine_answer) :=
  let '(e, answers) := st in
  match o with
  | EngineDiff i c => '(e', d) ← DeltaEngine_diff_and_commit e i c; Ret (e', answers ++ [Emitted d])
  | EngineApply d => '(e', p) ← DeltaEngine_apply e d; Ret (e', answers ++ [Returned p])
  end.

(** A call outside the specification panics. *)
Lemma op_refused e pages answers o :
  engine_refines e pages -> engine_op_typed o -> ~ engine_accepts o -> exists p, run_engine_op (e, answers) o = Panic p.
Proof.
  intros [_ Hb _ _] Hty Hno. destruct o as [i c|d]; cbn [run_engine_op engine_accepts engine_op_typed] in *.
  - unfold DeltaEngine_diff_and_commit. destruct (#|c| =? PAGE_SIZE) eqn:Hc; cbn [negb]; [|by eexists].
    apply N.eqb_eq in Hc. destruct (ensure_capacity_refused e i Hb) as [[p ->]| ->]; [apply Hty | naive_solver | by eexists..].
  - unfold DeltaEngine_apply. destruct (ensure_capacity_refused e (PageDelta_page_idx d) Hb) as [[p ->]| ->];
      [apply Hty | done | by eexists|]. cbn [mbind outcome_bind].
    destruct d as [i runs|i bytes]; cbn [mbind outcome_bind]; [exists IndexOutOfBounds; by unfold vec_index at 1|].
    exists IndexOutOfBounds. unfold vec_set at 1. by destruct i.
Qed.

Lemma engine_run_refines ops e pages answers :
  engine_refines e pages -> Forall engine_op_typed ops ->
  (Forall engine_accepts ops /\ exists e' new pages', for_each run_engine_op ops (e, answers) = Ret (e', answers ++ new) /\
    engine_spec pages ops new pages' /\ engine_refines e' pages') \/
  (~ Forall engine_accepts ops /\ exists p, for_each run_engine_op ops (e, answers) = Panic p).
Proof.
  intros Hr Hops. revert e pages answers Hr. induction Hops as [|o ops Ho _ IH]; intros e pages answers Hr.
  { left. split; [constructor|]. exists e, [], pages. rewrite app_nil_r. split_and!; [done | constructor | done]. }
  cbn [for_each]. destruct (decide (engine_accepts o)) as [Hacc|Hno].
  2:{ right. destruct (op_refused e pages answers o Hr Ho Hno) as [p ->]. split; [|by exists p]. intros [? _]%Forall_cons. done. }
  assert (exists e1 a pages1, run_engine_op (e, answers) o = Ret (e1, answers ++ [a]) /\ engine_refines e1 pages1 /\
    forall new pages', engine_spec pages1 ops new pages' -> engine_spec pages (o :: ops) (a :: new) pages') as (e1 & a & pages1 & -> & Hr1 & Hspec).
  { destruct o as [i c|d]; cbn [run_engine_op].
    - destruct (diff_refines e pages i c Hr (proj1 Hacc)) as (e1 & d & -> & Hr1 & Hd & Hi & Henc & Hm); [by split; [apply Hacc | apply Ho]|].
      exists e1, (Emitted d), (<[i := c]> pages). split_and!; [done..|]. intros new pages' Hs. by constructor.
    - destruct (apply_refines e pages d Hr Hacc Ho) as (e1 & -> & Hr1). do 3 eexists. split_and!; [done..|]. intros new pages' Hs. by constructor. }
  cbn [mbind outcome_bind]. destruct (IH e1 pages1 (answers ++ [a]) Hr1) as [(Hall & e' & new & pages' & -> & Hs & Hr')|(Hnot & p & ->)].
  - left. split; [by constructor|]. exists e', (a :: new), pages'. rewrite <- app_assoc. split_and!; [done | by apply Hspec | done].
  - right. split; [|by exists p]. intros [_ ?]%Forall_cons. done.
Qed.

(** ** Theorem *)

(** C20. The delta engine refines a map of pages. Created with any capacity the
    address space allows and driven by any history of calls, constrained only by
    the types of their arguments (any [u64] page number, a slice of any length,
    any runs): when every call is acceptable (the page number's table fits the
    address space, a difference gets exactly one page) the history returns, each
    difference is answered by a delta of that page, no larger than a page, that
    stands for the new content at any holder of the same pages, each application
    by the page its delta stands for, runs cut or padded to one page, and the
    engine then holds exactly the pages of the map, all of them arrays of
    [PAGE_SIZE] bytes; when some call is not acceptable the history panics. *)
Theorem engine_refines_page_map (cap : N) (ops : list engine_op) :
  cap * PAGE_SIZE < 2 ^ 63 -> Forall engine_op_typed ops ->
  exists e0, DeltaEngine_new cap = Ret e0 /\
    ((Forall engine_accepts ops /\ exists e answers pages, for_each run_engine_op ops (e0, []) = Ret (e, answers) /\
        engine_spec ∅ ops answers pages /\ (forall i, engine_page e i = pages !! i) /\ map_Forall (fun _ p => page_typed p) pages) \/
     (~ Forall engine_accepts ops /\ exists p, for_each run_engine_op ops (e0, []) = Panic p)).
Proof.
  intros Hcap Hops. destruct (new_engine_ok cap Hcap) as (e0 & Hnew & Hwf & Hnone). exists e0. split; [done|].
  assert (engine_refines e0 ∅) as Hr0.
  { constructor; [done | | intros i; by rewrite Hnone | apply map_Forall_empty].
    unfold DeltaEngine_new in Hnew. rewrite vec_resize_ok in Hnew by done. injection Hnew as <-. unfold engine_bounded. cbn [baseline].
    unfold len. rewrite length_app, length_take, length_replicate. cbn [length]. lia. }
  destruct (engine_run_refines ops e0 ∅ [] Hr0 Hops) as [(Hall & e & new & pages & Hrun & Hs & Hr)|Hpanic]; [left | by right].
  split; [done|]. exists e, new, pages. split_and!; [done | done | apply Hr..].
Qed.
End engine_spec.

(** ** Witness *)

(** A page, its successor, and an overlong delta from elsewhere. *)
Definition sample_engine_ops : list engine_op :=
  [EngineDiff 0 (filled_page 7); EngineDiff 0 (poke_page (filled_page 7) 100 255); EngineApply (Xor 3 [MkRunLiteral 4090 [1; 2; 3; 4; 5; 6; 7; 8]])].

Lemma engine_refines_page_map_witness :
  Forall engine_op_typed sample_engine_ops /\
  (exists e0 e answers pages, DeltaEngine_new 1 = Ret e0 /\
    for_each (@run_engine_op dev_profile) sample_engine_ops (e0, []) = Ret (e, answers) /\ engine_spec ∅ sample_engine_ops answers pages) /\
  (exists e0 p, DeltaEngine_new 1 = Ret e0 /\ for_each (@run_engine_op dev_profile) [EngineDiff (2 ^ 64 - 1) (filled_page 7)] (e0, []) = Panic p).
Proof.
  assert (Forall byte (filled_page 7)) as H7 by (apply Forall_replicate; reflexivity).
  assert (Forall engine_op_typed sample_engine_ops) as Hops.
  { repeat apply Forall_cons_2; [..|apply Forall_nil_2].
    - split; [reflexivity | exact H7].
    - split; [reflexivity | apply Forall_insert; [exact H7 | reflexivity]].
    - split; [reflexivity | repeat constructor]. }
  split; [exact Hops|]. split.
  - destruct (@engine_refines_page_map dev_profile 1 sample_engine_ops) as (e0 & Hnew & [(_ & e & answers & pages & Hrun & Hs & _)|(Hno & _)]);
      [reflexivity | exact Hops | by exists e0, e, answers, pages |].
    destruct Hno. repeat apply Forall_cons_2; [..|apply Forall_nil_2]; [split; reflexivity.. | reflexivity].
  - destruct (@engine_refines_page_map dev_profile 1 [EngineDiff (2 ^ 64 - 1) (filled_page 7)]) as (e0 & Hnew & [(Hall & _)|(_ & p & Hp)]);
      [reflexivity | apply Forall_cons_2; [split; [reflexivity | exact H7] | apply Forall_nil_2] | | by exists e0, p].
    apply Forall_cons in Hall as [[Hfit _] _]. vm_compute in Hfit. discriminate Hfit.
Defined.
