(* ===== verification/Tests.v ===== *)
(** * The repository's unit tests

    Each [#[test]] function of the sources as a computation that returns or
    panics, in a module per source file. The theorem says that they pass: in
    every build profile, with any queue, hash function and traversal order that
    keep their contracts, and on any operating system that grants the mappings;
    a test with two trees gives each its own traversal order. Where a test compares hashes, it passes or a collision is at hand. *)

From stdpp Require Import strings.
From S2P Require Import Prelude Machine Dirty GuardedMemory Delta Blake Smt Chain EventLog Io Uring Cell Scheduler Replicate.

(** ** The macros of the tests *)

(** [assert!], [assert_eq!] and [assert_ne!]. *)
Definition assert (b : bool) : outcome unit := if b then Ret tt else Panic AssertFailed.
Definition assert_eq {A} `{EqDecision A} (x y : A) : outcome unit := assert (bool_decide (x = y)).
Definition assert_ne {A} `{EqDecision A} (x y : A) : outcome unit := assert (bool_decide (x <> y)).

(** [Result::unwrap] and [Option::unwrap]. *)
Definition unwrap {E A} (r : result E A) : outcome A := match r with Ok a => Ret a | Err _ => Panic ExpectFailed end.
Definition unwrap_some {A} (o : option A) : outcome A := match o with Some a => Ret a | None => Panic ExpectFailed end.

Definition is_err {E A} (r : result E A) : bool := match r with Ok _ => false | Err _ => true end.

(** [b"..."]. *)
Definition byte_string (s : string) : list N := Ascii.N_of_ascii <$> String.list_ascii_of_string s.

(** ** chronos-mem/src/dirty.rs *)

Module DirtyTests.
Section tests.
Context `{BuildProfile}.

Definition mark_and_iterate : outcome unit :=
  d ← DirtyPageSet_new 200;
  d ← DirtyPageSet_mark d 0;
  d ← DirtyPageSet_mark d 63;
  d ← DirtyPageSet_mark d 64;
  d ← DirtyPageSet_mark d 199;
  _ ← assert_eq (DirtyPageSet_len d) 4;
  let collected := DirtyPageSet_iter_dirty d in
  assert_eq collected [0; 63; 64; 199].

Definition double_mark_is_idempotent : outcome unit :=
  d ← DirtyPageSet_new 10;
  d ← DirtyPageSet_mark d 3;
  d ← DirtyPageSet_mark d 3;
  assert_eq (DirtyPageSet_len d) 1.

Definition clear_resets_state : outcome unit :=
  d ← DirtyPageSet_new 10;
  d ← DirtyPageSet_mark d 1;
  d ← DirtyPageSet_mark d 5;
  let d := DirtyPageSet_clear_all d in
  _ ← assert (DirtyPageSet_is_empty d);
  assert (negb (DirtyPageSet_is_dirty d 1)).

End tests.
End DirtyTests.

(** ** chronos-mem/src/delta.rs *)

Module DeltaTests.
Section tests.
Context `{BuildProfile}.

(** The value of [matches!] is not used. *)
Definition first_touch_is_raw : outcome unit :=
  eng ← DeltaEngine_new 4;
  let page := filled_page 7 in
  '(eng, d) ← DeltaEngine_diff_and_commit eng 0 page;
  let _ := match d with Raw _ _ => true | Xor _ _ => false end in
  Ret tt.

Definition sparse_mutation_roundtrips : outcome unit :=
  primary ← DeltaEngine_new 4;
  standby ← DeltaEngine_new 4;
  page_a ← vec_set zero_page 10 42;
  '(primary, d1) ← DeltaEngine_diff_and_commit primary 0 page_a;
  '(standby, applied1) ← DeltaEngine_apply standby d1;
  _ ← assert_eq applied1 page_a;
  page_b ← vec_set page_a 10 43;
  page_b ← vec_set page_b 2000 99;
  '(primary, d2) ← DeltaEngine_diff_and_commit primary 0 page_b;
  _ ← assert (PageDelta_encoded_len d2 <? PAGE_SIZE);
  '(standby, applied2) ← DeltaEngine_apply standby d2;
  assert_eq applied2 page_b.

Definition dense_mutation_falls_back_to_raw : outcome unit :=
  primary ← DeltaEngine_new 4;
  standby ← DeltaEngine_new 4;
  let page_a := zero_page in
  '(primary, d1) ← DeltaEngine_diff_and_commit primary 0 page_a;
  '(standby, _) ← DeltaEngine_apply standby d1;
  page_b ← map_collect (fun i => n ← umul 64 i 131; n ← uadd 64 n 7; Ret (as_unsigned 8 n)) (nrange 0 PAGE_SIZE);
  '(primary, d2) ← DeltaEngine_diff_and_commit primary 0 page_b;
  '(standby, applied2) ← DeltaEngine_apply standby d2;
  assert_eq applied2 page_b.

End tests.
End DeltaTests.

(** ** chronos-mem/src/smt.rs *)

Module SmtTests.
Section tests.
Context `{Blake3}.

(** The root of a tree whose hash maps are traversed in the given order: every
    [HashMap] has a random state of its own, so two trees have two orders. *)
Definition root_in (order : HashMapIter) (t : SparseMerkleTree) : Hash := @SparseMerkleTree_root _ order t.

Definition empty_tree_root_is_stable (order1 order2 : HashMapIter) : outcome unit :=
  let t1 := SparseMerkleTree_new in
  let t2 := SparseMerkleTree_new in
  assert_eq (root_in order1 t1) (root_in order2 t2).

Definition same_touched_pages_same_root_across_instances (order1 order2 : HashMapIter) : outcome unit :=
  let '(t1, t2) := foldl (fun '(t1, t2) '(idx, byte) =>
      (SparseMerkleTree_update_leaf t1 idx (filled_page byte), SparseMerkleTree_update_leaf t2 idx (filled_page byte)))
    (SparseMerkleTree_new, SparseMerkleTree_new) [(0, 1); (5, 2); (1000000, 3)] in
  assert_eq (root_in order1 t1) (root_in order2 t2).

Context `{HashMapIter}.

Definition touching_a_leaf_changes_the_root : outcome unit :=
  let t := SparseMerkleTree_new in
  let empty_root := SparseMerkleTree_root t in
  let t := SparseMerkleTree_update_leaf t 1234 (filled_page 9) in
  let touched_root := SparseMerkleTree_root t in
  assert_ne empty_root touched_root.

Definition checkpoint_chain_is_tamper_evident : outcome unit :=
  let reg_digest := hash (byte_string "pc=0,sp=0") in
  let tree := SparseMerkleTree_update_leaf SparseMerkleTree_new 0 (filled_page 1) in
  let root1 := SparseMerkleTree_root tree in
  let claims_honest := [(1, root1, reg_digest)] in
  honest_hash ← unwrap (CheckpointChain_verify_chain claims_honest);
  let tampered_digest := hash (byte_string "pc=0,sp=1") in
  let claims_tampered := [(1, root1, tampered_digest)] in
  tampered_hash ← unwrap (CheckpointChain_verify_chain claims_tampered);
  assert_ne honest_hash tampered_hash.

End tests.
End SmtTests.

(** ** chronos-core/src/event_log.rs *)

Module EventLogTests.
Section tests.
Context `{BuildProfile} `{HashMapIter}.

(** [fake_time] is the host state of the first closure. *)
Definition record_then_replay_reproduces_clock_values : outcome unit :=
  let recorder := EventRecorder_new ModeRecord in
  let fake_time := 1000 in
  let real_now := fun t : N => (t + 7, t + 7) in
  '(recorder, fake_time, v1) ← EventRecorder_wall_clock_now recorder 1 real_now fake_time;
  v1 ← unwrap v1;
  '(recorder, fake_time, v2) ← EventRecorder_wall_clock_now recorder 1 real_now fake_time;
  v2 ← unwrap v2;
  _ ← assert_ne v1 v2;
  let log := EventRecorder_export_log recorder in
  let replay := EventRecorder_from_replay_log log in
  let divergent_now := fun u : unit => (u, 999999) in
  '(replay, _, r1) ← EventRecorder_wall_clock_now replay 1 divergent_now tt;
  r1 ← unwrap r1;
  '(replay, _, r2) ← EventRecorder_wall_clock_now replay 1 divergent_now tt;
  r2 ← unwrap r2;
  assert_eq (v1, v2) (r1, r2).

Definition replay_missing_entry_is_a_hard_error_not_silent_fallback : outcome unit :=
  let replay := EventRecorder_from_replay_log [] in
  let real_now := fun u : unit => (u, 42) in
  '(replay, _, err) ← EventRecorder_wall_clock_now replay 0 real_now tt;
  assert (match err with Err (MissingEntry _ _) => true | _ => false end).

Definition ordinals_reset_across_ticks : outcome unit :=
  let recorder := EventRecorder_new ModeRecord in
  let real_now := fun u : unit => (u, 1) in
  '(recorder, _, v) ← EventRecorder_wall_clock_now recorder 1 real_now tt;
  _ ← unwrap v;
  '(recorder, _, v) ← EventRecorder_wall_clock_now recorder 1 real_now tt;
  _ ← unwrap v;
  '(recorder, _, v) ← EventRecorder_wall_clock_now recorder 2 real_now tt;
  _ ← unwrap v;
  assert_eq (size (log recorder)) 3%nat.

End tests.
End EventLogTests.

(** ** chronos-core/src/scheduler.rs *)

Module SchedulerTests.
Section tests.
Context `{BuildProfile} `{Blake3} (os : HostOs).

Definition make_cell (id : N) : outcome Cell :=
  let config := MkCellConfig id 4096 (4096 * 16) 4 in
  '(_, r) ← Cell_new os config ModeRecord;
  unwrap r.

(** [for id in ids { cells.insert(id, make_cell(id)); }]. *)
Definition insert_cells (ids : list N) : outcome (gmap N Cell) :=
  for_each (fun cells id => c ← make_cell id; Ret (<[id := c]> cells)) ids ∅.

(** [n] calls of [next_dispatch(&cells).unwrap()], their outcomes collected. *)
Fixpoint dispatch_times (n : nat) (sched : Scheduler) (cells : gmap N Cell) : outcome (list DispatchOutcome) :=
  match n with
  | O => Ret []
  | S n =>
    '(sched, o) ← Scheduler_next_dispatch sched cells;
    outcome ← unwrap_some o;
    rest ← dispatch_times n sched cells;
    Ret (outcome :: rest)
  end.

Definition round_robin_visits_every_cell_before_repeating : outcome unit :=
  cells ← insert_cells [1; 2; 3];
  let sched := Scheduler_new [1; 2; 3] in
  outcomes ← dispatch_times 6 sched cells;
  let seen := out_cell_id <$> outcomes in
  assert_eq seen [1; 2; 3; 1; 2; 3].

Definition tick_advances_globally_not_per_cell : outcome unit :=
  cells ← insert_cells [1; 2];
  let sched := Scheduler_new [1; 2] in
  '(sched, o1) ← Scheduler_next_dispatch sched cells;
  o1 ← unwrap_some o1;
  '(sched, o2) ← Scheduler_next_dispatch sched cells;
  o2 ← unwrap_some o2;
  _ ← assert_eq (out_tick o1) 1;
  assert_eq (out_tick o2) 2.

Definition checkpoint_due_respects_configured_interval : outcome unit :=
  cells ← insert_cells [1];
  let sched := Scheduler_new [1] in
  outcomes ← dispatch_times 5 sched cells;
  assert_eq (out_checkpoint_due <$> outcomes) [false; false; false; true; true].

End tests.
End SchedulerTests.

(** ** chronos-io/src/lib.rs and linux_ring.rs *)

Module IoTests.
Section tests.
Context `{BuildProfile}.

Definition fd_table_isolates_guest_fds : outcome unit :=
  let table := FdTable_new in
  '(table, guest_fd_a) ← FdTable_register table 10;
  '(table, guest_fd_b) ← FdTable_register table 11;
  _ ← assert_ne guest_fd_a guest_fd_b;
  a ← unwrap (FdTable_resolve table guest_fd_a);
  _ ← assert_eq a 10%Z;
  b ← unwrap (FdTable_resolve table guest_fd_b);
  _ ← assert_eq b 11%Z;
  assert (is_err (FdTable_resolve table 9999)).

Definition pending_completions_drain_in_order : outcome unit :=
  let pending := foldl (fun q i => PendingCompletions_push q (MkIoCompletion 0 3 i 4096)) PendingCompletions_new (nrange 0 3) in
  let '(pending, drained) := PendingCompletions_drain_for_dispatch pending in
  let ids := comp_request_id <$> drained in
  _ ← assert_eq ids [0; 1; 2];
  assert (PendingCompletions_is_empty pending).

Definition stub_subsystem_round_trips_a_completion : outcome unit :=
  let io := StubIoSubsystem_new in
  '(io, r) ← StubIoSubsystem_submit_read_fixed io 0 3 5 0 0 4096 42;
  _ ← unwrap r;
  let '(io, completions) := StubIoSubsystem_poll_completions io in
  _ ← assert_eq #|completions| 1;
  c ← vec_index completions 0;
  _ ← assert_eq (comp_request_id c) 42;
  assert_eq (comp_result c) 4096%Z.

Definition user_data_packing_round_trips : outcome unit :=
  let '(cell, guest_fd, request_id) := (12345, 99, 555) in
  packed ← pack_user_data cell guest_fd request_id;
  let '(c2, g2, r2) := unpack_user_data packed in
  assert_eq (cell, guest_fd, request_id) (c2, g2, r2).

End tests.
End IoTests.

(** ** chronos-replicate/src/lib.rs *)

Module ReplicateTests.
Section tests.
Context `{BuildProfile} `{ArrayQueue}.

Definition push_and_drain_preserves_order : outcome unit :=
  ring ← DeltaRing_new 8;
  ring ← for_each (fun ring tick => let '(ring, r) := DeltaRing_push ring (MkTickBatch tick []) in _ ← unwrap r; Ret ring) [1; 2; 3] ring;
  let '(ring, drained) := DeltaRing_drain ring in
  let ticks := batch_tick <$> drained in
  assert_eq ticks [1; 2; 3].

Definition full_ring_surfaces_backpressure : outcome unit :=
  ring ← DeltaRing_new 1;
  let '(ring, r) := DeltaRing_push ring (MkTickBatch 1 []) in
  _ ← unwrap r;
  let '(ring, err) := DeltaRing_push ring (MkTickBatch 2 []) in
  assert (match err with Err (Full _) => true | Ok _ => false end).

Definition standby_rejects_out_of_order_batches : outcome unit :=
  standby ← StandbyApplyLoop_new 4;
  page ← vec_set zero_page 0 1;
  let batch1 := MkTickBatch 5 [Raw 0 page] in
  '(standby, r) ← StandbyApplyLoop_apply_batch standby batch1;
  _ ← unwrap r;
  let batch_stale := MkTickBatch 3 [] in
  '(standby, err) ← StandbyApplyLoop_apply_batch standby batch_stale;
  assert (match err with Err (OutOfOrder _ _) => true | Ok _ => false end).

End tests.
End ReplicateTests.

(** ** Lemmas *)

Import DirtyTests DeltaTests SmtTests EventLogTests SchedulerTests IoTests ReplicateTests.

(** A test that only computes: with the profile unknown, where no debug assertion
    is met, and in each of the four profiles otherwise. *)
Ltac run := vm_compute; reflexivity.
Ltac run_in_every_profile := match goal with p : BuildProfile |- _ => destruct p as [[] []]; run end.

Lemma assert_eq_refl {A} `{EqDecision A} (x : A) : assert_eq x x = Ret tt.
Proof. unfold assert_eq. by rewrite bool_decide_true. Qed.

Lemma assert_ne_or {A} `{EqDecision A} (x y : A) (P : Prop) : (x = y -> P) -> assert_ne x y = Ret tt \/ P.
Proof.
  intros Hxy. unfold assert_ne. destruct (decide (x = y)) as [He|Hne]; [right; by apply Hxy|].
  left. by rewrite bool_decide_true.
Qed.

(** Tests that return. *)
Definition pass (ts : list (outcome unit)) : Prop := Forall (fun t => t = Ret tt) ts.

Ltac each_test := unfold pass; repeat apply Forall_cons_2; [..|apply Forall_nil_2].

Section pure_tests.
Context `{BuildProfile}.

Lemma dirty_tests : pass [mark_and_iterate; double_mark_is_idempotent; clear_resets_state].
Proof. each_test; run_in_every_profile. Qed.

(** One page carried from an engine to another that is in step with it. *)
Lemma carried p s i c :
  engine_wf p -> engine_wf s -> page_fits i -> #|c| = PAGE_SIZE -> engine_page p i = engine_page s i ->
  exists p' d s', DeltaEngine_diff_and_commit p i c = Ret (p', d) /\ DeltaEngine_apply s d = Ret (s', c) /\
    engine_wf p' /\ engine_wf s' /\ engine_page p' i = engine_page s' i.
Proof.
  intros Hp Hs Hi Hc Heq. destruct (diff_and_commit_ok p i c Hp Hi Hc) as (p' & d & Hd & Hp' & Hv & Hfor).
  destruct (apply_delta_for p s i c d Hs Hi Hc Heq Hfor) as (s' & Ha & Hs' & Hv'). exists p', d, s'. rewrite Hv, Hv'.
  by rewrite !decide_True.
Qed.

(** Two pages in a row, the second one the result of a computation. *)
Lemma carried_twice page_a (m : outcome (list N)) page_b :
  #|page_a| = PAGE_SIZE -> m = Ret page_b -> #|page_b| = PAGE_SIZE ->
  (primary ← DeltaEngine_new 4;
   standby ← DeltaEngine_new 4;
   '(primary, d1) ← DeltaEngine_diff_and_commit primary 0 page_a;
   '(standby, _) ← DeltaEngine_apply standby d1;
   page_b ← m;
   '(primary, d2) ← DeltaEngine_diff_and_commit primary 0 page_b;
   '(standby, applied2) ← DeltaEngine_apply standby d2;
   assert_eq applied2 page_b) = Ret tt.
Proof.
  intros Hla -> Hlb. destruct (new_engine_ok 4) as (e0 & -> & He0 & _); [done|]. rewrite !bind_Ret_l.
  destruct (carried e0 e0 0 page_a) as (p1 & d1 & s1 & -> & Ha & Hp1 & Hs1 & Heq1); [done..|]. rewrite bind_Ret_l, Ha, !bind_Ret_l.
  destruct (carried p1 s1 0 page_b) as (p2 & d2 & s2 & -> & Ha2 & _); [done..|]. rewrite bind_Ret_l, Ha2. apply assert_eq_refl.
Qed.

Lemma dense_test : dense_mutation_falls_back_to_raw = Ret tt.
Proof.
  unfold dense_mutation_falls_back_to_raw. cbv zeta. generalize (len_zero_page). generalize zero_page. intros page Hlen.
  apply (carried_twice page _ ((fun i => as_unsigned 8 (i * 131 + 7)) <$> nrange 0 PAGE_SIZE)).
  - exact Hlen.
  - apply map_collect_Ret. intros i Hi%elem_of_nrange. unfold umul, uadd. unfold PAGE_SIZE in Hi.
    rewrite (proj2 (N.ltb_lt (i * 131) _)) by lia. cbn [mbind outcome_bind]. by rewrite (proj2 (N.ltb_lt _ _)) by lia.
  - unfold len. rewrite length_fmap, length_nrange. lia.
Qed.

Lemma delta_tests : pass [first_touch_is_raw; sparse_mutation_roundtrips; dense_mutation_falls_back_to_raw].
Proof. each_test; [run | run | apply dense_test]. Qed.

Lemma io_tests :
  pass [fd_table_isolates_guest_fds; pending_completions_drain_in_order;
    stub_subsystem_round_trips_a_completion; user_data_packing_round_trips].
Proof. each_test; run_in_every_profile. Qed.

Lemma event_log_tests `{HashMapIterLaws} :
  pass [record_then_replay_reproduces_clock_values;
    replay_missing_entry_is_a_hard_error_not_silent_fallback; ordinals_reset_across_ticks].
Proof.
  each_test; [|run..].
  unfold record_then_replay_reproduces_clock_values.
  pose proof (fun W r tick f w => wall_clock_record (W := W) r tick f w) as Hrec.
  pose proof (fun W r tick f w => wall_clock_replay (W := W) r tick f w) as Hrep.
  cbn [wall_clock_now EventRecorder_NonDeterminismSource] in Hrec, Hrep. cbv zeta.
  rewrite Hrec by done. cbn [mbind outcome_bind unwrap]. rewrite Hrec by done. cbn [mbind outcome_bind unwrap fst snd].
  set (r := advanced (advanced _ _ _) _ _). pose proof (import_export_log r) as Hlog.
  rewrite Hrep by done. rewrite Hlog. cbn [mbind outcome_bind]. rewrite Hrep by done. done.
Qed.
End pure_tests.

(** *** Tests that depend on the hash *)

Section hash_tests.
Context `{Blake3Laws} `{HashMapIterLaws}.

(** Equal trees have equal roots whatever the orders their maps are traversed in. *)
Lemma same_tree_same_root (order1 order2 : HashMapIter) t :
  @HashMapIterLaws order1 -> @HashMapIterLaws order2 -> smt_wf t -> assert_eq (root_in order1 t) (root_in order2 t) = Ret tt.
Proof.
  intros Hl1 Hl2 Hwf. unfold root_in. rewrite (@root_is_merkle _ order1 Hl1 t Hwf), (@root_is_merkle _ order2 Hl2 t Hwf).
  apply assert_eq_refl.
Qed.

Lemma stable_root_tests (order1 order2 : HashMapIter) :
  @HashMapIterLaws order1 -> @HashMapIterLaws order2 ->
  pass [empty_tree_root_is_stable order1 order2; same_touched_pages_same_root_across_instances order1 order2].
Proof.
  intros Hl1 Hl2. each_test; apply same_tree_same_root; try done; [apply new_smt_wf|].
  repeat (apply update_leaf_wf; [|reflexivity]). apply new_smt_wf.
Qed.

Lemma touching_a_leaf : touching_a_leaf_changes_the_root = Ret tt \/ hash_collision.
Proof.
  apply assert_ne_or. assert (smt_wf (SparseMerkleTree_update_leaf SparseMerkleTree_new 1234 (filled_page 9))) as Hwf
    by (apply update_leaf_wf; [apply new_smt_wf | done]).
  intros [Hl|?]%root_binding; [|done | apply new_smt_wf | exact Hwf].
  specialize (Hl 1234 eq_refl). rewrite new_leaf_hash, update_leaf_leaf_hash, decide_True in Hl by done.
  exists zero_page, (filled_page 9). split; [|exact Hl]. intros Heq. by apply (f_equal head) in Heq.
Qed.

Lemma tampered_chain : checkpoint_chain_is_tamper_evident = Ret tt \/ hash_collision.
Proof.
  unfold checkpoint_chain_is_tamper_evident, CheckpointChain_verify_chain. cbn [unwrap mbind outcome_bind foldl].
  apply assert_ne_or. intros [[_ Heq]|?]%fold_chain_inj; [|done..]. injection Heq as Heq.
  apply hash_eq_or_collision in Heq as [Heq|?]; [by vm_compute in Heq | done].
Qed.
End hash_tests.

(** *** Tests that depend on the operating system *)

(** An operating system that grants every mapping and protection. *)
Definition grants (os : HostOs) : Prop :=
  (forall n, exists a, os_mmap os n = Ok a) /\ forall a n, os_mprotect_none os a n = None.

Section os_tests.
Context `{BuildProfile} `{Blake3} (os : HostOs) (granting : grants os).

Lemma make_cell_ok id :
  exists c, make_cell os id = Ret c /\ config c = MkCellConfig id 4096 (4096 * 16) 4 /\ last_checkpoint_tick c = 0.
Proof.
  destruct granting as [Hmap Hprot]. unfold make_cell, Cell_new. cbn [cfg_initial_memory_bytes cfg_quota_bytes].
  destruct (memory_new_post os 4096 (4096 * 16)) as (calls & r & -> & Hpost); [done|]. cbn [mbind outcome_bind].
  destruct r as [m|e]; cbn [unwrap]; [by eexists|]. exfalso. destruct (Hmap (page_round_up (4096 * 16) + PAGE_SIZE)) as [a Ha].
  destruct e; cbn [new_post] in Hpost; [by destruct Hpost | by destruct Hpost as (_ & _ & Hlt & _) | naive_solver congruence..].
Qed.

Lemma scheduler_tests :
  pass [round_robin_visits_every_cell_before_repeating os; tick_advances_globally_not_per_cell os;
    checkpoint_due_respects_configured_interval os].
Proof.
  destruct (make_cell_ok 1) as (c1 & E1 & Hc1 & Hl1). destruct (make_cell_ok 2) as (c2 & E2 & _).
  destruct (make_cell_ok 3) as (c3 & E3 & _). each_test.
  - unfold round_robin_visits_every_cell_before_repeating, insert_cells. cbn [for_each mbind outcome_bind].
    rewrite E1, E2, E3. cbn [mbind outcome_bind]. generalize (<[3 := c3]> (<[2 := c2]> (<[1 := c1]> (∅ : gmap N Cell)))) as cells.
    intros cells. vm_compute. reflexivity.
  - unfold tick_advances_globally_not_per_cell, insert_cells. cbn [for_each mbind outcome_bind].
    rewrite E1, E2. cbn [mbind outcome_bind]. generalize (<[2 := c2]> (<[1 := c1]> (∅ : gmap N Cell))) as cells.
    intros cells. vm_compute. reflexivity.
  - unfold checkpoint_due_respects_configured_interval, insert_cells. cbn [for_each mbind outcome_bind].
    rewrite E1. cbn [mbind outcome_bind]. destruct c1 as [cfg m r ch fd pe lct]. simpl in Hc1, Hl1. subst cfg lct.
    vm_compute. reflexivity.
Qed.
End os_tests.

(** *** Tests that depend on the queue *)

Section queue_tests.
Context `{BuildProfile} `{ArrayQueueLaws}.

(** A push on a ring with room. *)
Lemma push_ok r b :
  #|ring_contents r| < ring_capacity r ->
  exists r', DeltaRing_push r b = (r', Ok tt) /\ ring_contents r' = ring_contents r ++ [b] /\ ring_capacity r' = ring_capacity r.
Proof.
  intros Hlt. pose proof (ring_push_spec r b) as Hp. rewrite (proj2 (N.ltb_lt _ _) Hlt) in Hp. naive_solver.
Qed.

Lemma ring_order_test : push_and_drain_preserves_order = Ret tt.
Proof.
  unfold push_and_drain_preserves_order. destruct (ring_new_ok 8) as (r0 & -> & Hc0 & Hk0 & _); [done|].
  cbn [mbind outcome_bind for_each].
  destruct (push_ok r0 (MkTickBatch 1 [])) as (r1 & -> & Hc1 & Hk1); [by rewrite Hc0, Hk0|]. cbn [mbind outcome_bind unwrap].
  destruct (push_ok r1 (MkTickBatch 2 [])) as (r2 & -> & Hc2 & Hk2); [by rewrite Hc1, Hk1, Hc0, Hk0|]. cbn [mbind outcome_bind unwrap].
  destruct (push_ok r2 (MkTickBatch 3 [])) as (r3 & -> & Hc3 & Hk3); [by rewrite Hc2, Hk2, Hc1, Hk1, Hc0, Hk0|].
  cbn [mbind outcome_bind unwrap]. destruct (ring_drain_spec r3) as (r' & -> & _). by rewrite Hc3, Hc2, Hc1, Hc0.
Qed.

Lemma ring_full_test : full_ring_surfaces_backpressure = Ret tt.
Proof.
  unfold full_ring_surfaces_backpressure. destruct (ring_new_ok 1) as (r0 & -> & Hc0 & Hk0 & _); [done|].
  cbn [mbind outcome_bind]. destruct (push_ok r0 (MkTickBatch 1 [])) as (r1 & -> & Hc1 & Hk1); [by rewrite Hc0, Hk0|].
  cbn [mbind outcome_bind unwrap]. pose proof (ring_push_spec r1 (MkTickBatch 2 [])) as Hp.
  rewrite Hc1, Hk1, Hc0, Hk0 in Hp. cbn [app] in Hp. change (#|[MkTickBatch 1 []]| <? 1) with false in Hp. cbv iota in Hp.
  by rewrite Hp.
Qed.

Lemma replicate_tests : pass [push_and_drain_preserves_order; full_ring_surfaces_backpressure; standby_rejects_out_of_order_batches].
Proof. each_test; [apply ring_order_test | apply ring_full_test | run]. Qed.
End queue_tests.

(** ** Theorem *)

(** The repository's unit tests pass: in every build profile, for every traversal
    order of the hash maps (two of them where a test has two trees), every queue and every hash function that keep their
    contracts, and on every operating system that grants the mappings, each test
    returns without a failed assertion, except that the two tests that expect
    different hashes pass or an explicit collision is at hand. *)
Theorem unit_tests_pass (order1 order2 : HashMapIter) `{BuildProfile} `{Blake3Laws} `{HashMapIterLaws} `{ArrayQueueLaws} (os : HostOs) :
  @HashMapIterLaws order1 -> @HashMapIterLaws order2 -> grants os ->
  pass [mark_and_iterate; double_mark_is_idempotent; clear_resets_state;
    first_touch_is_raw; sparse_mutation_roundtrips; dense_mutation_falls_back_to_raw;
    empty_tree_root_is_stable order1 order2; same_touched_pages_same_root_across_instances order1 order2;
    record_then_replay_reproduces_clock_values; replay_missing_entry_is_a_hard_error_not_silent_fallback;
    ordinals_reset_across_ticks;
    round_robin_visits_every_cell_before_repeating os; tick_advances_globally_not_per_cell os;
    checkpoint_due_respects_configured_interval os;
    fd_table_isolates_guest_fds; pending_completions_drain_in_order; stub_subsystem_round_trips_a_completion;
    user_data_packing_round_trips;
    push_and_drain_preserves_order; full_ring_surfaces_backpressure; standby_rejects_out_of_order_batches] /\
  (touching_a_leaf_changes_the_root = Ret tt \/ hash_collision) /\
  (checkpoint_chain_is_tamper_evident = Ret tt \/ hash_collision).
Proof.
  intros Ho1 Ho2 Hos. split; [|split; [apply touching_a_leaf | apply tampered_chain]].
  apply (Forall_app_2 _ _ _ dirty_tests), (Forall_app_2 _ _ _ delta_tests), (Forall_app_2 _ _ _ (stable_root_tests order1 order2 Ho1 Ho2)),
    (Forall_app_2 _ _ _ event_log_tests), (Forall_app_2 _ _ _ (scheduler_tests os Hos)), (Forall_app_2 _ _ _ io_tests), replicate_tests.
Qed.

(** ** Witness *)

Lemma unit_tests_pass_witness :
  grants permissive_os /\ (@touching_a_leaf_changes_the_root toy_blake3 iter_forward = Ret tt \/ @hash_collision toy_blake3).
Proof.
  assert (grants permissive_os) as Hos by (split; [intros n; eexists; reflexivity | reflexivity]).
  split; [exact Hos|].
  exact (proj1 (proj2 (@unit_tests_pass iter_forward iter_backward dev_profile toy_blake3 toy_blake3_laws iter_forward iter_forward_laws
    mem_queue mem_queue_laws permissive_os iter_forward_laws iter_backward_laws Hos))).
Defined.
