(* ===== verification/Supervisor.v ===== *)
(** * The supervisor loop (chronos-core/src/supervisor.rs)

    The supervisor owns the cells, the scheduler and the optional replication
    ring; [run_one_cycle] is one dispatch, quantum, checkpoint and replication
    flush. What executes guest code is behind the trait [QuantumExecutor], a
    class here. The theorems of this file hold for every executor. *)

From stdpp Require Import strings.
From S2P Require Import Prelude Machine Dirty GuardedMemory Delta Blake Smt Chain EventLog Io Cell Scheduler Replicate.

(** ** Data *)

Inductive SupervisorError :=
| DuplicateCell (id : N)
| MemoryInit (id : N) (e : MemFault)
| ReplicationBackpressure (id : N) (e : RingError).

Inductive QuantumFault :=
| Trap (msg : string)
| Memory (e : MemFault).

(** The trait [QuantumExecutor]: one bounded quantum on a cell, and a digest of
    the cell's execution state. *)
Class QuantumExecutor `{Blake3} (E : Type) := {
  run_quantum : E -> Cell -> N -> outcome (E * Cell * result QuantumFault N);
  exec_register_digest : E -> Cell -> Hash
}.

Section supervisor.
Context `{BuildProfile} `{Blake3} `{HashMapIter} `{ArrayQueue}.

Record Supervisor := MkSupervisor {
  cells : gmap N Cell;
  scheduler : Scheduler;
  replication : option DeltaRing;
  max_instructions_per_quantum : N
}.

(** ** Operations *)

Definition Supervisor_new (max_instructions_per_quantum : N) : Supervisor :=
  MkSupervisor ∅ (Scheduler_new []) None max_instructions_per_quantum.

Definition Supervisor_enable_replication (s : Supervisor) (ring_capacity : N) : outcome Supervisor :=
  ring ← DeltaRing_new ring_capacity;
  Ret (MkSupervisor (cells s) (scheduler s) (Some ring) (max_instructions_per_quantum s)).

Definition Supervisor_spawn_cell (os : HostOs) (s : Supervisor) (config : CellConfig) (mode : RecorderMode) :
    outcome (list OsCall * Supervisor * result SupervisorError unit) :=
  let id := cfg_id config in
  match cells s !! id with
  | Some _ => Ret ([], s, Err (DuplicateCell id))
  | None =>
    '(calls, r) ← Cell_new os config mode;
    match r with
    | Err e => Ret (calls, s, Err (MemoryInit id e))
    | Ok cell =>
      Ret (calls, MkSupervisor (<[id := cell]> (cells s)) (Scheduler_register_cell (scheduler s) id)
        (replication s) (max_instructions_per_quantum s), Ok tt)
    end
  end.

Definition Supervisor_cell (s : Supervisor) (id : N) : option Cell := cells s !! id.

(** [dirty_pages_mut().clear_all()]. *)
Definition clear_cell_dirty_pages (c : Cell) : Cell :=
  with_memory c (dirty_pages_mut (memory c) (DirtyPageSet_clear_all (dirty_pages (memory c)))).

(** The raw delta of one page: its bytes copied into a page-sized buffer. *)
Definition raw_delta (c : Cell) (page_idx : N) : outcome PageDelta :=
  bytes ← page_bytes (memory c) page_idx;
  buf ← slice_copy zero_page 0 #|zero_page| bytes;
  Ret (Raw page_idx buf).

Definition Supervisor_run_one_cycle {E} `{!QuantumExecutor E} (s : Supervisor) (executor : E) :
    outcome (E * Supervisor * result SupervisorError (option (N * N))) :=
  '(sched, dispatched) ← Scheduler_next_dispatch (scheduler s) (cells s);
  let state c ring :=
    MkSupervisor c sched ring (max_instructions_per_quantum s) in
  match dispatched with
  | None => Ret (executor, state (cells s) (replication s), Ok None)
  | Some out =>
    let id := out_cell_id out in
    let tick := out_tick out in
    match cells s !! id with
    | None => Panic ExpectFailed
    | Some cell0 =>
      let '(pending, _delivered) := PendingCompletions_drain_for_dispatch (pending_io cell0) in
      '(executor, cell, ran) ← run_quantum executor (with_pending cell0 pending) (max_instructions_per_quantum s);
      match ran with
      | Err _fault => Ret (executor, state (<[id := cell]> (cells s)) (replication s), Ok (Some (id, tick)))
      | Ok _instructions_executed =>
        if out_checkpoint_due out then
          let digest := exec_register_digest executor cell in
          let dirty_snapshot_pages := DirtyPageSet_iter_dirty (dirty_pages (memory cell)) in
          '(chain, _entry) ← CheckpointChain_checkpoint (checkpoints cell) tick (memory cell) (dirty_pages (memory cell)) digest;
          let cell := with_checkpoint cell chain tick in
          match replication s with
          | Some ring =>
            deltas ← map_collect (raw_delta cell) dirty_snapshot_pages;
            let batch := MkTickBatch tick deltas in
            let '(ring, pushed) := DeltaRing_push ring batch in
            match pushed with
            | Err e => Ret (executor, state (<[id := cell]> (cells s)) (Some ring), Err (ReplicationBackpressure id e))
            | Ok _ =>
              Ret (executor, state (<[id := clear_cell_dirty_pages cell]> (cells s)) (Some ring), Ok (Some (id, tick)))
            end
          | None =>
            Ret (executor, state (<[id := clear_cell_dirty_pages cell]> (cells s)) None, Ok (Some (id, tick)))
          end
        else Ret (executor, state (<[id := cell]> (cells s)) (replication s), Ok (Some (id, tick)))
      end
    end
  end.

(** ** Reachable states *)

(** Every call a client can make that returned, with any executor state. *)
Inductive sup_step {E} `{!QuantumExecutor E} : Supervisor -> Supervisor -> Prop :=
| step_enable s cap s' : Supervisor_enable_replication s cap = Ret s' -> sup_step s s'
| step_spawn os s cfg m calls s' r : Supervisor_spawn_cell os s cfg m = Ret (calls, s', r) -> sup_step s s'
| step_cycle s ex ex' s' r : Supervisor_run_one_cycle s ex = Ret (ex', s', r) -> sup_step s s'.

(** The rotation lists the cells of the map, each once. *)
Record sup_wf (s : Supervisor) : Prop := {
  sup_wf_nodup : NoDup (order (scheduler s));
  sup_wf_dom : forall id, id ∈ order (scheduler s) <-> is_Some (cells s !! id)
}.

(** ** Lemmas *)

(** What any cycle that returns does to the scheduler and the map. *)
Lemma next_dispatch_inv s cs sched o :
  Scheduler_next_dispatch s cs = Ret (sched, o) ->
  match o with
  | None => sched = s /\ order s = []
  | Some out => exists rest, order s = out_cell_id out :: rest /\ order sched = rest ++ [out_cell_id out] /\
      clock_tick (clock sched) = out_tick out
  end.
Proof.
  unfold Scheduler_next_dispatch. destruct (order s) as [|id rest] eqn:Ho; intros Hn.
  - by injection Hn as <- <-.
  - apply bind_Ret in Hn as ([c t] & Ha & Hn). injection Hn as <- <-.
    unfold LogicalClock_advance in Ha. apply bind_Ret in Ha as (t' & _ & Ha). injection Ha as <- <-. simpl. eauto.
Qed.

Lemma run_one_cycle_shape {E} `{!QuantumExecutor E} s ex ex' s' r :
  Supervisor_run_one_cycle s ex = Ret (ex', s', r) ->
  (order (scheduler s) = [] /\ s' = s /\ ex' = ex /\ r = Ok None) \/
  exists id rest cell cell', order (scheduler s) = id :: rest /\ order (scheduler s') = rest ++ [id] /\
    cells s !! id = Some cell /\ cells s' = <[id := cell']> (cells s) /\
    max_instructions_per_quantum s' = max_instructions_per_quantum s /\
    (is_Some (replication s') <-> is_Some (replication s)) /\
    (r = Ok (Some (id, Scheduler_current_tick (scheduler s'))) \/ exists e, r = Err (ReplicationBackpressure id e)).
Proof.
  unfold Supervisor_run_one_cycle. intros Hrun. apply bind_Ret in Hrun as ([sched o] & Hn & Hrun).
  apply next_dispatch_inv in Hn. destruct o as [out|].
  2:{ destruct Hn as [-> Hn]. injection Hrun as <- <- <-. left. by destruct s. }
  right. destruct Hn as (rest & Ho & Ho' & Ht). destruct (cells s !! out_cell_id out) as [cell0|] eqn:Hc; [|done].
  simpl in Hrun. apply bind_Ret in Hrun as ([[ex1 cell1] ran] & _ & Hrun).
  exists (out_cell_id out), rest, cell0. unfold Scheduler_current_tick, LogicalClock_snapshot.
  destruct ran as [n|fault].
  2:{ injection Hrun as <- <- <-. simpl. rewrite Ht. eexists. split_and!; eauto. }
  destruct (out_checkpoint_due out).
  2:{ injection Hrun as <- <- <-. simpl. rewrite Ht. eexists. split_and!; eauto. }
  apply bind_Ret in Hrun as ([chain entry] & _ & Hrun). destruct (replication s) as [ring|] eqn:Hring.
  2:{ injection Hrun as <- <- <-. simpl. rewrite Ht. eexists. split_and!; eauto. }
  apply bind_Ret in Hrun as (ds & _ & Hrun). destruct (DeltaRing_push ring _) as [ring' [[]|e]];
    injection Hrun as <- <- <-; simpl; rewrite Ht; eexists; split_and!; eauto; by split; eauto.
Qed.

Lemma spawn_cell_fault (os : HostOs) s cfg m :
  cells s !! cfg_id cfg = None -> cfg_quota_bytes cfg < 2 ^ 32 ->
  exists calls s' r, Supervisor_spawn_cell os s cfg m = Ret (calls, s', r) /\
    match r with
    | Ok _ => exists c, fresh_cell cfg m c /\ live_mappings calls = [(base (memory c), mapped_len (memory c))] /\
        construction_fault os (cfg_initial_memory_bytes cfg) (cfg_quota_bytes cfg) = None /\
        os_mmap os (page_round_up (cfg_quota_bytes cfg) + PAGE_SIZE) = Ok (base (memory c)) /\
        s' = MkSupervisor (<[cfg_id cfg := c]> (cells s)) (Scheduler_register_cell (scheduler s) (cfg_id cfg))
          (replication s) (max_instructions_per_quantum s)
    | Err e => live_mappings calls = [] /\ s' = s /\ exists f, e = MemoryInit (cfg_id cfg) f /\
        construction_fault os (cfg_initial_memory_bytes cfg) (cfg_quota_bytes cfg) = Some f
    end.
Proof.
  intros Hnone Hq. unfold Supervisor_spawn_cell. rewrite Hnone.
  destruct (cell_new_ok os cfg m Hq) as (calls & r & -> & Hr). cbn [mbind outcome_bind].
  destruct r as [c|f]; do 3 eexists; (split; [done|]); simpl; naive_solver.
Qed.

Lemma register_wf s id c ring n :
  sup_wf s -> cells s !! id = None ->
  sup_wf (MkSupervisor (<[id := c]> (cells s)) (Scheduler_register_cell (scheduler s) id) ring n).
Proof.
  intros [Hnd Hdom] Hnone. constructor; simpl.
  - apply NoDup_app. split_and!; [done | | apply NoDup_singleton].
    intros x Hx ->%list_elem_of_singleton. apply Hdom in Hx. rewrite Hnone in Hx. by destruct Hx.
  - intros id'. rewrite elem_of_app, list_elem_of_singleton, Hdom, lookup_insert_is_Some'. split; intros [?|?]; auto.
Qed.

Lemma cycle_wf {E} `{!QuantumExecutor E} s ex ex' s' r :
  Supervisor_run_one_cycle s ex = Ret (ex', s', r) -> sup_wf s -> sup_wf s'.
Proof.
  intros Hrun Hwf. apply run_one_cycle_shape in Hrun as [(_ & -> & _)|Hrun]; [done|].
  destruct Hrun as (id & rest & cell & cell' & Ho & Ho' & Hc & Hcs & _). destruct Hwf as [Hnd Hdom].
  constructor.
  - rewrite Ho'. rewrite Ho in Hnd. by rewrite Permutation_app_comm.
  - intros id'. rewrite Ho', Hcs, lookup_insert_is_Some', <- Hdom, Ho. set_solver.
Qed.

Lemma sup_step_wf {E} `{!QuantumExecutor E} s s' : sup_step (E := E) s s' -> sup_wf s -> sup_wf s'.
Proof.
  destruct 1 as [s cap s' Hrun|os s cfg m calls s' r Hrun|s ex ex' s' r Hrun]; intros Hwf.
  - unfold Supervisor_enable_replication in Hrun. apply bind_Ret in Hrun as (ring & _ & Hrun).
    injection Hrun as <-. by destruct Hwf.
  - unfold Supervisor_spawn_cell in Hrun. destruct (cells s !! cfg_id cfg) as [c|] eqn:Hc; [by injection Hrun as _ <- _|].
    apply bind_Ret in Hrun as ([calls' [c|e]] & _ & Hrun); injection Hrun as <- <- <-; [by apply register_wf | done].
  - by eapply cycle_wf.
Qed.

Lemma new_sup_wf n : sup_wf (Supervisor_new n).
Proof. constructor; simpl; [constructor|]. intros id. rewrite lookup_empty. split; [by intros ?%not_elem_of_nil | by intros [? ?]]. Qed.

Lemma reachable_wf {E} `{!QuantumExecutor E} n s : rtc (sup_step (E := E)) (Supervisor_new n) s -> sup_wf s.
Proof.
  intros Hreach. cut (sup_wf (Supervisor_new n)); [|apply new_sup_wf].
  induction Hreach; eauto using sup_step_wf.
Qed.

(** ** Theorems *)

(** C25. The supervisor's [expect] cannot fire: in every state reachable by
    creating a supervisor, spawning cells, enabling replication and running
    cycles with any executor, whatever faults and errors occurred on the way, a
    cell the scheduler dispatches is in the map, and the rotation lists every
    cell of the map exactly once. *)
Theorem dispatched_cell_is_registered {E} `{!QuantumExecutor E} (n : N) (s : Supervisor) (sched : Scheduler) (out : DispatchOutcome) :
  rtc (sup_step (E := E)) (Supervisor_new n) s ->
  Scheduler_next_dispatch (scheduler s) (cells s) = Ret (sched, Some out) ->
  is_Some (Supervisor_cell s (out_cell_id out)) /\
  NoDup (order (scheduler s)) /\ (forall id, id ∈ order (scheduler s) <-> is_Some (Supervisor_cell s id)).
Proof.
  intros Hreach Hn. destruct (reachable_wf n s Hreach) as [Hnd Hdom].
  apply next_dispatch_inv in Hn as (rest & Ho & _). split_and!; [|done|done].
  unfold Supervisor_cell. apply Hdom. rewrite Ho. left.
Qed.

(** C7. Isolation of cells: one cycle, with any executor and any outcome
    (fault, checkpoint, backpressure), leaves every cell but the dispatched one
    exactly as it was, adds and removes no cell, and answers for the cell at the
    front of the rotation, which goes to the back. *)
Theorem cycle_touches_one_cell {E} `{!QuantumExecutor E} (s s' : Supervisor) (ex ex' : E)
    (r : result SupervisorError (option (N * N))) :
  Supervisor_run_one_cycle s ex = Ret (ex', s', r) ->
  match order (scheduler s) with
  | [] => s' = s /\ ex' = ex /\ r = Ok None
  | id :: rest =>
      (forall id', id' <> id -> Supervisor_cell s' id' = Supervisor_cell s id') /\ dom (cells s') = dom (cells s) /\
      order (scheduler s') = rest ++ [id] /\
      (r = Ok (Some (id, Scheduler_current_tick (scheduler s'))) \/ exists e, r = Err (ReplicationBackpressure id e))
  end.
Proof.
  intros Hrun. apply run_one_cycle_shape in Hrun as [(-> & -> & -> & ->)|Hrun]; [done|].
  destruct Hrun as (id & rest & cell & cell' & -> & Ho' & Hc & Hcs & _ & _ & Hr). unfold Supervisor_cell.
  split_and!; [|by rewrite Hcs, dom_insert_lookup_L | done | done].
  intros id' Hne. by rewrite Hcs, lookup_insert_ne.
Qed.

(** C33. Spawning a cell with a 32-bit quota never panics, and its answer is
    determined: an identifier in use is refused as a duplicate before any call to
    the operating system; otherwise the fault of the memory's construction, if
    there is one (the size exceeds the quota, [mmap] refused, [mprotect]
    refused), is reported with the identifier, and no mapping is left behind;
    otherwise the cell is spawned. A refused spawn leaves the supervisor as it
    was; a successful one adds the new, empty cell under its identifier, puts it
    last in the rotation, and the mapping [mmap] answered with, quota and guard
    page, is the only one left. *)
Theorem spawn_cell_spec (os : HostOs) (s : Supervisor) (cfg : CellConfig) (m : RecorderMode) :
  cfg_quota_bytes cfg < 2 ^ 32 ->
  exists calls s' r, Supervisor_spawn_cell os s cfg m = Ret (calls, s', r) /\
    match Supervisor_cell s (cfg_id cfg), construction_fault os (cfg_initial_memory_bytes cfg) (cfg_quota_bytes cfg) with
    | Some _, _ => r = Err (DuplicateCell (cfg_id cfg)) /\ calls = [] /\ s' = s
    | None, Some f => r = Err (MemoryInit (cfg_id cfg) f) /\ live_mappings calls = [] /\ s' = s
    | None, None => r = Ok tt /\ exists c, fresh_cell cfg m c /\
        os_mmap os (page_round_up (cfg_quota_bytes cfg) + PAGE_SIZE) = Ok (base (memory c)) /\
        live_mappings calls = [(base (memory c), page_round_up (cfg_quota_bytes cfg) + PAGE_SIZE)] /\
        s' = MkSupervisor (<[cfg_id cfg := c]> (cells s))
          (MkScheduler (order (scheduler s) ++ [cfg_id cfg]) (clock (scheduler s)))
          (replication s) (max_instructions_per_quantum s)
    end.
Proof.
  intros Hq. unfold Supervisor_cell. destruct (cells s !! cfg_id cfg) as [c|] eqn:Hc.
  - exists [], s, (Err (DuplicateCell (cfg_id cfg))). split; [unfold Supervisor_spawn_cell; by rewrite Hc | done].
  - destruct (spawn_cell_fault os s cfg m Hc Hq) as (calls & s' & r & Hrun & Hr). exists calls, s', r. split; [done|].
    destruct r as [[]|e]; [|by destruct Hr as (? & ? & f & -> & ->)].
    destruct Hr as (c & Hf & Hl & -> & Hmap & ->). split; [done|]. exists c. split_and!; try done.
    destruct Hf as (_ & [[_ _ Hlen _ _] _ _] & _ & _ & _ & _ & _ & _ & _ & _ & _ & <-). by rewrite <- Hlen.
Qed.

(** A supervisor cannot replay: a cell spawned in replay mode starts with an empty
    log, and no call of the supervisor gives it another, so the first clock read
    or random draw of its guest fails with [MissingEntry], at every tick and
    whatever the host. *)
Theorem spawned_replay_has_no_log {W} (os : HostOs) (s s' : Supervisor) (cfg : CellConfig) (calls : list OsCall)
    (tick : N) (now : W -> W * N) (rand : W -> list N -> W * list N) (buf : list N) (w : W) :
  cfg_quota_bytes cfg < 2 ^ 32 -> Supervisor_spawn_cell os s cfg ModeReplay = Ret (calls, s', Ok tt) ->
  exists c r1 r2, Supervisor_cell s' (cfg_id cfg) = Some c /\
    wall_clock_now (recorder c) tick now w = Ret (r1, w, Err (MissingEntry tick 0)) /\
    random_bytes (recorder c) tick buf rand w = Ret (r2, w, buf, Err (MissingEntry tick 0)).
Proof.
  intros Hq Hsp. assert (cells s !! cfg_id cfg = None) as Hnone.
  { unfold Supervisor_spawn_cell in Hsp. by destruct (cells s !! cfg_id cfg). }
  destruct (spawn_cell_fault os s cfg ModeReplay Hnone Hq) as (calls' & s2 & r & Hrun & Hr). rewrite Hsp in Hrun.
  injection Hrun as <- <- <-. destruct Hr as (c & (_ & _ & Hrec & _) & _ & _ & _ & ->). exists c.
  unfold Supervisor_cell. cbn [cells]. rewrite lookup_insert_eq, Hrec.
  cbn [wall_clock_now random_bytes EventRecorder_NonDeterminismSource].
  unfold EventRecorder_wall_clock_now, EventRecorder_random_bytes, EventRecorder_next_ordinal.
  destruct (negb (tick =? _)) eqn:Et; cbn [current_ordinal current_tick EventRecorder_new];
    rewrite uadd_ok by done; cbn [mbind outcome_bind mode log EventRecorder_new]; rewrite lookup_empty; by do 2 eexists.
Qed.

(** The dispatch a cycle starts with. *)
Definition cycle_dispatch (s : Supervisor) (id : N) (rest : list N) (c : Cell) : Prop :=
  order (scheduler s) = id :: rest /\ cells s !! id = Some c /\ Scheduler_current_tick (scheduler s) + 1 < 2 ^ 64.

(** C34. A faulting quantum: the cycle still answers with the cell and its tick,
    keeps what the quantum did to the cell, takes no checkpoint, pushes nothing
    to the standby and clears no dirty page. *)
Theorem faulted_quantum {E} `{!QuantumExecutor E} (s : Supervisor) (ex ex' : E) (id : N) (rest : list N) (c c' : Cell) (f : QuantumFault) :
  cycle_dispatch s id rest c ->
  run_quantum ex (with_pending c PendingCompletions_new) (max_instructions_per_quantum s) = Ret (ex', c', Err f) ->
  exists s', Supervisor_run_one_cycle s ex = Ret (ex', s', Ok (Some (id, Scheduler_current_tick (scheduler s) + 1))) /\
    Supervisor_cell s' id = Some c' /\ replication s' = replication s /\
    Scheduler_current_tick (scheduler s') = Scheduler_current_tick (scheduler s) + 1.
Proof.
  intros (Ho & Hc & Ht) Hq. unfold Supervisor_run_one_cycle.
  rewrite (next_dispatch_ok _ _ id rest) by done. cbn [mbind outcome_bind]. simpl. rewrite Hc.
  unfold PendingCompletions_new in Hq. rewrite Hq. cbn [mbind outcome_bind].
  eexists. split; [done|]. unfold Supervisor_cell. simpl. by rewrite lookup_insert_eq.
Qed.

(** Completions queued for a cell do not reach its quantum: the cycle empties
    the queue first and drops what it held, so the whole outcome of a cycle is
    the same as if nothing had been queued. *)
Theorem cycle_ignores_completions {E} `{!QuantumExecutor E} (s : Supervisor) (ex : E) (id : N) (rest : list N) (c : Cell) :
  cycle_dispatch s id rest c ->
  Supervisor_run_one_cycle s ex =
  Supervisor_run_one_cycle (MkSupervisor (<[id := with_pending c PendingCompletions_new]> (cells s))
    (scheduler s) (replication s) (max_instructions_per_quantum s)) ex.
Proof.
  intros (Ho & Hc & Ht). unfold Supervisor_run_one_cycle. cbn [scheduler cells replication max_instructions_per_quantum].
  rewrite !(next_dispatch_ok _ _ id rest) by done. cbn [mbind outcome_bind]. simpl.
  rewrite lookup_insert_eq, Hc. change (Cell_checkpoint_due (with_pending _ _)) with (Cell_checkpoint_due c).
  destruct (run_quantum _ _ _) as [[[ex1 c1] [n|f]]|p]; cbn [mbind outcome_bind]; [|by rewrite insert_insert_eq | done].
  destruct (Cell_checkpoint_due c _); [|by rewrite insert_insert_eq].
  destruct (CheckpointChain_checkpoint _ _ _ _ _) as [[chain e]|p]; [|done]. cbn [mbind outcome_bind].
  destruct (replication s) as [ring|]; [|by rewrite insert_insert_eq].
  destruct (map_collect _ _) as [ds|p]; [|done]. cbn [mbind outcome_bind].
  destruct (DeltaRing_push ring _) as [ring' [[]|e']]; by rewrite insert_insert_eq.
Qed.

End supervisor.

(** ** Witnesses *)

#[local] Existing Instance toy_blake3.
#[local] Existing Instance iter_forward.
#[local] Existing Instance dev_profile.
#[local] Existing Instance mem_queue.

(** An executor that leaves the cell alone and succeeds or traps as told. *)
#[local] Instance flag_executor : QuantumExecutor bool := {|
  run_quantum := fun (ok : bool) c _ => Ret (ok, c, if ok then Ok 1 else Err (Trap "unreachable"%string));
  exec_register_digest := fun _ _ => hash (@nil N)
|}.

Definition two_cell_sup : Supervisor := MkSupervisor two_cells (Scheduler_new [1; 2]) None 100.

Lemma dispatched_cell_is_registered_witness :
  exists s sched out, rtc (sup_step (E := bool)) (Supervisor_new 100) s /\
    Scheduler_next_dispatch (scheduler s) (cells s) = Ret (sched, Some out) /\ is_Some (Supervisor_cell s (out_cell_id out)).
Proof.
  destruct (returned_Ret (Supervisor_spawn_cell permissive_os (Supervisor_new 100) (sample_config 7) ModeRecord)) as [[[calls s] r] Hrun];
    [vm_compute; reflexivity|].
  assert (match Supervisor_spawn_cell permissive_os (Supervisor_new 100) (sample_config 7) ModeRecord with
    | Ret (_, s, _) => (order (scheduler s), clock_tick (clock (scheduler s))) | Panic _ => ([], 0) end = ([7], 0)) as Ho
    by (vm_compute; reflexivity).
  rewrite Hrun in Ho. injection Ho as Ho Ht.
  assert (rtc (sup_step (E := bool)) (Supervisor_new 100) s) as Hreach by (eapply rtc_once, step_spawn; exact Hrun).
  assert (exists sched out, Scheduler_next_dispatch (scheduler s) (cells s) = Ret (sched, Some out)) as (sched & out & Hn).
  { do 2 eexists. apply next_dispatch_ok with (rest := []); [exact Ho | rewrite Ht; reflexivity]. }
  exists s, sched, out. split; [exact Hreach|]. split; [exact Hn|].
  exact (proj1 (dispatched_cell_is_registered (E := bool) 100 s sched out Hreach Hn)).
Defined.

Lemma cycle_touches_one_cell_witness :
  exists ex' s' r, Supervisor_run_one_cycle two_cell_sup true = Ret (ex', s', r) /\
    (forall id', id' <> 1 -> Supervisor_cell s' id' = Supervisor_cell two_cell_sup id').
Proof.
  destruct (returned_Ret (Supervisor_run_one_cycle two_cell_sup true)) as [[[ex' s'] r] Hrun]; [vm_compute; reflexivity|].
  exists ex', s', r. split; [exact Hrun|]. exact (proj1 (cycle_touches_one_cell two_cell_sup s' true ex' r Hrun)).
Defined.

Lemma spawn_cell_spec_witness :
  cfg_quota_bytes (sample_config 1) < 2 ^ 32 /\
  (exists calls s' r, Supervisor_spawn_cell permissive_os two_cell_sup (sample_config 1) ModeReplay = Ret (calls, s', r) /\
     r = Err (DuplicateCell 1) /\ s' = two_cell_sup) /\
  (exists calls s' r, Supervisor_spawn_cell permissive_os two_cell_sup (sample_config 7) ModeRecord = Ret (calls, s', r) /\
     r = Ok tt /\ order (scheduler s') = [1; 2; 7]) /\
  (exists calls s' r, Supervisor_spawn_cell guardless_os two_cell_sup (sample_config 7) ModeRecord = Ret (calls, s', r) /\
     r = Err (MemoryInit 7 (MprotectFailed 12%Z)) /\ live_mappings calls = []).
Proof.
  split; [reflexivity|].
  split; [|split].
  - destruct (spawn_cell_spec permissive_os two_cell_sup (sample_config 1) ModeReplay) as (calls & s' & r & Hrun & Hr & _ & Hs); [reflexivity|].
    exists calls, s', r. split; [exact Hrun | exact (conj Hr Hs)].
  - destruct (spawn_cell_spec permissive_os two_cell_sup (sample_config 7) ModeRecord) as (calls & s' & r & Hrun & Hr & c & _ & _ & _ & Hs); [reflexivity|].
    exists calls, s', r. split; [exact Hrun|]. split; [exact Hr|]. rewrite Hs. reflexivity.
  - destruct (spawn_cell_spec guardless_os two_cell_sup (sample_config 7) ModeRecord) as (calls & s' & r & Hrun & Hr & Hl & _); [reflexivity|].
    exists calls, s', r. split; [exact Hrun | exact (conj Hr Hl)].
Defined.

Lemma two_cell_dispatch : cycle_dispatch two_cell_sup 1 [2] (sample_cell 1).
Proof. split_and!; reflexivity. Qed.

Lemma faulted_quantum_witness :
  exists s', Supervisor_run_one_cycle two_cell_sup false = Ret (false, s', Ok (Some (1, 1))) /\ replication s' = None.
Proof.
  destruct (faulted_quantum two_cell_sup false false 1 [2] (sample_cell 1) (with_pending (sample_cell 1) PendingCompletions_new)
    (Trap "unreachable"%string) two_cell_dispatch) as (s' & Hrun & _ & Hr & _); [reflexivity|].
  exists s'. split; [exact Hrun | exact Hr].
Defined.

Lemma cycle_ignores_completions_witness :
  cycle_dispatch two_cell_sup 1 [2] (sample_cell 1) /\
  Supervisor_run_one_cycle two_cell_sup true =
  Supervisor_run_one_cycle (MkSupervisor (<[1 := with_pending (sample_cell 1) PendingCompletions_new]> (cells two_cell_sup))
    (scheduler two_cell_sup) (replication two_cell_sup) (max_instructions_per_quantum two_cell_sup)) true.
Proof.
  split; [exact two_cell_dispatch|].
  exact (cycle_ignores_completions two_cell_sup true 1 [2] (sample_cell 1) two_cell_dispatch).
Defined.
