(* ===== verification/Discipline.v ===== *)
(** * Supervised runs under a disciplined executor

    The supervisor relies on the executor for one thing: a quantum that writes
    to guest memory marks the pages it writes. [Disciplined] states it, together
    with what an executor leaves alone. Under it a cycle never panics, has one
    of four effects ([cycle_effect]), and keeps every cell's checkpoint tree in
    step with its memory. *)

From stdpp Require Import strings.
From S2P Require Import Prelude Machine Dirty GuardedMemory Delta Blake Smt Chain EventLog Io Cell Scheduler Replicate Supervisor.

(** ** What the supervisor relies on *)

(** Memory committed in whole pages, with only committed pages dirty. *)
Record mem_ok (m : MmapGuardedMemory) : Prop := {
  mem_ok_wf : mem_wf m;
  mem_ok_aligned : mem_size_bytes m mod PAGE_SIZE = 0;
  mem_ok_dirty : forall i, i ∈ dirty_set (dirty m) -> (i + 1) * PAGE_SIZE <= mem_size_bytes m
}.

Section discipline.
Context `{BuildProfile} `{Blake3} `{HashMapIterLaws} `{ArrayQueue}.

(** What a quantum may do to its cell: anything to the recorder, the
    descriptors and the queue; to memory, writes and growth with the written
    pages marked; nothing to the supervisor's bookkeeping. *)
Record quantum_ok (c c' : Cell) : Prop := {
  q_config : config c' = config c;
  q_checkpoints : checkpoints c' = checkpoints c;
  q_last : last_checkpoint_tick c' = last_checkpoint_tick c;
  q_mem : mem_ok (memory c');
  q_marked : dirty_set (dirty (memory c)) ⊆ dirty_set (dirty (memory c'));
  q_writes : forall i, i ∉ dirty_set (dirty (memory c')) -> mem_page (memory c') i = mem_page (memory c) i
}.

Class Disciplined (E : Type) `{!QuantumExecutor E} : Prop :=
  quantum_disciplined : forall ex c n, mem_ok (memory c) ->
    exists ex' c' r, run_quantum ex c n = Ret (ex', c', r) /\ quantum_ok c c'.

(** ** Invariants *)

(** The tree reflects the memory as it was when the clean pages were clean. *)
Record cell_inv (c : Cell) : Prop := {
  ci_wf : cell_wf c;
  ci_mem : mem_ok (memory c);
  ci_tree : exists old, tree_reflects (tree (checkpoints c)) old /\
    forall i, i ∉ dirty_set (dirty (memory c)) -> mem_page (memory c) i = old i
}.

(** The root an auditor would compute from the whole memory. *)
Definition memory_root (m : MmapGuardedMemory) : Hash := merkle (fun i => hash (mem_page m i)) TREE_DEPTH 0.

(** The batch that carries the dirty pages of a memory. *)
Definition flush_batch (tick : N) (m : MmapGuardedMemory) : TickBatch :=
  MkTickBatch tick ((fun i => Raw i (mem_page m i)) <$> DirtyPageSet_iter_dirty (dirty m)).

(** A checkpoint of the cell at tick [t]: one more entry, whose root is that of
    the whole memory, and a tree that reflects the memory. *)
Record checkpointed (t : N) (c : Cell) (chain : CheckpointChain) (e : CheckpointEntry) : Prop := {
  cp_entries : entries chain = entries (checkpoints c) ++ [e];
  cp_tick : entry_tick e = t;
  cp_root : smt_root e = memory_root (memory c);
  cp_linked : chain_linked chain;
  cp_wf : smt_wf (tree chain);
  cp_tree : tree_reflects (tree chain) (mem_page (memory c))
}.

(** The effect of a cycle at tick [t] on the dispatched cell and the ring, after
    a quantum that left the cell as [c1]: nothing more when no checkpoint is
    taken ([false]); a checkpoint; a checkpoint and a flush; a checkpoint whose
    flush was refused. *)
Inductive cycle_effect (t : N) (c1 : Cell) : bool -> option DeltaRing -> Cell -> option DeltaRing -> option RingError -> Prop :=
| effect_quantum ring : cycle_effect t c1 false ring c1 ring None
| effect_checkpoint chain e :
    checkpointed t c1 chain e ->
    cycle_effect t c1 true None (clear_cell_dirty_pages (with_checkpoint c1 chain t)) None None
| effect_flush chain e ring ring' :
    checkpointed t c1 chain e -> DeltaRing_push ring (flush_batch t (memory c1)) = (ring', Ok tt) ->
    cycle_effect t c1 true (Some ring) (clear_cell_dirty_pages (with_checkpoint c1 chain t)) (Some ring') None
| effect_refused chain e ring ring' err :
    checkpointed t c1 chain e -> DeltaRing_push ring (flush_batch t (memory c1)) = (ring', Err err) ->
    cycle_effect t c1 true (Some ring) (with_checkpoint c1 chain t) (Some ring') (Some err).

(** ** Lemmas *)

#[local] Opaque zero_page read_bytes.

Lemma dirty_page_small m i : mem_ok m -> i ∈ dirty_set (dirty m) -> i < 2 ^ 20.
Proof.
  intros [Hwf _ Hd] Hi. specialize (Hd i Hi). pose proof (mem_wf_size m Hwf). pose proof (mem_wf_quota m Hwf). page_lia.
Qed.

Lemma mem_page_bytes m i : mem_ok m -> i ∈ dirty_set (dirty m) -> page_bytes m i = Ret (mem_page m i).
Proof. intros [Hwf _ Hd] Hi. apply (page_bytes_ok m i Hwf (Hd i Hi)). Qed.

Lemma copy_whole {A} (out src : list A) : #|src| = #|out| -> slice_copy out 0 #|out| src = Ret src.
Proof.
  intros Hlen. rewrite slice_copy_ok by lia. rewrite drop_ge, app_nil_r; [done|]. unfold len. lia.
Qed.

Lemma raw_delta_ok c i :
  mem_ok (memory c) -> i ∈ dirty_set (dirty (memory c)) -> raw_delta c i = Ret (Raw i (mem_page (memory c) i)).
Proof.
  intros Hok Hi. unfold raw_delta. rewrite mem_page_bytes, bind_Ret_l by done.
  rewrite copy_whole, bind_Ret_l by (by rewrite len_mem_page, len_zero_page). exact eq_refl.
Qed.

Lemma collect_deltas c t :
  mem_ok (memory c) ->
  map_collect (raw_delta c) (DirtyPageSet_iter_dirty (dirty (memory c))) = Ret (deltas (flush_batch t (memory c))).
Proof.
  intros Hok. apply map_collect_Ret. intros i Hi. apply raw_delta_ok; [done|].
  unfold dirty_set. by rewrite elem_of_list_to_set.
Qed.

Lemma clear_mem_ok m : mem_ok m -> mem_ok (with_dirty m (DirtyPageSet_clear_all (dirty m))).
Proof.
  intros [[Hs Hq Hm Hd Hc] Ha _]. destruct (clear_all_refines (dirty m) Hd) as [Hd' He].
  constructor; [by constructor | done |]. simpl. rewrite He. set_solver.
Qed.

Lemma checkpoint_mem_ok t c dig :
  cell_inv c ->
  exists chain e, CheckpointChain_checkpoint (checkpoints c) t (memory c) (dirty (memory c)) dig = Ret (chain, e) /\
    checkpointed t c chain e.
Proof.
  intros [[Hm Ht Hl] Hok (old & Hrefl & Hclean)].
  destruct (checkpoint_reflects (checkpoints c) t (memory c) (dirty (memory c)) dig old (mem_page (memory c)) Ht Hrefl Hclean)
    as (chain & e & Hrun & Hwf & Hrefl' & Hroot).
  { intros i Hi. split; [by apply mem_page_bytes|]. pose proof (dirty_page_small _ _ Hok Hi). lia. }
  exists chain, e. split; [done|]. destruct (checkpoint_appends _ _ _ _ _ _ _ Hrun) as (He & Het & _ & _ & Hlk).
  constructor; auto.
Qed.

Lemma checkpointed_inv t c chain e : cell_inv c -> checkpointed t c chain e -> cell_inv (with_checkpoint c chain t).
Proof.
  intros [[Hm Ht Hl] Hok _] [_ _ _ Hlk Hwf Hrefl]. constructor; [by constructor | exact Hok |].
  exists (mem_page (memory c)). split; [exact Hrefl | by intros].
Qed.

Lemma cleared_inv t c chain e :
  cell_inv c -> checkpointed t c chain e -> cell_inv (clear_cell_dirty_pages (with_checkpoint c chain t)).
Proof.
  intros [[Hm Ht Hl] Hok _] [_ _ _ Hlk Hwf Hrefl]. pose proof (clear_mem_ok _ Hok) as Hok'.
  constructor; [constructor; [apply Hok' | exact Hwf | exact Hlk] | exact Hok' |].
  exists (mem_page (memory c)). split; [exact Hrefl | intros i _; reflexivity].
Qed.

(** A quantum keeps the invariant of its cell. *)
Lemma quantum_cell_inv c c' : cell_inv c -> quantum_ok c c' -> cell_inv c'.
Proof.
  intros [[Hm Ht Hl] Hok (old & Hrefl & Hclean)] [Hcfg Hcp Hlast Hmem Hmark Hw]. constructor; [|done|].
  - constructor; [apply Hmem | by rewrite Hcp | by rewrite Hcp].
  - exists old. rewrite Hcp. split; [done|]. intros i Hi. rewrite Hw by done. apply Hclean. set_solver.
Qed.

Lemma effect_cell_inv t c1 due ring c' ring' err : cycle_effect t c1 due ring c' ring' err -> cell_inv c1 -> cell_inv c'.
Proof. destruct 1; eauto using checkpointed_inv, cleared_inv. Qed.

(** What an effect adds to the cell's chain. *)
Lemma effect_chain t c1 due ring c' ring' err :
  cycle_effect t c1 due ring c' ring' err ->
  if due then exists e, entries (checkpoints c') = entries (checkpoints c1) ++ [e] /\ entry_tick e = t /\
    smt_root e = memory_root (memory c1) /\ last_checkpoint_tick c' = t
  else c' = c1.
Proof.
  destruct 1 as [|chain e Hcp|chain e ? ? Hcp|chain e ? ? ? Hcp]; [reflexivity|..];
    (exists e; destruct Hcp as [He Ht Hroot _ _ _]; split; [exact He|]; split; [exact Ht|]; split; [exact Hroot | reflexivity]).
Qed.

(** What a refused or accepted flush does to the ring and the dirty pages. *)
Lemma effect_ring t c1 ring c' ring' err :
  cycle_effect t c1 true (Some ring) c' ring' err ->
  exists r, ring' = Some r /\
    match err with
    | None => DeltaRing_push ring (flush_batch t (memory c1)) = (r, Ok tt) /\
        memory c' = with_dirty (memory c1) (DirtyPageSet_clear_all (dirty (memory c1)))
    | Some e => DeltaRing_push ring (flush_batch t (memory c1)) = (r, Err e) /\ memory c' = memory c1
    end.
Proof. intros Heff. inversion Heff; subst; eexists; (split; [reflexivity|]); (split; [eassumption | reflexivity]). Qed.

(** The rest of a cycle after a quantum that kept the discipline: one of the
    effects, and the answer that goes with it. *)
Lemma cycle_after_quantum {E} `{!QuantumExecutor E} s ex id rest c ex' c1 ran :
  cycle_dispatch s id rest c -> cell_inv c ->
  run_quantum ex (with_pending c PendingCompletions_new) (max_instructions_per_quantum s) = Ret (ex', c1, ran) ->
  quantum_ok c c1 ->
  let t := Scheduler_current_tick (scheduler s) + 1 in
  exists c' ring' err,
    cycle_effect t c1 (match ran with Ok _ => Cell_checkpoint_due c t | Err _ => false end) (replication s) c' ring' err /\
    Supervisor_run_one_cycle s ex =
      Ret (ex', MkSupervisor (<[id := c']> (cells s)) (MkScheduler (rest ++ [id]) (MkLogicalClock t)) ring'
          (max_instructions_per_quantum s),
        match err with None => Ok (Some (id, t)) | Some e => Err (ReplicationBackpressure id e) end).
Proof.
  intros (Ho & Hc & Ht) Hinv Hq Hqok t. unfold Supervisor_run_one_cycle.
  rewrite (next_dispatch_ok _ _ id rest) by done. cbn [mbind outcome_bind out_cell_id prescribed out_tick out_checkpoint_due].
  rewrite Hc. unfold PendingCompletions_drain_for_dispatch. fold PendingCompletions_new. rewrite Hq. cbn [mbind outcome_bind].
  change (clock_tick (clock (scheduler s)) + 1) with t.
  pose proof (quantum_cell_inv c c1 Hinv Hqok) as Hinv1. destruct ran as [n|f].
  2:{ do 3 eexists. split; [apply effect_quantum | done]. }
  destruct (Cell_checkpoint_due c t) eqn:Hdue.
  2:{ do 3 eexists. split; [apply effect_quantum | done]. }
  destruct (checkpoint_mem_ok t c1 (exec_register_digest ex' c1) Hinv1) as (chain & e & Hcp & Hcped).
  cbn [dirty_pages MmapGuardedMemory_GuardedMemory]. rewrite Hcp. cbn [mbind outcome_bind].
  destruct (replication s) as [ring|].
  2:{ do 3 eexists. split; [by eapply effect_checkpoint | done]. }
  change (dirty (memory c1)) with (dirty (memory (with_checkpoint c1 chain t))) at 1.
  rewrite (collect_deltas _ t) by apply Hqok. cbn [mbind outcome_bind].
  destruct (DeltaRing_push ring _) as [ring' [[]|err]] eqn:Hpush; do 3 eexists;
    (split; [by eauto using effect_flush, effect_refused | done]).
Qed.

(** The whole cycle: a dispatch, a disciplined quantum and one of the effects. *)
Lemma cycle_ok {E} `{Disciplined E} s ex id rest c :
  cycle_dispatch s id rest c -> cell_inv c ->
  let t := Scheduler_current_tick (scheduler s) + 1 in
  exists ex' c1 c' ring' err ran,
    run_quantum ex (with_pending c PendingCompletions_new) (max_instructions_per_quantum s) = Ret (ex', c1, ran) /\
    quantum_ok c c1 /\
    cycle_effect t c1 (match ran with Ok _ => Cell_checkpoint_due c t | Err _ => false end) (replication s) c' ring' err /\
    Supervisor_run_one_cycle s ex =
      Ret (ex', MkSupervisor (<[id := c']> (cells s)) (MkScheduler (rest ++ [id]) (MkLogicalClock t)) ring' (max_instructions_per_quantum s),
        match err with None => Ok (Some (id, t)) | Some e => Err (ReplicationBackpressure id e) end).
Proof.
  intros Hd Hinv t.
  destruct (quantum_disciplined ex (with_pending c PendingCompletions_new) (max_instructions_per_quantum s))
    as (ex' & c1 & ran & Hq & Hqok); [apply Hinv|].
  assert (quantum_ok c c1) as Hqok' by (destruct Hqok; by constructor).
  destruct (cycle_after_quantum s ex id rest c ex' c1 ran Hd Hinv Hq Hqok') as (c' & ring' & err & Heff & Hrun).
  by exists ex', c1, c', ring', err, ran.
Qed.

(** ** Histories *)

Inductive sup_op :=
| SupSpawn (os : HostOs) (cfg : CellConfig) (m : RecorderMode)
| SupEnable (capacity : N)
| SupCycle.

Definition run_sup_op {E} `{!QuantumExecutor E} (st : Supervisor * E) (o : sup_op) : outcome (Supervisor * E) :=
  let '(s, ex) := st in
  match o with
  | SupSpawn os cfg m => '(_, s', _) ← Supervisor_spawn_cell os s cfg m; Ret (s', ex)
  | SupEnable cap => s' ← Supervisor_enable_replication s cap; Ret (s', ex)
  | SupCycle => '(ex', s', _) ← Supervisor_run_one_cycle s ex; Ret (s', ex')
  end.

(** Requests with a 32-bit quota, a page-aligned initial size and a ring with room. *)
Definition sup_op_ok (o : sup_op) : Prop :=
  match o with
  | SupSpawn _ cfg _ => cfg_quota_bytes cfg < 2 ^ 32 /\ cfg_initial_memory_bytes cfg mod PAGE_SIZE = 0
  | SupEnable cap => cap <> 0
  | SupCycle => True
  end.

Record all_inv (s : Supervisor) : Prop := {
  ai_wf : sup_wf s;
  ai_cells : forall id c, cells s !! id = Some c -> cell_inv c
}.

Lemma fresh_cell_inv cfg m c :
  fresh_cell cfg m c -> cfg_initial_memory_bytes cfg mod PAGE_SIZE = 0 -> cell_inv c.
Proof.
  intros (_ & Hwf & _ & _ & Hrefl & Hzero & Hset & _ & _ & _ & Hsz & _) Hal. constructor; [done | |].
  - constructor; [apply Hwf | by rewrite Hsz|]. rewrite Hset. set_solver.
  - exists (fun _ => zero_page). split; [done | by intros].
Qed.

Lemma spawn_all_inv os s cfg m :
  all_inv s -> cfg_quota_bytes cfg < 2 ^ 32 -> cfg_initial_memory_bytes cfg mod PAGE_SIZE = 0 ->
  exists calls s' r, Supervisor_spawn_cell os s cfg m = Ret (calls, s', r) /\ all_inv s' /\ clock (scheduler s') = clock (scheduler s).
Proof.
  intros [Hwf Hcells] Hq Hal. destruct (cells s !! cfg_id cfg) as [c|] eqn:Hc.
  { exists [], s, (Err (DuplicateCell (cfg_id cfg))). unfold Supervisor_spawn_cell. by rewrite Hc. }
  destruct (spawn_cell_fault os s cfg m Hc Hq) as (calls & s' & r & Hrun & Hr). exists calls, s', r. split; [done|].
  destruct r as [[]|e]; [|by destruct Hr as (_ & -> & _)]. destruct Hr as (c & Hf & _ & _ & _ & ->). split; [|done].
  constructor; [by apply register_wf|]. simpl. intros id c'. rewrite lookup_insert. case_decide; [|by eauto].
  intros [= <-]. by eapply fresh_cell_inv.
Qed.

Context `{!ArrayQueueLaws}.

Lemma enable_all_inv s cap :
  all_inv s -> cap <> 0 ->
  exists s' r, Supervisor_enable_replication s cap = Ret s' /\ all_inv s' /\ cells s' = cells s /\
    scheduler s' = scheduler s /\ replication s' = Some r /\ ring_contents r = [] /\ ring_capacity r = cap.
Proof.
  intros [[Hnd Hdom] Hc] Hcap. unfold Supervisor_enable_replication.
  destruct (ring_new_ok cap Hcap) as (r & -> & Hr1 & Hr2 & _). cbn [mbind outcome_bind]. exists (MkSupervisor (cells s) (scheduler s) (Some r) (max_instructions_per_quantum s)), r.
  by split_and!.
Qed.

Lemma cycle_all_inv_quantum {E} `{!QuantumExecutor E} s ex id rest c ex' c1 ran :
  all_inv s -> cycle_dispatch s id rest c ->
  run_quantum ex (with_pending c PendingCompletions_new) (max_instructions_per_quantum s) = Ret (ex', c1, ran) ->
  quantum_ok c c1 ->
  exists s' r, Supervisor_run_one_cycle s ex = Ret (ex', s', r) /\ all_inv s' /\
    Scheduler_current_tick (scheduler s') = Scheduler_current_tick (scheduler s) + 1.
Proof.
  intros [Hwf Hcells] Hd Hq Hqok. assert (cell_inv c) as Hc by (destruct Hd as (_ & Hc & _); eauto).
  destruct (cycle_after_quantum s ex id rest c ex' c1 ran Hd Hc Hq Hqok) as (c' & ring' & err & Heff & Hrun).
  do 2 eexists. split; [exact Hrun|]. split; [|done].
  constructor; [by eapply cycle_wf|]. simpl. intros id' c2. rewrite lookup_insert. case_decide; [|by eauto].
  intros [= <-]. eapply effect_cell_inv; [exact Heff|]. by eapply quantum_cell_inv.
Qed.

(** Without cells a cycle does nothing. *)
Lemma cycle_idle {E} `{!QuantumExecutor E} s ex :
  order (scheduler s) = [] -> Supervisor_run_one_cycle s ex = Ret (ex, s, Ok None).
Proof.
  intros Ho. unfold Supervisor_run_one_cycle, Scheduler_next_dispatch. rewrite Ho. cbn [mbind outcome_bind]. by destruct s.
Qed.

(** The cell at the front of the rotation is in the map. *)
Lemma front_cell s id rest : sup_wf s -> order (scheduler s) = id :: rest -> exists c, cells s !! id = Some c.
Proof. intros Hwf Ho. apply (sup_wf_dom s Hwf id). rewrite Ho. left. Qed.

Lemma cycle_all_inv {E} `{Disciplined E} s ex :
  all_inv s -> Scheduler_current_tick (scheduler s) + 1 < 2 ^ 64 ->
  exists ex' s' r, Supervisor_run_one_cycle s ex = Ret (ex', s', r) /\ all_inv s' /\
    Scheduler_current_tick (scheduler s') <= Scheduler_current_tick (scheduler s) + 1.
Proof.
  intros Hinv Ht. destruct (order (scheduler s)) as [|id rest] eqn:Ho.
  - exists ex, s, (Ok None). split_and!; [by apply cycle_idle | done | lia].
  - destruct (front_cell s id rest (ai_wf s Hinv) Ho) as [c Hc].
    assert (cycle_dispatch s id rest c) as Hd by done.
    destruct (cycle_ok s ex id rest c Hd (ai_cells s Hinv id c Hc)) as (ex' & c1 & _ & _ & _ & ran & Hq & Hqok & _).
    destruct (cycle_all_inv_quantum s ex id rest c ex' c1 ran Hinv Hd Hq Hqok) as (s' & r & Hrun & Hinv' & Hclk).
    exists ex', s', r. split_and!; [done | done | lia].
Qed.

Lemma run_sup_op_inv {E} `{Disciplined E} s ex o :
  all_inv s -> sup_op_ok o -> Scheduler_current_tick (scheduler s) + 1 < 2 ^ 64 ->
  exists s' ex', run_sup_op (s, ex) o = Ret (s', ex') /\ all_inv s' /\
    Scheduler_current_tick (scheduler s') <= Scheduler_current_tick (scheduler s) + 1.
Proof.
  intros Hinv Hok Ht. destruct o as [os cfg m|cap|]; simpl in *.
  - destruct Hok as [Hq Hal]. destruct (spawn_all_inv os s cfg m Hinv Hq Hal) as (calls & s' & r & -> & Hinv' & Hclk).
    exists s', ex. split_and!; [done | done |]. unfold Scheduler_current_tick. rewrite Hclk. lia.
  - destruct (enable_all_inv s cap Hinv Hok) as (s' & r & -> & Hinv' & _ & Hs & _).
    exists s', ex. split_and!; [done | done |]. rewrite Hs. lia.
  - destruct (cycle_all_inv s ex Hinv Ht) as (ex' & s' & r & -> & Hinv' & Hle). exists s', ex'. done.
Qed.

Lemma run_sup_ops_inv {E} `{Disciplined E} ops s ex :
  all_inv s -> Forall sup_op_ok ops -> Scheduler_current_tick (scheduler s) + #|ops| < 2 ^ 64 ->
  exists s' ex', for_each run_sup_op ops (s, ex) = Ret (s', ex') /\ all_inv s' /\
    Scheduler_current_tick (scheduler s') <= Scheduler_current_tick (scheduler s) + #|ops|.
Proof.
  revert s ex. induction ops as [|o ops IH]; intros s ex Hinv Hok Ht.
  { exists s, ex. rewrite len_nil. split_and!; [done | done | lia]. }
  rewrite len_cons in *. apply Forall_cons in Hok as [Ho Hok].
  destruct (run_sup_op_inv s ex o Hinv Ho) as (s1 & ex1 & Hrun & Hinv1 & Hle); [lia|].
  destruct (IH s1 ex1 Hinv1 Hok) as (s' & ex' & Hrun' & Hinv' & Hle'); [lia|].
  exists s', ex'. cbn [for_each]. rewrite Hrun. cbn [mbind outcome_bind]. split_and!; [done | done | lia].
Qed.

Lemma new_all_inv n : all_inv (Supervisor_new n).
Proof. constructor; [apply new_sup_wf|]. simpl. intros id c. by rewrite lookup_empty. Qed.

Lemma run_from_new {E} `{Disciplined E} n ex ops :
  Forall sup_op_ok ops -> #|ops| < 2 ^ 64 ->
  exists s ex', for_each run_sup_op ops (Supervisor_new n, ex) = Ret (s, ex') /\ all_inv s /\
    Scheduler_current_tick (scheduler s) <= #|ops|.
Proof. intros Hok Hlen. by apply (run_sup_ops_inv ops _ ex (new_all_inv n) Hok). Qed.

(** ** Theorems *)

(** C5. Supervised runs are safe, for an executor that marks the pages it writes
    ([Disciplined]) and requests that [sup_op_ok] describes: from a new
    supervisor, any history of fewer than [2 ^ 64] spawns with page-aligned
    initial sizes and 32-bit quotas, ring creations with non-zero capacities, and
    cycles runs without a panic in every build profile. At its end every cell's
    memory is well formed, its audit chain verifies to its latest entry, and for
    every clean page the Merkle tree holds the hash of the page as it is in
    memory. (A ring of capacity zero panics, and so does, in a debug build, the
    checkpoint of a page that is only partly committed.) *)
Theorem supervised_run_safe {E} `{Disciplined E} (n : N) (ex : E) (ops : list sup_op) :
  Forall sup_op_ok ops -> #|ops| < 2 ^ 64 ->
  exists s ex', for_each run_sup_op ops (Supervisor_new n, ex) = Ret (s, ex') /\
    Scheduler_current_tick (scheduler s) <= #|ops| /\
    forall id c, Supervisor_cell s id = Some c ->
      mem_wf (memory c) /\
      CheckpointChain_verify_chain (chain_claims (checkpoints c)) = Ok (chain_tip (checkpoints c)) /\
      forall i, DirtyPageSet_is_dirty (dirty (memory c)) i = false ->
        SparseMerkleTree_leaf_hash (tree (checkpoints c)) i = hash (mem_page (memory c) i).
Proof.
  intros Hok Hlen. destruct (run_from_new n ex ops Hok Hlen) as (s & ex' & Hrun & Hinv & Hle).
  exists s, ex'. split_and!; [done | done |]. intros id c Hc.
  destruct (ai_cells s Hinv id c Hc) as [[Hm Ht Hl] Hok' (old & Hrefl & Hclean)]. split_and!; [done | done |].
  intros i Hi. rewrite Hrefl, Hclean; [done|]. rewrite elem_of_dirty_set. congruence.
Qed.

(** C3. Every checkpoint certifies the whole memory: in a state reached by such a
    history a cycle runs to its end, and if the quantum succeeded and the
    interval is over, the entry it appends carries this tick and the Merkle root
    of the complete memory as the quantum left it, although only dirty pages were
    rehashed; if not, the chain is left alone. *)
Theorem checkpoint_certifies_memory {E} `{Disciplined E} (n : N) (ex0 ex : E) (ops : list sup_op) (s : Supervisor)
    (id : N) (rest : list N) (c : Cell) :
  Forall sup_op_ok ops -> #|ops| + 1 < 2 ^ 64 -> for_each run_sup_op ops (Supervisor_new n, ex0) = Ret (s, ex) ->
  order (scheduler s) = id :: rest -> Supervisor_cell s id = Some c ->
  let t := Scheduler_current_tick (scheduler s) + 1 in
  exists ex' c1 ran s' r c',
    run_quantum ex (with_pending c PendingCompletions_new) (max_instructions_per_quantum s) = Ret (ex', c1, ran) /\
    Supervisor_run_one_cycle s ex = Ret (ex', s', r) /\ Supervisor_cell s' id = Some c' /\
    if (match ran with Ok _ => Cell_checkpoint_due c t | Err _ => false end)
    then exists e, entries (checkpoints c') = entries (checkpoints c) ++ [e] /\ entry_tick e = t /\
      smt_root e = memory_root (memory c1) /\ last_checkpoint_tick c' = t
    else checkpoints c' = checkpoints c /\ last_checkpoint_tick c' = last_checkpoint_tick c.
Proof.
  intros Hok Hlen Hrun Ho Hc t.
  destruct (run_from_new n ex0 ops Hok) as (s1 & ex1 & Hrun1 & Hinv & Hle); [lia|].
  rewrite Hrun in Hrun1. injection Hrun1 as <- <-.
  destruct (cycle_ok s ex id rest c) as (ex' & c1 & c' & ring' & err & ran & Hq & Hqok & Heff & Hcyc);
    [split_and!; [done | done | lia] | by eapply ai_cells |].
  exists ex', c1, ran. do 2 eexists. exists c'. split; [exact Hq|]. split; [exact Hcyc|].
  split; [unfold Supervisor_cell; simpl; apply lookup_insert_eq|]. fold t in Heff.
  pose proof (q_checkpoints _ _ Hqok) as Hcp. pose proof (q_last _ _ Hqok) as Hlast.
  apply effect_chain in Heff. destruct (match ran with Ok _ => _ | Err _ => _ end).
  - rewrite <- Hcp. exact Heff.
  - subst c'. split; [exact Hcp | exact Hlast].
Qed.

(** C29. Backpressure loses nothing: when a flush is due and the ring is full, the
    cycle reports [ReplicationBackpressure] with the ring's capacity; the ring is
    unchanged, and every page that was or became dirty is still dirty, so that a
    later flush will carry it; the checkpoint itself is taken. *)
Theorem backpressure_keeps_pages_dirty {E} `{Disciplined E} (s : Supervisor) (ex ex' : E) (id : N) (rest : list N)
    (c c1 : Cell) (n : N) (ring : DeltaRing) :
  all_inv s -> cycle_dispatch s id rest c -> replication s = Some ring -> #|ring_contents ring| = ring_capacity ring ->
  run_quantum ex (with_pending c PendingCompletions_new) (max_instructions_per_quantum s) = Ret (ex', c1, Ok n) ->
  Cell_checkpoint_due c (Scheduler_current_tick (scheduler s) + 1) = true ->
  exists s' c', Supervisor_run_one_cycle s ex = Ret (ex', s', Err (ReplicationBackpressure id (Full (ring_capacity ring)))) /\
    replication s' = Some ring /\ Supervisor_cell s' id = Some c' /\ dirty (memory c') = dirty (memory c1) /\
    dirty_set (dirty (memory c)) ⊆ dirty_set (dirty (memory c')) /\
    last_checkpoint_tick c' = Scheduler_current_tick (scheduler s) + 1.
Proof.
  intros Hinv Hd Hring Hfull Hq Hdue.
  assert (cell_inv c) as Hci by (destruct Hd as (_ & Hc & _); by eapply ai_cells).
  destruct (cycle_ok s ex id rest c Hd Hci) as (ex2 & c2 & c' & ring' & err & ran & Hq' & Hqok & Heff & Hcyc).
  rewrite Hq in Hq'. injection Hq' as <- <- <-. rewrite Hring, Hdue in Heff.
  pose proof (ring_push_spec ring (flush_batch (Scheduler_current_tick (scheduler s) + 1) (memory c1))) as Hp.
  rewrite (proj2 (N.ltb_ge _ _)) in Hp by lia. pose proof (q_marked _ _ Hqok) as Hm.
  pose proof (effect_chain _ _ _ _ _ _ _ Heff) as (e & _ & _ & _ & Hlast).
  apply effect_ring in Heff as (r & -> & Hr). rewrite Hp in Hr. destruct err as [err|]; [|by destruct Hr].
  destruct Hr as [[= <- <-] Hmem]. do 2 eexists. split; [exact Hcyc|]. unfold Supervisor_cell. simpl.
  rewrite lookup_insert_eq. split_and!; [done | done | by rewrite Hmem | by rewrite Hmem | done].
Qed.
End discipline.

(** ** A guest that keeps the discipline *)

(** The host calls an engine makes for a guest: a one-byte store through
    [translate] that marks its page, growth, and a trap. *)
Inductive instr :=
| IStore (ptr byte : N)
| IGrow (pages : N)
| ITrap.

(** One script per quantum. *)
Definition Script : Type := list (list instr).

Section guest.
Context `{BuildProfile}.

Definition write_byte (m : MmapGuardedMemory) (addr byte : N) : MmapGuardedMemory :=
  MkMmapGuardedMemory (base m) (mapped_len m) (mem_size_bytes m) (quota_bytes m) (dirty m)
    (<[addr - base m := byte]> (heap m)).

(** A store through [translate] that marks its page. *)
Definition store_byte (m : MmapGuardedMemory) (ptr byte : N) : outcome (MmapGuardedMemory * option MemFault) :=
  match translate m ptr 1 with
  | Err e => Ret (m, Some e)
  | Ok addr => m' ← mark_dirty (write_byte m addr byte) (ptr / PAGE_SIZE); Ret (m', None)
  end.

Definition run_instr (m : MmapGuardedMemory) (i : instr) : outcome (MmapGuardedMemory * option QuantumFault) :=
  match i with
  | IStore ptr byte => '(m', fault) ← store_byte m ptr byte; Ret (m', option_map Memory fault)
  | IGrow pages => Ret (fst (grow m pages), None)
  | ITrap => Ret (m, Some (Trap ""%string))
  end.

Fixpoint run_instrs (m : MmapGuardedMemory) (prog : list instr) (n : N) : outcome (MmapGuardedMemory * result QuantumFault N) :=
  match prog with
  | [] => Ret (m, Ok n)
  | i :: prog =>
    '(m', fault) ← run_instr m i;
    match fault with Some f => Ret (m', Err f) | None => run_instrs m' prog (n + 1) end
  end.

#[export] Instance Script_executor `{Blake3} : QuantumExecutor Script := {|
  run_quantum := fun ex c _ =>
    '(m, r) ← run_instrs (memory c) (default [] (head ex)) 0; Ret (tail ex, with_memory c m, r);
  exec_register_digest := fun ex _ => hash [len ex]
|}.

(** Memory before and after part of a quantum. *)
Record writes_marked (m m' : MmapGuardedMemory) : Prop := {
  wm_ok : mem_ok m';
  wm_dirty : dirty_set (dirty m) ⊆ dirty_set (dirty m');
  wm_writes : forall i, i ∉ dirty_set (dirty m') -> mem_page m' i = mem_page m i
}.

Lemma writes_marked_refl m : mem_ok m -> writes_marked m m.
Proof. by constructor. Qed.

Lemma writes_marked_trans m1 m2 m3 : writes_marked m1 m2 -> writes_marked m2 m3 -> writes_marked m1 m3.
Proof.
  intros [_ D1 W1] [O2 D2 W2]. constructor; [done | set_solver |].
  intros i Hi. rewrite W2 by done. apply W1. set_solver.
Qed.

(** A write changes only the page it falls in. *)
Lemma write_other_page m ptr byte i :
  i <> ptr / PAGE_SIZE -> mem_page (write_byte m (base m + ptr) byte) i = mem_page m i.
Proof.
  intros Hi. unfold mem_page, read_bytes, write_byte. cbn [heap]. apply list_fmap_ext. intros k x Hx.
  apply list_elem_of_lookup_2, elem_of_nrange in Hx. rewrite lookup_insert_ne; [done|].
  intros Heq. apply Hi. apply (N.div_unique _ _ _ x); page_lia.
Qed.

Lemma store_marked m ptr byte :
  mem_ok m -> ptr + 1 <= mem_size_bytes m ->
  exists m', mark_dirty (write_byte m (base m + ptr) byte) (ptr / PAGE_SIZE) = Ret m' /\ writes_marked m m'.
Proof.
  intros [[Hs Hq Hm Hd Hc] Ha Hin] Hptr. set (p := ptr / PAGE_SIZE).
  assert ((p + 1) * PAGE_SIZE <= mem_size_bytes m) as Hp.
  { unfold p, PAGE_SIZE in *. euclid ptr 4096. euclid (mem_size_bytes m) 4096. lia. }
  pose proof (page_round_up_bounds (quota_bytes m)) as Hb.
  destruct (mark_refines (dirty m) p Hd) as (d' & Hmark & Hd' & Hset & Hcap); [page_lia|].
  cbn [mark_dirty MmapGuardedMemory_GuardedMemory]. unfold MmapGuardedMemory_mark_dirty. simpl. rewrite Hmark. simpl.
  eexists. split; [done|]. constructor; simpl.
  - constructor; [constructor; cbn [with_dirty write_byte dirty mem_size_bytes quota_bytes mapped_len]; rewrite ?Hcap; done | done |].
    cbn [with_dirty write_byte dirty mem_size_bytes]. rewrite Hset. intros i [->%elem_of_singleton|Hi]%elem_of_union; auto.
  - rewrite Hset. set_solver.
  - rewrite Hset. intros i Hi. apply write_other_page. fold p. set_solver.
Qed.

Lemma grow_marked m n : mem_ok m -> writes_marked m (fst (grow m n)).
Proof.
  intros Hok. simpl. destruct (N.le_gt_cases (mem_size_bytes m + n * PAGE_SIZE) (quota_bytes m)) as [Hle|Hgt].
  - rewrite grow_ok by (done || apply Hok). destruct Hok as [[Hs Hq Hm Hd Hc] Ha Hin]. constructor; [|done|done].
    constructor; [by constructor | |]; simpl.
    + by rewrite N.Div0.mod_add.
    + intros i Hi. specialize (Hin i Hi). lia.
  - rewrite grow_err by done. by apply writes_marked_refl.
Qed.

Lemma store_byte_marked m ptr byte : mem_ok m -> exists m' f, store_byte m ptr byte = Ret (m', f) /\ writes_marked m m'.
Proof.
  intros Hok. unfold store_byte. cbn [translate MmapGuardedMemory_GuardedMemory]. unfold MmapGuardedMemory_translate.
  destruct (checked_add 32 ptr 1) as [stop|] eqn:Hadd; [|by eauto using writes_marked_refl].
  apply checked_add_Some in Hadd as [-> _]. case_test; [by eauto using writes_marked_refl|].
  destruct (store_marked m ptr byte Hok) as (m' & -> & Hm); [done|]. cbn [mbind outcome_bind]. eauto.
Qed.

Lemma run_instr_marked m i : mem_ok m -> exists m' f, run_instr m i = Ret (m', f) /\ writes_marked m m'.
Proof.
  intros Hok. destruct i as [ptr byte|n|]; cbn [run_instr].
  - destruct (store_byte_marked m ptr byte Hok) as (m' & f & -> & Hm). cbn [mbind outcome_bind]. eauto.
  - eauto using grow_marked.
  - eauto using writes_marked_refl.
Qed.

Lemma run_instrs_marked prog m n : mem_ok m -> exists m' r, run_instrs m prog n = Ret (m', r) /\ writes_marked m m'.
Proof.
  revert m n. induction prog as [|i prog IH]; intros m n Hok; cbn [run_instrs]; [by eauto using writes_marked_refl|].
  destruct (run_instr_marked m i Hok) as (m1 & f & -> & H1). cbn [mbind outcome_bind]. destruct f as [f|]; [by eauto|].
  destruct (IH m1 (n + 1) (wm_ok _ _ H1)) as (m' & r & -> & H2). eauto using writes_marked_trans.
Qed.

#[export] Instance Script_disciplined `{Blake3} : Disciplined Script.
Proof.
  intros ex c n Hok. simpl. destruct (run_instrs_marked (default [] (head ex)) (memory c) 0 Hok) as (m' & r & -> & [Ho Hd Hw]).
  cbn [mbind outcome_bind]. do 3 eexists. split; [done|]. by constructor.
Qed.
End guest.

(** ** Witnesses *)

#[local] Existing Instance toy_blake3.
#[local] Existing Instance iter_forward.
#[local] Existing Instance iter_forward_laws.
#[local] Existing Instance dev_profile.
#[local] Existing Instance mem_queue.

(** Two pages committed of sixteen, a checkpoint at every dispatch. *)
Definition guest_config (id : N) : CellConfig := MkCellConfig id 8192 65536 1.

Definition start_ops : list sup_op := [SupEnable 1; SupSpawn permissive_os (guest_config 7) ModeRecord].

Definition guest_script : Script := [[IStore 5 77; IGrow 1]; [IStore 4100 9; ITrap]; [IStore 0 1]].

Lemma start_ops_ok : Forall sup_op_ok start_ops.
Proof. apply Forall_cons_2; [done|]. apply Forall_singleton. split; reflexivity. Qed.

(** Whether cell 7 is next, its quantum succeeds, its checkpoint is due and the
    ring is full. *)
Definition about_to_block (s : Supervisor) (ex : Script) : bool :=
  match order (scheduler s), cells s !! 7, replication s with
  | [7], Some c, Some ring =>
      match run_quantum ex (with_pending c PendingCompletions_new) (max_instructions_per_quantum s) with
      | Ret (_, _, Ok _) => Cell_checkpoint_due c (Scheduler_current_tick (scheduler s) + 1) &&
          (#|ring_contents ring| =? ring_capacity ring) && (Scheduler_current_tick (scheduler s) + 1 <? 2 ^ 64)
      | _ => false
      end
  | _, _, _ => false
  end.

Lemma supervised_run_safe_witness :
  Forall sup_op_ok (start_ops ++ [SupCycle; SupCycle; SupCycle]) /\
  exists s ex', for_each run_sup_op (start_ops ++ [SupCycle; SupCycle; SupCycle]) (Supervisor_new 1000, guest_script) = Ret (s, ex') /\
    Scheduler_current_tick (scheduler s) <= 5.
Proof.
  assert (Forall sup_op_ok (start_ops ++ [SupCycle; SupCycle; SupCycle])) as Hok.
  { apply Forall_app_2; [exact start_ops_ok | repeat constructor]. }
  split; [exact Hok|].
  destruct (supervised_run_safe (E := Script) 1000 guest_script (start_ops ++ [SupCycle; SupCycle; SupCycle]) Hok) as (s & ex' & H1 & H2 & _);
    [reflexivity|]. exists s, ex'. split; [exact H1 | exact H2].
Defined.

(** One entry of the rotation and the cell it names, after a history. *)
Lemma started_with ops s ex :
  for_each run_sup_op ops (Supervisor_new 1000, guest_script) = Ret (s, ex) ->
  match for_each run_sup_op ops (Supervisor_new 1000, guest_script) with
  | Ret (s, _) => match order (scheduler s), cells s !! 7 with [7], Some _ => true | _, _ => false end
  | Panic _ => false
  end = true ->
  exists c, order (scheduler s) = [7] /\ Supervisor_cell s 7 = Some c.
Proof.
  intros -> Hc. unfold Supervisor_cell.
  destruct (order (scheduler s)) as [|[|p] [|]], (cells s !! 7) as [c|]; try done; repeat (destruct p as [p|p|]; try done). by exists c.
Qed.

Lemma checkpoint_certifies_memory_witness :
  exists s ex c ex' c1 ran s' r c',
    for_each run_sup_op start_ops (Supervisor_new 1000, guest_script) = Ret (s, ex) /\
    Supervisor_cell s 7 = Some c /\
    run_quantum ex (with_pending c PendingCompletions_new) (max_instructions_per_quantum s) = Ret (ex', c1, ran) /\
    Supervisor_run_one_cycle s ex = Ret (ex', s', r) /\ Supervisor_cell s' 7 = Some c'.
Proof.
  destruct (run_from_new (E := Script) 1000 guest_script start_ops start_ops_ok) as (s & ex & Hrun & _); [reflexivity|].
  destruct (started_with start_ops s ex Hrun) as (c & Ho & Hc); [vm_compute; reflexivity|].
  destruct (checkpoint_certifies_memory (E := Script) 1000 guest_script ex start_ops s 7 [] c start_ops_ok eq_refl Hrun Ho Hc)
    as (ex' & c1 & ran & s' & r & c' & H1 & H2 & H3 & _).
  exists s, ex, c, ex', c1, ran, s', r, c'. split; [exact Hrun|]. split; [exact Hc|]. split; [exact H1|]. split; [exact H2 | exact H3].
Defined.

Definition blocking_script : Script := [[IStore 5 77]; [IStore 4100 9]].

Lemma blocked_run :
  match for_each run_sup_op (start_ops ++ [SupCycle]) (Supervisor_new 1000, blocking_script) with
  | Ret (s, ex) => about_to_block s ex
  | Panic _ => false
  end = true.
Proof. vm_compute. reflexivity. Qed.

Lemma backpressure_keeps_pages_dirty_witness :
  exists s ex ex' s' e, for_each run_sup_op (start_ops ++ [SupCycle]) (Supervisor_new 1000, blocking_script) = Ret (s, ex) /\
    Supervisor_run_one_cycle s ex = Ret (ex', s', Err (ReplicationBackpressure 7 e)).
Proof.
  assert (Forall sup_op_ok (start_ops ++ [SupCycle])) as Hok by (apply Forall_app_2; [exact start_ops_ok | repeat constructor]).
  destruct (run_from_new (E := Script) 1000 blocking_script _ Hok) as (s & ex & Hrun & Hinv & _); [reflexivity|].
  pose proof blocked_run as Hb. rewrite Hrun in Hb. unfold about_to_block in Hb.
  destruct (order (scheduler s)) as [|[|p] [|]] eqn:Ho; try discriminate Hb; repeat (destruct p as [p|p|]; try discriminate Hb).
  destruct (cells s !! 7) as [c|] eqn:Hc; [|discriminate Hb]. destruct (replication s) as [ring|] eqn:Hr; [|discriminate Hb].
  destruct (run_quantum ex _ _) as [[[ex' c1] [k|f]]|p] eqn:Hq; try discriminate Hb. bool_to_prop.
  destruct (backpressure_keeps_pages_dirty (E := Script) s ex ex' 7 [] c c1 k ring) as (s' & c' & Hcyc & _);
    [exact Hinv | split; [exact Ho | split; [exact Hc | assumption]] | exact Hr | assumption | exact Hq | assumption |].
  exists s, ex, ex', s', (Full (ring_capacity ring)). split; [exact Hrun | exact Hcyc].
Defined.
