(* ===== verification/Replay.v ===== *)
(** * Runs that differ in their recorders (chronos-core/src/supervisor.rs, cell.rs)

    Replay needs more than the recorder: the supervisor's own work (dispatching,
    checkpoints, the replication flush, the error paths) must not depend on
    whether a cell records or replays. Two supervisors that are created alike,
    with cells spawned in any two recorder modes and driven by any two executors,
    are compared call by call; as long as the quanta do the same up to the
    recorders, everything the supervisors do is the same. *)

From stdpp Require Import strings.
From S2P Require Import Prelude Machine Dirty GuardedMemory Delta Blake Smt Chain EventLog Io Cell Scheduler Replicate Supervisor Discipline.

Section replay.
Context `{BuildProfile} `{Blake3} `{HashMapIter} `{ArrayQueue}.

(** ** Equality up to recorders *)

Definition with_recorder (c : Cell) (r : EventRecorder) : Cell :=
  MkCell (config c) (memory c) r (checkpoints c) (fd_table c) (pending_io c) (last_checkpoint_tick c).

Definition cell_alike (c1 c2 : Cell) : Prop := c2 = with_recorder c1 (recorder c2).

Definition cells_alike (m1 m2 : gmap N Cell) : Prop := forall id, option_Forall2 cell_alike (m1 !! id) (m2 !! id).

Record sup_alike (s1 s2 : Supervisor) : Prop := {
  alike_cells : cells_alike (cells s1) (cells s2);
  alike_scheduler : scheduler s2 = scheduler s1;
  alike_replication : replication s2 = replication s1;
  alike_quantum : max_instructions_per_quantum s2 = max_instructions_per_quantum s1
}.

(** Two computations with related results, or the same panic. *)
Definition outcome_alike {A B} (R : A -> B -> Prop) (m1 : outcome A) (m2 : outcome B) : Prop :=
  match m1, m2 with
  | Ret x, Ret y => R x y
  | Panic p, Panic q => p = q
  | _, _ => False
  end.

(** ** Histories in two versions *)

(** A call on both sides; a spawn may use two modes. *)
Inductive twin_op :=
| TwinSpawn (os : HostOs) (cfg : CellConfig) (m1 m2 : RecorderMode)
| TwinEnable (capacity : N)
| TwinCycle.

Definition left_op (o : twin_op) : sup_op :=
  match o with TwinSpawn os cfg m1 _ => SupSpawn os cfg m1 | TwinEnable cap => SupEnable cap | TwinCycle => SupCycle end.
Definition right_op (o : twin_op) : sup_op :=
  match o with TwinSpawn os cfg _ m2 => SupSpawn os cfg m2 | TwinEnable cap => SupEnable cap | TwinCycle => SupCycle end.

Inductive sup_answer :=
| AnsSpawn (calls : list OsCall) (r : result SupervisorError unit)
| AnsEnable
| AnsCycle (r : result SupervisorError (option (N * N))).

(** One call, its answer added to the answers so far. *)
Definition answer_sup_op {E} `{!QuantumExecutor E} (st : Supervisor * E * list sup_answer) (o : sup_op) :
    outcome (Supervisor * E * list sup_answer) :=
  let '(s, ex, answers) := st in
  match o with
  | SupSpawn os cfg m => '(calls, s', r) ← Supervisor_spawn_cell os s cfg m; Ret (s', ex, answers ++ [AnsSpawn calls r])
  | SupEnable cap => s' ← Supervisor_enable_replication s cap; Ret (s', ex, answers ++ [AnsEnable])
  | SupCycle => '(ex', s', r) ← Supervisor_run_one_cycle s ex; Ret (s', ex', answers ++ [AnsCycle r])
  end.

(** Two quanta that do the same up to the recorder: the same panic, or cells
    alike, both done or both faulted, and the same register digest. *)
Definition quanta_alike {E1 E2} `{!QuantumExecutor E1} `{!QuantumExecutor E2} (ex1 : E1) (c1 : Cell) (ex2 : E2) (c2 : Cell) (n : N) : Prop :=
  outcome_alike (fun '(ex1', d1, r1) '(ex2', d2, r2) =>
      cell_alike d1 d2 /\ exec_register_digest ex1' d1 = exec_register_digest ex2' d2 /\
      match r1, r2 with Ok _, Ok _ | Err _, Err _ => True | _, _ => False end)
    (run_quantum ex1 c1 n) (run_quantum ex2 c2 n).

(** The quanta of two runs agree: each pair of quanta that the two supervisors
    start, on the cells at the front of their rotations. *)
Fixpoint run_agrees {E1 E2} `{!QuantumExecutor E1} `{!QuantumExecutor E2} (ops : list twin_op)
    (s1 : Supervisor) (ex1 : E1) (s2 : Supervisor) (ex2 : E2) : Prop :=
  match ops with
  | [] => True
  | o :: ops =>
    (forall id c1 c2, o = TwinCycle -> head (order (scheduler s1)) = Some id ->
      cells s1 !! id = Some c1 -> cells s2 !! id = Some c2 ->
      quanta_alike ex1 (with_pending c1 PendingCompletions_new) ex2 (with_pending c2 PendingCompletions_new)
        (max_instructions_per_quantum s1)) /\
    (forall s1' ex1' a1 s2' ex2' a2,
      answer_sup_op (s1, ex1, []) (left_op o) = Ret (s1', ex1', a1) ->
      answer_sup_op (s2, ex2, []) (right_op o) = Ret (s2', ex2', a2) ->
      run_agrees ops s1' ex1' s2' ex2')
  end.

(** ** Lemmas *)

Lemma outcome_alike_bind {A B C D} (R : A -> B -> Prop) (Q : C -> D -> Prop) m1 m2 (f1 : A -> outcome C) (f2 : B -> outcome D) :
  outcome_alike R m1 m2 -> (forall x y, R x y -> outcome_alike Q (f1 x) (f2 y)) -> outcome_alike Q (m1 ≫= f1) (m2 ≫= f2).
Proof. destruct m1 as [x|p], m2 as [y|q]; cbn; intros HR Hf; [by apply Hf | done..]. Qed.

Lemma outcome_alike_refl {A} (m : outcome A) : outcome_alike eq m m.
Proof. by destruct m. Qed.

Lemma cell_alike_fields c1 c2 :
  cell_alike c1 c2 ->
  config c2 = config c1 /\ memory c2 = memory c1 /\ checkpoints c2 = checkpoints c1 /\
  last_checkpoint_tick c2 = last_checkpoint_tick c1.
Proof. by intros ->. Qed.

Lemma alike_insert m1 m2 id c1 c2 : cells_alike m1 m2 -> cell_alike c1 c2 -> cells_alike (<[id := c1]> m1) (<[id := c2]> m2).
Proof. intros Hm Hc id'. rewrite !lookup_insert. case_decide; [by constructor | apply Hm]. Qed.

Lemma alike_with_pending c1 c2 q : cell_alike c1 c2 -> cell_alike (with_pending c1 q) (with_pending c2 q).
Proof. unfold cell_alike. by intros ->. Qed.
Lemma alike_with_checkpoint c1 c2 ch t : cell_alike c1 c2 -> cell_alike (with_checkpoint c1 ch t) (with_checkpoint c2 ch t).
Proof. unfold cell_alike. by intros ->. Qed.
Lemma alike_clear c1 c2 : cell_alike c1 c2 -> cell_alike (clear_cell_dirty_pages c1) (clear_cell_dirty_pages c2).
Proof. unfold cell_alike. by intros ->. Qed.

(** The dispatch does not look at recorders. *)
Lemma dispatch_alike sched m1 m2 : cells_alike m1 m2 -> Scheduler_next_dispatch sched m2 = Scheduler_next_dispatch sched m1.
Proof.
  intros Hm. unfold Scheduler_next_dispatch. destruct (order sched) as [|id rest]; [done|].
  destruct (LogicalClock_advance _) as [[clk t]|p]; [|done]. cbn [mbind outcome_bind]. specialize (Hm id).
  destruct Hm as [c1 c2 Hc|]; [|done]. by rewrite Hc.
Qed.

Lemma new_cell_alike os cfg m1 m2 :
  outcome_alike (fun '(calls1, r1) '(calls2, r2) => calls1 = calls2 /\
    match r1, r2 with Ok c1, Ok c2 => cell_alike c1 c2 | Err e1, Err e2 => e1 = e2 | _, _ => False end)
    (Cell_new os cfg m1) (Cell_new os cfg m2).
Proof. unfold Cell_new. by destruct (MmapGuardedMemory_new _ _ _) as [[calls [mem|e]]|p]. Qed.

Lemma spawn_alike os cfg m1 m2 s1 s2 :
  sup_alike s1 s2 ->
  outcome_alike (fun '(calls1, s1', r1) '(calls2, s2', r2) => calls1 = calls2 /\ r1 = r2 /\ sup_alike s1' s2')
    (Supervisor_spawn_cell os s1 cfg m1) (Supervisor_spawn_cell os s2 cfg m2).
Proof.
  intros Hs. pose proof Hs as [Hc Hsch Hring Hmax]. unfold Supervisor_spawn_cell. pose proof (Hc (cfg_id cfg)) as Hid.
  destruct Hid as [c1 c2 _|]; [by simpl|]. eapply outcome_alike_bind; [apply new_cell_alike|].
  intros [calls1 [c1|e1]] [calls2 [c2|e2]] [-> Hr]; try done; simpl; [|by subst].
  split_and!; [done..|]. constructor; simpl; [by apply alike_insert | by rewrite Hsch | done..].
Qed.

Lemma enable_alike s1 s2 cap :
  sup_alike s1 s2 -> outcome_alike sup_alike (Supervisor_enable_replication s1 cap) (Supervisor_enable_replication s2 cap).
Proof. intros [Hc Hs _ Hm]. unfold Supervisor_enable_replication. by destruct (DeltaRing_new cap). Qed.

(** A cycle, when the two quanta are alike. *)
Lemma cycle_alike {E1 E2} `{!QuantumExecutor E1} `{!QuantumExecutor E2} s1 (ex1 : E1) s2 (ex2 : E2) :
  sup_alike s1 s2 ->
  (forall id c1 c2, head (order (scheduler s1)) = Some id -> cells s1 !! id = Some c1 -> cells s2 !! id = Some c2 ->
    quanta_alike ex1 (with_pending c1 PendingCompletions_new) ex2 (with_pending c2 PendingCompletions_new)
      (max_instructions_per_quantum s1)) ->
  outcome_alike (fun '(_, s1', r1) '(_, s2', r2) => r1 = r2 /\ sup_alike s1' s2')
    (Supervisor_run_one_cycle s1 ex1) (Supervisor_run_one_cycle s2 ex2).
Proof.
  intros [Hc Hsch Hring Hmax] Hq. unfold Supervisor_run_one_cycle. rewrite Hsch, Hring, Hmax, (dispatch_alike _ _ _ Hc).
  destruct (Scheduler_next_dispatch (scheduler s1) (cells s1)) as [[sched o]|p] eqn:Hn; [|done]. cbn [mbind outcome_bind].
  apply next_dispatch_inv in Hn. destruct o as [out|]; [|by simpl].
  destruct Hn as (rest & Ho & _). pose proof (Hc (out_cell_id out)) as Hid.
  destruct (cells s1 !! out_cell_id out) as [c1|] eqn:Hc1, (cells s2 !! out_cell_id out) as [c2|] eqn:Hc2; inversion Hid; [|done].
  unfold PendingCompletions_drain_for_dispatch. fold PendingCompletions_new.
  eapply outcome_alike_bind; [apply (Hq (out_cell_id out)); [by rewrite Ho | done..]|].
  intros [[ex1' d1] ran1] [[ex2' d2] ran2] (Hd & Hdig & Hran).
  destruct ran1 as [n1|f1], ran2 as [n2|f2]; try done.
  2:{ simpl. split; [done|]. constructor; simpl; [by apply alike_insert | done..]. }
  destruct (out_checkpoint_due out).
  2:{ simpl. split; [done|]. constructor; simpl; [by apply alike_insert | done..]. }
  destruct (cell_alike_fields _ _ Hd) as (_ & -> & -> & _). rewrite <- Hdig.
  destruct (CheckpointChain_checkpoint _ _ _ _ _) as [[chain e]|p]; [|done]. cbn [mbind outcome_bind].
  assert (raw_delta (with_checkpoint d2 chain (out_tick out)) = raw_delta (with_checkpoint d1 chain (out_tick out))) as -> by (by rewrite Hd).
  pose proof (alike_with_checkpoint _ _ chain (out_tick out) Hd) as Hcp. pose proof (alike_clear _ _ Hcp) as Hcl.
  destruct (replication s1) as [ring|].
  2:{ simpl. split; [done|]. constructor; simpl; [by apply alike_insert | done..]. }
  destruct (map_collect _ _) as [ds|p]; [|done]. cbn [mbind outcome_bind].
  destruct (DeltaRing_push ring _) as [ring' [u|err]]; simpl; (split; [done|]); constructor; simpl; by try apply alike_insert.
Qed.

(** Any call, when the quanta it starts are alike. *)
Lemma op_alike {E1 E2} `{!QuantumExecutor E1} `{!QuantumExecutor E2} s1 (ex1 : E1) s2 (ex2 : E2) answers o :
  sup_alike s1 s2 ->
  (forall id c1 c2, o = TwinCycle -> head (order (scheduler s1)) = Some id ->
    cells s1 !! id = Some c1 -> cells s2 !! id = Some c2 ->
    quanta_alike ex1 (with_pending c1 PendingCompletions_new) ex2 (with_pending c2 PendingCompletions_new)
      (max_instructions_per_quantum s1)) ->
  outcome_alike (fun '(s1', _, a1) '(s2', _, a2) => a1 = a2 /\ sup_alike s1' s2')
    (answer_sup_op (s1, ex1, answers) (left_op o)) (answer_sup_op (s2, ex2, answers) (right_op o)).
Proof.
  intros Hs Hq. destruct o as [os cfg m1 m2|cap|]; cbn [answer_sup_op left_op right_op].
  - eapply outcome_alike_bind; [by apply spawn_alike|]. by intros [[calls1 s1'] r1] [[calls2 s2'] r2] (-> & -> & Hs').
  - eapply outcome_alike_bind; [by apply enable_alike|]. by intros s1' s2' Hs'.
  - eapply outcome_alike_bind; [apply cycle_alike; [exact Hs | by eauto]|]. by intros [[ex1' s1'] r1] [[ex2' s2'] r2] [-> Hs'].
Qed.
Lemma answers_append {E} `{!QuantumExecutor E} s (ex : E) answers o :
  answer_sup_op (s, ex, answers) o = '(s', ex', a) ← answer_sup_op (s, ex, []) o; Ret (s', ex', answers ++ a).
Proof.
  destruct o as [os cfg m|cap|]; cbn [answer_sup_op].
  - by destruct (Supervisor_spawn_cell os s cfg m) as [[[calls s'] r]|p].
  - by destruct (Supervisor_enable_replication s cap).
  - by destruct (Supervisor_run_one_cycle s ex) as [[[ex' s'] r]|p].
Qed.

Lemma runs_alike {E1 E2} `{!QuantumExecutor E1} `{!QuantumExecutor E2} ops s1 (ex1 : E1) s2 (ex2 : E2) answers :
  sup_alike s1 s2 -> run_agrees ops s1 ex1 s2 ex2 ->
  outcome_alike (fun '(s1', _, a1) '(s2', _, a2) => a1 = a2 /\ sup_alike s1' s2')
    (for_each answer_sup_op (left_op <$> ops) (s1, ex1, answers)) (for_each answer_sup_op (right_op <$> ops) (s2, ex2, answers)).
Proof.
  revert s1 ex1 s2 ex2 answers. induction ops as [|o ops IH]; intros s1 ex1 s2 ex2 answers Hs Hag; [done|].
  destruct Hag as [Hq Hag]. cbn [fmap list_fmap for_each]. rewrite (answers_append s1), (answers_append s2).
  pose proof (op_alike s1 ex1 s2 ex2 [] o Hs Hq) as Hop.
  destruct (answer_sup_op (s1, ex1, []) (left_op o)) as [[[s1' ex1'] a1]|p] eqn:E1',
    (answer_sup_op (s2, ex2, []) (right_op o)) as [[[s2' ex2'] a2]|q] eqn:E2'; try done.
  destruct Hop as [-> Hs']. cbn [mbind outcome_bind]. apply IH; [done|]. by eapply Hag.
Qed.

Lemma new_alike n : sup_alike (Supervisor_new n) (Supervisor_new n).
Proof. constructor; [|done..]. intros id. simpl. rewrite lookup_empty. constructor. Qed.

(** The executor after a cycle is the one its quantum left. *)
Lemma cycle_executor {E} `{!QuantumExecutor E} s (ex : E) ex' s' r :
  Supervisor_run_one_cycle s ex = Ret (ex', s', r) ->
  match head (order (scheduler s)) with
  | None => ex' = ex
  | Some id => exists c d ran, cells s !! id = Some c /\
      run_quantum ex (with_pending c PendingCompletions_new) (max_instructions_per_quantum s) = Ret (ex', d, ran)
  end.
Proof.
  unfold Supervisor_run_one_cycle. intros Hrun. apply bind_Ret in Hrun as ([sched o] & Hn & Hrun).
  apply next_dispatch_inv in Hn. destruct o as [out|].
  2:{ destruct Hn as [-> ->]. by injection Hrun as <- _ _. }
  destruct Hn as (rest & -> & _). cbn [head]. destruct (cells s !! out_cell_id out) as [c|] eqn:Hc; [|done].
  cbn [PendingCompletions_drain_for_dispatch] in Hrun. apply bind_Ret in Hrun as ([[ex1 d] ran] & Hq & Hrun).
  exists c, d, ran. split; [done|]. assert (ex1 = ex') as <-; [|exact Hq]. clear Hq. destruct ran as [n|f]; [|by injection Hrun].
  destruct (out_checkpoint_due out); [|by injection Hrun]. apply bind_Ret in Hrun as ([chain e] & _ & Hrun).
  destruct (replication s) as [ring|]; [|by injection Hrun]. apply bind_Ret in Hrun as (ds & _ & Hrun).
  destruct (DeltaRing_push ring _) as [ring' [u|err]]; by injection Hrun.
Qed.

(** Quanta that never look at the recorder agree. *)
Lemma agrees_ignoring {E} `{!QuantumExecutor E} :
  (forall (ex : E) c r n, run_quantum ex (with_recorder c r) n =
    '(ex', d, ran) ← run_quantum ex c n; Ret (ex', with_recorder d r, ran)) ->
  (forall (ex : E) c r, exec_register_digest ex (with_recorder c r) = exec_register_digest ex c) ->
  forall ops s1 s2 (ex : E), sup_alike s1 s2 -> run_agrees ops s1 ex s2 ex.
Proof.
  intros Hrun Hdig ops. induction ops as [|o ops IH]; intros s1 s2 ex Hs; [done|].
  assert (forall id c1 c2, o = TwinCycle -> head (order (scheduler s1)) = Some id -> cells s1 !! id = Some c1 -> cells s2 !! id = Some c2 ->
    quanta_alike ex (with_pending c1 PendingCompletions_new) ex (with_pending c2 PendingCompletions_new)
      (max_instructions_per_quantum s1)) as Hq.
  { intros id c1 c2 _ _ Hc1 Hc2. pose proof (alike_cells _ _ Hs id) as Hid. rewrite Hc1, Hc2 in Hid. inversion Hid as [? ? Hc|]; subst.
    apply (alike_with_pending _ _ PendingCompletions_new) in Hc. unfold quanta_alike. rewrite Hc, Hrun.
    destruct (run_quantum ex (with_pending c1 _) _) as [[[ex' d] ran]|p]; [|done]. cbn [mbind outcome_bind outcome_alike].
    split_and!; [done | by rewrite Hdig | by destruct ran]. }
  split; [exact Hq|]. intros s1' ex1 a1 s2' ex2 a2 E1 E2. pose proof (op_alike s1 ex s2 ex [] o Hs Hq) as Hop.
  rewrite E1, E2 in Hop. destruct Hop as [_ Hs']. cut (ex1 = ex2); [intros ->; by apply IH|].
  destruct o as [os cfg m1 m2|cap|]; cbn [answer_sup_op left_op right_op] in E1, E2.
  - apply bind_Ret in E1 as ([[? ?] ?] & _ & E1). apply bind_Ret in E2 as ([[? ?] ?] & _ & E2). naive_solver.
  - apply bind_Ret in E1 as (? & _ & E1). apply bind_Ret in E2 as (? & _ & E2). naive_solver.
  - apply bind_Ret in E1 as ([[? ?] ?] & C1 & E1). apply bind_Ret in E2 as ([[? ?] ?] & C2 & E2).
    injection E1 as _ <- _. injection E2 as _ <- _. apply cycle_executor in C1, C2. rewrite (alike_scheduler _ _ Hs) in C2.
    destruct (head (order (scheduler s1))) as [id|] eqn:Ho; [|congruence].
    destruct C1 as (c1 & d1 & r1 & Hc1 & Q1), C2 as (c2 & d2 & r2 & Hc2 & Q2).
    pose proof (alike_cells _ _ Hs id) as Hid. rewrite Hc1, Hc2 in Hid. inversion Hid as [? ? Hc|]; subst.
    apply (alike_with_pending _ _ PendingCompletions_new) in Hc. rewrite (alike_quantum _ _ Hs), Hc, Hrun, Q1 in Q2. by injection Q2.
Qed.

(** ** Theorem *)

(** C2. The supervisor's own work does not depend on recorders. Two supervisors are
    created alike and get the same calls, except that every spawn may use another
    recorder mode on the two sides; two executors, of any types, run the quanta.
    As long as each pair of quanta started along the two runs does the same up to
    the cell's recorder (the same panic or the same cell otherwise, done or
    faulted alike, the same register digest), the two runs panic alike or answer
    every call alike, with the same calls to the operating system, and end with
    the same scheduler, the same replication ring and the same cells, that is
    memories, dirty pages, checkpoint chains, descriptors and queues, up to their
    recorders. *)
Theorem supervised_runs_agree {E1 E2} `{!QuantumExecutor E1} `{!QuantumExecutor E2} (quantum : N) (ops : list twin_op) (ex1 : E1) (ex2 : E2) :
  run_agrees ops (Supervisor_new quantum) ex1 (Supervisor_new quantum) ex2 ->
  outcome_alike (fun '(s1, _, answers1) '(s2, _, answers2) =>
      answers1 = answers2 /\ scheduler s1 = scheduler s2 /\ replication s1 = replication s2 /\
      forall id, (Supervisor_cell s1 id = None /\ Supervisor_cell s2 id = None) \/
        exists c r, Supervisor_cell s1 id = Some c /\ Supervisor_cell s2 id = Some (with_recorder c r))
    (for_each answer_sup_op (left_op <$> ops) (Supervisor_new quantum, ex1, []))
    (for_each answer_sup_op (right_op <$> ops) (Supervisor_new quantum, ex2, [])).
Proof.
  intros Hag. pose proof (runs_alike ops _ ex1 _ ex2 [] (new_alike quantum) Hag) as Hruns.
  destruct (for_each _ _ _) as [[[s1 ex1'] a1]|p], (for_each _ _ _) as [[[s2 ex2'] a2]|q]; try done.
  destruct Hruns as [-> [Hc Hs Hr _]]. cbn [outcome_alike]. split_and!; [done | by symmetry | by symmetry |]. intros id. unfold Supervisor_cell. specialize (Hc id).
  destruct Hc as [c1 c2 ->|]; [right; by do 2 eexists | by left].
Qed.
End replay.

(** ** Witness *)

#[local] Existing Instance toy_blake3.
#[local] Existing Instance iter_forward.
#[local] Existing Instance iter_forward_laws.
#[local] Existing Instance dev_profile.
#[local] Existing Instance mem_queue.

(** Cells 7 and 9 record on one side and replay on the other; the second flush
    of the single-slot ring is refused. *)
Definition twin_ops : list twin_op :=
  [TwinEnable 1; TwinSpawn permissive_os (guest_config 7) ModeRecord ModeReplay;
   TwinSpawn permissive_os (guest_config 9) ModeReplay ModeRecord; TwinCycle; TwinCycle].

Lemma script_ignores_recorder ops s1 s2 (ex : Script) : sup_alike s1 s2 -> run_agrees ops s1 ex s2 ex.
Proof.
  apply agrees_ignoring; [|done]. clear. intros ex c r n. cbn [run_quantum Script_executor]. cbn [memory with_recorder].
  by destruct (run_instrs (memory c) (default [] (head ex)) 0) as [[m ran]|p].
Qed.

Lemma left_answers :
  match for_each answer_sup_op (left_op <$> twin_ops) (Supervisor_new 1000, blocking_script, []) with
  | Ret (_, _, answers) => drop 3 answers
  | Panic _ => []
  end = [AnsCycle (Ok (Some (7, 1))); AnsCycle (Err (ReplicationBackpressure 9 (Full 1)))].
Proof. vm_compute. reflexivity. Qed.

(** The right run, which has the other modes, gives the answers of the left one. *)
Lemma supervised_runs_agree_witness :
  run_agrees twin_ops (Supervisor_new 1000) blocking_script (Supervisor_new 1000) blocking_script /\
  exists s ex answers, for_each answer_sup_op (right_op <$> twin_ops) (Supervisor_new 1000, blocking_script, []) = Ret (s, ex, answers) /\
    drop 3 answers = [AnsCycle (Ok (Some (7, 1))); AnsCycle (Err (ReplicationBackpressure 9 (Full 1)))].
Proof.
  assert (run_agrees twin_ops (Supervisor_new 1000) blocking_script (Supervisor_new 1000) blocking_script) as Hag
    by apply script_ignores_recorder, new_alike.
  split; [exact Hag|]. pose proof (supervised_runs_agree 1000 twin_ops blocking_script blocking_script Hag) as Hruns.
  pose proof left_answers as Hl.
  destruct (for_each answer_sup_op (left_op <$> twin_ops) _) as [[[s1 ex1] a1]|p]; [|discriminate Hl].
  destruct (for_each answer_sup_op (right_op <$> twin_ops) _) as [[[s2 ex2] a2]|q]; [|destruct Hruns].
  destruct Hruns as [Ha _]. exists s2, ex2, a2. split; [reflexivity|]. rewrite <- Ha. exact Hl.
Defined.
