(* ===== verification/EndToEnd.v ===== *)
(** * Primary and standby end to end

    One supervisor with one cell, spawned with a page-aligned initial size after
    replication was enabled, a disciplined executor, a standby, and the consumer
    that drains the ring into it, in any interleaving of cycles and drains. The
    standby's pages are shown to equal the primary's clean pages after every drain. Two concrete runs mark the limits of the scheme: a second
    cell on the same ring, and replication enabled after the first checkpoint. *)

From S2P Require Import Prelude Machine Dirty GuardedMemory Delta Blake Smt Chain EventLog Io Cell Scheduler Replicate Supervisor Discipline.

Section pair.
Context `{BuildProfile} `{Blake3} `{HashMapIterLaws} `{ArrayQueueLaws}.
Context {E : Type} `{!QuantumExecutor E} `{!Disciplined E}.

(** ** The system *)

Record pair_state := MkPair { pair_primary : Supervisor; pair_exec : E; pair_standby : StandbyApplyLoop }.

Inductive pair_op := PairCycle | PairSync.

(** The consumer's loop: every drained batch is applied. *)
Definition apply_all (s : StandbyApplyLoop) (bs : list TickBatch) : outcome StandbyApplyLoop :=
  for_each (fun s b => '(s', _) ← StandbyApplyLoop_apply_batch s b; Ret s') bs s.

Definition with_ring (s : Supervisor) (r : DeltaRing) : Supervisor :=
  MkSupervisor (cells s) (scheduler s) (Some r) (max_instructions_per_quantum s).

Definition run_pair_op (p : pair_state) (o : pair_op) : outcome pair_state :=
  match o with
  | PairCycle =>
      '(ex', s', _) ← Supervisor_run_one_cycle (pair_primary p) (pair_exec p);
      Ret (MkPair s' ex' (pair_standby p))
  | PairSync =>
      match replication (pair_primary p) with
      | None => Ret p
      | Some ring =>
          let '(ring', batches) := DeltaRing_drain ring in
          standby' ← apply_all (pair_standby p) batches;
          Ret (MkPair (with_ring (pair_primary p) ring') (pair_exec p) standby')
      end
  end.

(** The standby's copy of a page; a page it never received is still zero. *)
Definition standby_page (s : StandbyApplyLoop) (i : N) : list N := default zero_page (engine_page (engine s) i).

(** ** Invariant *)

(** What the standby will hold of page [i] once the queued batches are applied. *)
Definition caught_up (s : StandbyApplyLoop) (queued : list TickBatch) (i : N) : list N :=
  default zero_page (view_after (queued ≫= deltas) (engine_page (engine s)) i).

(** A primary [s] with one cell, its ring, the batches [flying] between ring and
    standby, and the standby [st]. *)
Record flight_inv (id : N) (c : Cell) (ring : DeltaRing) (flying : list TickBatch) (s : Supervisor) (st : StandbyApplyLoop) : Prop := {
  pi_cells : cells s = {[id := c]};
  pi_order : order (scheduler s) = [id];
  pi_ring : replication s = Some ring;
  pi_cell : cell_inv c;
  pi_engine : engine_wf (engine st);
  pi_ticks : StronglySorted N.lt (last_applied_tick st :: (batch_tick <$> flying ++ ring_contents ring));
  pi_now : Forall (fun b => batch_tick b <= Scheduler_current_tick (scheduler s)) (flying ++ ring_contents ring);
  pi_last : last_applied_tick st <= Scheduler_current_tick (scheduler s);
  pi_raw : Forall (fun b => Forall delta_raw (deltas b)) (flying ++ ring_contents ring);
  pi_pages : forall i, i ∉ dirty_set (dirty (memory c)) -> caught_up st (flying ++ ring_contents ring) i = mem_page (memory c) i
}.

(** Between whole drains nothing is flying. *)
Abbreviation pair_inv id c ring p := (flight_inv id c ring [] (pair_primary p) (pair_standby p)).

(** ** Lemmas *)

#[local] Opaque zero_page read_bytes.

Lemma view_after_app ds1 ds2 view i : view_after (ds1 ++ ds2) view i = view_after ds2 (view_after ds1 view) i.
Proof. unfold view_after. by rewrite foldl_app. Qed.

(** The view of a page depends on the earlier view of that page only. *)
Lemma view_after_ext ds view1 view2 i : view1 i = view2 i -> view_after ds view1 i = view_after ds view2 i.
Proof. unfold view_after. by intros ->. Qed.

(** A flush sets exactly the dirty pages. *)
Lemma view_after_flush t m view i :
  view_after (deltas (flush_batch t m)) view i =
    if decide (i ∈ dirty_set (dirty m)) then Some (mem_page m i) else view i.
Proof.
  unfold flush_batch, dirty_set. cbn [deltas].
  assert (forall l acc, foldl (fun acc d => match d with
    | Raw j bytes => if decide (j = i) then Some bytes else acc | Xor _ _ => acc end) acc ((fun i => Raw i (mem_page m i)) <$> l) =
    if decide (i ∈ l) then Some (mem_page m i) else acc) as Haux.
  { induction l as [|j l IH]; intros acc; cbn [fmap list_fmap foldl].
    - by rewrite decide_False by apply not_elem_of_nil.
    - rewrite IH. destruct (decide (i ∈ l)) as [Hl|Hl].
      + by rewrite decide_True by (by right).
      + destruct (decide (j = i)) as [->|Hne]; [by rewrite decide_True by left|].
        rewrite decide_False; [done|]. rewrite elem_of_cons. naive_solver. }
  unfold view_after. rewrite Haux. apply decide_ext. by rewrite elem_of_list_to_set.
Qed.

Lemma flush_batch_raw t m : mem_ok m -> Forall delta_raw (deltas (flush_batch t m)).
Proof.
  intros Hok. unfold flush_batch. cbn [deltas]. apply Forall_fmap, Forall_forall. intros i Hi.
  assert (i ∈ dirty_set (dirty m)) as Hd by (unfold dirty_set; by rewrite elem_of_list_to_set).
  pose proof (dirty_page_small m i Hok Hd). split; [|done]. split; [|apply len_mem_page]. apply small_page_fits. cbn. lia.
Qed.

(** Batches in increasing tick order are all applied. *)
Lemma apply_all_ok bs s :
  engine_wf (engine s) -> StronglySorted N.lt (last_applied_tick s :: (batch_tick <$> bs)) ->
  Forall (fun b => Forall delta_raw (deltas b)) bs ->
  exists s', apply_all s bs = Ret s' /\ engine_wf (engine s') /\
    last_applied_tick s' = default (last_applied_tick s) (last (batch_tick <$> bs)) /\
    forall i, engine_page (engine s') i = view_after (bs ≫= deltas) (engine_page (engine s)) i.
Proof.
  revert s. induction bs as [|b bs IH]; intros s Hwf Hs Hraw.
  { exists s. done. }
  apply Forall_cons in Hraw as [Hb Hraw]. cbn [fmap list_fmap] in Hs.
  apply StronglySorted_inv in Hs as [Hs Hlt]. apply Forall_cons in Hlt as [Hlt _].
  unfold apply_all. cbn [for_each]. rewrite apply_batch_accepts by auto.
  destruct (apply_raws_ok (deltas b) (engine s) (engine_page (engine s)) Hwf (fun _ => eq_refl) Hb) as (e & -> & Hwf' & Hv).
  cbn [mbind outcome_bind]. destruct (IH (MkStandbyApplyLoop e (batch_tick b)) Hwf' Hs Hraw) as (s' & Hrun & Hwf2 & Hl & Hv2).
  exists s'. split; [exact Hrun|]. split_and!; [done | |].
  - rewrite Hl, fmap_cons, last_cons. by destruct (last _).
  - intros i. rewrite Hv2. cbn [engine]. rewrite bind_cons, view_after_app.
    apply view_after_ext, Hv.
Qed.

(** Applying the first batches of the flight, whose rest and ring are left. *)
Lemma apply_flight id c ring fl1 fl2 s st :
  flight_inv id c ring (fl1 ++ fl2) s st ->
  exists st', apply_all st fl1 = Ret st' /\ flight_inv id c ring fl2 s st'.
Proof.
  intros [Hc Ho Hr Hci He Ht Hn Hl Hraw Hp]. rewrite <- app_assoc in *.
  apply Forall_app in Hraw as [Hraw1 Hraw2]. apply Forall_app in Hn as [Hn1 Hn2]. rewrite fmap_app, app_comm_cons in Ht.
  apply StronglySorted_app in Ht as (Hbetween & Ht1 & Ht2).
  destruct (apply_all_ok fl1 st He Ht1 Hraw1) as (st' & -> & He' & Hl' & Hv). exists st'. split; [done|].
  assert (last_applied_tick st' ∈ last_applied_tick st :: (batch_tick <$> fl1)) as Hin.
  { rewrite Hl'. destruct (last (batch_tick <$> fl1)) as [t|] eqn:El; [right; by apply last_Some_elem_of | left]. }
  constructor; try done.
  - constructor; [done|]. apply Forall_forall. intros t Hmem. by apply Hbetween.
  - rewrite elem_of_cons, list_elem_of_fmap in Hin. destruct Hin as [->|(b & -> & Hb)]; [exact Hl|].
    eapply Forall_forall in Hn1; [exact Hn1 | exact Hb].
  - intros i Hi. rewrite <- Hp by done. unfold caught_up. rewrite (bind_app _ fl1), view_after_app.
    by rewrite (view_after_ext _ _ _ i (Hv i)).
Qed.

(** Taking batches out of the ring into the flight. *)
Lemma flight_move id c ring ring' fl fl' s st :
  flight_inv id c ring fl s st -> fl' ++ ring_contents ring' = fl ++ ring_contents ring ->
  flight_inv id c ring' fl' (with_ring s ring') st.
Proof. intros [] Heq. constructor; cbn [with_ring cells scheduler replication]; rewrite ?Heq; done. Qed.

Lemma sync_inv id c ring p :
  pair_inv id c ring p ->
  exists ring' p', run_pair_op p PairSync = Ret p' /\ pair_inv id c ring' p' /\ ring_contents ring' = [] /\
    Scheduler_current_tick (scheduler (pair_primary p')) = Scheduler_current_tick (scheduler (pair_primary p)).
Proof.
  intros Hinv. cbn [run_pair_op]. rewrite (pi_ring _ _ _ _ _ _ Hinv).
  destruct (ring_drain_spec ring) as (ring' & -> & Hc' & Hk' & _).
  assert (flight_inv id c ring' (ring_contents ring ++ []) (with_ring (pair_primary p) ring') (pair_standby p)) as Hfl.
  { eapply flight_move; [exact Hinv|]. by rewrite Hc', !app_nil_r. }
  destruct (apply_flight _ _ _ _ _ _ _ Hfl) as (st' & -> & Hinv'). cbn [mbind outcome_bind].
  exists ring'. eexists. split; [reflexivity|]. by split.
Qed.

(** A quantum, and a flush that was refused, keep what is clean caught up. *)
Lemma keep_pages c c1 s queued :
  quantum_ok c c1 ->
  (forall i, i ∉ dirty_set (dirty (memory c)) -> caught_up s queued i = mem_page (memory c) i) ->
  forall i, i ∉ dirty_set (dirty (memory c1)) -> caught_up s queued i = mem_page (memory c1) i.
Proof. intros Hq Hp i Hi. rewrite (q_writes _ _ Hq) by done. apply Hp. pose proof (q_marked _ _ Hq). set_solver. Qed.

Lemma flushed_pages t m s queued :
  (forall i, i ∉ dirty_set (dirty m) -> caught_up s queued i = mem_page m i) ->
  forall i, caught_up s (queued ++ [flush_batch t m]) i = mem_page m i.
Proof.
  intros Hp i. unfold caught_up. rewrite bind_app, view_after_app, bind_singleton, view_after_flush.
  destruct (decide (i ∈ dirty_set (dirty m))) as [Hi|Hi]; [done | by apply Hp].
Qed.

(** The invariant after a cycle at the next tick that left the cell as [c']. *)
Lemma cycle_flight_inv id c ring fl s st t c' ring' n :
  flight_inv id c ring fl s st -> t = Scheduler_current_tick (scheduler s) + 1 -> cell_inv c' ->
  (ring_contents ring' = ring_contents ring \/
    exists b, ring_contents ring' = ring_contents ring ++ [b] /\ batch_tick b = t /\ Forall delta_raw (deltas b)) ->
  (forall i, i ∉ dirty_set (dirty (memory c')) -> caught_up st (fl ++ ring_contents ring') i = mem_page (memory c') i) ->
  flight_inv id c' ring' fl (MkSupervisor (<[id := c']> (cells s)) (MkScheduler ([] ++ [id]) (MkLogicalClock t)) (Some ring') n) st.
Proof.
  intros [Hc Ho Hr Hci He Ht Hn Hl Hraw Hp] -> Hci' Hring Hp'. set (t := Scheduler_current_tick (scheduler s)) in *.
  assert (Forall (fun b => batch_tick b <= t + 1) (fl ++ ring_contents ring)) as Hn1.
  { eapply Forall_impl; [exact Hn|]. simpl. lia. }
  constructor; cbn [cells scheduler order replication]; try done.
  - rewrite Hc. apply insert_singleton_eq.
  - destruct Hring as [->|(b & -> & Hb & _)]; [done|]. rewrite app_assoc, fmap_app, app_comm_cons.
    apply StronglySorted_app_between; [done | repeat constructor|].
    intros x y Hx ->%list_elem_of_singleton. rewrite Hb. apply elem_of_cons in Hx as [->|Hx]; [lia|].
    apply list_elem_of_fmap in Hx as (b' & -> & Hb'). eapply Forall_forall in Hn; [|done]. simpl in Hn. lia.
  - change (Forall (fun b => batch_tick b <= t + 1) (fl ++ ring_contents ring')).
    destruct Hring as [->|(b & -> & Hb & _)]; [done|]. rewrite app_assoc. apply Forall_app_2; [done|]. apply Forall_singleton. lia.
  - change (last_applied_tick st <= t + 1). lia.
  - destruct Hring as [->|(b & -> & _ & Hb)]; [done|]. rewrite app_assoc. apply Forall_app_2; [done | by apply Forall_singleton].
Qed.

Lemma cycle_flight id c ring fl s st (ex : E) :
  flight_inv id c ring fl s st -> Scheduler_current_tick (scheduler s) + 1 < 2 ^ 64 ->
  exists ex' s' r c' ring', Supervisor_run_one_cycle s ex = Ret (ex', s', r) /\ flight_inv id c' ring' fl s' st /\
    Scheduler_current_tick (scheduler s') = Scheduler_current_tick (scheduler s) + 1.
Proof.
  intros Hinv Ht. destruct (cycle_ok s ex id [] c) as (ex' & c1 & c' & ring' & err & ran & _ & Hq & Heff & Hrun).
  { split; [apply Hinv|]. split; [|done]. rewrite (pi_cells _ _ _ _ _ _ Hinv). apply lookup_singleton_eq. }
  { apply Hinv. }
  exists ex'. do 2 eexists. exists c'. rewrite (pi_ring _ _ _ _ _ _ Hinv) in Heff.
  pose proof (quantum_cell_inv _ _ (pi_cell _ _ _ _ _ _ Hinv) Hq) as Hc1.
  pose proof (effect_cell_inv _ _ _ _ _ _ _ Heff Hc1) as Hc'.
  pose proof (keep_pages _ _ _ _ Hq (pi_pages _ _ _ _ _ _ Hinv)) as Hkeep.
  destruct (match ran with Ok _ => _ | Err _ => _ end).
  - apply effect_ring in Heff as (r & -> & Hr). exists r. split; [exact Hrun|]. split; [|reflexivity].
    pose proof (ring_push_spec ring (flush_batch (Scheduler_current_tick (scheduler s) + 1) (memory c1))) as Hpush.
    destruct err as [err|]; destruct Hr as [Hr Hmem]; rewrite Hr in Hpush; case_test_in Hpush;
      [by destruct Hpush as (? & [=] & _) | | | done].
    + injection Hpush as -> _. eapply cycle_flight_inv; [done | done | done | by left |]. by rewrite Hmem.
    + destruct Hpush as (r' & [= <-] & Hcont & _). eapply cycle_flight_inv; [done | done | done | |].
      * right. eexists. split; [exact Hcont|]. split; [done|]. apply flush_batch_raw, Hc1.
      * intros i _. rewrite Hcont, Hmem, app_assoc. exact (flushed_pages _ _ _ _ Hkeep i).
  - pose proof (effect_chain _ _ _ _ _ _ _ Heff) as Hcc. simpl in Hcc. subst c'.
    inversion Heff; subst. exists ring. split; [exact Hrun|]. split; [|reflexivity].
    eapply cycle_flight_inv; [done | done | done | by left | exact Hkeep].
Qed.

Lemma cycle_inv id c ring p :
  pair_inv id c ring p -> Scheduler_current_tick (scheduler (pair_primary p)) + 1 < 2 ^ 64 ->
  exists c' ring' p', run_pair_op p PairCycle = Ret p' /\ pair_inv id c' ring' p' /\
    Scheduler_current_tick (scheduler (pair_primary p')) = Scheduler_current_tick (scheduler (pair_primary p)) + 1.
Proof.
  intros Hinv Ht. destruct (cycle_flight _ _ _ _ _ _ (pair_exec p) Hinv Ht) as (ex' & s' & r & c' & ring' & Hrun & Hinv' & Hclk).
  exists c', ring'. cbn [run_pair_op]. rewrite Hrun. cbn [mbind outcome_bind]. eexists. split; [reflexivity|]. by split.
Qed.

Lemma run_pair_inv id ops c ring p :
  pair_inv id c ring p -> Scheduler_current_tick (scheduler (pair_primary p)) + #|ops| < 2 ^ 64 ->
  exists c' ring' p', for_each run_pair_op ops p = Ret p' /\ pair_inv id c' ring' p' /\
    Scheduler_current_tick (scheduler (pair_primary p')) <= Scheduler_current_tick (scheduler (pair_primary p)) + #|ops|.
Proof.
  revert c ring p. induction ops as [|o ops IH]; intros c ring p Hinv Ht.
  { exists c, ring, p. rewrite len_nil. split_and!; [done | done | lia]. }
  rewrite len_cons in *.
  assert (exists c1 ring1 p1, run_pair_op p o = Ret p1 /\ pair_inv id c1 ring1 p1 /\
    Scheduler_current_tick (scheduler (pair_primary p1)) <= Scheduler_current_tick (scheduler (pair_primary p)) + 1)
    as (c1 & ring1 & p1 & Hrun & Hinv1 & Hle).
  { destruct o.
    - destruct (cycle_inv id c ring p Hinv) as (c1 & r1 & p1 & ? & ? & Ht1); [lia|]. exists c1, r1, p1. rewrite Ht1. by split_and!.
    - destruct (sync_inv id c ring p Hinv) as (r1 & p1 & ? & ? & _ & Ht1). exists c, r1, p1. rewrite Ht1. split_and!; [done | done | lia]. }
  destruct (IH c1 ring1 p1 Hinv1) as (c' & ring' & p' & Hrun' & Hinv' & Hle'); [lia|].
  exists c', ring', p'. cbn [for_each]. rewrite Hrun. cbn [mbind outcome_bind]. split_and!; [done | done | lia].
Qed.

(** The setting: a primary whose one cell, with a page-aligned initial size, was
    spawned after a ring of non-zero capacity was created, and a new standby. *)
Record paired (n cap k : N) (os : HostOs) (cfg : CellConfig) (m : RecorderMode) (s : Supervisor) (st : StandbyApplyLoop) : Prop := {
  paired_quota : cfg_quota_bytes cfg < 2 ^ 32;
  paired_aligned : cfg_initial_memory_bytes cfg mod PAGE_SIZE = 0;
  paired_ring : cap <> 0;
  paired_pages : k * PAGE_SIZE < 2 ^ 63;
  paired_primary : exists s1 calls, Supervisor_enable_replication (Supervisor_new n) cap = Ret s1 /\
    Supervisor_spawn_cell os s1 cfg m = Ret (calls, s, Ok tt);
  paired_standby : StandbyApplyLoop_new k = Ret st
}.

Lemma paired_inv n cap k os cfg m s st ex :
  paired n cap k os cfg m s st ->
  exists c ring, pair_inv (cfg_id cfg) c ring (MkPair s ex st) /\ Scheduler_current_tick (scheduler s) = 0.
Proof.
  intros [Hq Hal Hcap Hk (s1 & calls & He & Hsp) Hst].
  destruct (enable_all_inv (Supervisor_new n) cap (new_all_inv n) Hcap) as (s1' & ring & He' & _ & Hc1 & Hs1 & Hr1 & Hcont & _).
  rewrite He in He'. injection He' as <-.
  assert (cells s1 !! cfg_id cfg = None) as Hnone by (by rewrite Hc1).
  destruct (spawn_cell_fault os s1 cfg m Hnone Hq) as (calls' & s' & r & Hrun & Hr). rewrite Hsp in Hrun.
  injection Hrun as <- <- <-. destruct Hr as (c & Hf & _ & _ & _ & ->). exists c, ring.
  destruct (new_engine_ok k Hk) as (e & Hn & Hwf & Hv). unfold StandbyApplyLoop_new in Hst. rewrite Hn in Hst.
  injection Hst as <-. split; [|by rewrite Hs1].
  constructor; cbn [pair_primary pair_standby cells scheduler replication order Scheduler_register_cell engine last_applied_tick];
    rewrite ?Hc1, ?Hs1, ?Hcont; try done; try apply N.le_0_l.
  - by eapply fresh_cell_inv.
  - repeat constructor.
  - intros i _. unfold caught_up, view_after. cbn [mbind list_bind foldl engine]. rewrite Hv.
    symmetry. destruct Hf as (_ & _ & _ & _ & _ & Hz & _). apply Hz.
Qed.

Lemma sync_pages id c ring p :
  pair_inv id c ring p -> ring_contents ring = [] ->
  forall i, i ∉ dirty_set (dirty (memory c)) -> standby_page (pair_standby p) i = mem_page (memory c) i.
Proof. intros Hinv Hr i Hi. rewrite <- (pi_pages _ _ _ _ _ _ Hinv i Hi), Hr. reflexivity. Qed.

(** The root of the standby's copy. *)
Definition standby_root (s : StandbyApplyLoop) : Hash := merkle (fun i => hash (standby_page s i)) TREE_DEPTH 0.

Lemma standby_root_eq s m : (forall i, standby_page s i = mem_page m i) -> standby_root s = memory_root m.
Proof. intros Heq. unfold standby_root, memory_root. apply merkle_ext. intros i. by rewrite Heq. Qed.

(** A cycle whose checkpoint is due and whose flush finds room. *)
Lemma flush_cycle id c ring p ex' c1 j :
  let t := Scheduler_current_tick (scheduler (pair_primary p)) + 1 in
  pair_inv id c ring p -> t < 2 ^ 64 ->
  run_quantum (pair_exec p) (with_pending c PendingCompletions_new) (max_instructions_per_quantum (pair_primary p)) = Ret (ex', c1, Ok j) ->
  Cell_checkpoint_due c t = true -> #|ring_contents ring| < ring_capacity ring ->
  exists c' ring' p' e, run_pair_op p PairCycle = Ret p' /\ pair_inv id c' ring' p' /\
    memory c' = with_dirty (memory c1) (DirtyPageSet_clear_all (dirty (memory c1))) /\
    CheckpointChain_latest (checkpoints c') = Some e /\ entry_tick e = t /\ smt_root e = memory_root (memory c1).
Proof.
  intros t Hinv Ht Hq Hdue Hroom.
  destruct (cycle_ok (pair_primary p) (pair_exec p) id [] c) as (ex2 & c3 & c' & ring' & err & ran & Hq' & Hqok & Heff & Hcyc).
  { split; [apply Hinv|]. split; [|exact Ht]. rewrite (pi_cells _ _ _ _ _ _ Hinv). apply lookup_singleton_eq. }
  { apply Hinv. }
  rewrite Hq in Hq'. injection Hq' as <- <- <-. fold t in Heff. rewrite Hdue, (pi_ring _ _ _ _ _ _ Hinv) in Heff.
  destruct (cycle_inv _ _ _ _ Hinv Ht) as (c4 & r4 & p4 & Hrun4 & Hinv4 & _).
  pose proof Hrun4 as Hr4. cbn [run_pair_op] in Hr4. rewrite Hcyc in Hr4. cbn [mbind outcome_bind] in Hr4. injection Hr4 as <-.
  assert (c4 = c') as ->.
  { pose proof (pi_cells _ _ _ _ _ _ Hinv4) as Hcs. cbn [pair_primary cells] in Hcs.
    apply (f_equal (lookup id)) in Hcs. rewrite lookup_insert_eq, lookup_singleton_eq in Hcs. by injection Hcs. }
  destruct (effect_chain _ _ _ _ _ _ _ Heff) as (e & Hent & Htick & Hroot & _).
  exists c', r4. eexists. exists e. split; [exact Hrun4|]. split; [exact Hinv4|]. split.
  - apply effect_ring in Heff as (r & _ & Hr). pose proof (ring_push_spec ring (flush_batch t (memory c1))) as Hps.
    rewrite (proj2 (N.ltb_lt _ _) Hroom) in Hps. destruct Hps as (r5 & Hps & _). rewrite Hps in Hr.
    destruct err as [err|]; by destruct Hr.
  - split; [|by split]. unfold CheckpointChain_latest. by rewrite Hent, last_snoc.
Qed.

(** ** Theorems *)

(** The standby mirrors the primary: in the setting of [paired], after any interleaving of dispatch cycles (with faults,
    skipped checkpoints and refused flushes) and drains, the system has not
    panicked, and once the ring is drained the standby's copy of every page that
    is clean on the primary is byte for byte the primary's. *)
Theorem standby_mirrors_primary (n cap k : N) (os : HostOs) (cfg : CellConfig) (m : RecorderMode)
    (s : Supervisor) (st : StandbyApplyLoop) (ex : E) (ops : list pair_op) :
  paired n cap k os cfg m s st -> #|ops| + 1 < 2 ^ 64 ->
  exists p c, for_each run_pair_op (ops ++ [PairSync]) (MkPair s ex st) = Ret p /\
    Supervisor_cell (pair_primary p) (cfg_id cfg) = Some c /\
    forall i, DirtyPageSet_is_dirty (dirty (memory c)) i = false -> standby_page (pair_standby p) i = mem_page (memory c) i.
Proof.
  intros Hp Hlen. destruct (paired_inv _ _ _ _ _ _ _ _ ex Hp) as (c0 & r0 & Hinv0 & Ht0).
  destruct (run_pair_inv (cfg_id cfg) ops c0 r0 _ Hinv0) as (c & r & p & Hrun & Hinv & _);
    [cbn [pair_primary]; rewrite Ht0; lia|].
  destruct (sync_inv _ _ _ _ Hinv) as (r' & p' & Hsync & Hinv' & Hr' & _). exists p', c.
  rewrite for_each_app, Hrun. cbn [mbind outcome_bind for_each]. rewrite Hsync. split; [done|]. split.
  - unfold Supervisor_cell. rewrite (pi_cells _ _ _ _ _ _ Hinv'). apply lookup_singleton_eq.
  - intros i Hi. apply (sync_pages _ _ _ _ Hinv' Hr'). rewrite elem_of_dirty_set. congruence.
Qed.

End pair.

(** C6. The roots cross-check, for a primary with exactly one cell, spawned with a
    page-aligned initial size and a 32-bit quota after replication was enabled
    with a ring of non-zero capacity, run by an executor that marks the pages it
    writes ([Disciplined]), and a new standby. After any interleaving of fewer
    than [2 ^ 64] cycles and drains: when the next quantum succeeds, its checkpoint is due and the ring
    has room for the flush, then after that cycle and the next drain the standby's
    whole copy equals the primary's memory, and the root the primary recorded for
    this tick is the Merkle root of the standby's copy. (Without these conditions
    it fails: see [two_cells_share_pages] and [late_replication_misses_pages].) *)
Theorem standby_root_crosscheck `{BuildProfile} `{Blake3} `{HashMapIterLaws} `{ArrayQueueLaws} {E : Type} `{!QuantumExecutor E} `{!Disciplined E}
    (n cap k : N) (os : HostOs) (cfg : CellConfig) (m : RecorderMode) (calls : list OsCall) (s1 s : Supervisor) (st : StandbyApplyLoop)
    (ex ex' : E) (ops : list pair_op) (p : pair_state) (c c1 : Cell) (ring : DeltaRing) (j : N) :
  cap <> 0 -> Supervisor_enable_replication (Supervisor_new n) cap = Ret s1 ->
  cfg_quota_bytes cfg < 2 ^ 32 -> cfg_initial_memory_bytes cfg mod PAGE_SIZE = 0 ->
  Supervisor_spawn_cell os s1 cfg m = Ret (calls, s, Ok tt) ->
  k * PAGE_SIZE < 2 ^ 63 -> StandbyApplyLoop_new k = Ret st ->
  #|ops| + 1 < 2 ^ 64 -> for_each run_pair_op ops (MkPair s ex st) = Ret p ->
  Supervisor_cell (pair_primary p) (cfg_id cfg) = Some c -> replication (pair_primary p) = Some ring ->
  let t := Scheduler_current_tick (scheduler (pair_primary p)) + 1 in
  run_quantum (pair_exec p) (with_pending c PendingCompletions_new) (max_instructions_per_quantum (pair_primary p)) = Ret (ex', c1, Ok j) ->
  Cell_checkpoint_due c t = true -> #|ring_contents ring| < ring_capacity ring ->
  exists p' c' e, for_each run_pair_op [PairCycle; PairSync] p = Ret p' /\
    Supervisor_cell (pair_primary p') (cfg_id cfg) = Some c' /\
    CheckpointChain_latest (checkpoints c') = Some e /\ entry_tick e = t /\
    smt_root e = standby_root (pair_standby p') /\
    forall i, standby_page (pair_standby p') i = mem_page (memory c') i.
Proof.
  intros Hcap He Hquota Hal Hsp Hk Hst Hlen Hrun Hc Hring t Hq Hdue Hroom.
  assert (paired n cap k os cfg m s st) as Hpd by (constructor; eauto).
  destruct (paired_inv _ _ _ _ _ _ _ _ ex Hpd) as (c0 & r0 & Hinv0 & Ht0).
  destruct (run_pair_inv (cfg_id cfg) ops c0 r0 _ Hinv0) as (c2 & r2 & p2 & Hrun2 & Hinv & Hle);
    [cbn [pair_primary]; rewrite Ht0; lia|]. cbn [pair_primary] in Hle. rewrite Ht0 in Hle.
  rewrite Hrun in Hrun2. injection Hrun2 as <-.
  assert (c2 = c) as ->.
  { unfold Supervisor_cell in Hc. rewrite (pi_cells _ _ _ _ _ _ Hinv), lookup_singleton_eq in Hc. by injection Hc. }
  assert (r2 = ring) as -> by (rewrite (pi_ring _ _ _ _ _ _ Hinv) in Hring; by injection Hring).
  destruct (flush_cycle _ _ _ _ _ _ _ Hinv ltac:(lia) Hq Hdue Hroom) as (c' & r' & p1 & e & Hcyc & Hinv1 & Hmem & Hlast & Htick & Hroot).
  destruct (sync_inv _ _ _ _ Hinv1) as (r5 & p5 & Hsync & Hinv5 & Hr5 & _).
  assert (forall i, standby_page (pair_standby p5) i = mem_page (memory c') i) as Hpages.
  { intros i. apply (sync_pages _ _ _ _ Hinv5 Hr5). rewrite Hmem. cbn [dirty with_dirty]. rewrite clear_all_empty. set_solver. }
  exists p5, c', e. cbn [for_each]. rewrite Hcyc. cbn [mbind outcome_bind]. rewrite Hsync. split_and!; try done.
  - unfold Supervisor_cell. rewrite (pi_cells _ _ _ _ _ _ Hinv5). apply lookup_singleton_eq.
  - rewrite Hroot. symmetry. apply standby_root_eq. intros i. rewrite Hpages, Hmem. reflexivity.
Qed.

(** ** Limits of the scheme *)

#[local] Existing Instance toy_blake3.
#[local] Existing Instance iter_forward.
#[local] Existing Instance iter_forward_laws.
#[local] Existing Instance dev_profile.
#[local] Existing Instance mem_queue.

(** Calls on a primary, then one drain into a standby of four pages. *)
Definition replicate_run (ops : list sup_op) (ex : Script) : outcome (Supervisor * StandbyApplyLoop) :=
  '(s, ex') ← for_each run_sup_op ops (Supervisor_new 1000, ex);
  st ← StandbyApplyLoop_new 4;
  p ← run_pair_op (MkPair s ex' st) PairSync;
  Ret (pair_primary p, pair_standby p).

(** Byte 0 of page 0 on the standby and on a cell, with whether the page is clean. *)
Definition first_byte (l : list N) : N := default 0 (head l).
Definition observe (r : outcome (Supervisor * StandbyApplyLoop)) (id : N) : option (N * N * bool) :=
  match r with
  | Ret (s, st) =>
      match Supervisor_cell s id with
      | Some c => Some (first_byte (standby_page st 0), first_byte (mem_page (memory c) 0),
          negb (DirtyPageSet_is_dirty (dirty (memory c)) 0))
      | None => None
      end
  | Panic _ => None
  end.

(** One ring does not carry two cells: batches do not name their cell, so
    with two cells that both wrote page 0 and were both flushed, the standby
    holds the second cell's page where the first cell's should be, although the
    page is clean on both. *)
Theorem two_cells_share_pages :
  let r := replicate_run [SupEnable 4; SupSpawn permissive_os (guest_config 1) ModeRecord;
    SupSpawn permissive_os (guest_config 2) ModeRecord; SupCycle; SupCycle] [[IStore 0 11]; [IStore 0 22]] in
  observe r 1 = Some (22, 11, true) /\ observe r 2 = Some (22, 22, true).
Proof. vm_compute. split; reflexivity. Qed.

(** Replication must come first: pages checkpointed before the ring was
    created are clean and never sent, so the standby misses them for good. *)
Theorem late_replication_misses_pages :
  let r := replicate_run [SupSpawn permissive_os (guest_config 1) ModeRecord; SupCycle; SupEnable 4; SupCycle]
    [[IStore 0 11]; [IStore 4096 5]] in
  observe r 1 = Some (0, 11, true).
Proof. vm_compute. reflexivity. Qed.

(** ** Witnesses *)

Definition enabled_sup : Supervisor :=
  MkSupervisor ∅ (Scheduler_new []) (Some (MkDeltaRing (MkMemQueue 4 [] : @Queue mem_queue TickBatch) 0)) 1000.

(** Whether the first quantum of cell 7 succeeds, is due for a checkpoint and
    finds room in the ring. *)
Definition about_to_flush (r : outcome (list OsCall * Supervisor * result SupervisorError unit)) : bool :=
  match r with
  | Ret (_, s, Ok _) =>
      match cells s !! 7, replication s with
      | Some c, Some ring =>
          match run_quantum guest_script (with_pending c PendingCompletions_new) (max_instructions_per_quantum s) with
          | Ret (_, _, Ok _) => Cell_checkpoint_due c (Scheduler_current_tick (scheduler s) + 1) &&
              (#|ring_contents ring| <? ring_capacity ring)
          | _ => false
          end
      | _, _ => false
      end
  | _ => false
  end.

(** A spawned cell that is about to flush, and a new standby. *)
Lemma pair_example :
  exists calls s st, Supervisor_spawn_cell permissive_os enabled_sup (guest_config 7) ModeRecord = Ret (calls, s, Ok tt) /\
    StandbyApplyLoop_new 4 = Ret st /\ about_to_flush (Ret ([], s, Ok tt)) = true.
Proof.
  assert (about_to_flush (Supervisor_spawn_cell permissive_os enabled_sup (guest_config 7) ModeRecord) = true) as Hf
    by (vm_compute; reflexivity).
  destruct (Supervisor_spawn_cell permissive_os enabled_sup (guest_config 7) ModeRecord) as [[[calls s] [[]|e]]|p] eqn:Hs; try discriminate Hf.
  destruct (new_engine_ok 4) as (e & He & _); [reflexivity|].
  exists calls, s, (MkStandbyApplyLoop e 0). split; [reflexivity|]. split; [|exact Hf]. unfold StandbyApplyLoop_new. rewrite He. reflexivity.
Qed.

Lemma paired_example :
  exists s st, paired 1000 4 4 permissive_os (guest_config 7) ModeRecord s st.
Proof.
  destruct pair_example as (calls & s & st & Hs & Hst & _). exists s, st. constructor; [reflexivity | reflexivity | discriminate | reflexivity | | exact Hst].
  exists enabled_sup, calls. split; [reflexivity | exact Hs].
Qed.

Lemma standby_mirrors_primary_witness :
  exists s st p c, paired 1000 4 4 permissive_os (guest_config 7) ModeRecord s st /\
    for_each run_pair_op ([PairCycle; PairSync; PairCycle; PairCycle] ++ [PairSync]) (MkPair s guest_script st) = Ret p /\
    Supervisor_cell (pair_primary p) 7 = Some c.
Proof.
  destruct paired_example as (s & st & Hp).
  destruct (standby_mirrors_primary 1000 4 4 permissive_os (guest_config 7) ModeRecord s st guest_script
    [PairCycle; PairSync; PairCycle; PairCycle] Hp) as (p & c & H1 & H2 & _); [reflexivity|].
  exists s, st, p, c. split; [exact Hp|]. split; [exact H1 | exact H2].
Defined.

Lemma standby_root_crosscheck_witness :
  exists calls s st p c e, Supervisor_enable_replication (Supervisor_new 1000) 4 = Ret enabled_sup /\
    Supervisor_spawn_cell permissive_os enabled_sup (guest_config 7) ModeRecord = Ret (calls, s, Ok tt) /\
    for_each run_pair_op [PairCycle; PairSync] (MkPair s guest_script st) = Ret p /\
    Supervisor_cell (pair_primary p) 7 = Some c /\ CheckpointChain_latest (checkpoints c) = Some e /\
    smt_root e = standby_root (pair_standby p).
Proof.
  destruct pair_example as (calls & s & st & Hs & Hst & Hf). unfold about_to_flush in Hf.
  destruct (cells s !! 7) as [c|] eqn:Hc; [|discriminate Hf]. destruct (replication s) as [ring|] eqn:Hr; [|discriminate Hf].
  destruct (run_quantum guest_script _ _) as [[[ex' c1] [j|f]]|q] eqn:Hq; try discriminate Hf. bool_to_prop.
  destruct (standby_root_crosscheck 1000 4 4 permissive_os (guest_config 7) ModeRecord calls enabled_sup s st guest_script ex' []
    (MkPair s guest_script st) c c1 ring j) as (p & c' & e & H1 & H2 & H3 & _ & H4 & _);
    [discriminate | reflexivity | reflexivity | reflexivity | exact Hs | reflexivity | exact Hst | reflexivity | reflexivity
    | exact Hc | exact Hr | exact Hq | assumption | assumption |].
  exists calls, s, st, p, c', e. split; [reflexivity|]. split; [exact Hs|]. split; [exact H1|]. split; [exact H2|]. split; [exact H3 | exact H4].
Defined.
