(* ===== verification/Threaded.v ===== *)
(** * Primary, consumer and standby as three threads

    [EndToEnd] lets a drain and the application of its batches happen at once.
    Here the dispatch thread, the consumer and the standby interleave: the
    consumer's [drain] pops one batch at a time while cycles push, the vector it
    returns goes on a wire that keeps order, and the standby takes batches off the
    wire when it gets to them. For one cell with a page-aligned initial size,
    replication enabled before the spawn and a disciplined executor: whatever the
    interleaving, nothing panics, the standby refuses no batch, and it is behind
    the primary by exactly the batches on their way. *)

From S2P Require Import Prelude Machine Dirty GuardedMemory Delta Blake Smt Chain EventLog Io Cell Scheduler Replicate Supervisor Discipline EndToEnd.

Section threads.
Context `{BuildProfile} `{Blake3} `{HashMapIterLaws} `{ArrayQueueLaws}.
Context {E : Type} `{!QuantumExecutor E} `{!Disciplined E}.

(** ** The system *)

(** The supervisor with its ring, the vector a running drain has filled so far,
    the batches on the wire, the standby, and the answers it has given. *)
Record system := MkSystem {
  sys_primary : Supervisor;
  sys_exec : E;
  sys_partial : list TickBatch;
  sys_wire : list TickBatch;
  sys_standby : StandbyApplyLoop;
  sys_answers : list (result ApplyError unit)
}.

(** A cycle of the dispatch thread, whose one access to shared memory is its
    push; one pop of the consumer's loop; one batch taken by the standby. *)
Inductive sys_op := StepCycle | StepPop | StepApply.

Definition run_sys_op (y : system) (o : sys_op) : outcome system :=
  let '(MkSystem s ex partial wire st answers) := y in
  match o with
  | StepCycle =>
      '(ex', s', _) ← Supervisor_run_one_cycle s ex;
      Ret (MkSystem s' ex' partial wire st answers)
  | StepPop =>
      match replication s with
      | None => Ret y
      | Some ring =>
          match queue_pop (ring_queue ring) with
          | (q, Some batch) => Ret (MkSystem (with_ring s (MkDeltaRing q (ring_last_pushed_tick ring))) ex (partial ++ [batch]) wire st answers)
          | (q, None) => Ret (MkSystem (with_ring s (MkDeltaRing q (ring_last_pushed_tick ring))) ex [] (wire ++ partial) st answers)
          end
      end
  | StepApply =>
      match wire with
      | [] => Ret y
      | batch :: wire =>
          '(st', r) ← StandbyApplyLoop_apply_batch st batch;
          Ret (MkSystem s ex partial wire st' (answers ++ [r]))
      end
  end.

(** The batches on their way to the standby, next one first. *)
Definition underway (y : system) : list TickBatch := sys_wire y ++ sys_partial y.

Record sys_inv (id : N) (c : Cell) (ring : DeltaRing) (y : system) : Prop := {
  yi_flight : flight_inv id c ring (underway y) (sys_primary y) (sys_standby y);
  yi_answers : Forall (fun r => r = Ok tt) (sys_answers y)
}.

Definition sys_tick (y : system) : N := Scheduler_current_tick (scheduler (sys_primary y)).

(** ** Lemmas *)

#[local] Opaque zero_page read_bytes.

Lemma cycle_step id c ring y :
  sys_inv id c ring y -> sys_tick y + 1 < 2 ^ 64 ->
  exists c' ring' y', run_sys_op y StepCycle = Ret y' /\ sys_inv id c' ring' y' /\ sys_tick y' = sys_tick y + 1.
Proof.
  intros [Hf Ha] Ht. destruct y as [s ex partial wire st answers]. cbn [sys_primary sys_standby run_sys_op] in *.
  destruct (cycle_flight _ _ _ _ _ _ ex Hf Ht) as (ex' & s' & r & c' & ring' & Hrun & Hf' & Hclk).
  exists c', ring'. eexists. rewrite Hrun. cbn [mbind outcome_bind]. split; [reflexivity|]. split; [|exact Hclk].
  constructor; [exact Hf' | exact Ha].
Qed.

(** A pop moves the head of the ring to the running drain, or ends the drain. *)
Lemma pop_step id c ring y :
  sys_inv id c ring y ->
  exists ring' y', run_sys_op y StepPop = Ret y' /\ sys_inv id c ring' y' /\ sys_tick y' = sys_tick y /\
    sys_standby y' = sys_standby y /\ underway y' ++ ring_contents ring' = underway y ++ ring_contents ring /\
    match ring_contents ring with
    | [] => sys_partial y' = [] /\ ring_contents ring' = []
    | _ :: rest => ring_contents ring' = rest
    end.
Proof.
  intros [Hf Ha]. destruct y as [s ex partial wire st answers]. cbn [sys_primary sys_standby run_sys_op sys_tick] in *.
  rewrite (pi_ring _ _ _ _ _ _ Hf). unfold ring_contents at 2. pose proof (queue_pop_law (ring_queue ring)) as Hp.
  destruct (contents (ring_queue ring)) as [|b rest] eqn:Hc.
  - rewrite Hp. exists (MkDeltaRing (ring_queue ring) (ring_last_pushed_tick ring)). eexists. split; [reflexivity|].
    unfold underway, ring_contents in *. cbn [sys_wire sys_partial sys_standby ring_queue]. rewrite Hc.
    assert (((wire ++ partial) ++ []) ++ [] = (wire ++ partial) ++ []) as Heq by (by rewrite !app_nil_r).
    split; [|split; [reflexivity|split; [reflexivity|split; [exact Heq | by split]]]].
    constructor; [|exact Ha]. eapply flight_move; [exact Hf|].
    unfold underway, ring_contents. cbn [sys_wire sys_partial ring_queue]. rewrite Hc. exact Heq.
  - destruct Hp as (q & -> & Hq & _). exists (MkDeltaRing q (ring_last_pushed_tick ring)). eexists. split; [reflexivity|].
    unfold underway, ring_contents in *. cbn [sys_wire sys_partial sys_standby ring_queue]. rewrite Hq, Hc.
    assert ((wire ++ partial ++ [b]) ++ rest = (wire ++ partial) ++ b :: rest) as Heq by (by rewrite <- !app_assoc).
    split; [|split; [reflexivity|split; [reflexivity|split; [exact Heq | reflexivity]]]].
    constructor; [|exact Ha]. eapply flight_move; [exact Hf|].
    unfold underway, ring_contents. cbn [sys_wire sys_partial ring_queue]. rewrite Hq, Hc. exact Heq.
Qed.

(** The standby accepts the head of the wire. *)
Lemma apply_step id c ring y :
  sys_inv id c ring y ->
  exists y', run_sys_op y StepApply = Ret y' /\ sys_inv id c ring y' /\ sys_primary y' = sys_primary y /\
    sys_partial y' = sys_partial y /\ sys_wire y' = tail (sys_wire y).
Proof.
  intros [Hf Ha]. destruct y as [s ex partial wire st answers]. cbn [sys_primary sys_standby run_sys_op] in *.
  destruct wire as [|b wire]; [by eexists|].
  assert (flight_inv id c ring ([b] ++ (wire ++ partial)) s st) as Hf1 by exact Hf.
  destruct (apply_flight _ _ _ _ _ _ _ Hf1) as (st' & Hrun & Hf'). unfold apply_all in Hrun. cbn [for_each] in Hrun.
  assert (last_applied_tick st < batch_tick b \/ last_applied_tick st = 0) as Hacc.
  { left. pose proof (pi_ticks _ _ _ _ _ _ Hf1) as Ht. cbn [app fmap list_fmap] in Ht.
    apply StronglySorted_inv in Ht as [_ Ht]. by apply Forall_cons in Ht as [Ht _]. }
  rewrite apply_batch_accepts in Hrun |- * by exact Hacc.
  destruct (for_each apply_one (deltas b) (engine st)) as [e|]; [|discriminate Hrun]. cbn [mbind outcome_bind] in *.
  injection Hrun as <-. eexists. split; [reflexivity|]. split; [|by split_and!].
  constructor; [exact Hf' | cbn [sys_answers]; by apply Forall_app_2, Forall_singleton].
Qed.

Lemma run_sys_inv id ops c ring y :
  sys_inv id c ring y -> sys_tick y + #|ops| < 2 ^ 64 ->
  exists c' ring' y', for_each run_sys_op ops y = Ret y' /\ sys_inv id c' ring' y'.
Proof.
  revert c ring y. induction ops as [|o ops IH]; intros c ring y Hinv Ht; [by exists c, ring, y|]. rewrite len_cons in Ht.
  assert (exists c1 ring1 y1, run_sys_op y o = Ret y1 /\ sys_inv id c1 ring1 y1 /\ sys_tick y1 <= sys_tick y + 1)
    as (c1 & ring1 & y1 & Hrun & Hinv1 & Hle).
  { destruct o.
    - destruct (cycle_step _ _ _ _ Hinv) as (c1 & r1 & y1 & ? & ? & Ht1); [lia|]. exists c1, r1, y1. rewrite Ht1. by split_and!.
    - destruct (pop_step _ _ _ _ Hinv) as (r1 & y1 & ? & ? & Ht1 & _). exists c, r1, y1. rewrite Ht1. split_and!; [done | done | lia].
    - destruct (apply_step _ _ _ _ Hinv) as (y1 & ? & ? & Hp1 & _). exists c, ring, y1. unfold sys_tick in *. rewrite Hp1.
      split_and!; [done | done | lia]. }
  cbn [for_each]. rewrite Hrun. cbn [mbind outcome_bind]. apply (IH c1 ring1 y1 Hinv1). lia.
Qed.

(** Alone, the consumer empties the ring onto the wire. *)
Lemma pops_end id c ring y :
  sys_inv id c ring y ->
  exists ring' y', for_each run_sys_op (replicate (S (length (ring_contents ring))) StepPop) y = Ret y' /\ sys_inv id c ring' y' /\
    ring_contents ring' = [] /\ sys_partial y' = [] /\ sys_wire y' = underway y ++ ring_contents ring.
Proof.
  remember (ring_contents ring) as q eqn:Hq. revert ring y Hq.
  induction q as [|b q IH]; intros ring y Hq Hinv; cbn [length replicate for_each];
    destruct (pop_step _ _ _ _ Hinv) as (r1 & y1 & Hrun & Hinv1 & _ & _ & Hall & Hcase); rewrite <- Hq in Hcase;
    rewrite Hrun; cbn [mbind outcome_bind].
  - destruct Hcase as [Hpart Hr1]. exists r1, y1. split_and!; [done..|].
    rewrite Hr1, app_nil_r, <- Hq, app_nil_r in Hall. unfold underway in Hall at 1. by rewrite app_nil_r, <- Hall, Hpart, app_nil_r.
  - destruct (IH r1 y1 (eq_sym Hcase) Hinv1) as (r' & y' & Hrun' & Hinv' & Hr' & Hp' & Hw'). exists r', y'.
    split; [exact Hrun'|]. split_and!; [done..|]. by rewrite Hw', Hq, <- Hall, Hcase.
Qed.

(** Alone, the standby takes everything off the wire. *)
Lemma applies_end id c ring y :
  sys_inv id c ring y ->
  exists y', for_each run_sys_op (replicate (length (sys_wire y)) StepApply) y = Ret y' /\ sys_inv id c ring y' /\
    sys_wire y' = [] /\ sys_partial y' = sys_partial y.
Proof.
  remember (sys_wire y) as w eqn:Hw. revert y Hw. induction w as [|b w IH]; intros y Hw Hinv; [by exists y|].
  destruct (apply_step _ _ _ _ Hinv) as (y1 & Hrun & Hinv1 & _ & Hp1 & Hw1). rewrite <- Hw in Hw1. cbn [tail] in Hw1.
  destruct (IH y1 (eq_sym Hw1) Hinv1) as (y' & Hrun' & Hinv' & Hw' & Hp'). exists y'.
  cbn [length replicate for_each]. rewrite Hrun. cbn [mbind outcome_bind]. split_and!; [done.. | congruence].
Qed.

End threads.

(** ** Theorem *)

(** C1. The standby mirrors the primary under every interleaving of the three
    threads, for a primary with exactly one cell, spawned with a page-aligned
    initial size and a 32-bit quota after replication was enabled with a ring of
    non-zero capacity, run by an executor that marks the pages it writes
    ([Disciplined]), and a new standby. The threads are the dispatch thread's
    cycles, the single pops of the consumer's drains, and the standby's batches,
    fewer than [2 ^ 64] steps in all. Nothing panics and no batch is refused; at
    every moment the standby's copy, with the batches on the wire, in the running
    drain and in the ring applied in this order, is the primary's memory on every
    clean page; and when the dispatch thread rests, as many pops and applications
    as there are batches left make the copy itself equal to it. *)
Theorem threaded_standby_mirrors `{BuildProfile} `{Blake3} `{HashMapIterLaws} `{ArrayQueueLaws} {E : Type} `{!QuantumExecutor E} `{!Disciplined E}
    (n cap k : N) (os : HostOs) (cfg : CellConfig) (m : RecorderMode) (calls : list OsCall)
    (s1 s : Supervisor) (st : StandbyApplyLoop) (ex : E) (ops : list sys_op) :
  cap <> 0 -> Supervisor_enable_replication (Supervisor_new n) cap = Ret s1 ->
  cfg_quota_bytes cfg < 2 ^ 32 -> cfg_initial_memory_bytes cfg mod PAGE_SIZE = 0 ->
  Supervisor_spawn_cell os s1 cfg m = Ret (calls, s, Ok tt) ->
  k * PAGE_SIZE < 2 ^ 63 -> StandbyApplyLoop_new k = Ret st -> #|ops| < 2 ^ 64 ->
  exists y c ring, for_each run_sys_op ops (MkSystem s ex [] [] st []) = Ret y /\
    Supervisor_cell (sys_primary y) (cfg_id cfg) = Some c /\ replication (sys_primary y) = Some ring /\
    Forall (fun r => r = Ok tt) (sys_answers y) /\
    (forall i, DirtyPageSet_is_dirty (dirty (memory c)) i = false ->
      caught_up (sys_standby y) (sys_wire y ++ sys_partial y ++ ring_contents ring) i = mem_page (memory c) i) /\
    exists y', for_each run_sys_op (replicate (S (length (ring_contents ring))) StepPop ++
        replicate (length (sys_wire y ++ sys_partial y ++ ring_contents ring)) StepApply) y = Ret y' /\
      Supervisor_cell (sys_primary y') (cfg_id cfg) = Some c /\
      forall i, DirtyPageSet_is_dirty (dirty (memory c)) i = false -> standby_page (sys_standby y') i = mem_page (memory c) i.
Proof.
  intros Hcap He Hquota Hal Hsp Hk Hst Hlen. assert (paired n cap k os cfg m s st) as Hp by (constructor; eauto).
  destruct (paired_inv _ _ _ _ _ _ _ _ ex Hp) as (c0 & r0 & Hinv0 & Ht0).
  assert (sys_inv (cfg_id cfg) c0 r0 (MkSystem s ex [] [] st [])) as Hy0 by (constructor; [exact Hinv0 | constructor]).
  destruct (run_sys_inv _ ops _ _ _ Hy0) as (c & ring & y & Hrun & Hinv); [unfold sys_tick; cbn [sys_primary]; rewrite Ht0; lia|].
  destruct (pops_end _ _ _ _ Hinv) as (r1 & y1 & Hpops & Hinv1 & Hr1 & Hpart1 & Hw1).
  destruct (applies_end _ _ _ _ Hinv1) as (y2 & Happ & Hinv2 & Hw2 & Hpart2).
  assert (forall r (z : system (E := E)) i, sys_inv (cfg_id cfg) c r z -> DirtyPageSet_is_dirty (dirty (memory c)) i = false ->
    caught_up (sys_standby z) (underway z ++ ring_contents r) i = mem_page (memory c) i) as Hpages.
  { intros r z i Hz Hi. apply (pi_pages _ _ _ _ _ _ (yi_flight _ _ _ _ Hz)). rewrite elem_of_dirty_set. congruence. }
  assert (forall r (z : system (E := E)), sys_inv (cfg_id cfg) c r z -> Supervisor_cell (sys_primary z) (cfg_id cfg) = Some c) as Hcell.
  { intros r z Hz. unfold Supervisor_cell. rewrite (pi_cells _ _ _ _ _ _ (yi_flight _ _ _ _ Hz)). apply lookup_singleton_eq. }
  exists y, c, ring. split; [exact Hrun|]. split; [by eapply Hcell|]. split; [apply (pi_ring _ _ _ _ _ _ (yi_flight _ _ _ _ Hinv))|].
  split; [apply Hinv|]. rewrite (app_assoc (sys_wire y)). change (sys_wire y ++ sys_partial y) with (underway y). split; [by intros i Hi; apply Hpages|].
  exists y2. rewrite for_each_app, Hpops. cbn [mbind outcome_bind]. rewrite <- Hw1. split; [exact Happ|]. split; [by eapply Hcell|].
  intros i Hi. rewrite <- (Hpages r1 y2 i Hinv2 Hi). unfold underway. rewrite Hw2, Hpart2, Hpart1, Hr1. reflexivity.
Qed.

(** ** Witness *)

#[local] Existing Instance toy_blake3.
#[local] Existing Instance iter_forward.
#[local] Existing Instance iter_forward_laws.
#[local] Existing Instance dev_profile.
#[local] Existing Instance mem_queue.

(** A cycle that pushes between two pops of one drain, and a standby that is late. *)
Definition interleaved : list sys_op := [StepCycle; StepPop; StepCycle; StepCycle; StepPop; StepPop; StepApply; StepCycle].

Lemma threaded_standby_mirrors_witness :
  exists calls s st y c, Supervisor_enable_replication (Supervisor_new 1000) 4 = Ret enabled_sup /\
    Supervisor_spawn_cell permissive_os enabled_sup (guest_config 7) ModeRecord = Ret (calls, s, Ok tt) /\
    for_each run_sys_op interleaved (MkSystem s guest_script [] [] st []) = Ret y /\ Supervisor_cell (sys_primary y) 7 = Some c /\
    Forall (fun r => r = Ok tt) (sys_answers y).
Proof.
  destruct pair_example as (calls & s & st & Hs & Hst & _).
  destruct (threaded_standby_mirrors 1000 4 4 permissive_os (guest_config 7) ModeRecord calls enabled_sup s st guest_script interleaved)
    as (y & c & ring & H1 & H2 & _ & H3 & _);
    [discriminate | reflexivity | reflexivity | reflexivity | exact Hs | reflexivity | exact Hst | reflexivity |].
  exists calls, s, st, y, c. split; [reflexivity|]. split; [exact Hs|]. split; [exact H1|]. split; [exact H2 | exact H3].
Defined.
